(** * mermaid-ascii: layout, routing and rendering pipeline

    A shallow embedding of the TypeScript sources (types/common.ts,
    types/direction.ts, pathfinding.ts, drawing.ts, types/graph.ts) and the
    properties of the specification that are stated about them.

    Conventions of the embedding:
    - a JavaScript [number] that holds a coordinate, a size or an index is an
      integer of [Z];
    - a one-character JavaScript string (a canvas cell, a character of a
      name) is its UTF-16 code unit, a [glyph]; a string is a list of them;
    - a [Map] keyed by the template string [`${x},${y}`] is a [gmap] keyed by
      the pair [(x, y)]: on integers the template is injective;
    - a [Map<number, number>] is a [gmap Z Z];
    - loops whose trip count is not known beforehand take a fuel argument. *)

From Stdlib Require Import ZArith Lia List Bool String Ascii Sorted Permutation.
From stdpp Require Import base option list gmap.

Local Open Scope Z_scope.

(** ** types/common.ts *)

Definition BOX_BORDER_PADDING : Z := 1.
Definition PADDING_BETWEEN_X : Z := 5.
Definition PADDING_BETWEEN_Y : Z := 5.

Inductive GraphDirection := LR | TD.

Definition max (x y : Z) : Z := if x >? y then x else y.
Definition min (x y : Z) : Z := if x <? y then x else y.
Definition abs (x : Z) : Z := if x <? 0 then - x else x.

(** [GenericCoord]: the interface shared by [GridCoord], [DrawingCoord] and
    [Direction]; the three classes have the same two fields. *)
Record GenericCoord := Coord { X : Z; Y : Z }.

Abbreviation GridCoord := GenericCoord (only parsing).
Abbreviation DrawingCoord := GenericCoord (only parsing).
Abbreviation Direction := GenericCoord (only parsing).

#[global] Instance GenericCoord_eq_dec : EqDecision GenericCoord.
Proof. solve_decision. Defined.

Definition coord_equals (a b : GenericCoord) : bool :=
  (X a =? X b) && (Y a =? Y b).

(** [GridCoord.direction] and [DrawingCoord.direction]. *)
Definition direction (c : GenericCoord) (dir : Direction) : GenericCoord :=
  Coord (X c + X dir) (Y c + Y dir).

(** The key [`${c.x},${c.y}`] of the occupancy map and of the search maps. *)
Definition coordKey (c : GridCoord) : Z * Z := (X c, Y c).

(** ** types/direction.ts *)

Definition Up : Direction := Coord 1 0.
Definition Down : Direction := Coord 1 2.
Definition Left : Direction := Coord 0 1.
Definition Right : Direction := Coord 2 1.
Definition UpperRight : Direction := Coord 2 0.
Definition UpperLeft : Direction := Coord 0 0.
Definition LowerRight : Direction := Coord 2 2.
Definition LowerLeft : Direction := Coord 0 2.
Definition Middle : Direction := Coord 1 1.

Definition determineDirection (from to : GenericCoord) : Direction :=
  if X from =? X to then
    if Y from <? Y to then Down else Up
  else if Y from =? Y to then
    if X from <? X to then Right else Left
  else if X from <? X to then
    if Y from <? Y to then LowerRight else UpperRight
  else
    if Y from <? Y to then LowerLeft else UpperLeft.

(** [Direction.getOpposite]; [None] is the thrown "Unknown direction". *)
Definition getOpposite (d : Direction) : option Direction :=
  if coord_equals d Up then Some Down
  else if coord_equals d Down then Some Up
  else if coord_equals d Left then Some Right
  else if coord_equals d Right then Some Left
  else if coord_equals d UpperRight then Some LowerLeft
  else if coord_equals d UpperLeft then Some LowerRight
  else if coord_equals d LowerRight then Some UpperLeft
  else if coord_equals d LowerLeft then Some UpperRight
  else if coord_equals d Middle then Some Middle
  else None.

Definition selfReferenceDirection (gd : GraphDirection)
  : Direction * Direction * Direction * Direction :=
  match gd with
  | LR => (Right, Down, Down, Right)
  | TD => (Down, Right, Right, Down)
  end.

(** ** pathfinding.ts: [mergePath] *)

Definition origin : GenericCoord := Coord 0 0.

(** [path[i]] for an index the loop bounds keep inside the array. *)
Definition at_index (path : list GridCoord) (i : nat) : GridCoord :=
  nth i path origin.

(** [indexToRemove.includes(idx)]. *)
Definition includes (l : list nat) (idx : nat) : bool :=
  existsb (Nat.eqb idx) l.

(** The first loop of [mergePath]: [n] iterations are left, [idx] is the loop
    variable, [step0] and [step1] the two trailing steps. *)
Fixpoint mergePath_scan (path : list GridCoord) (n idx : nat)
    (step0 step1 : GridCoord) (indexToRemove : list nat) : list nat :=
  match n with
  | O => indexToRemove
  | S n' =>
      let step2 := at_index path (idx + 2) in
      let prevDir := determineDirection step0 step1 in
      let dir := determineDirection step1 step2 in
      let indexToRemove' :=
        if coord_equals prevDir dir then indexToRemove ++ [(idx + 1)%nat]
        else indexToRemove in
      mergePath_scan path n' (S idx) step1 step2 indexToRemove'
  end.

(** The second loop of [mergePath], from index [idx] on. *)
Fixpoint mergePath_keep (indexToRemove : list nat) (idx : nat)
    (rest : list GridCoord) : list GridCoord :=
  match rest with
  | [] => []
  | c :: rest' =>
      if includes indexToRemove idx
      then mergePath_keep indexToRemove (S idx) rest'
      else c :: mergePath_keep indexToRemove (S idx) rest'
  end.

Definition mergePath (path : list GridCoord) : list GridCoord :=
  if (length path <=? 2)%nat then path
  else
    let indexToRemove :=
      mergePath_scan path (length path - 2) 0
        (at_index path 0) (at_index path 1) [] in
    mergePath_keep indexToRemove 0 path.

(** A structural reading of [mergePath], used to reason about it: the
    elements kept after [a] when the two trailing steps are [a] and [b]. *)
Fixpoint mergePath_rec (a b : GridCoord) (rest : list GridCoord)
  : list GridCoord :=
  match rest with
  | [] => [b]
  | c :: rest' =>
      if coord_equals (determineDirection a b) (determineDirection b c)
      then mergePath_rec b c rest'
      else b :: mergePath_rec b c rest'
  end.

(** The indices the first loop records, read off the suffix of the path. *)
Fixpoint scan_rec (idx : nat) (s0 s1 : GridCoord) (rest : list GridCoord)
  : list nat :=
  match rest with
  | [] => []
  | s2 :: rest' =>
      (if coord_equals (determineDirection s0 s1) (determineDirection s1 s2)
       then [(idx + 1)%nat] else [])
      ++ scan_rec (S idx) s1 s2 rest'
  end.

(** No interior point of the path has equal incoming and outgoing
    directions. *)
Fixpoint reduced (a b : GridCoord) (rest : list GridCoord) : Prop :=
  match rest with
  | [] => True
  | c :: rest' =>
      coord_equals (determineDirection a b) (determineDirection b c) = false
      /\ reduced b c rest'
  end.

(** ** Characters

    A canvas cell holds a one-character string, modelled by its UTF-16 code
    unit. The string literals of the source are written as they are and
    decoded (UTF-8 to UTF-16 code units) by [utf16]. *)

Definition glyph := N.

Definition utf16_pair (cp : N) : list glyph :=
  if (cp <? 0x10000)%N then [cp]
  else [(0xD800 + (cp - 0x10000) / 0x400)%N; (0xDC00 + (cp - 0x10000) mod 0x400)%N].

Fixpoint utf16 (s : string) : list glyph :=
  match s with
  | EmptyString => []
  | String a0 s1 =>
      let b0 := N_of_ascii a0 in
      if (b0 <? 0x80)%N then b0 :: utf16 s1
      else match s1 with
      | EmptyString => [b0]
      | String a1 s2 =>
          let b1 := (N_of_ascii a1 - 0x80)%N in
          if (b0 <? 0xE0)%N then ((b0 - 0xC0) * 0x40 + b1)%N :: utf16 s2
          else match s2 with
          | EmptyString => [b0]
          | String a2 s3 =>
              let b2 := (N_of_ascii a2 - 0x80)%N in
              if (b0 <? 0xF0)%N
              then ((b0 - 0xE0) * 0x1000 + b1 * 0x40 + b2)%N :: utf16 s3
              else match s3 with
              | EmptyString => [b0]
              | String a3 s4 =>
                  let b3 := (N_of_ascii a3 - 0x80)%N in
                  utf16_pair ((b0 - 0xF0) * 0x40000 + b1 * 0x1000 + b2 * 0x40 + b3)%N
                  ++ utf16 s4
              end
          end
      end
  end.

(** The character written as the one-character literal [s]. *)
Definition ch (s : string) : glyph := hd 0%N (utf16 s).

Definition blank : glyph := ch " ".

(** ** drawing.ts: junction characters *)

Definition junctionChars : list glyph :=
  [ ch "─"; ch "│"; ch "┌"; ch "┐"; ch "└"; ch "┘"; ch "├"; ch "┤";
    ch "┬"; ch "┴"; ch "┼"; ch "╴"; ch "╵"; ch "╶"; ch "╷" ].

(** [junctionChars.includes(c)]. *)
Definition isJunctionChar (c : glyph) : bool :=
  existsb (N.eqb c) junctionChars.

(** A record literal [{k1: v1, ...}] read at key [k]: [None] is
    [undefined]. No key is written twice in the tables below. *)
Fixpoint record_get {V : Type} (r : list (glyph * V)) (k : glyph) : option V :=
  match r with
  | [] => None
  | (k', v) :: r' => if (k' =? k)%N then Some v else record_get r' k
  end.

Definition row (l : list (string * string)) : list (glyph * glyph) :=
  map (fun kv => (ch (fst kv), ch (snd kv))) l.

Local Open Scope string_scope.

Definition junctionMap : list (glyph * list (glyph * glyph)) :=
  [ (ch "─", row [("│","┼"); ("┌","┬"); ("┐","┬"); ("└","┴"); ("┘","┴"); ("├","┼"); ("┤","┼"); ("┬","┬"); ("┴","┴")]);
    (ch "│", row [("─","┼"); ("┌","├"); ("┐","┤"); ("└","├"); ("┘","┤"); ("├","├"); ("┤","┤"); ("┬","┼"); ("┴","┼")]);
    (ch "┌", row [("─","┬"); ("│","├"); ("┐","┬"); ("└","├"); ("┘","┼"); ("├","├"); ("┤","┼"); ("┬","┬"); ("┴","┼")]);
    (ch "┐", row [("─","┬"); ("│","┤"); ("┌","┬"); ("└","┼"); ("┘","┤"); ("├","┼"); ("┤","┤"); ("┬","┬"); ("┴","┼")]);
    (ch "└", row [("─","┴"); ("│","├"); ("┌","├"); ("┐","┼"); ("┘","┴"); ("├","├"); ("┤","┼"); ("┬","┼"); ("┴","┴")]);
    (ch "┘", row [("─","┴"); ("│","┤"); ("┌","┼"); ("┐","┤"); ("└","┴"); ("├","┼"); ("┤","┤"); ("┬","┼"); ("┴","┴")]);
    (ch "├", row [("─","┼"); ("│","├"); ("┌","├"); ("┐","┼"); ("└","├"); ("┘","┼"); ("┤","┼"); ("┬","┼"); ("┴","┼")]);
    (ch "┤", row [("─","┼"); ("│","┤"); ("┌","┼"); ("┐","┤"); ("└","┼"); ("┘","┤"); ("├","┼"); ("┬","┼"); ("┴","┼")]);
    (ch "┬", row [("─","┬"); ("│","┼"); ("┌","┬"); ("┐","┬"); ("└","┼"); ("┘","┼"); ("├","┼"); ("┤","┼"); ("┴","┼")]);
    (ch "┴", row [("─","┴"); ("│","┼"); ("┌","┼"); ("┐","┼"); ("└","┴"); ("┘","┴"); ("├","┼"); ("┤","┼"); ("┬","┼")]) ].

Local Close Scope string_scope.

(** [junctionMap[c1] && junctionMap[c1][c2]]: the entry of the table, if
    there is one (rows and entries are truthy). *)
Definition junctionEntry (c1 c2 : glyph) : option glyph :=
  match record_get junctionMap c1 with
  | Some r => record_get r c2
  | None => None
  end.

Definition mergeJunctions (c1 c2 : glyph) : glyph :=
  match junctionEntry c1 c2 with
  | Some merged => merged
  | None => c1
  end.

(** ** drawing.ts: the canvas of a [DrawingEngine]

    [canvas[x][y]]: a list of columns, each a list of cells. *)

Definition Canvas := list (list glyph).

Definition makeDrawing (x y : Z) : Canvas :=
  repeat (repeat blank (Z.to_nat (y + 1))) (Z.to_nat (x + 1)).

Definition getDrawingSize (canvas : Canvas) : Z * Z :=
  match canvas with
  | [] => (0, 0)
  | col0 :: _ => (Z.of_nat (length canvas) - 1, Z.of_nat (length col0) - 1)
  end.

(** [canvas[x][y]] read; [None] is [undefined] (or a read on [undefined]). *)
Definition cellAt (canvas : Canvas) (x y : Z) : option glyph :=
  if (x <? 0) || (y <? 0) then None
  else match nth_error canvas (Z.to_nat x) with
       | Some col => nth_error col (Z.to_nat y)
       | None => None
       end.

(** The inner copy loop of [increaseSize]: [dst[j] = src[j]] for every
    [j < src.length]; where [src] is the longer one the assignments extend
    [dst]. *)
Fixpoint copyColumn (src dst : list glyph) : list glyph :=
  match src, dst with
  | [], _ => dst
  | c :: src', [] => c :: copyColumn src' []
  | c :: src', _ :: dst' => c :: copyColumn src' dst'
  end.

(** The outer copy loop of [increaseSize]; the new drawing has at least as
    many columns as the old one, so [newDrawing[i]] exists for every [i]. *)
Fixpoint copyCanvas (canvas newDrawing : Canvas) : Canvas :=
  match canvas, newDrawing with
  | [], _ => newDrawing
  | _ :: _, [] => []
  | col :: canvas', ncol :: newDrawing' =>
      copyColumn col ncol :: copyCanvas canvas' newDrawing'
  end.

Definition increaseSize (canvas : Canvas) (x y : Z) : Canvas :=
  let '(currSizeX, currSizeY) := getDrawingSize canvas in
  let newDrawing := makeDrawing (max x currSizeX) (max y currSizeY) in
  copyCanvas canvas newDrawing.

(** The five members of [junctionChars] that the fusion table mentions
    nowhere: the cross and the four half-line ends. *)
Definition unfusedJunctionChars : list glyph :=
  [ ch "┼"; ch "╴"; ch "╵"; ch "╶"; ch "╷" ].

(** [g] is no key of any row of the table. *)
Definition absentFromRows (g : glyph) : bool :=
  forallb (fun kr => match record_get (snd kr) g with
                     | Some _ => false
                     | None => true
                     end) junctionMap.

(** ** Outcomes of effectful code

    [Returned a]: the call returns [a]. [Thrown msg]: it throws.
    [OutOfFuel]: the fuel of the model ran out, the JavaScript loop is still
    running. [OutOfModel]: the JavaScript run goes on with a value the
    embedding has no counterpart for ([undefined] or [NaN] where a number is
    expected, a write outside the dense cell buffer). *)
Inductive Outcome (A : Type) : Type :=
  | Returned (a : A)
  | Thrown (msg : string)
  | OutOfFuel
  | OutOfModel.

Arguments Returned {A} a.
Arguments Thrown {A} msg.
Arguments OutOfFuel {A}.
Arguments OutOfModel {A}.

#[global] Instance Outcome_ret : MRet Outcome := @Returned.

#[global] Instance Outcome_bind : MBind Outcome := fun A B k m =>
  match m with
  | Returned a => k a
  | Thrown msg => Thrown msg
  | OutOfFuel => OutOfFuel
  | OutOfModel => OutOfModel
  end.

(** [for (const a of l) { s = body(s, a) }]. *)
Fixpoint forEach {S A : Type} (body : S -> A -> Outcome S) (l : list A) (s : S)
  : Outcome S :=
  match l with
  | [] => Returned s
  | a :: l' => s' ← body s a; forEach body l' s'
  end.

(** ** pathfinding.ts: [PriorityQueue], [heuristic], [getPath] *)

Record PriorityQueueItem := Item { coord : GridCoord; priority : Z }.

(** [items.sort((a, b) => a.priority - b.priority)]: the sort of an array
    is stable; insertion from the right keeps equal priorities in order. *)
Fixpoint sortInsert (it : PriorityQueueItem) (sorted : list PriorityQueueItem)
  : list PriorityQueueItem :=
  match sorted with
  | [] => [it]
  | h :: t =>
      if priority it <=? priority h then it :: h :: t
      else h :: sortInsert it t
  end.

Definition sortByPriority (items : list PriorityQueueItem)
  : list PriorityQueueItem :=
  fold_right sortInsert [] items.

Definition pq_push (items : list PriorityQueueItem) (item : PriorityQueueItem)
  : list PriorityQueueItem :=
  sortByPriority (items ++ [item]).

Definition heuristic (a b : GridCoord) : Z :=
  let absX := Z.abs (X a - X b) in
  let absY := Z.abs (Y a - Y b) in
  if (absX =? 0) || (absY =? 0) then absX + absY
  else absX + absY + 1.

Record SearchState := Search {
  pq : list PriorityQueueItem;
  costSoFar : gmap (Z * Z) Z;
  cameFrom : gmap (Z * Z) (option GridCoord)
}.

Definition directions : list GridCoord :=
  [ Coord 1 0; Coord (-1) 0; Coord 0 1; Coord 0 (-1) ].

(** [nextKey === toKey] and the like. *)
Definition key_eqb (a b : GridCoord) : bool :=
  bool_decide (coordKey a = coordKey b).

(** [new GridCoord(current.x + dir.x, current.y + dir.y)]. *)
Definition step_of (current dir : GridCoord) : GridCoord :=
  Coord (X current + X dir) (Y current + Y dir).

(** The body of [for (const dir of directions)]. *)
Definition visit (isFreeInGrid : GridCoord -> bool) (to current : GridCoord)
    (st : SearchState) (dir : GridCoord) : Outcome SearchState :=
  let next := step_of current dir in
  if negb (isFreeInGrid next) && negb (key_eqb next to) then Returned st
  else
    match costSoFar st !! coordKey current with
    | None => OutOfModel
    | Some currentCost =>
        let newCost := currentCost + 1 in
        let update :=
          {| costSoFar := <[coordKey next := newCost]> (costSoFar st);
             pq := pq_push (pq st) (Item next (newCost + heuristic next to));
             cameFrom := <[coordKey next := Some current]> (cameFrom st) |} in
        match costSoFar st !! coordKey next with
        | None => Returned update
        | Some existingCost =>
            if newCost <? existingCost then Returned update else Returned st
        end
    end.

(** The path reconstruction loop: [c] is the loop variable, [path] the
    array built by [unshift]. *)
Fixpoint reconstruct (fuel : nat) (cameFrom : gmap (Z * Z) (option GridCoord))
    (c : option GridCoord) (path : list GridCoord) : Outcome (list GridCoord) :=
  match c with
  | None => Returned path
  | Some cell =>
      match fuel with
      | O => OutOfFuel
      | S fuel' =>
          reconstruct fuel' cameFrom
            (mjoin (cameFrom !! coordKey cell)) (cell :: path)
      end
  end.

(** One iteration of [while (pq.length() > 0)]: either the call ends, or the
    loop goes on in a new state. *)
Inductive Step :=
  | Continue (st : SearchState)
  | Done (result : Outcome (list GridCoord)).

Definition searchStep (fuel : nat) (isFreeInGrid : GridCoord -> bool)
    (to : GridCoord) (st : SearchState) : Step :=
  match pq st with
  | [] => Done (Thrown "No path found")
  | currentItem :: items =>
      let current := coord currentItem in
      if key_eqb current to then
        Done (reconstruct fuel (cameFrom st) (Some current) [])
      else
        match forEach (visit isFreeInGrid to current) directions
                {| pq := items; costSoFar := costSoFar st;
                   cameFrom := cameFrom st |} with
        | Returned st' => Continue st'
        | Thrown msg => Done (Thrown msg)
        | OutOfFuel => Done OutOfFuel
        | OutOfModel => Done OutOfModel
        end
  end.

Fixpoint searchLoop (fuel0 fuel : nat) (isFreeInGrid : GridCoord -> bool)
    (to : GridCoord) (st : SearchState) : Outcome (list GridCoord) :=
  match fuel with
  | O => OutOfFuel
  | S fuel' =>
      match searchStep fuel0 isFreeInGrid to st with
      | Done result => result
      | Continue st' => searchLoop fuel0 fuel' isFreeInGrid to st'
      end
  end.

Definition searchInit (from : GridCoord) : SearchState :=
  {| pq := pq_push [] (Item from 0);
     costSoFar := {[ coordKey from := 0 ]};
     cameFrom := {[ coordKey from := None ]} |}.

Definition getPath (fuel : nat) (from to : GridCoord)
    (isFreeInGrid : GridCoord -> bool) : Outcome (list GridCoord) :=
  searchLoop fuel fuel isFreeInGrid to (searchInit from).

(** *** Notions used to state the properties of the search *)

Definition manhattan (a b : GridCoord) : Z :=
  Z.abs (X a - X b) + Z.abs (Y a - Y b).

(** Grid-adjacent: the cells differ by exactly one in exactly one
    coordinate. *)
Definition adjacent (a b : GridCoord) : Prop :=
  (X a = X b /\ Z.abs (Y a - Y b) = 1) \/ (Y a = Y b /\ Z.abs (X a - X b) = 1).

Fixpoint connected (p : list GridCoord) : Prop :=
  match p with
  | a :: (b :: _) as rest => adjacent a b /\ connected rest
  | _ => True
  end.

(** The number of steps of a path: one less than its number of cells. *)
Definition steps (p : list GridCoord) : Z := Z.of_nat (length p) - 1.

(** The states the loop of [getPath] goes through. *)
Inductive searchReaches (isFreeInGrid : GridCoord -> bool) (to : GridCoord)
    (fuel : nat) : SearchState -> SearchState -> Prop :=
  | reaches_here st : searchReaches isFreeInGrid to fuel st st
  | reaches_step st st' st'' :
      searchReaches isFreeInGrid to fuel st st' ->
      searchStep fuel isFreeInGrid to st' = Continue st'' ->
      searchReaches isFreeInGrid to fuel st st''.

(** What the search maintains about its three data structures. *)
Record SearchInv (isFreeInGrid : GridCoord -> bool) (from to : GridCoord)
    (st : SearchState) : Prop := {
  inv_from_cost : costSoFar st !! coordKey from = Some 0;
  inv_from_came : cameFrom st !! coordKey from = Some None;
  inv_nonneg : forall c n, costSoFar st !! coordKey c = Some n -> 0 <= n;
  inv_parent : forall c n,
    costSoFar st !! coordKey c = Some n -> c <> from ->
    exists parent m,
      cameFrom st !! coordKey c = Some (Some parent)
      /\ costSoFar st !! coordKey parent = Some m
      /\ m + 1 <= n
      /\ adjacent parent c
      /\ parent <> to
      /\ (isFreeInGrid c = true \/ c = to);
  inv_queue : forall it,
    In it (pq st) -> is_Some (costSoFar st !! coordKey (coord it))
}.

(** A chain of predecessor links from [from] to [c]. *)
Definition chain (isFreeInGrid : GridCoord -> bool) (from to c : GridCoord)
    (p : list GridCoord) : Prop :=
  head p = Some from
  /\ last p = Some c
  /\ connected p
  /\ Forall (fun x => isFreeInGrid x = true \/ x = to) (tail p)
  /\ Forall (fun x => x <> to) (removelast p).

(** *** A termination measure for the search

    [R] lists the cells that count and [low] the queue items that count: the
    number of cells of [R] without a cost, then twice the costs of the cells
    of [R] plus the number of counted queue items. *)

Fixpoint sumOver (f : GridCoord -> nat) (l : list GridCoord) : nat :=
  match l with
  | [] => O
  | c :: l' => (f c + sumOver f l')%nat
  end.

Definition isUndefined (st : SearchState) (c : GridCoord) : nat :=
  match costSoFar st !! coordKey c with
  | None => 1%nat
  | Some _ => O
  end.

Definition costOf (st : SearchState) (c : GridCoord) : nat :=
  match costSoFar st !! coordKey c with
  | None => O
  | Some n => Z.to_nat n
  end.

Definition undefinedCells (R : list GridCoord) (st : SearchState) : nat :=
  sumOver (isUndefined st) R.

Definition pendingWork (low : PriorityQueueItem -> bool) (R : list GridCoord)
    (st : SearchState) : nat :=
  (2 * sumOver (costOf st) R + length (List.filter low (pq st)))%nat.

(** *** The search on a grid without obstacles *)

(** One step from [c] towards [to]: first along x, then along y. *)
Definition toward (to c : GridCoord) : GridCoord :=
  if X c <? X to then Coord (X c + 1) (Y c)
  else if X to <? X c then Coord (X c - 1) (Y c)
  else if Y c <? Y to then Coord (X c) (Y c + 1)
  else Coord (X c) (Y c - 1).

Definition sortedQueue (q : list PriorityQueueItem) : Prop :=
  StronglySorted (fun a b => priority a <= priority b) q.

(** [c], whose cost is [n], still waits in the queue. *)
Definition pending (to : GridCoord) (st : SearchState) (c : GridCoord) (n : Z)
  : Prop :=
  exists it, In it (pq st) /\ coord it = c /\ priority it <= n + heuristic c to.

(** The neighbour of [c] in direction [d] has a cost of at most [n + 1]. *)
Definition relaxed (st : SearchState) (c : GridCoord) (n : Z) (d : GridCoord)
  : Prop :=
  exists n', costSoFar st !! coordKey (step_of c d) = Some n'
             /\ n' <= n + 1.

(** What holds of the search on a grid without obstacles, between the
    visits of the neighbours of [current] ([visited] are done): costs are at
    least the Manhattan distance from the start; every queued item carries
    a priority of at least cost plus heuristic; the queue is sorted; a cell
    whose cost is its distance from the start waits in the queue or has
    passed that cost on to its neighbours; the goal, once it has a cost,
    waits in the queue. *)
Record FreeGridInv (isFreeInGrid : GridCoord -> bool) (from to : GridCoord)
    (current : option GridCoord) (visited : list GridCoord)
    (st : SearchState) : Prop := {
  fg_inv : SearchInv isFreeInGrid from to st;
  fg_lower : forall c n,
    costSoFar st !! coordKey c = Some n -> manhattan from c <= n;
  fg_items : forall it, In it (pq st) ->
    it = Item from 0
    \/ exists n, costSoFar st !! coordKey (coord it) = Some n
                 /\ n + heuristic (coord it) to <= priority it;
  fg_sorted : sortedQueue (pq st);
  fg_frontier : forall c n,
    costSoFar st !! coordKey c = Some n -> n = manhattan from c ->
    c <> to -> current <> Some c ->
    pending to st c n \/ (forall d, In d directions -> relaxed st c n d);
  fg_visited : forall c n d,
    current = Some c -> costSoFar st !! coordKey c = Some n ->
    In d visited -> relaxed st c n d;
  fg_current : forall c, current = Some c ->
    c <> to /\ is_Some (costSoFar st !! coordKey c);
  fg_goal : forall n,
    costSoFar st !! coordKey to = Some n ->
    exists it, In it (pq st) /\ coord it = to /\ priority it <= n
}.

(** The cells within [r] of [to] in both coordinates. *)
Definition square (to : GridCoord) (r : Z) : list GridCoord :=
  flat_map (fun dx =>
    map (fun dy => Coord (X to - r + Z.of_nat dx) (Y to - r + Z.of_nat dy))
        (seq 0 (Z.to_nat (2 * r + 1))))
    (seq 0 (Z.to_nat (2 * r + 1))).

(** The queue items the termination argument counts on a grid without
    obstacles: those whose priority is at most the distance plus one. *)
Definition lowPriority (bound : Z) (it : PriorityQueueItem) : bool :=
  priority it <=? bound.

(** ** types/graph.ts: nodes, edges, the graph

    A node object is held by reference: by the [nodes] array and by the
    edges that start or end at it. The array is the store, a reference is a
    position in it. Style classes take no part in layout and are left out. *)

Module TextEdge.
Record t := Make {
  parent : list glyph;   (* parent.name *)
  child : list glyph;    (* child.name *)
  label : list glyph
}.
End TextEdge.

Module Node.
Record t := Make {
  name : list glyph;
  index : nat;
  gridCoord : option GridCoord;
  drawingCoord : option DrawingCoord;
  drawing : option Canvas;
  drawn : bool
}.
End Node.

Module Edge.
Record t := Make {
  from : nat;            (* reference to the node object *)
  to : nat;              (* reference to the node object *)
  text : list glyph;
  path : list GridCoord;
  labelLine : list GridCoord;
  startDir : option Direction;
  endDir : option Direction
}.
End Edge.

(** A write to one of the two size maps, kept as a record of the run:
    the axis, the index, the value replaced (if any) and the value
    written. *)
Inductive Axis := Column | Row.

Record SizeWrite := Wrote {
  axis : Axis;
  at_key : Z;
  replaced : option Z;
  written : Z
}.

Module Graph.
Record t := Make {
  nodes : list Node.t;
  edges : list Edge.t;
  drawing : Canvas;
  grid : gmap (Z * Z) nat;
  columnWidth : gmap Z Z;
  rowHeight : gmap Z Z;
  sizeWrites : list SizeWrite   (* no field of the source: the record of the run *)
}.
End Graph.

(** [new NodeImpl(name, index)]. *)
Definition newNode (name : list glyph) (index : nat) : Node.t :=
  Node.Make name index None None None false.

(** [new EdgeImpl(from, to, text)]. *)
Definition newEdge (from to : nat) (text : list glyph) : Edge.t :=
  Edge.Make from to text [] [] None None.

(** [new GraphImpl()]: the constructor makes [new DrawingEngine(0, 0)]. *)
Definition newGraph : Graph.t :=
  Graph.Make [] [] (makeDrawing 0 0) ∅ ∅ ∅ [].

Definition setNodes (g : Graph.t) (ns : list Node.t) : Graph.t :=
  Graph.Make ns (Graph.edges g) (Graph.drawing g) (Graph.grid g)
    (Graph.columnWidth g) (Graph.rowHeight g) (Graph.sizeWrites g).

Definition setEdges (g : Graph.t) (es : list Edge.t) : Graph.t :=
  Graph.Make (Graph.nodes g) es (Graph.drawing g) (Graph.grid g)
    (Graph.columnWidth g) (Graph.rowHeight g) (Graph.sizeWrites g).

Definition setDrawing_ (g : Graph.t) (d : Canvas) : Graph.t :=
  Graph.Make (Graph.nodes g) (Graph.edges g) d (Graph.grid g)
    (Graph.columnWidth g) (Graph.rowHeight g) (Graph.sizeWrites g).

Definition setGrid (g : Graph.t) (m : gmap (Z * Z) nat) : Graph.t :=
  Graph.Make (Graph.nodes g) (Graph.edges g) (Graph.drawing g) m
    (Graph.columnWidth g) (Graph.rowHeight g) (Graph.sizeWrites g).

(** [this.columnWidth.set(k, v)]. *)
Definition columnWidth_set (g : Graph.t) (k v : Z) : Graph.t :=
  Graph.Make (Graph.nodes g) (Graph.edges g) (Graph.drawing g) (Graph.grid g)
    (<[k := v]> (Graph.columnWidth g)) (Graph.rowHeight g)
    (Graph.sizeWrites g ++ [Wrote Column k (Graph.columnWidth g !! k) v]).

(** [this.rowHeight.set(k, v)]. *)
Definition rowHeight_set (g : Graph.t) (k v : Z) : Graph.t :=
  Graph.Make (Graph.nodes g) (Graph.edges g) (Graph.drawing g) (Graph.grid g)
    (Graph.columnWidth g) (<[k := v]> (Graph.rowHeight g))
    (Graph.sizeWrites g ++ [Wrote Row k (Graph.rowHeight g !! k) v]).

(** [m.get(k) || 0]. *)
Definition getOr0 (m : gmap Z Z) (k : Z) : Z := default 0 (m !! k).

(** A field update on the node object at reference [r]. *)
Definition updateNode (g : Graph.t) (r : nat) (f : Node.t -> Node.t) : Graph.t :=
  setNodes g (alter f r (Graph.nodes g)).

Definition withGridCoord (c : GridCoord) (n : Node.t) : Node.t :=
  Node.Make (Node.name n) (Node.index n) (Some c) (Node.drawingCoord n)
    (Node.drawing n) (Node.drawn n).

Definition withDrawingCoord (c : DrawingCoord) (n : Node.t) : Node.t :=
  Node.Make (Node.name n) (Node.index n) (Node.gridCoord n) (Some c)
    (Node.drawing n) (Node.drawn n).

Definition withDrawing (d : Canvas) (n : Node.t) : Node.t :=
  Node.Make (Node.name n) (Node.index n) (Node.gridCoord n)
    (Node.drawingCoord n) (Some d) (Node.drawn n).

Definition withDrawn (n : Node.t) : Node.t :=
  Node.Make (Node.name n) (Node.index n) (Node.gridCoord n)
    (Node.drawingCoord n) (Node.drawing n) true.

(** [getNode]: the first node of that name, as a reference. *)
Fixpoint getNode_from (r : nat) (ns : list Node.t) (nodeName : list glyph)
  : option nat :=
  match ns with
  | [] => None
  | n :: ns' =>
      if bool_decide (Node.name n = nodeName) then Some r
      else getNode_from (S r) ns' nodeName
  end.

Definition getNode (g : Graph.t) (nodeName : list glyph) : option nat :=
  getNode_from 0 (Graph.nodes g) nodeName.

(** [appendNode] of a new node; the reference to it is returned. *)
Definition appendNode (g : Graph.t) (n : Node.t) : Graph.t * nat :=
  (setNodes g (Graph.nodes g ++ [n]), length (Graph.nodes g)).

(** [makeGraph]: the state carried by the two loops is the graph and the
    running [index]. *)
Definition makeGraph_child (parentNode : nat) (st : Graph.t * nat)
    (textEdge : TextEdge.t) : Graph.t * nat :=
  let '(g, index) := st in
  let '(g1, index1, childNode) :=
    match getNode g (TextEdge.child textEdge) with
    | Some r => (g, index, r)
    | None =>
        let '(g', r) := appendNode g (newNode (TextEdge.child textEdge) index) in
        (g', S index, r)
    end in
  (setEdges g1 (Graph.edges g1 ++ [newEdge parentNode childNode (TextEdge.label textEdge)]),
   index1).

Definition makeGraph_entry (st : Graph.t * nat)
    (entry : list glyph * list TextEdge.t) : Graph.t * nat :=
  let '(g, index) := st in
  let '(nodeName, children) := entry in
  let '(g1, index1, parentNode) :=
    match getNode g nodeName with
    | Some r => (g, index, r)
    | None =>
        let '(g', r) := appendNode g (newNode nodeName index) in
        (g', S index, r)
    end in
  fold_left (makeGraph_child parentNode) children (g1, index1).

(** [data]: the entries of the [Map], in insertion order. *)
Definition makeGraph (data : list (list glyph * list TextEdge.t)) : Graph.t :=
  fst (fold_left makeGraph_entry data (newGraph, O)).

(** [edge.from.name === n.name], the endpoint read through its reference. *)
Definition startsAt (g : Graph.t) (n : Node.t) (e : Edge.t) : bool :=
  match Graph.nodes g !! Edge.from e with
  | Some m => bool_decide (Node.name m = Node.name n)
  | None => false
  end.

Definition getEdgesFromNode (g : Graph.t) (n : Node.t) : list Edge.t :=
  List.filter (startsAt g n) (Graph.edges g).

Definition getChildren (g : Graph.t) (n : Node.t) : list nat :=
  map Edge.to (List.filter (startsAt g n) (getEdgesFromNode g n)).

Definition isFreeInGrid (g : Graph.t) (c : GridCoord) : bool :=
  if (X c <? 0) || (Y c <? 0) then false
  else bool_decide (Graph.grid g !! coordKey c = None).

(** The nine cells of the block anchored at [c], in the order of the two
    nested loops of [reserveSpotInGrid]. *)
Definition blockCells (c : GridCoord) : list (Z * Z) :=
  flat_map (fun dx => map (fun dy => (X c + dx, Y c + dy)) [0; 1; 2]) [0; 1; 2].

(** [reserveSpotInGrid]: the recursion moves on by 4 while the requested
    cell is taken; [probes] bounds the number of cells tried. *)
Fixpoint reserveSpotInGrid_probe (probes : nat) (gd : GraphDirection)
    (g : Graph.t) (n : nat) (requestedCoord : GridCoord)
  : Outcome (Graph.t * GridCoord) :=
  match Graph.grid g !! coordKey requestedCoord with
  | Some _ =>
      match probes with
      | O => OutOfFuel
      | S probes' =>
          reserveSpotInGrid_probe probes' gd g n
            (match gd with
             | LR => Coord (X requestedCoord) (Y requestedCoord + 4)
             | TD => Coord (X requestedCoord + 4) (Y requestedCoord)
             end)
      end
  | None =>
      let g1 := setGrid g (fold_left (fun m k => <[k := n]> m)
                             (blockCells requestedCoord) (Graph.grid g)) in
      match Graph.nodes g !! n with
      | None => Thrown "TypeError"
      | Some _ => Returned (updateNode g1 n (withGridCoord requestedCoord),
                            requestedCoord)
      end
  end.

(** Every cell tried and found taken is a key of the map, and no cell is
    tried twice: one more probe than the map has keys is enough. *)
Definition reserveSpotInGrid (gd : GraphDirection) (g : Graph.t) (n : nat)
    (requestedCoord : GridCoord) : Outcome (Graph.t * GridCoord) :=
  reserveSpotInGrid_probe (size (Graph.grid g)) gd g n requestedCoord.

(** *** [createMapping], phase 1: placement *)

(** [new Array(100).fill(0)]. *)
Definition initialLevels : list Z := repeat 0 100%nat.

(** [highestPositionPerLevel[k]]; [None] is [undefined]. *)
Definition levelAt (levels : list Z) (k : Z) : option Z :=
  if k <? 0 then None else levels !! Z.to_nat k.

(** The first loop of [createMapping]: the nodes no earlier node (or an
    earlier node's child) has named. The state is [nodesFound] and
    [rootNodes]. *)
Definition findRoots_step (g : Graph.t) (st : list (list glyph) * list nat)
    (rn : nat * Node.t) : list (list glyph) * list nat :=
  let '(nodesFound, rootNodes) := st in
  let '(r, n) := rn in
  let rootNodes' :=
    if bool_decide (Node.name n ∈ nodesFound) then rootNodes
    else rootNodes ++ [r] in
  let childNames :=
    omap (fun c => Node.name <$> Graph.nodes g !! c) (getChildren g n) in
  (nodesFound ++ [Node.name n] ++ childNames, rootNodes').

Definition findRoots (g : Graph.t) : list nat :=
  snd (fold_left (findRoots_step g)
         (combine (seq 0 (length (Graph.nodes g))) (Graph.nodes g)) ([], [])).

(** [this.reserveSpotInGrid(this.nodes[n.index], c)] followed by
    [this.nodes[n.index].gridCoord = mappingCoord], for the node object at
    reference [r]. *)
Definition placeNode (gd : GraphDirection) (g : Graph.t) (r : nat)
    (c : GridCoord) : Outcome Graph.t :=
  match Graph.nodes g !! r with
  | None => Thrown "TypeError"
  | Some n =>
      match Graph.nodes g !! Node.index n with
      | None => Thrown "TypeError"
      | Some _ =>
          '(g1, mappingCoord) ← reserveSpotInGrid gd g (Node.index n) c;
          Returned (updateNode g1 (Node.index n) (withGridCoord mappingCoord))
      end
  end.

(** The body of [for (const n of rootNodes)]. *)
Definition placeRoot (gd : GraphDirection) (st : Graph.t * list Z) (r : nat)
  : Outcome (Graph.t * list Z) :=
  let '(g, levels) := st in
  match levelAt levels 0 with
  | None => OutOfModel
  | Some highest =>
      g1 ← placeNode gd g r
              (match gd with
               | LR => Coord 0 highest
               | TD => Coord highest 0
               end);
      Returned (g1, <[O := highest + 4]> levels)
  end.

(** The body of [for (const child of this.getChildren(n))]. *)
Definition placeChild (gd : GraphDirection) (childLevel : Z)
    (highestPosition : option Z) (st : Graph.t * list Z) (child : nat)
  : Outcome (Graph.t * list Z) :=
  let '(g, levels) := st in
  match Graph.nodes g !! child with
  | None => Thrown "TypeError"
  | Some childNode =>
      match Node.gridCoord childNode with
      | Some _ => Returned st
      | None =>
          match highestPosition with
          | None => OutOfModel
          | Some highest =>
              g1 ← placeNode gd g child
                      (match gd with
                       | LR => Coord childLevel highest
                       | TD => Coord highest childLevel
                       end);
              Returned (g1, <[Z.to_nat childLevel := highest + 4]> levels)
          end
      end
  end.

(** The body of the second [for (const n of this.nodes)], at position [i]. *)
Definition placeChildren (gd : GraphDirection) (st : Graph.t * list Z) (i : nat)
  : Outcome (Graph.t * list Z) :=
  let '(g, levels) := st in
  match Graph.nodes g !! i with
  | None => Returned st
  | Some n =>
      match Node.gridCoord n with
      | None => Returned st
      | Some c =>
          let childLevel :=
            match gd with
            | LR => X c + 4
            | TD => Y c + 4
            end in
          let highestPosition := levelAt levels childLevel in
          forEach (placeChild gd childLevel highestPosition)
            (getChildren g n) st
      end
  end.

Definition placeNodes (gd : GraphDirection) (g : Graph.t) : Outcome Graph.t :=
  st1 ← forEach (placeRoot gd) (findRoots g) (g, initialLevels);
  st2 ← forEach (placeChildren gd) (seq 0 (length (Graph.nodes g))) st1;
  Returned (fst st2).

(** ** drawing.ts: writing on a canvas *)

(** [canvas[x][y] = g]. Without a column [x] the assignment throws; a row
    [y] outside the column would add a property or leave holes, which the
    dense buffer of the model cannot hold. *)
Definition writeCell (canvas : Canvas) (x y : Z) (g : glyph) : Outcome Canvas :=
  if (x <? 0) then Thrown "TypeError"
  else match canvas !! Z.to_nat x with
       | None => Thrown "TypeError"
       | Some col =>
           if (y <? 0) || (Z.of_nat (length col) <=? y) then OutOfModel
           else Returned (<[Z.to_nat x := <[Z.to_nat y := g]> col]> canvas)
       end.

(** [for (let i = a; i <= b; i++)] and [for (let i = a; i >= b; i--)]. *)
Definition countUp (a b : Z) : list Z :=
  map (fun i => a + Z.of_nat i) (seq 0 (Z.to_nat (b - a + 1))).

Definition countDown (a b : Z) : list Z :=
  map (fun i => a - Z.of_nat i) (seq 0 (Z.to_nat (a - b + 1))).

(** [for (let x = 0; x < text.length; x++)] with [text[x]]. *)
Definition indexed {A : Type} (l : list A) : list (Z * A) :=
  combine (map Z.of_nat (seq 0 (length l))) l.

Definition drawText (canvas : Canvas) (start : DrawingCoord) (text : list glyph)
  : Outcome Canvas :=
  let canvas1 := increaseSize canvas (X start + Z.of_nat (length text)) (Y start) in
  forEach (fun c xg => writeCell c (fst xg + X start) (Y start) (snd xg))
    (indexed text) canvas1.

(** The diagonal [while] loops: [x] and [y] move by [dx] and [dy] as long as
    [inside x y]; [x] moves towards its bound, which ends the loop after at
    most [n] rounds. *)
Fixpoint diagonal (n : nat) (inside : Z -> Z -> bool) (dx dy x y : Z)
  : list DrawingCoord :=
  match n with
  | O => []
  | S n' =>
      if inside x y then Coord x y :: diagonal n' inside dx dy (x + dx) (y + dy)
      else []
  end.

(** The cells a line is drawn on, in drawing order: the loops of
    [drawUnicodeLine] and of [drawAsciiLine] are the same. *)
Definition lineCoords (direction : Direction) (from to : DrawingCoord)
    (offsetFrom offsetTo : Z) : list DrawingCoord :=
  let rounds := Z.to_nat (Z.abs (X from - X to) + Z.abs offsetTo + 1) in
  if coord_equals direction Up then
    map (fun y => Coord (X from) y) (countDown (Y from - offsetFrom) (Y to - offsetTo))
  else if coord_equals direction Down then
    map (fun y => Coord (X from) y) (countUp (Y from + offsetFrom) (Y to + offsetTo))
  else if coord_equals direction Left then
    map (fun x => Coord x (Y from)) (countDown (X from - offsetFrom) (X to - offsetTo))
  else if coord_equals direction Right then
    map (fun x => Coord x (Y from)) (countUp (X from + offsetFrom) (X to + offsetTo))
  else if coord_equals direction UpperLeft then
    diagonal rounds
      (fun x y => (X to - offsetTo <=? x) && (Y to - offsetTo <=? y))
      (-1) (-1) (X from) (Y from - offsetFrom)
  else if coord_equals direction UpperRight then
    diagonal rounds
      (fun x y => (x <=? X to + offsetTo) && (Y to - offsetTo <=? y))
      1 (-1) (X from) (Y from - offsetFrom)
  else if coord_equals direction LowerLeft then
    diagonal rounds
      (fun x y => (X to - offsetTo <=? x) && (y <=? Y to + offsetTo))
      (-1) 1 (X from) (Y from + offsetFrom)
  else if coord_equals direction LowerRight then
    diagonal rounds
      (fun x y => (x <=? X to + offsetTo) && (y <=? Y to + offsetTo))
      1 1 (X from) (Y from + offsetFrom)
  else [].

Definition unicodeLineGlyph (direction : Direction) : glyph :=
  if coord_equals direction Up then ch "│"
  else if coord_equals direction Down then ch "│"
  else if coord_equals direction Left then ch "─"
  else if coord_equals direction Right then ch "─"
  else if coord_equals direction UpperLeft then ch "╲"
  else if coord_equals direction UpperRight then ch "╱"
  else if coord_equals direction LowerLeft then ch "╱"
  else ch "╲".

Definition asciiLineGlyph (direction : Direction) : glyph :=
  if coord_equals direction Up then ch "|"
  else if coord_equals direction Down then ch "|"
  else if coord_equals direction Left then ch "-"
  else if coord_equals direction Right then ch "-"
  else if coord_equals direction UpperLeft then ch "\"
  else if coord_equals direction UpperRight then ch "/"
  else if coord_equals direction LowerLeft then ch "/"
  else ch "\".

(** [this.canvas[x][y] = g] for every cell of the list. *)
Definition writeCells (canvas : Canvas) (cells : list DrawingCoord) (g : glyph)
  : Outcome Canvas :=
  forEach (fun c p => writeCell c (X p) (Y p) g) cells canvas.

Definition drawUnicodeLine (canvas : Canvas) (from to : DrawingCoord)
    (direction : Direction) (offsetFrom offsetTo : Z) : Outcome Canvas :=
  writeCells canvas (lineCoords direction from to offsetFrom offsetTo)
    (unicodeLineGlyph direction).

Definition drawAsciiLine (canvas : Canvas) (from to : DrawingCoord)
    (direction : Direction) (offsetFrom offsetTo : Z) : Outcome Canvas :=
  writeCells canvas (lineCoords direction from to offsetFrom offsetTo)
    (asciiLineGlyph direction).

(** [drawLine]: the canvas after the call and the cells drawn. *)
Definition drawLine (useAscii : bool) (canvas : Canvas) (from to : DrawingCoord)
    (offsetFrom offsetTo : Z) : Outcome (Canvas * list DrawingCoord) :=
  let direction := determineDirection from to in
  let canvas1 := increaseSize canvas (max (X from) (X to)) (max (Y from) (Y to)) in
  canvas2 ← (if negb useAscii
             then drawUnicodeLine canvas1 from to direction offsetFrom offsetTo
             else drawAsciiLine canvas1 from to direction offsetFrom offsetTo);
  Returned (canvas2, lineCoords direction from to offsetFrom offsetTo).

(** [canvas[0].length]: throws on a canvas without columns. *)
Definition height0 (canvas : Canvas) : Outcome Z :=
  match canvas with
  | [] => Thrown "TypeError"
  | col0 :: _ => Returned (Z.of_nat (length col0))
  end.

Definition ceilDiv (x y : Z) : Z :=
  if Z.rem x y =? 0 then Z.quot x y else x / y + 1.

(** [for (let i = 0; i < 2; i++) if (sizes[c + i] !== undefined) w += sizes[c + i]],
    where [sizes[i] = m.get(i) || 0] for [i < 100]. *)
Definition boxSpan (m : gmap Z Z) (c : Z) : Z :=
  fold_left (fun w i =>
               if (0 <=? c + i) && (c + i <? 100) then w + getOr0 m (c + i) else w)
    [0; 1] 0.

(** [drawBox], called by [setDrawing] with the size maps of the graph. *)
Definition drawBox (useAscii : bool) (node : Node.t)
    (columnWidth rowHeight : gmap Z Z) : Outcome Canvas :=
  match Node.gridCoord node with
  | None => Returned (makeDrawing 0 0)
  | Some gc =>
      let w := boxSpan columnWidth (X gc) in
      let h := boxSpan rowHeight (Y gc) in
      let from := Coord 0 0 in
      let to := Coord w h in
      let boxDrawing := makeDrawing (max (X from) (X to)) (max (Y from) (Y to)) in
      let horizontal := if negb useAscii then ch "─" else ch "-" in
      let vertical := if negb useAscii then ch "│" else ch "|" in
      let topLeft := if negb useAscii then ch "┌" else ch "+" in
      let topRight := if negb useAscii then ch "┐" else ch "+" in
      let bottomLeft := if negb useAscii then ch "└" else ch "+" in
      let bottomRight := if negb useAscii then ch "┘" else ch "+" in
      b1 ← forEach (fun c x => writeCell c x (Y from) horizontal)
              (countUp (X from + 1) (X to - 1)) boxDrawing;
      b2 ← forEach (fun c x => writeCell c x (Y to) horizontal)
              (countUp (X from + 1) (X to - 1)) b1;
      b3 ← forEach (fun c y => writeCell c (X from) y vertical)
              (countUp (Y from + 1) (Y to - 1)) b2;
      b4 ← forEach (fun c y => writeCell c (X to) y vertical)
              (countUp (Y from + 1) (Y to - 1)) b3;
      b5 ← writeCell b4 (X from) (Y from) topLeft;
      b6 ← writeCell b5 (X to) (Y from) topRight;
      b7 ← writeCell b6 (X from) (Y to) bottomLeft;
      b8 ← writeCell b7 (X to) (Y to) bottomRight;
      let textY := Y from + h / 2 in
      let textX := X from + w / 2 - ceilDiv (Z.of_nat (length (Node.name node))) 2 + 1 in
      forEach (fun c xg =>
                 let targetX := textX + fst xg in
                 if (0 <=? targetX) && (targetX <? Z.of_nat (length c))
                    && (0 <=? textY)
                 then
                   rows ← height0 c;
                   if textY <? rows then writeCell c targetX textY (snd xg)
                   else Returned c
                 else Returned c)
        (indexed (Node.name node)) b8
  end.

(** The cells [(x, y)] with [x] in [xs] and [y] in [ys], [x] outermost. *)
Definition cellsOf (xs ys : list Z) : list DrawingCoord :=
  flat_map (fun x => map (fun y => Coord x y) ys) xs.

(** The body of the innermost loop of the merge of one drawing. *)
Definition mergeCell (useAscii : bool) (d : Canvas) (mergeCoord : DrawingCoord)
    (merged : Canvas) (p : DrawingCoord) : Outcome Canvas :=
  match cellAt d (X p) (Y p) with
  | None => OutOfModel
  | Some c =>
      if (c =? blank)%N then Returned merged
      else
        let mergeX := X p + X mergeCoord in
        let mergeY := Y p + Y mergeCoord in
        if mergeX <? Z.of_nat (length merged) then
          rows ← height0 merged;
          if mergeY <? rows then
            if mergeX <? 0 then Thrown "TypeError"
            else match cellAt merged mergeX mergeY with
                 | None => OutOfModel
                 | Some currentChar =>
                     if negb useAscii && isJunctionChar c && isJunctionChar currentChar
                     then writeCell merged mergeX mergeY (mergeJunctions currentChar c)
                     else writeCell merged mergeX mergeY c
                 end
          else Returned merged
        else Returned merged
  end.

Definition mergeOne (useAscii : bool) (mergeCoord : DrawingCoord)
    (merged : Canvas) (d : Canvas) : Outcome Canvas :=
  match d with
  | [] => Returned merged
  | col0 :: _ =>
      forEach (mergeCell useAscii d mergeCoord)
        (cellsOf (countUp 0 (Z.of_nat (length d) - 1))
                 (countUp 0 (Z.of_nat (length col0) - 1)))
        merged
  end.

(** The body of the loop that copies the base drawing. *)
Definition copyBaseCell (baseCanvas : Canvas) (merged : Canvas) (p : DrawingCoord)
  : Outcome Canvas :=
  if X p <? Z.of_nat (length baseCanvas) then
    rows ← height0 baseCanvas;
    if Y p <? rows then
      match cellAt baseCanvas (X p) (Y p) with
      | None => OutOfModel
      | Some c => writeCell merged (X p) (Y p) c
      end
    else Returned merged
  else Returned merged.

Definition mergedSize (baseDrawing : Canvas) (mergeCoord : DrawingCoord)
    (drawings : list Canvas) : Z * Z :=
  fold_left (fun m d =>
               let '(dX, dY) := getDrawingSize d in
               (max (fst m) (dX + X mergeCoord), max (snd m) (dY + Y mergeCoord)))
    drawings (getDrawingSize baseDrawing).

Definition mergeDrawings (useAscii : bool) (baseDrawing : Canvas)
    (mergeCoord : DrawingCoord) (drawings : list Canvas) : Outcome Canvas :=
  let '(maxX, maxY) := mergedSize baseDrawing mergeCoord drawings in
  let mergedDrawing := makeDrawing maxX maxY in
  merged1 ← forEach (copyBaseCell baseDrawing)
               (cellsOf (countUp 0 maxX) (countUp 0 maxY)) mergedDrawing;
  forEach (mergeOne useAscii mergeCoord) drawings merged1.

(** [DrawingCanvas.drawingToString]: the rows of the output, top to bottom;
    the string joins them with line breaks. *)
Definition drawingToRows (d : Canvas) : Outcome (list (list glyph)) :=
  rows ← height0 d;
  let maxX := Z.of_nat (length d) - 1 in
  let maxY := rows - 1 in
  forEach (fun out y =>
             line ← forEach (fun acc x =>
                               match cellAt d x y with
                               | None => OutOfModel
                               | Some c => Returned (acc ++ [c])
                               end) (countUp 0 maxX) [];
             Returned (out ++ [line]))
    (countUp 0 maxY) [].

Definition joinRows (rows : list (list glyph)) : list glyph :=
  match rows with
  | [] => []
  | r :: rest => r ++ flat_map (fun l => ch (String "010"%char EmptyString) :: l) rest
  end.

Definition drawingToString (d : Canvas) : Outcome (list glyph) :=
  rows ← drawingToRows d; Returned (joinRows rows).

(** ** types/graph.ts: sizing, routing, coordinates *)

(** [setColumnWidth]. *)
Definition setColumnWidth (g : Graph.t) (n : Node.t) : Graph.t :=
  match Node.gridCoord n with
  | None => g
  | Some gc =>
      let col1 := 1 in
      let col2 := 2 * BOX_BORDER_PADDING + Z.of_nat (length (Node.name n)) in
      let col3 := 1 in
      let colsToBePlaced := [col1; col2; col3] in
      let rowsToBePlaced := [1; 1 + 2 * BOX_BORDER_PADDING; 1] in
      let g1 := fold_left (fun g ic =>
                  let xCoord := X gc + fst ic in
                  let currentWidth := getOr0 (Graph.columnWidth g) xCoord in
                  columnWidth_set g xCoord (max currentWidth (snd ic)))
                  (indexed colsToBePlaced) g in
      let g2 := fold_left (fun g ir =>
                  let yCoord := Y gc + fst ir in
                  let currentHeight := getOr0 (Graph.rowHeight g) yCoord in
                  rowHeight_set g yCoord (max currentHeight (snd ir)))
                  (indexed rowsToBePlaced) g1 in
      let g3 := if X gc >? 0 then columnWidth_set g2 (X gc - 1) PADDING_BETWEEN_X
                else g2 in
      if Y gc >? 0 then rowHeight_set g3 (Y gc - 1) PADDING_BETWEEN_Y else g3
  end.

(** [increaseGridSizeForPath]. *)
Definition increaseGridSizeForPath (g : Graph.t) (path : list GridCoord)
  : Graph.t :=
  fold_left (fun g c =>
    let g1 := match Graph.columnWidth g !! X c with
              | None => columnWidth_set g (X c) (PADDING_BETWEEN_X / 2)
              | Some _ => g
              end in
    match Graph.rowHeight g1 !! Y c with
    | None => rowHeight_set g1 (Y c) (PADDING_BETWEEN_Y / 2)
    | Some _ => g1
    end) path g.

Definition determineStartAndEndDir (gd : GraphDirection)
    (fromCoord toCoord : GridCoord) (isSelfReference : bool)
  : Outcome (Direction * Direction * Direction * Direction) :=
  if isSelfReference then Returned (selfReferenceDirection gd)
  else
    let d := determineDirection fromCoord toCoord in
    if coord_equals d LowerRight then
      Returned (match gd with
                | LR => (Down, Left, Right, Up)
                | TD => (Right, Up, Down, Left)
                end)
    else if coord_equals d UpperRight then
      Returned (match gd with
                | LR => (Up, Left, Right, Down)
                | TD => (Right, Down, Up, Left)
                end)
    else if coord_equals d LowerLeft then
      Returned (match gd with
                | LR => (Down, Right, Left, Up)
                | TD => (Left, Up, Down, Right)
                end)
    else if coord_equals d UpperLeft then
      Returned (match gd with
                | LR => (Up, Right, Left, Down)
                | TD => (Left, Down, Up, Right)
                end)
    else
      match getOpposite d with
      | None => Thrown "Unknown direction"
      | Some preferredOppositeDir =>
          Returned (d, preferredOppositeDir, d, preferredOppositeDir)
      end.

Definition withRoute (e : Edge.t) (startDir endDir : Direction)
    (path : list GridCoord) : Edge.t :=
  Edge.Make (Edge.from e) (Edge.to e) (Edge.text e) path (Edge.labelLine e)
    (Some startDir) (Some endDir).

Definition withLabelLine (e : Edge.t) (line : list GridCoord) : Edge.t :=
  Edge.Make (Edge.from e) (Edge.to e) (Edge.text e) (Edge.path e) line
    (Edge.startDir e) (Edge.endDir e).

(** [EdgeImpl.determinePath]: the edge after the call. A [try] block holds
    one search and its simplification; its [catch] is the [Thrown] branch.
    The [catch] of the first block returns with the alternative directions
    and the alternative path, which is still the empty array at that point;
    the [catch] of the second returns with the preferred ones. *)
Definition determinePath (fuel : nat) (gd : GraphDirection) (g : Graph.t)
    (e : Edge.t) : Outcome Edge.t :=
  match Graph.nodes g !! Edge.from e, Graph.nodes g !! Edge.to e with
  | Some fromNode, Some toNode =>
      match Node.gridCoord fromNode, Node.gridCoord toNode with
      | Some fromCoord, Some toCoord =>
          let alternativePath0 : list GridCoord := [] in
          let isSelfReference := bool_decide (Edge.from e = Edge.to e) in
          '(preferredDir, preferredOppositeDir, alternativeDir, alternativeOppositeDir)
            ← determineStartAndEndDir gd fromCoord toCoord isSelfReference;
          let from := direction fromCoord preferredDir in
          let to := direction toCoord preferredOppositeDir in
          match getPath fuel from to (isFreeInGrid g) with
          | Thrown err =>
              Returned (withRoute e alternativeDir alternativeOppositeDir alternativePath0)
          | OutOfFuel => OutOfFuel
          | OutOfModel => OutOfModel
          | Returned preferredPath0 =>
              let preferredPath := mergePath preferredPath0 in
              let altFrom := direction fromCoord alternativeDir in
              let altTo := direction toCoord alternativeOppositeDir in
              match getPath fuel altFrom altTo (isFreeInGrid g) with
              | Thrown err =>
                  Returned (withRoute e preferredDir preferredOppositeDir preferredPath)
              | OutOfFuel => OutOfFuel
              | OutOfModel => OutOfModel
              | Returned alternativePath1 =>
                  let alternativePath := mergePath alternativePath1 in
                  let nrStepsPreferred := length preferredPath in
                  let nrStepsAlternative := length alternativePath in
                  if (nrStepsPreferred <=? nrStepsAlternative)%nat
                  then Returned (withRoute e preferredDir preferredOppositeDir preferredPath)
                  else Returned (withRoute e alternativeDir alternativeOppositeDir alternativePath)
              end
          end
      | _, _ => Returned e
      end
  | _, _ => Returned e
  end.

(** [calculateLineWidth] of the two-point line [[a, b]]. *)
Definition calculateLineWidth (g : Graph.t) (line : list GridCoord) : Z :=
  fold_left (fun totalSize c => totalSize + getOr0 (Graph.columnWidth g) (X c))
    line 0.

(** The loop of [determineLabelLine] from step [i] on: the state is
    [prevStep], [largestLineSize] and [largestLine]; the result is
    [largestLine] when the loop ends or breaks. *)
Fixpoint labelLine_scan (g : Graph.t) (lenLabel : Z) (steps : list GridCoord)
    (prevStep : GridCoord) (largestLineSize : Z)
    (largestLine : GridCoord * GridCoord) : GridCoord * GridCoord :=
  match steps with
  | [] => largestLine
  | step :: steps' =>
      let line := (prevStep, step) in
      let lineWidth := calculateLineWidth g [prevStep; step] in
      if lineWidth >=? lenLabel then line
      else if lineWidth >? largestLineSize
           then labelLine_scan g lenLabel steps' step lineWidth line
           else labelLine_scan g lenLabel steps' step largestLineSize largestLine
  end.

(** [EdgeImpl.determineLabelLine]. With fewer than two points on the path
    [largestLine] holds [undefined], and reading its [x] throws. *)
Definition determineLabelLine (g : Graph.t) (e : Edge.t)
  : Outcome (Graph.t * Edge.t) :=
  let lenLabel := Z.of_nat (length (Edge.text e)) in
  if lenLabel =? 0 then Returned (g, e)
  else
    match Edge.path e with
    | prevStep :: second :: rest =>
        let largestLine :=
          labelLine_scan g lenLabel (second :: rest) prevStep 0 (prevStep, second) in
        let maxX := Z.max (X (fst largestLine)) (X (snd largestLine)) in
        let minX := Z.min (X (fst largestLine)) (X (snd largestLine)) in
        let middleX := minX + (maxX - minX) / 2 in
        let currentWidth := getOr0 (Graph.columnWidth g) middleX in
        Returned (columnWidth_set g middleX (max currentWidth (lenLabel + 2)),
                  withLabelLine e [fst largestLine; snd largestLine])
    | _ => Thrown "TypeError"
    end.

(** [gridToDrawingCoord]. *)
Definition sumBefore (m : gmap Z Z) (k : Z) : Z :=
  fold_left (fun s i => s + getOr0 m i) (countUp 0 (k - 1)) 0.

Definition gridToDrawingCoord (g : Graph.t) (c : GridCoord)
    (dir : option Direction) : DrawingCoord :=
  let target :=
    match dir with
    | None => c
    | Some d => Coord (X c + X d) (Y c + Y d)
    end in
  let x := sumBefore (Graph.columnWidth g) (X target) in
  let y := sumBefore (Graph.rowHeight g) (Y target) in
  let columnWidth := getOr0 (Graph.columnWidth g) (X target) in
  let rowHeight := getOr0 (Graph.rowHeight g) (Y target) in
  Coord (x + columnWidth / 2) (y + rowHeight / 2).

(** [NodeImpl.setDrawing]. *)
Definition setDrawing (useAscii : bool) (g : Graph.t) (n : Node.t)
  : Outcome Node.t :=
  d ← drawBox useAscii n (Graph.columnWidth g) (Graph.rowHeight g);
  Returned (withDrawing d n).

(** [Array.from(m.values())] summed. *)
Definition sumValues (m : gmap Z Z) : Z :=
  map_fold (fun _ v s => s + v) 0 m.

Definition setDrawingSizeToGridConstraints (g : Graph.t) : Graph.t :=
  let maxX := sumValues (Graph.columnWidth g) in
  let maxY := sumValues (Graph.rowHeight g) in
  setDrawing_ g (increaseSize (Graph.drawing g) (maxX - 1) (maxY - 1)).

(** The body of [for (const e of this.edges)] in [createMapping], for the
    edge object at position [j]. *)
Definition routeEdge (fuel : nat) (gd : GraphDirection) (g : Graph.t) (j : nat)
  : Outcome Graph.t :=
  match Graph.edges g !! j with
  | None => Returned g
  | Some e =>
      e1 ← determinePath fuel gd g e;
      let g1 := increaseGridSizeForPath g (Edge.path e1) in
      '(g2, e2) ← determineLabelLine g1 e1;
      Returned (setEdges g2 (<[j := e2]> (Graph.edges g2)))
  end.

(** The body of the last [for (const n of this.nodes)] of [createMapping],
    for the node at position [i]. *)
Definition resolveNode (useAscii : bool) (g : Graph.t) (i : nat)
  : Outcome Graph.t :=
  match Graph.nodes g !! i with
  | None => Returned g
  | Some n =>
      match Node.gridCoord n with
      | None => Returned g
      | Some gc =>
          let dc := gridToDrawingCoord g gc None in
          match Graph.nodes g !! Node.index n with
          | None => Thrown "TypeError"
          | Some _ =>
              let g1 := updateNode g (Node.index n) (withDrawingCoord dc) in
              match Graph.nodes g1 !! Node.index n with
              | None => Thrown "TypeError"
              | Some target =>
                  target' ← setDrawing useAscii g1 target;
                  Returned (setNodes g1 (<[Node.index n := target']> (Graph.nodes g1)))
              end
          end
      end
  end.

Definition createMapping (fuel : nat) (gd : GraphDirection) (useAscii : bool)
    (g : Graph.t) : Outcome Graph.t :=
  g1 ← placeNodes gd g;
  let g2 := fold_left setColumnWidth (Graph.nodes g1) g1 in
  g3 ← forEach (routeEdge fuel gd) (seq 0 (length (Graph.edges g2))) g2;
  g4 ← forEach (resolveNode useAscii) (seq 0 (length (Graph.nodes g3))) g3;
  Returned (setDrawingSizeToGridConstraints g4).

(** ** drawing.ts: the fragments of an edge *)

(** [const d = new DrawingEngine(); d.increaseSize(baseX, baseY)]. *)
Definition sizedLike (baseDrawing : Canvas) : Canvas :=
  let '(baseX, baseY) := getDrawingSize baseDrawing in
  increaseSize (makeDrawing 0 0) baseX baseY.

Record DrawnLine := Drawn { coords : list DrawingCoord }.

(** The loop of [drawPath] over [path[1..]]: the state is the canvas,
    [previousCoord] and [linesDrawn]. Both branches of [idx === 1] draw the
    same line. *)
Definition drawPath_step (useAscii : bool)
    (toDrawing : GridCoord -> DrawingCoord)
    (st : Canvas * GridCoord * list DrawnLine) (nextCoord : GridCoord)
  : Outcome (Canvas * GridCoord * list DrawnLine) :=
  let '(d, previousCoord, linesDrawn) := st in
  let previousDrawingCoord := toDrawing previousCoord in
  let nextDrawingCoord := toDrawing nextCoord in
  if coord_equals previousDrawingCoord nextDrawingCoord then Returned st
  else
    '(d1, drawnCoords) ← drawLine useAscii d previousDrawingCoord nextDrawingCoord 1 (-1);
    Returned (d1, nextCoord, linesDrawn ++ [Drawn drawnCoords]).

Definition drawPath (useAscii : bool) (path : list GridCoord)
    (toDrawing : GridCoord -> DrawingCoord) (baseDrawing : Canvas)
  : Outcome (Canvas * list DrawnLine) :=
  let d := sizedLike baseDrawing in
  match path with
  | [] => Returned (d, [])
  | previousCoord :: rest =>
      '(d1, _, linesDrawn) ←
        forEach (drawPath_step useAscii toDrawing) rest (d, previousCoord, []);
      Returned (d1, linesDrawn)
  end.

(** [drawBoxStart]; [firstLine] is [linesDrawn[0]], [None] when there is
    none. *)
Definition drawBoxStart (useAscii : bool) (path : list GridCoord)
    (firstLine : option DrawnLine) (baseDrawing : Canvas) : Outcome Canvas :=
  let d := sizedLike baseDrawing in
  match firstLine, path with
  | Some (Drawn (from :: _)), p0 :: p1 :: _ =>
      let direction := determineDirection p0 p1 in
      if useAscii then Returned d
      else if coord_equals direction Up then
        rows ← height0 d;
        if (0 <=? Y from + 1) && (Y from + 1 <? rows)
        then writeCell d (X from) (Y from + 1) (ch "┴") else Returned d
      else if coord_equals direction Down then
        rows ← height0 d;
        if (0 <=? Y from - 1) && (Y from - 1 <? rows)
        then writeCell d (X from) (Y from - 1) (ch "┬") else Returned d
      else if coord_equals direction Left then
        if (0 <=? X from + 1) && (X from + 1 <? Z.of_nat (length d))
        then writeCell d (X from + 1) (Y from) (ch "┤") else Returned d
      else if coord_equals direction Right then
        if (0 <=? X from - 1) && (X from - 1 <? Z.of_nat (length d))
        then writeCell d (X from - 1) (Y from) (ch "├") else Returned d
      else Returned d
  | _, _ => Returned d
  end.

Definition arrowHeadGlyph (useAscii : bool) (direction : Direction) : glyph :=
  if negb useAscii then
    if coord_equals direction Up then ch "▲"
    else if coord_equals direction Down then ch "▼"
    else if coord_equals direction Left then ch "◄"
    else if coord_equals direction Right then ch "►"
    else if coord_equals direction UpperRight then ch "◥"
    else if coord_equals direction UpperLeft then ch "◤"
    else if coord_equals direction LowerRight then ch "◢"
    else if coord_equals direction LowerLeft then ch "◣"
    else ch "●"
  else
    if coord_equals direction Up then ch "^"
    else if coord_equals direction Down then ch "v"
    else if coord_equals direction Left then ch "<"
    else if coord_equals direction Right then ch ">"
    else ch "*".

(** [drawArrowHead]; [line] is [linesDrawn[linesDrawn.length - 1]]. *)
Definition drawArrowHead (useAscii : bool) (line : option DrawnLine)
    (baseDrawing : Canvas) : Outcome Canvas :=
  let d := sizedLike baseDrawing in
  match line with
  | None => Returned d
  | Some (Drawn []) => Returned d
  | Some (Drawn (from :: others)) =>
      let '(lastPos, direction) :=
        match others with
        | [] => (from, Up)
        | _ :: _ =>
            let lastPos := List.last others from in
            (lastPos, determineDirection from lastPos)
        end in
      let char := arrowHeadGlyph useAscii direction in
      writeCell (increaseSize d (X lastPos) (Y lastPos)) (X lastPos) (Y lastPos) char
  end.

Definition cornerGlyph (useAscii : bool) (prevDir nextDir : Direction) : glyph :=
  if negb useAscii then
    if (coord_equals prevDir Right && coord_equals nextDir Down)
       || (coord_equals prevDir Up && coord_equals nextDir Left) then ch "┐"
    else if (coord_equals prevDir Right && coord_equals nextDir Up)
       || (coord_equals prevDir Down && coord_equals nextDir Left) then ch "┘"
    else if (coord_equals prevDir Left && coord_equals nextDir Down)
       || (coord_equals prevDir Up && coord_equals nextDir Right) then ch "┌"
    else if (coord_equals prevDir Left && coord_equals nextDir Up)
       || (coord_equals prevDir Down && coord_equals nextDir Right) then ch "└"
    else ch "+"
  else ch "+".

(** The loop of [drawCorners], over the triples [(path[idx - 1], path[idx],
    path[idx + 1])]. *)
Fixpoint drawCorners_loop (useAscii : bool)
    (toDrawing : GridCoord -> DrawingCoord) (path : list GridCoord)
    (d : Canvas) : Outcome Canvas :=
  match path with
  | prev :: ((coord :: next :: _) as rest) =>
      let drawingCoord := toDrawing coord in
      let prevDir := determineDirection prev coord in
      let nextDir := determineDirection coord next in
      let corner := cornerGlyph useAscii prevDir nextDir in
      d1 ← writeCell (increaseSize d (X drawingCoord) (Y drawingCoord))
              (X drawingCoord) (Y drawingCoord) corner;
      drawCorners_loop useAscii toDrawing rest d1
  | _ => Returned d
  end.

Definition drawCorners (useAscii : bool) (path : list GridCoord)
    (toDrawing : GridCoord -> DrawingCoord) (baseDrawing : Canvas)
  : Outcome Canvas :=
  drawCorners_loop useAscii toDrawing path (sizedLike baseDrawing).

Definition drawTextOnLine (drawing : Canvas) (line : list DrawingCoord)
    (label : list glyph) : Outcome Canvas :=
  match line with
  | l0 :: l1 :: _ =>
      let minX := Z.min (X l0) (X l1) in
      let maxX := Z.max (X l0) (X l1) in
      let minY := Z.min (Y l0) (Y l1) in
      let maxY := Z.max (Y l0) (Y l1) in
      let middleX := minX + (maxX - minX) / 2 in
      let middleY := minY + (maxY - minY) / 2 in
      let startLabelCoord :=
        Coord (middleX - Z.of_nat (length label) / 2) middleY in
      drawText drawing startLabelCoord label
  | _ => Returned drawing
  end.

Definition drawArrowLabel (edge : Edge.t)
    (toDrawing : GridCoord -> DrawingCoord) (baseDrawing : Canvas)
  : Outcome Canvas :=
  let d := sizedLike baseDrawing in
  if (length (Edge.text edge) =? 0)%nat then Returned d
  else if (2 <=? length (Edge.labelLine edge))%nat then
    drawTextOnLine d (map toDrawing (Edge.labelLine edge)) (Edge.text edge)
  else Returned d.

(** The five fragments of an edge: path, box start, arrow head, corners,
    label. *)
Definition Fragments : Type := Canvas * Canvas * Canvas * Canvas * Canvas.

Definition emptyFragments : Fragments :=
  let empty := makeDrawing 0 0 in (empty, empty, empty, empty, empty).

(** [drawEdge] of drawing.ts. *)
Definition drawEdge (useAscii : bool) (edge : Edge.t)
    (toDrawing : GridCoord -> DrawingCoord) (baseDrawing : Canvas)
  : Outcome Fragments :=
  if (length (Edge.path edge) =? 0)%nat then Returned emptyFragments
  else
    dLabel ← drawArrowLabel edge toDrawing baseDrawing;
    '(dPath, linesDrawn) ← drawPath useAscii (Edge.path edge) toDrawing baseDrawing;
    dBoxStart ← drawBoxStart useAscii (Edge.path edge) (head linesDrawn) baseDrawing;
    dArrowHead ← drawArrowHead useAscii (last linesDrawn) baseDrawing;
    dCorners ← drawCorners useAscii (Edge.path edge) toDrawing baseDrawing;
    Returned (dPath, dBoxStart, dArrowHead, dCorners, dLabel).

(** ** types/graph.ts: drawing the graph *)

(** [GraphImpl.drawEdge]. *)
Definition graphDrawEdge (useAscii : bool) (g : Graph.t) (e : Edge.t)
  : Outcome Fragments :=
  match Edge.startDir e, Edge.endDir e,
        Graph.nodes g !! Edge.from e, Graph.nodes g !! Edge.to e with
  | Some _, Some _, Some fromNode, Some toNode =>
      match Node.gridCoord fromNode, Node.gridCoord toNode with
      | Some _, Some _ =>
          drawEdge useAscii e (fun c => gridToDrawingCoord g c None) (Graph.drawing g)
      | _, _ => Returned emptyFragments
      end
  | _, _, _, _ => Returned emptyFragments
  end.

(** The body of the first loop of [draw], for the node at position [i]. *)
Definition drawNode (useAscii : bool) (g : Graph.t) (i : nat) : Outcome Graph.t :=
  match Graph.nodes g !! i with
  | None => Returned g
  | Some node =>
      if Node.drawn node then Returned g
      else
        match Node.drawingCoord node, Node.drawing node with
        | Some dc, Some d =>
            merged ← mergeDrawings useAscii (Graph.drawing g) dc [d];
            Returned (updateNode (setDrawing_ g merged) i withDrawn)
        | _, _ => Returned g
        end
  end.

(** The second loop of [draw]: the five lists of fragments. *)
Definition collectFragments (useAscii : bool) (g : Graph.t)
    (st : list Canvas * list Canvas * list Canvas * list Canvas * list Canvas)
    (edge : Edge.t)
  : Outcome (list Canvas * list Canvas * list Canvas * list Canvas * list Canvas) :=
  let '(lineDrawings, cornerDrawings, arrowHeadDrawings, boxStartDrawings,
        labelDrawings) := st in
  '(line, boxStart, arrowHead, corners, label) ← graphDrawEdge useAscii g edge;
  Returned (lineDrawings ++ [line], cornerDrawings ++ [corners],
            arrowHeadDrawings ++ [arrowHead], boxStartDrawings ++ [boxStart],
            labelDrawings ++ [label]).

Definition draw (useAscii : bool) (g : Graph.t) : Outcome Graph.t :=
  g1 ← forEach (drawNode useAscii) (seq 0 (length (Graph.nodes g))) g;
  '(lineDrawings, cornerDrawings, arrowHeadDrawings, boxStartDrawings,
    labelDrawings) ←
    forEach (collectFragments useAscii g1) (Graph.edges g1) ([], [], [], [], []);
  d1 ← mergeDrawings useAscii (Graph.drawing g1) (Coord 0 0) lineDrawings;
  d2 ← mergeDrawings useAscii d1 (Coord 0 0) cornerDrawings;
  d3 ← mergeDrawings useAscii d2 (Coord 0 0) arrowHeadDrawings;
  d4 ← mergeDrawings useAscii d3 (Coord 0 0) boxStartDrawings;
  d5 ← mergeDrawings useAscii d4 (Coord 0 0) labelDrawings;
  Returned (setDrawing_ g1 d5).

(** The pipeline of [mermaidToAscii] and of the command line after parsing:
    [makeGraph], [createMapping], [draw], [drawingToString]; the rows of the
    output. *)
Definition render (fuel : nat) (gd : GraphDirection) (useAscii : bool)
    (data : list (list glyph * list TextEdge.t)) : Outcome (list (list glyph)) :=
  g1 ← createMapping fuel gd useAscii (makeGraph data);
  g2 ← draw useAscii g1;
  drawingToRows (Graph.drawing g2).

(** *** Notions used to state the properties of placement and sizing *)

(** Both coordinates are multiples of 4. *)
Definition aligned (c : GridCoord) : Prop := X c mod 4 = 0 /\ Y c mod 4 = 0.

(** What placement maintains: a placed node sits at an aligned coordinate
    and the nine cells of its block are its own in the occupancy map; the
    next positions per level are multiples of 4. *)
Definition PlaceInv (st : Graph.t * list Z) : Prop :=
  (forall r n c, Graph.nodes (fst st) !! r = Some n ->
                 Node.gridCoord n = Some c ->
                 aligned c
                 /\ forall k, In k (blockCells c) -> Graph.grid (fst st) !! k = Some r)
  /\ (forall i v, snd st !! i = Some v -> v mod 4 = 0).

(** A graph as [makeGraph] leaves it: no node placed, no size recorded. *)
Definition fresh (g : Graph.t) : Prop :=
  (forall r n, Graph.nodes g !! r = Some n -> Node.gridCoord n = None)
  /\ Graph.columnWidth g = ∅
  /\ Graph.rowHeight g = ∅
  /\ Graph.sizeWrites g = [].

(** A write that does not decrease the value it replaces. *)
Definition grows (w : SizeWrite) : Prop :=
  forall v, replaced w = Some v -> v <= written w.

(** What node sizing maintains: no recorded write decreased a value, and the
    indices just before an aligned coordinate hold the padding, if
    anything. *)
Definition SizeInv (g : Graph.t) : Prop :=
  Forall grows (Graph.sizeWrites g)
  /\ (forall k v, Graph.columnWidth g !! k = Some v -> k mod 4 = 3 ->
                  v = PADDING_BETWEEN_X)
  /\ (forall k v, Graph.rowHeight g !! k = Some v -> k mod 4 = 3 ->
                  v = PADDING_BETWEEN_Y).

(** *** Two graph states in which a search fails

    Four nodes; [A] sits at (4,4), [B] at (0,8). In the first state a third
    block at (4,7) walls in the cell below [A], where the preferred search
    for the edge from [A] to [B] starts; in the second a fourth block at
    (1,4) also walls in the cell left of [A], where the alternative search
    starts. *)
Definition reserveAt (g : Graph.t) (rc : nat * GridCoord) : Graph.t :=
  match reserveSpotInGrid LR g (fst rc) (snd rc) with
  | Returned (g', _) => g'
  | _ => g
  end.

Definition fourNodes : Graph.t :=
  setEdges
    (setNodes newGraph
       [newNode (utf16 "A") 0; newNode (utf16 "B") 1;
        newNode (utf16 "C") 2; newNode (utf16 "D") 3])
    [newEdge 0 1 []].

Definition walledBelow : Graph.t :=
  fold_left reserveAt
    [(0%nat, Coord 4 4); (1%nat, Coord 0 8); (2%nat, Coord 4 7)] fourNodes.

Definition walledBelowAndLeft : Graph.t :=
  fold_left reserveAt [(3%nat, Coord 1 4)] walledBelow.

(** A graph state after placement in which both searches succeed: [A] at
    (0,0) with an edge to [C] at (4,4). *)
Definition placedFan : Graph.t :=
  match placeNodes LR
          (makeGraph [ (utf16 "A", [TextEdge.Make (utf16 "A") (utf16 "B") [];
                                    TextEdge.Make (utf16 "A") (utf16 "C") []]);
                       (utf16 "B", []); (utf16 "C", []) ]) with
  | Returned g => g
  | _ => newGraph
  end.

(** A two-node chart whose only edge carries a label: [A -->|hello| B]. *)
Definition labelledPair : list (list glyph * list TextEdge.t) :=
  [ (utf16 "A", [TextEdge.Make (utf16 "A") (utf16 "B") (utf16 "hello")]);
    (utf16 "B", []) ].

(** *** A search that never ends

    A corridor: the free cells are the cells [(x, 0)] with [0 <= x]. A
    search from its end [(0, 0)] for the cell [(0, 2)], which no free cell
    touches, walks along the corridor: in the state [CorridorInv b] the
    cells up to [(b, 0)] have their cost and [(b, 0)] alone is queued. *)
Definition corridor (c : GridCoord) : bool := (Y c =? 0) && (0 <=? X c).

Definition CorridorInv (b : Z) (st : SearchState) : Prop :=
  0 <= b
  /\ (exists p, pq st = [Item (Coord b 0) p])
  /\ (forall x, 0 <= x <= b -> costSoFar st !! (x, 0) = Some x)
  /\ (forall x, b < x -> costSoFar st !! (x, 0) = None).

(** *** Notions used in the termination arguments *)

(** The order in which the states of the search decrease: fewer cells of
    the region without a cost, or as many and no more pending work. *)
Definition smallerState (low : PriorityQueueItem -> bool) (R : list GridCoord)
    (st' st : SearchState) : Prop :=
  (undefinedCells R st' < undefinedCells R st)%nat
  \/ (undefinedCells R st' = undefinedCells R st
      /\ (pendingWork low R st' <= pendingWork low R st)%nat).

(** The next cell [reserveSpotInGrid] tries, and the coordinate of a key
    along which it moves. *)
Definition shiftedBy (gd : GraphDirection) (c : GridCoord) : GridCoord :=
  match gd with
  | LR => Coord (X c) (Y c + 4)
  | TD => Coord (X c + 4) (Y c)
  end.

Definition crossAxis (gd : GraphDirection) (k : Z * Z) : Z :=
  match gd with
  | LR => snd k
  | TD => fst k
  end.

(** Placement leaves the size maps and their record alone. *)
Definition sameSizes (g0 : Graph.t) (st : Graph.t * list Z) : Prop :=
  Graph.columnWidth (fst st) = Graph.columnWidth g0
  /\ Graph.rowHeight (fst st) = Graph.rowHeight g0
  /\ Graph.sizeWrites (fst st) = Graph.sizeWrites g0.

(** *** Notions used to compare the two rendering modes *)

(** The shape of a canvas: the number of cells of each column. *)
Definition shape (canvas : Canvas) : list nat := map length canvas.

(** A glyph that is none of the fifteen junction glyphs. *)
Definition plain (g : glyph) : Prop := isJunctionChar g = false.

Definition plainText (text : list glyph) : Prop := Forall plain text.

Definition plainCanvas (canvas : Canvas) : Prop := Forall plainText canvas.

(** No node name and no edge label of the parsed chart holds a junction
    glyph. *)
Definition plainData (data : list (list glyph * list TextEdge.t)) : Prop :=
  Forall (fun entry =>
            plainText (fst entry)
            /\ Forall (fun textEdge =>
                         plainText (TextEdge.child textEdge)
                         /\ plainText (TextEdge.label textEdge))
                 (snd entry))
    data.

(** What of a graph can reach the output: names, node drawings, labels and
    the drawing of the graph. *)
Definition content (g : Graph.t)
  : list (list glyph) * list (option Canvas) * list (list glyph) * Canvas :=
  (map Node.name (Graph.nodes g), map Node.drawing (Graph.nodes g),
   map Edge.text (Graph.edges g), Graph.drawing g).

Definition plainDrawing (d : option Canvas) : Prop :=
  match d with
  | Some canvas => plainCanvas canvas
  | None => True
  end.

Definition PlainGraph (g : Graph.t) : Prop :=
  let '(names, drawings, labels, canvas) := content g in
  Forall plainText names /\ Forall plainDrawing drawings
  /\ Forall plainText labels /\ plainCanvas canvas.

(** Two nodes that differ at most in the glyphs of their drawings. *)
Definition nodeLike (n1 n2 : Node.t) : Prop :=
  Node.name n1 = Node.name n2 /\ Node.index n1 = Node.index n2
  /\ Node.gridCoord n1 = Node.gridCoord n2
  /\ Node.drawingCoord n1 = Node.drawingCoord n2
  /\ Node.drawn n1 = Node.drawn n2
  /\ match Node.drawing n1, Node.drawing n2 with
     | Some d1, Some d2 => shape d1 = shape d2
     | None, None => True
     | _, _ => False
     end.

(** Two graphs that differ at most in the glyphs of their drawings. *)
Definition graphLike (g1 g2 : Graph.t) : Prop :=
  Forall2 nodeLike (Graph.nodes g1) (Graph.nodes g2)
  /\ Graph.edges g1 = Graph.edges g2
  /\ shape (Graph.drawing g1) = shape (Graph.drawing g2)
  /\ Graph.columnWidth g1 = Graph.columnWidth g2
  /\ Graph.rowHeight g1 = Graph.rowHeight g2.

(** The states of the loop of [drawPath] in the two modes. *)
Definition pathLike (s1 s2 : Canvas * GridCoord * list DrawnLine) : Prop :=
  shape (fst (fst s1)) = shape (fst (fst s2))
  /\ snd (fst s1) = snd (fst s2) /\ snd s1 = snd s2.

(** The five fragments of an edge in the two modes. *)
Definition fragmentsLike (f1 f2 : Fragments) : Prop :=
  let '(line1, boxStart1, arrowHead1, corners1, label1) := f1 in
  let '(line2, boxStart2, arrowHead2, corners2, label2) := f2 in
  shape line1 = shape line2 /\ shape boxStart1 = shape boxStart2
  /\ shape arrowHead1 = shape arrowHead2 /\ shape corners1 = shape corners2
  /\ shape label1 = shape label2.

Definition canvasesLike (ds1 ds2 : list Canvas) : Prop :=
  Forall2 (fun d1 d2 => shape d1 = shape d2) ds1 ds2.

(** The five lists of fragments in the two modes. *)
Definition collectedLike
    (s1 s2 : list Canvas * list Canvas * list Canvas * list Canvas * list Canvas)
  : Prop :=
  let '(lines1, corners1, arrowHeads1, boxStarts1, labels1) := s1 in
  let '(lines2, corners2, arrowHeads2, boxStarts2, labels2) := s2 in
  canvasesLike lines1 lines2 /\ canvasesLike corners1 corners2
  /\ canvasesLike arrowHeads1 arrowHeads2 /\ canvasesLike boxStarts1 boxStarts2
  /\ canvasesLike labels1 labels2.

(** The five lists of fragments in ASCII mode. *)
Definition collectedPlain
    (s : list Canvas * list Canvas * list Canvas * list Canvas * list Canvas)
  : Prop :=
  let '(lines, corners, arrowHeads, boxStarts, labels) := s in
  Forall plainCanvas lines /\ Forall plainCanvas corners
  /\ Forall plainCanvas arrowHeads /\ Forall plainCanvas boxStarts
  /\ Forall plainCanvas labels.

(** A chart with a node whose name is the cross glyph. *)
Definition crossNamed : list (list glyph * list TextEdge.t) :=
  [ (utf16 "┼", [TextEdge.Make (utf16 "┼") (utf16 "B") []]);
    (utf16 "B", []) ].

(** *** Notions used to state further properties of the code *)

(** The nine named directions of direction.ts, and the four sides among
    them. *)
Definition namedDirections : list Direction :=
  [Up; Down; Left; Right; UpperRight; UpperLeft; LowerRight; LowerLeft; Middle].

Definition sideDirections : list Direction := [Up; Down; Left; Right].

(** The side [d] of a box at [a] looks towards [b]. *)
Definition faces (d : Direction) (a b : GridCoord) : Prop :=
  (d = Up /\ Y b < Y a) \/ (d = Down /\ Y a < Y b)
  \/ (d = Left /\ X b < X a) \/ (d = Right /\ X a < X b).

(** [pq.pop()]: the item shifted off the front and the items left. *)
Definition pq_pop (items : list PriorityQueueItem)
  : option PriorityQueueItem * list PriorityQueueItem :=
  match items with
  | [] => (None, [])
  | it :: rest => (Some it, rest)
  end.

(** Two points on one horizontal or vertical line, and a path all of whose
    segments are such. *)
Definition axisAligned (a b : GridCoord) : Prop := X a = X b \/ Y a = Y b.

Fixpoint rectilinear (p : list GridCoord) : Prop :=
  match p with
  | a :: (b :: _) as rest => axisAligned a b /\ rectilinear rest
  | _ => True
  end.

(** The glyph [drawLine] writes for a direction in the mode at hand. *)
Definition lineGlyph (useAscii : bool) (direction : Direction) : glyph :=
  if negb useAscii then unicodeLineGlyph direction else asciiLineGlyph direction.

(** [p] lies in the rectangle spanned by [a] and [b]. *)
Definition between (a b p : DrawingCoord) : Prop :=
  Z.min (X a) (X b) <= X p <= Z.max (X a) (X b)
  /\ Z.min (Y a) (Y b) <= Y p <= Z.max (Y a) (Y b).

(** *** Graphs as [makeGraph] builds them *)

(** The name of the node object behind a reference. *)
Definition nameOf (g : Graph.t) (r : nat) : option (list glyph) :=
  Node.name <$> Graph.nodes g !! r.

(** Every node holds its own position as [index], no two nodes have the
    same name, and the ends of every edge are nodes of the graph. *)
Definition WellFormed (g : Graph.t) : Prop :=
  (forall r n, Graph.nodes g !! r = Some n -> Node.index n = r)
  /\ List.NoDup (map Node.name (Graph.nodes g))
  /\ Forall (fun e => (Edge.from e < length (Graph.nodes g))%nat
                      /\ (Edge.to e < length (Graph.nodes g))%nat)
       (Graph.edges g).

(** The edges of the parsed chart, in the order of the entries: the key of
    the entry, the name of the child, the label. *)
Definition edgesOf (data : list (list glyph * list TextEdge.t))
  : list (list glyph * list glyph * list glyph) :=
  flat_map (fun entry =>
              map (fun textEdge =>
                     (fst entry, TextEdge.child textEdge, TextEdge.label textEdge))
                (snd entry))
    data.

(** The edges of a graph read through their references. *)
Definition edgesRead (g : Graph.t)
  : list (option (list glyph) * option (list glyph) * list glyph) :=
  map (fun e => (nameOf g (Edge.from e), nameOf g (Edge.to e), Edge.text e))
    (Graph.edges g).

(** The names a chart mentions: the keys of its entries and the children of
    its edges. *)
Definition namesOf (data : list (list glyph * list TextEdge.t))
  : list (list glyph) :=
  flat_map (fun entry => fst entry :: map TextEdge.child (snd entry)) data.

(** What the loops of [makeGraph] keep true: the running index is the number
    of nodes, and the edges read back as the edges [done] so far. *)
Definition built (done : list (list glyph * list glyph * list glyph))
    (names : list (list glyph)) (st : Graph.t * nat) : Prop :=
  snd st = length (Graph.nodes (fst st))
  /\ WellFormed (fst st)
  /\ edgesRead (fst st) = map (fun e => (Some (fst (fst e)), Some (snd (fst e)), snd e)) done
  /\ (forall name, In name (map Node.name (Graph.nodes (fst st))) <-> In name names)
  /\ fresh (fst st)
  /\ Graph.grid (fst st) = ∅.

(** *** Placement: which nodes are placed *)

(** The node behind a reference holds a grid coordinate. *)
Definition placed (g : Graph.t) (r : nat) : Prop :=
  exists n, Graph.nodes g !! r = Some n /\ is_Some (Node.gridCoord n).

(** [g'] is [g] with more nodes placed: names, indices and edges are the
    same, and a node placed in [g] is placed in [g']. *)
Definition placedMore (g g' : Graph.t) : Prop :=
  map Node.name (Graph.nodes g') = map Node.name (Graph.nodes g)
  /\ map Node.index (Graph.nodes g') = map Node.index (Graph.nodes g)
  /\ Graph.edges g' = Graph.edges g
  /\ forall r, placed g r -> placed g' r.

(** The state of the second loop of placement when it reaches position [i]:
    the roots are placed, and so are the nodes before [i] and their
    children. *)
Definition childrenPlaced (g0 : Graph.t) (i : nat) (st : Graph.t * list Z)
  : Prop :=
  placedMore g0 (fst st)
  /\ (forall r, In r (findRoots g0) -> placed (fst st) r)
  /\ forall j nj, (j < i)%nat -> Graph.nodes g0 !! j = Some nj ->
       placed (fst st) j
       /\ forall c, In c (getChildren g0 nj) -> placed (fst st) c.

(** A node is the child of an earlier node. *)
Definition childOfEarlier (g : Graph.t) (i : nat) : Prop :=
  exists j nj, (j < i)%nat /\ Graph.nodes g !! j = Some nj
               /\ In i (getChildren g nj).

(** Every node holds its position as its index. *)
Definition selfIndexed (g : Graph.t) : Prop :=
  forall r n, Graph.nodes g !! r = Some n -> Node.index n = r.

(** ** What [mergeDrawings] leaves in a cell *)

(** The character that the copy loop of [mergeDrawings] puts at [(x, y)]:
    that of the base drawing where [x < baseCanvas.length] and
    [y < baseCanvas[0].length], and the blank of the new canvas elsewhere. *)
Definition baseCell (baseCanvas : Canvas) (x y : Z) : glyph :=
  match baseCanvas with
  | [] => blank
  | col0 :: _ =>
      if (x <? Z.of_nat (length baseCanvas)) && (y <? Z.of_nat (length col0))
      then default blank (cellAt baseCanvas x y)
      else blank
  end.

(** The cell of the drawing [d] that the merge loop visits for the target
    [(x, y)], if there is one: [d[x - mergeCoord.x][y - mergeCoord.y]] with
    the indices inside [d.length] and [d[0].length]. *)
Definition sourceCell (d : Canvas) (mergeCoord : DrawingCoord) (x y : Z)
  : option glyph :=
  match d with
  | [] => None
  | col0 :: _ =>
      let px := x - X mergeCoord in
      let py := y - Y mergeCoord in
      if (0 <=? px) && (px <? Z.of_nat (length d))
         && (0 <=? py) && (py <? Z.of_nat (length col0))
      then cellAt d px py
      else None
  end.

(** What is written over [currentChar] for the character [c]. *)
Definition fuse (useAscii : bool) (currentChar c : glyph) : glyph :=
  if negb useAscii && isJunctionChar c && isJunctionChar currentChar
  then mergeJunctions currentChar c
  else c.

(** One drawing laid over a cell that holds [currentChar]. *)
Definition overlay (useAscii : bool) (mergeCoord : DrawingCoord) (x y : Z)
    (currentChar : glyph) (d : Canvas) : glyph :=
  match sourceCell d mergeCoord x y with
  | Some c => if (c =? blank)%N then currentChar else fuse useAscii currentChar c
  | None => currentChar
  end.

(** The drawings laid over the base one after the other, in their order. *)
Definition mergedCell (useAscii : bool) (baseDrawing : Canvas)
    (mergeCoord : DrawingCoord) (drawings : list Canvas) (x y : Z) : glyph :=
  fold_left (overlay useAscii mergeCoord x y) drawings (baseCell baseDrawing x y).

(** Every column has at least the cells of the first one, so that
    [canvas[x][y]] is defined for [y < canvas[0].length]. *)
Definition fullColumns (canvas : Canvas) : Prop :=
  match canvas with
  | [] => True
  | col0 :: _ => Forall (fun col => (length col0 <= length col)%nat) canvas
  end.

(** A canvas with the columns and rows of [new DrawingEngine(maxX, maxY)]. *)
Definition sized (maxX maxY : Z) (canvas : Canvas) : Prop :=
  shape canvas = shape (makeDrawing maxX maxY).

(** What one turn of the copy loop, at [p], does to the cell [(x, y)] that
    holds [cur]. *)
Definition copied (baseCanvas : Canvas) (p : DrawingCoord) (x y : Z) (cur : glyph)
  : glyph :=
  match baseCanvas with
  | [] => cur
  | col0 :: _ =>
      if (X p =? x) && (Y p =? y)
         && ((x <? Z.of_nat (length baseCanvas)) && (y <? Z.of_nat (length col0)))
      then default blank (cellAt baseCanvas x y)
      else cur
  end.

(** What one turn of the merge loop of the drawing [d], at [p], does to the
    cell [(x, y)] that holds [cur]. *)
Definition landed (useAscii : bool) (mergeCoord : DrawingCoord) (d : Canvas)
    (p : DrawingCoord) (x y : Z) (cur : glyph) : glyph :=
  match cellAt d (X p) (Y p) with
  | Some c =>
      if (c =? blank)%N then cur
      else if (X p + X mergeCoord =? x) && (Y p + Y mergeCoord =? y)
           then fuse useAscii cur c
           else cur
  | None => cur
  end.

(** ** What [drawBox] leaves in a cell *)

(** The border of a box with corners [(0, 0)] and [(w, h)], as the writes of
    [drawBox] leave it: the corner written last comes first, then the two
    vertical borders, then the two horizontal ones. *)
Definition borderGlyph (useAscii : bool) (w h x y : Z) : glyph :=
  if (x =? w) && (y =? h) then (if negb useAscii then ch "┘" else ch "+")
  else if (x =? 0) && (y =? h) then (if negb useAscii then ch "└" else ch "+")
  else if (x =? w) && (y =? 0) then (if negb useAscii then ch "┐" else ch "+")
  else if (x =? 0) && (y =? 0) then (if negb useAscii then ch "┌" else ch "+")
  else if (x =? w) && ((0 <? y) && (y <? h))
       then (if negb useAscii then ch "│" else ch "|")
  else if (x =? 0) && ((0 <? y) && (y <? h))
       then (if negb useAscii then ch "│" else ch "|")
  else if (y =? h) && ((0 <? x) && (x <? w))
       then (if negb useAscii then ch "─" else ch "-")
  else if (y =? 0) && ((0 <? x) && (x <? w))
       then (if negb useAscii then ch "─" else ch "-")
  else blank.

(** [text[i]] for an integer [i]; [None] outside the text. *)
Definition charAt (text : list glyph) (i : Z) : option glyph :=
  if i <? 0 then None else text !! Z.to_nat i.

(** The cell [(x, y)] of the box of a node called [name]: the name on the
    middle row, starting at [w / 2 - ceilDiv name.length 2 + 1], over the
    border. *)
Definition boxCell (useAscii : bool) (name : list glyph) (w h x y : Z) : glyph :=
  let textY := h / 2 in
  let textX := w / 2 - ceilDiv (Z.of_nat (length name)) 2 + 1 in
  match (if y =? textY then charAt name (x - textX) else None) with
  | Some g => g
  | None => borderGlyph useAscii w h x y
  end.

(** The body of the loop of [drawBox] that writes the name. *)
Definition writeNameChar (textX textY : Z) (c : Canvas) (xg : Z * glyph)
  : Outcome Canvas :=
  let targetX := textX + fst xg in
  if (0 <=? targetX) && (targetX <? Z.of_nat (length c)) && (0 <=? textY)
  then
    rows ← height0 c;
    if textY <? rows then writeCell c targetX textY (snd xg)
    else Returned c
  else Returned c.

(** * [mergePath]: simplification of a path *)

Section MergePath.

Implicit Types (a b c : GridCoord) (rest path : list GridCoord).

Lemma coord_equals_true a b : coord_equals a b = true <-> a = b.
Proof.
  unfold coord_equals. destruct a as [xa ya], b as [xb yb]; simpl.
  rewrite andb_true_iff, !Z.eqb_eq. split.
  - intros [-> ->]; reflexivity.
  - intros [= -> ->]; split; reflexivity.
Qed.

Lemma coord_equals_refl a : coord_equals a a = true.
Proof. apply coord_equals_true; reflexivity. Qed.

(** Two consecutive steps in the same direction compose to one step in that
    direction. *)
Lemma determineDirection_trans a b c :
  determineDirection a b = determineDirection b c ->
  determineDirection a c = determineDirection a b.
Proof.
  unfold determineDirection, Up, Down, Left, Right, UpperRight, UpperLeft,
    LowerRight, LowerLeft.
  destruct a as [xa ya], b as [xb yb], c as [xc yc]; simpl.
  repeat match goal with
         | |- context [Z.eqb ?p ?q] => destruct (Z.eqb_spec p q)
         | |- context [Z.ltb ?p ?q] => destruct (Z.ltb_spec p q)
         end; intros Hd; try discriminate Hd; try reflexivity; exfalso; lia.
Qed.

Lemma at_index_app_skip (pre : list GridCoord) c rest k :
  at_index (pre ++ c :: rest) (length pre + k) = at_index (c :: rest) k.
Proof.
  unfold at_index. rewrite app_nth2 by lia.
  f_equal. lia.
Qed.

Lemma mergePath_scan_spec rest : forall (pre : list GridCoord) s0 s1 rm,
  mergePath_scan (pre ++ s0 :: s1 :: rest) (length rest) (length pre) s0 s1 rm
  = rm ++ scan_rec (length pre) s0 s1 rest.
Proof.
  induction rest as [|s2 rest IH]; intros pre s0 s1 rm; simpl.
  - rewrite app_nil_r. reflexivity.
  - rewrite at_index_app_skip. change (at_index (s0 :: s1 :: s2 :: rest) 2) with s2.
    specialize (IH (pre ++ [s0]) s1 s2).
    rewrite <- app_assoc in IH. simpl in IH.
    rewrite length_app in IH. simpl in IH.
    replace (length pre + 1)%nat with (S (length pre)) in IH by lia.
    rewrite IH.
    destruct (coord_equals _ _); simpl.
    + rewrite <- app_assoc. reflexivity.
    + reflexivity.
Qed.

Lemma scan_rec_lower rest : forall idx s0 s1 i,
  In i (scan_rec idx s0 s1 rest) -> (idx < i)%nat.
Proof.
  induction rest as [|s2 rest IH]; intros idx s0 s1 i; simpl.
  - intros [].
  - rewrite in_app_iff. intros [Hi | Hi].
    + destruct (coord_equals _ _); simpl in Hi; [|contradiction].
      destruct Hi as [<- | []]. lia.
    + apply IH in Hi. lia.
Qed.

Lemma includes_false l idx :
  (forall i, In i l -> i <> idx) -> includes l idx = false.
Proof.
  intros H. unfold includes.
  destruct (existsb (Nat.eqb idx) l) eqn:E; [|reflexivity].
  apply existsb_exists in E. destruct E as (i & Hi & Heq).
  apply Nat.eqb_eq in Heq. subst i. exfalso. exact (H idx Hi eq_refl).
Qed.

Lemma includes_true l idx : In idx l -> includes l idx = true.
Proof.
  intros H. unfold includes. apply existsb_exists.
  exists idx. split; [exact H | apply Nat.eqb_refl].
Qed.

Lemma mergePath_keep_scan rest : forall idx s0 s1 (seen : list nat),
  (forall i, In i seen -> (i <= idx)%nat) ->
  mergePath_keep (seen ++ scan_rec idx s0 s1 rest) (S idx) (s1 :: rest)
  = mergePath_rec s0 s1 rest.
Proof.
  induction rest as [|s2 rest IH]; intros idx s0 s1 seen Hseen.
  - simpl. rewrite includes_false; [reflexivity|].
    intros i Hi. rewrite app_nil_r in Hi. apply Hseen in Hi. lia.
  - cbn [scan_rec mergePath_rec mergePath_keep].
    destruct (coord_equals (determineDirection s0 s1) (determineDirection s1 s2)).
    + rewrite includes_true.
      2:{ rewrite !in_app_iff. right. left. left. lia. }
      rewrite app_assoc. apply IH.
      intros i Hi. rewrite in_app_iff in Hi. destruct Hi as [Hi | [<- | []]].
      * apply Hseen in Hi. lia.
      * lia.
    + rewrite includes_false.
      2:{ intros i Hi. rewrite !in_app_iff in Hi.
          destruct Hi as [Hi | [[] | Hi]].
          - apply Hseen in Hi. lia.
          - apply scan_rec_lower in Hi. lia. }
      f_equal. simpl app. apply IH.
      intros i Hi. apply Hseen in Hi. lia.
Qed.

(** [mergePath] computes the structural reading. *)
Lemma mergePath_unfold a b rest :
  mergePath (a :: b :: rest) = a :: mergePath_rec a b rest.
Proof.
  destruct rest as [|c rest].
  - reflexivity.
  - unfold mergePath.
    change (length (a :: b :: c :: rest) <=? 2)%nat with false.
    cbv beta iota.
    change (length (a :: b :: c :: rest) - 2)%nat with (length (c :: rest)).
    change (at_index (a :: b :: c :: rest) 0) with a.
    change (at_index (a :: b :: c :: rest) 1) with b.
    pose proof (mergePath_scan_spec (c :: rest) [] a b []) as H.
    change (mergePath_scan (a :: b :: c :: rest) (length (c :: rest)) 0 a b []
            = scan_rec 0 a b (c :: rest)) in H.
    rewrite H. clear H.
    cbn [mergePath_keep].
    rewrite includes_false.
    2:{ intros i Hi. apply scan_rec_lower in Hi. lia. }
    f_equal.
    apply (mergePath_keep_scan (c :: rest) 0%nat a b []).
    intros i [].
Qed.

Lemma mergePath_short path : (length path <= 2)%nat -> mergePath path = path.
Proof.
  intros H. unfold mergePath.
  destruct (Nat.leb_spec (length path) 2); [reflexivity | lia].
Qed.

Lemma mergePath_rec_length rest : forall a b,
  (1 <= length (mergePath_rec a b rest) <= S (length rest))%nat.
Proof.
  induction rest as [|c rest IH]; intros a b; simpl.
  - lia.
  - specialize (IH b c). destruct (coord_equals _ _); simpl; lia.
Qed.

Lemma mergePath_rec_last rest : forall a b,
  last (mergePath_rec a b rest) = last (b :: rest).
Proof.
  induction rest as [|c rest IH]; intros a b.
  - reflexivity.
  - cbn [mergePath_rec]. specialize (IH b c).
    pose proof (mergePath_rec_length rest b c) as Hl.
    destruct (coord_equals _ _).
    + rewrite IH. rewrite (last_cons_cons b c). reflexivity.
    + destruct (mergePath_rec b c rest) as [|r0 r] eqn:E; [simpl in Hl; lia|].
      rewrite last_cons_cons, IH, (last_cons_cons b c). reflexivity.
Qed.

(** The first element kept after [a] lies in the direction of the first
    step, and what is kept is reduced. *)
Lemma mergePath_rec_reduced rest : forall a b,
  exists r0 r, mergePath_rec a b rest = r0 :: r
    /\ determineDirection a r0 = determineDirection a b
    /\ reduced a r0 r.
Proof.
  induction rest as [|c rest IH]; intros a b.
  - exists b, []. simpl. auto.
  - cbn [mergePath_rec].
    destruct (IH b c) as (r0 & r & Hr & Hdir & Hred).
    destruct (coord_equals (determineDirection a b) (determineDirection b c)) eqn:E.
    + apply coord_equals_true in E.
      assert (Hab : determineDirection a r0 = determineDirection a b).
      { apply determineDirection_trans. congruence. }
      exists r0, r. split; [exact Hr|]. split; [exact Hab|].
      destruct r as [|r1 r]; [exact I|].
      destruct Hred as [Hne Hred]. split; [|exact Hred].
      rewrite Hab, E, <- Hdir. exact Hne.
    + exists b, (r0 :: r). rewrite Hr. split; [reflexivity|].
      split; [reflexivity|]. split; [|exact Hred].
      rewrite Hdir. exact E.
Qed.

Lemma mergePath_rec_id rest : forall a b,
  reduced a b rest -> mergePath_rec a b rest = b :: rest.
Proof.
  induction rest as [|c rest IH]; intros a b Hred.
  - reflexivity.
  - destruct Hred as [Hne Hred]. cbn [mergePath_rec]. rewrite Hne.
    f_equal. apply IH. exact Hred.
Qed.

Lemma mergePath_idempotent path : mergePath (mergePath path) = mergePath path.
Proof.
  destruct path as [|a [|b rest]]; try reflexivity.
  rewrite mergePath_unfold.
  destruct (mergePath_rec_reduced rest a b) as (r0 & r & Hr & _ & Hred).
  rewrite Hr, mergePath_unfold. f_equal.
  apply mergePath_rec_id. exact Hred.
Qed.

(** C4. Path simplification is idempotent, never lengthens the path, keeps
    its first and its last element, and is the identity on every path of
    length at most 2. *)
Theorem mergePath_simplification (path : list GridCoord) :
  mergePath (mergePath path) = mergePath path
  /\ (length (mergePath path) <= length path)%nat
  /\ head (mergePath path) = head path
  /\ last (mergePath path) = last path
  /\ ((length path <= 2)%nat -> mergePath (path) = path).
Proof.
  split; [apply mergePath_idempotent|].
  split; [|split; [|split; [|apply mergePath_short]]].
  - destruct path as [|a [|b rest]]; try (simpl; lia).
    rewrite mergePath_unfold. simpl.
    pose proof (mergePath_rec_length rest a b). lia.
  - destruct path as [|a [|b rest]]; try reflexivity.
    rewrite mergePath_unfold. reflexivity.
  - destruct path as [|a [|b rest]]; try reflexivity.
    rewrite mergePath_unfold.
    pose proof (mergePath_rec_length rest a b) as Hl.
    destruct (mergePath_rec a b rest) as [|r0 r] eqn:E; [simpl in Hl; lia|].
    rewrite last_cons_cons, <- E, mergePath_rec_last.
    rewrite (last_cons_cons a b). reflexivity.
Qed.

End MergePath.

(** * The canvas and the junction table *)

Section Resize.

Implicit Types (canvas newDrawing : Canvas) (src dst : list glyph).

Lemma max_spec x y : max x y = Z.max x y.
Proof. unfold max. destruct (Z.gtb_spec x y); lia. Qed.

Lemma copyColumn_length src : forall dst,
  length (copyColumn src dst) = Nat.max (length src) (length dst).
Proof.
  induction src as [|c src IH]; intros dst.
  - reflexivity.
  - destruct dst as [|d dst]; simpl; rewrite IH; simpl; lia.
Qed.

Lemma copyColumn_nth src : forall dst j g,
  nth_error src j = Some g -> nth_error (copyColumn src dst) j = Some g.
Proof.
  induction src as [|c src IH]; intros dst j g Hj.
  - destruct j; discriminate Hj.
  - destruct j as [|j]; destruct dst as [|d dst]; simpl in *;
      try exact Hj; apply IH; exact Hj.
Qed.

Lemma copyCanvas_length canvas : forall newDrawing,
  (length canvas <= length newDrawing)%nat ->
  length (copyCanvas canvas newDrawing) = length newDrawing.
Proof.
  induction canvas as [|col canvas IH]; intros newDrawing Hle.
  - reflexivity.
  - destruct newDrawing as [|ncol newDrawing]; simpl in *; [lia|].
    rewrite IH by lia. reflexivity.
Qed.

Lemma copyCanvas_nth canvas : forall newDrawing i col,
  (length canvas <= length newDrawing)%nat ->
  nth_error canvas i = Some col ->
  exists ncol, nth_error newDrawing i = Some ncol
    /\ nth_error (copyCanvas canvas newDrawing) i = Some (copyColumn col ncol).
Proof.
  induction canvas as [|col0 canvas IH]; intros newDrawing i col Hle Hi.
  - destruct i; discriminate Hi.
  - destruct newDrawing as [|ncol newDrawing]; simpl in Hle; [lia|].
    destruct i as [|i]; simpl in *.
    + injection Hi as ->. exists ncol. auto.
    + apply IH; [lia | exact Hi].
Qed.

Lemma makeDrawing_length x y : length (makeDrawing x y) = Z.to_nat (x + 1).
Proof. unfold makeDrawing. apply repeat_length. Qed.

Lemma increaseSize_columns canvas x y :
  (length canvas <= length (makeDrawing (max x (fst (getDrawingSize canvas)))
                                            (max y (snd (getDrawingSize canvas)))))%nat.
Proof.
  rewrite makeDrawing_length, !max_spec.
  destruct canvas as [|col0 canvas]; simpl; lia.
Qed.

Lemma increaseSize_cell canvas x y i j g :
  cellAt canvas i j = Some g -> cellAt (increaseSize canvas x y) i j = Some g.
Proof.
  unfold cellAt. destruct ((i <? 0) || (j <? 0)); [discriminate|].
  destruct (nth_error canvas (Z.to_nat i)) as [col|] eqn:Hcol; [|discriminate].
  intros Hg. unfold increaseSize.
  pose proof (increaseSize_columns canvas x y) as Hle.
  destruct (getDrawingSize canvas) as [cx cy]. simpl in Hle.
  destruct (copyCanvas_nth canvas _ _ _ Hle Hcol) as (ncol & _ & ->).
  apply copyColumn_nth. exact Hg.
Qed.

Lemma increaseSize_size canvas x y :
  getDrawingSize (increaseSize canvas x y)
  = (Z.max x (fst (getDrawingSize canvas)), Z.max y (snd (getDrawingSize canvas))).
Proof.
  unfold increaseSize.
  pose proof (increaseSize_columns canvas x y) as Hle.
  destruct canvas as [|col0 canvas].
  - simpl. rewrite !max_spec. unfold makeDrawing.
    destruct (Z.to_nat (Z.max x 0 + 1)) as [|n] eqn:En; [lia|].
    simpl. rewrite repeat_length, repeat_length. f_equal; lia.
  - cbn [getDrawingSize fst snd] in *.
    set (cx := Z.of_nat (length (col0 :: canvas)) - 1) in *.
    set (cy := Z.of_nat (length col0) - 1) in *.
    rewrite !max_spec in *.
    assert (Hcx : 0 <= cx) by (subst cx; simpl; lia).
    assert (Hcy : -1 <= cy) by (subst cy; lia).
    unfold makeDrawing in *.
    destruct (Z.to_nat (Z.max x cx + 1)) as [|n] eqn:En; [lia|].
    cbn [repeat copyCanvas getDrawingSize].
    cbn [length]. rewrite copyColumn_length, repeat_length.
    rewrite copyCanvas_length.
    2:{ rewrite repeat_length in *. simpl in Hle. lia. }
    rewrite repeat_length. f_equal; [lia|].
    subst cy. lia.
Qed.

(** C7. Resizing yields a buffer whose dimensions are the component-wise
    maximum of the current and the requested ones, so it never shrinks, and
    every cell that existed before holds the same character afterwards. *)
Theorem increaseSize_preserves (canvas : Canvas) (x y : Z) :
  let '(currSizeX, currSizeY) := getDrawingSize canvas in
  let '(newSizeX, newSizeY) := getDrawingSize (increaseSize canvas x y) in
  newSizeX = Z.max x currSizeX /\ newSizeY = Z.max y currSizeY
  /\ currSizeX <= newSizeX /\ currSizeY <= newSizeY
  /\ forall i j g, cellAt canvas i j = Some g ->
                   cellAt (increaseSize canvas x y) i j = Some g.
Proof.
  rewrite increaseSize_size.
  destruct (getDrawingSize canvas) as [cx cy]. cbn [fst snd].
  repeat split; try lia.
  intros i j g. apply increaseSize_cell.
Qed.

End Resize.

Section Junctions.

(** C8. Merging the horizontal line onto the vertical line gives the same
    glyph as merging the vertical onto the horizontal: the cross. *)
Theorem mergeJunctions_cross :
  mergeJunctions (ch "─") (ch "│") = ch "┼"
  /\ mergeJunctions (ch "│") (ch "─") = ch "┼".
Proof. split; vm_compute; reflexivity. Qed.

Lemma record_get_In {V : Type} (r : list (glyph * V)) k v :
  record_get r k = Some v -> In (k, v) r.
Proof.
  induction r as [|[k' v'] r IH]; simpl; [discriminate|].
  destruct (N.eqb_spec k' k) as [->|Hne].
  - intros [= ->]. left. reflexivity.
  - intros H. right. apply IH. exact H.
Qed.

Lemma mergeJunctions_no_entry c1 c2 :
  junctionEntry c1 c2 = None -> mergeJunctions c1 c2 = c1.
Proof. unfold mergeJunctions. intros ->. reflexivity. Qed.

Lemma mergeJunctions_absent_right g c :
  absentFromRows g = true -> mergeJunctions c g = c.
Proof.
  intros Habs. apply mergeJunctions_no_entry. unfold junctionEntry.
  destruct (record_get junctionMap c) as [r|] eqn:Hr; [|reflexivity].
  apply record_get_In in Hr.
  unfold absentFromRows in Habs. rewrite forallb_forall in Habs.
  specialize (Habs _ Hr). simpl in Habs.
  destruct (record_get r g); [discriminate | reflexivity].
Qed.

Lemma mergeJunctions_no_row g c :
  record_get junctionMap g = None -> mergeJunctions g c = g.
Proof.
  intros Hrow. apply mergeJunctions_no_entry.
  unfold junctionEntry. rewrite Hrow. reflexivity.
Qed.

(** C10. Without an entry in the fusion table [mergeJunctions] returns its
    first argument. The cross and the four half-line ends are junction
    characters, yet have no row and occur in no row: merging anything onto
    one of them leaves it in place, and merging one of them onto anything
    leaves that in place. *)
Theorem mergeJunctions_fallback :
  (forall c1 c2, junctionEntry c1 c2 = None -> mergeJunctions c1 c2 = c1)
  /\ Forall (fun g =>
       isJunctionChar g = true
       /\ record_get junctionMap g = None
       /\ (forall c, junctionEntry g c = None /\ mergeJunctions g c = g)
       /\ (forall c, junctionEntry c g = None /\ mergeJunctions c g = c))
     unfusedJunctionChars.
Proof.
  split; [exact mergeJunctions_no_entry|].
  assert (H : forall g, isJunctionChar g = true ->
                        record_get junctionMap g = None ->
                        absentFromRows g = true ->
            isJunctionChar g = true
            /\ record_get junctionMap g = None
            /\ (forall c, junctionEntry g c = None /\ mergeJunctions g c = g)
            /\ (forall c, junctionEntry c g = None /\ mergeJunctions c g = c)).
  { intros g Hj Hrow Habs. split; [exact Hj|]. split; [exact Hrow|]. split.
    - intros c. split; [|apply mergeJunctions_no_row; exact Hrow].
      unfold junctionEntry. rewrite Hrow. reflexivity.
    - intros c. split; [|apply mergeJunctions_absent_right; exact Habs].
      pose proof (mergeJunctions_absent_right g c Habs) as Hm.
      unfold junctionEntry.
      destruct (record_get junctionMap c) as [r|] eqn:Hr; [|reflexivity].
      apply record_get_In in Hr.
      unfold absentFromRows in Habs. rewrite forallb_forall in Habs.
      specialize (Habs _ Hr). simpl in Habs.
      destruct (record_get r g); [discriminate | reflexivity]. }
  unfold unfusedJunctionChars.
  repeat (apply List.Forall_cons; [apply H; vm_compute; reflexivity|]).
  apply List.Forall_nil.
Qed.

End Junctions.

(** * [getPath]: what the loop keeps true *)

Section SearchBasics.

Implicit Types (c : GridCoord) (it : PriorityQueueItem).

Lemma coordKey_inj a b : coordKey a = coordKey b -> a = b.
Proof. destruct a, b. unfold coordKey. simpl. intros [= -> ->]. reflexivity. Qed.

Lemma key_eqb_true a b : key_eqb a b = true <-> a = b.
Proof.
  unfold key_eqb. rewrite bool_decide_eq_true. split.
  - apply coordKey_inj.
  - intros ->. reflexivity.
Qed.

Lemma key_eqb_false a b : key_eqb a b = false <-> a <> b.
Proof.
  rewrite <- key_eqb_true. destruct (key_eqb a b); split; congruence.
Qed.

Lemma coordKey_ne a b : a <> b -> coordKey a <> coordKey b.
Proof. intros H E. apply H, coordKey_inj, E. Qed.

(** *** The priority queue *)

Lemma sortInsert_In it x sorted :
  In it (sortInsert x sorted) <-> it = x \/ In it sorted.
Proof.
  induction sorted as [|h t IH]; simpl.
  - intuition.
  - destruct (priority x <=? priority h); simpl; [intuition|].
    rewrite IH. intuition.
Qed.

Lemma sortByPriority_In it items :
  In it (sortByPriority items) <-> In it items.
Proof.
  induction items as [|h t IH]; simpl; [reflexivity|].
  rewrite sortInsert_In, IH. intuition.
Qed.

Lemma pq_push_In it items item :
  In it (pq_push items item) <-> In it items \/ it = item.
Proof.
  unfold pq_push. rewrite sortByPriority_In, in_app_iff. simpl. intuition.
Qed.

Lemma directions_adjacent current dir :
  In dir directions -> adjacent current (step_of current dir).
Proof.
  unfold directions, adjacent, step_of. simpl.
  intros [<- | [<- | [<- | [<- | []]]]]; simpl; lia.
Qed.

End SearchBasics.

Section Search.

Variable isFreeInGrid : GridCoord -> bool.
Variables from to : GridCoord.

Implicit Types (st : SearchState) (c : GridCoord) (it : PriorityQueueItem).

(** *** One neighbour *)

Lemma visit_inv st current dir :
  SearchInv isFreeInGrid from to st ->
  current <> to ->
  is_Some (costSoFar st !! coordKey current) ->
  In dir directions ->
  exists st',
    visit isFreeInGrid to current st dir = Returned st'
    /\ SearchInv isFreeInGrid from to st'
    /\ is_Some (costSoFar st' !! coordKey current)
    /\ (forall it, In it (pq st) -> In it (pq st')).
Proof.
  intros Hinv Hcur [cc Hcc] Hdir.
  pose proof (directions_adjacent current dir Hdir) as Hadj.
  unfold visit. fold (step_of current dir).
  set (next := step_of current dir) in *.
  destruct (negb (isFreeInGrid next) && negb (key_eqb next to)) eqn:Hacc.
  { exists st. split; [reflexivity|]. split; [exact Hinv|]. split; [eauto | auto]. }
  assert (Hfree : isFreeInGrid next = true \/ next = to).
  { apply andb_false_iff in Hacc. destruct Hacc as [H | H].
    - left. apply negb_false_iff, H.
    - right. apply key_eqb_true, negb_false_iff, H. }
  rewrite Hcc.
  pose proof (inv_nonneg _ _ _ _ Hinv _ _ Hcc) as Hcc0.
  assert (Hupd : forall existing,
     costSoFar st !! coordKey next = existing ->
     (forall e, existing = Some e -> cc + 1 < e) ->
     let st' := {| costSoFar := <[coordKey next := cc + 1]> (costSoFar st);
                   pq := pq_push (pq st) (Item next (cc + 1 + heuristic next to));
                   cameFrom := <[coordKey next := Some current]> (cameFrom st) |} in
     SearchInv isFreeInGrid from to st'
     /\ is_Some (costSoFar st' !! coordKey current)
     /\ (forall it, In it (pq st) -> In it (pq st'))).
  { intros existing Hex Hlt st'.
    assert (Hnf : next <> from).
    { intros ->. rewrite (inv_from_cost _ _ _ _ Hinv) in Hex.
      specialize (Hlt 0 (eq_sym Hex)). lia. }
    assert (Hnc : next <> current).
    { intros E. rewrite E in Hex. rewrite Hcc in Hex.
      specialize (Hlt cc (eq_sym Hex)). lia. }
    split; [|split].
    - constructor; simpl.
      + rewrite lookup_insert_ne by (apply coordKey_ne; exact Hnf). apply Hinv.
      + rewrite lookup_insert_ne by (apply coordKey_ne; exact Hnf). apply Hinv.
      + intros c n. rewrite lookup_insert.
        destruct (decide (coordKey next = coordKey c)) as [E|E].
        * intros [= <-]. lia.
        * apply Hinv.
      + intros c n. rewrite !lookup_insert.
        destruct (decide (coordKey next = coordKey c)) as [E|E].
        * apply coordKey_inj in E. subst c. intros [= <-] _.
          exists current, cc. rewrite lookup_insert_ne by (apply coordKey_ne; congruence).
          repeat split; auto. lia.
        * intros Hc Hcf.
          destruct (inv_parent _ _ _ _ Hinv c n Hc Hcf)
            as (parent & m & Hp & Hm & Hle & Hpa & Hpt & Hpf).
          destruct (decide (coordKey next = coordKey parent)) as [E'|E'].
          -- apply coordKey_inj in E'. subst parent.
             exists next, (cc + 1). rewrite lookup_insert_eq.
             rewrite Hm in Hex. specialize (Hlt m (eq_sym Hex)).
             repeat split; auto. lia.
          -- exists parent, m. rewrite lookup_insert_ne by exact E'.
             repeat split; auto.
      + intros it Hit. apply pq_push_In in Hit. destruct Hit as [Hit | ->].
        * destruct (inv_queue _ _ _ _ Hinv it Hit) as [v Hv].
          rewrite lookup_insert. destruct (decide _); eauto.
        * simpl. rewrite lookup_insert_eq. eauto.
    - simpl. rewrite lookup_insert_ne by (apply coordKey_ne; exact Hnc). eauto.
    - intros it Hit. simpl. apply pq_push_In. left. exact Hit. }
  destruct (costSoFar st !! coordKey next) as [existing|] eqn:Hex.
  - destruct (Z.ltb_spec (cc + 1) existing) as [Hlt|Hge].
    + eexists. split; [reflexivity|]. apply (Hupd (Some existing) eq_refl).
      intros e [= <-]. exact Hlt.
    + exists st. split; [reflexivity|]. split; [exact Hinv|]. split; [eauto | auto].
  - eexists. split; [reflexivity|]. apply (Hupd None eq_refl).
    intros e [=].
Qed.

(** The three ways a visit can go. *)
Lemma visit_cases st current dir cc :
  costSoFar st !! coordKey current = Some cc ->
  let next := step_of current dir in
  let upd := {| costSoFar := <[coordKey next := cc + 1]> (costSoFar st);
                pq := pq_push (pq st) (Item next (cc + 1 + heuristic next to));
                cameFrom := <[coordKey next := Some current]> (cameFrom st) |} in
  (visit isFreeInGrid to current st dir = Returned st
   /\ isFreeInGrid next = false /\ next <> to)
  \/ (visit isFreeInGrid to current st dir = Returned st
      /\ exists e, costSoFar st !! coordKey next = Some e /\ e <= cc + 1)
  \/ (visit isFreeInGrid to current st dir = Returned upd
      /\ (isFreeInGrid next = true \/ next = to)
      /\ forall e, costSoFar st !! coordKey next = Some e -> cc + 1 < e).
Proof.
  intros Hcc next upd. unfold visit. fold (step_of current dir). fold next.
  destruct (negb (isFreeInGrid next) && negb (key_eqb next to)) eqn:Hacc.
  { left. apply andb_true_iff in Hacc. destruct Hacc as [H1 H2].
    apply negb_true_iff in H1, H2. apply key_eqb_false in H2. auto. }
  right.
  assert (Hfree : isFreeInGrid next = true \/ next = to).
  { apply andb_false_iff in Hacc. destruct Hacc as [H | H].
    - left. apply negb_false_iff, H.
    - right. apply key_eqb_true, negb_false_iff, H. }
  rewrite Hcc.
  destruct (costSoFar st !! coordKey next) as [existing|] eqn:Hex.
  - destruct (Z.ltb_spec (cc + 1) existing) as [Hlt|Hge].
    + right. split; [reflexivity|]. split; [exact Hfree|].
      intros e [= <-]. exact Hlt.
    + left. split; [reflexivity|]. exists existing. auto.
  - right. split; [reflexivity|]. split; [exact Hfree|]. intros e [=].
Qed.

Lemma forEach_visit_inv current dirs : forall st,
  SearchInv isFreeInGrid from to st ->
  current <> to ->
  is_Some (costSoFar st !! coordKey current) ->
  (forall d, In d dirs -> In d directions) ->
  exists st',
    forEach (visit isFreeInGrid to current) dirs st = Returned st'
    /\ SearchInv isFreeInGrid from to st'
    /\ (forall it, In it (pq st) -> In it (pq st')).
Proof.
  induction dirs as [|d dirs IH]; intros st Hinv Hcur Hcost Hsub.
  - exists st. split; [reflexivity|]. split; [exact Hinv | auto].
  - destruct (visit_inv st current d Hinv Hcur Hcost) as (st1 & Hv & Hinv1 & Hc1 & Hq1).
    { apply Hsub. left. reflexivity. }
    destruct (IH st1 Hinv1 Hcur Hc1) as (st2 & Hf & Hinv2 & Hq2).
    { intros d' Hd'. apply Hsub. right. exact Hd'. }
    exists st2. split; [|split; [exact Hinv2 | auto]].
    simpl. rewrite Hv. simpl. exact Hf.
Qed.

(** *** One iteration *)

Lemma popped_inv st currentItem items :
  SearchInv isFreeInGrid from to st ->
  pq st = currentItem :: items ->
  SearchInv isFreeInGrid from to
    {| pq := items; costSoFar := costSoFar st; cameFrom := cameFrom st |}.
Proof.
  intros Hinv Hpq. constructor; simpl; try apply Hinv.
  intros it Hit. apply (inv_queue _ _ _ _ Hinv). rewrite Hpq. right. exact Hit.
Qed.

Lemma searchStep_cases fuel st :
  SearchInv isFreeInGrid from to st ->
  (pq st = [] /\ searchStep fuel isFreeInGrid to st = Done (Thrown "No path found"))
  \/ (exists currentItem items, pq st = currentItem :: items
        /\ coord currentItem = to
        /\ searchStep fuel isFreeInGrid to st
           = Done (reconstruct fuel (cameFrom st) (Some to) []))
  \/ (exists currentItem items st', pq st = currentItem :: items
        /\ coord currentItem <> to
        /\ forEach (visit isFreeInGrid to (coord currentItem)) directions
             {| pq := items; costSoFar := costSoFar st; cameFrom := cameFrom st |}
           = Returned st'
        /\ searchStep fuel isFreeInGrid to st = Continue st'
        /\ SearchInv isFreeInGrid from to st').
Proof.
  intros Hinv. unfold searchStep.
  destruct (pq st) as [|currentItem items] eqn:Hpq; [left; auto|right].
  destruct (key_eqb (coord currentItem) to) eqn:Hk.
  - left. apply key_eqb_true in Hk. exists currentItem, items.
    rewrite Hk. auto.
  - right. apply key_eqb_false in Hk.
    pose proof (popped_inv st currentItem items Hinv Hpq) as Hinv'.
    destruct (forEach_visit_inv (coord currentItem) directions _ Hinv' Hk)
      as (st' & Hf & Hinv'' & _).
    { simpl. apply (inv_queue _ _ _ _ Hinv). rewrite Hpq. left. reflexivity. }
    { auto. }
    exists currentItem, items, st'. rewrite Hf. auto.
Qed.

Lemma searchStep_inv fuel st st' :
  SearchInv isFreeInGrid from to st ->
  searchStep fuel isFreeInGrid to st = Continue st' ->
  SearchInv isFreeInGrid from to st'.
Proof.
  intros Hinv Hstep.
  destruct (searchStep_cases fuel st Hinv)
    as [[_ H] | [(ci & items & _ & _ & H) | (ci & items & st1 & _ & _ & _ & H & Hinv1)]];
    rewrite H in Hstep; try discriminate.
  injection Hstep as <-. exact Hinv1.
Qed.

Lemma searchInit_inv : SearchInv isFreeInGrid from to (searchInit from).
Proof.
  constructor; simpl.
  - apply lookup_singleton_eq.
  - apply lookup_singleton_eq.
  - intros c n. rewrite lookup_singleton.
    destruct (decide _); [intros [= <-]; lia | discriminate].
  - intros c n. rewrite lookup_singleton.
    destruct (decide (coordKey from = coordKey c)) as [E|E]; [|discriminate].
    apply coordKey_inj in E. congruence.
  - intros it [<- | []]. simpl. rewrite lookup_singleton_eq. eauto.
Qed.

Lemma searchReaches_inv fuel st0 st :
  SearchInv isFreeInGrid from to st0 ->
  searchReaches isFreeInGrid to fuel st0 st ->
  SearchInv isFreeInGrid from to st.
Proof.
  intros H0 Hr. induction Hr as [st0|st0 st' st'' Hr IH Hs].
  - exact H0.
  - eapply searchStep_inv; [apply IH; exact H0 | exact Hs].
Qed.

(** *** Reconstruction *)

Lemma chain_from : chain isFreeInGrid from to from [from].
Proof.
  unfold chain. simpl. repeat split; auto.
Qed.

Lemma last_snoc_coord (p : list GridCoord) c : last (p ++ [c]) = Some c.
Proof. apply last_snoc. Qed.

Lemma connected_snoc (p : list GridCoord) a b :
  connected p -> last p = Some a -> adjacent a b -> connected (p ++ [b]).
Proof.
  induction p as [|x p IH]; intros Hc Hl Hadj; [discriminate|].
  destruct p as [|y p].
  - simpl in Hl. injection Hl as ->. simpl. auto.
  - destruct Hc as [Hxy Hc]. split; [exact Hxy|].
    apply IH; auto.
Qed.

Lemma chain_extend parent c p :
  chain isFreeInGrid from to parent p ->
  adjacent parent c -> parent <> to ->
  (isFreeInGrid c = true \/ c = to) ->
  chain isFreeInGrid from to c (p ++ [c]).
Proof.
  intros (Hh & Hl & Hc & Ht & Hr) Hadj Hpt Hfree.
  destruct p as [|x p]; [discriminate|].
  unfold chain. split; [exact Hh|]. split; [apply last_snoc|].
  split; [eapply connected_snoc; eauto|]. split.
  - simpl in *. apply Forall_app. split; [exact Ht|]. constructor; auto.
  - rewrite removelast_last.
    assert (E : x :: p = removelast (x :: p) ++ [parent]).
    { rewrite (app_removelast_last origin) at 1 by discriminate.
      f_equal. f_equal.
      rewrite last_Some in Hl. destruct Hl as (l' & Hl). rewrite Hl.
      rewrite List.last_last. reflexivity. }
    rewrite E. apply Forall_app. split; [exact Hr|]. constructor; auto.
Qed.

Lemma reconstruct_null fuel cf (path : list GridCoord) :
  reconstruct fuel cf None path = Returned path.
Proof. destruct fuel; reflexivity. Qed.

Lemma reconstruct_chain st : SearchInv isFreeInGrid from to st ->
  forall fuel c n acc,
  costSoFar st !! coordKey c = Some n ->
  reconstruct fuel (cameFrom st) (Some c) acc = OutOfFuel
  \/ exists p, reconstruct fuel (cameFrom st) (Some c) acc = Returned (p ++ acc)
               /\ chain isFreeInGrid from to c p
               /\ Z.of_nat (length p) <= n + 1.
Proof.
  intros Hinv. induction fuel as [|fuel IH]; intros c n acc Hc; [left; reflexivity|].
  simpl. destruct (decide (c = from)) as [->|Hcf].
  - right. rewrite (inv_from_came _ _ _ _ Hinv). simpl.
    rewrite reconstruct_null.
    exists [from]. split; [reflexivity|]. split; [apply chain_from|].
    pose proof (inv_nonneg _ _ _ _ Hinv _ _ Hc). simpl. lia.
  - destruct (inv_parent _ _ _ _ Hinv c n Hc Hcf)
      as (parent & m & Hp & Hm & Hle & Hpa & Hpt & Hpf).
    rewrite Hp. simpl.
    destruct (IH parent m (c :: acc) Hm) as [Ht | (p & Hr & Hch & Hlen)].
    + left. exact Ht.
    + right. exists (p ++ [c]). rewrite <- app_assoc. simpl.
      split; [exact Hr|]. split; [eapply chain_extend; eauto|].
      rewrite length_app. simpl. lia.
Qed.

Lemma reconstruct_enough st : SearchInv isFreeInGrid from to st ->
  forall fuel c n acc,
  costSoFar st !! coordKey c = Some n ->
  n < Z.of_nat fuel ->
  reconstruct fuel (cameFrom st) (Some c) acc <> OutOfFuel.
Proof.
  intros Hinv. induction fuel as [|fuel IH]; intros c n acc Hc Hn.
  - pose proof (inv_nonneg _ _ _ _ Hinv _ _ Hc). lia.
  - simpl. destruct (decide (c = from)) as [->|Hcf].
    + rewrite (inv_from_came _ _ _ _ Hinv). simpl.
      rewrite reconstruct_null. discriminate.
    + destruct (inv_parent _ _ _ _ Hinv c n Hc Hcf)
        as (parent & m & Hp & Hm & Hle & Hpa & Hpt & Hpf).
      rewrite Hp. simpl. eapply IH; eauto. lia.
Qed.

(** *** The whole loop *)

Lemma searchLoop_result fuel0 : forall fuel st,
  SearchInv isFreeInGrid from to st ->
  match searchLoop fuel0 fuel isFreeInGrid to st with
  | Returned p => chain isFreeInGrid from to to p
  | Thrown msg =>
      msg = "No path found"%string
      /\ exists st', searchReaches isFreeInGrid to fuel0 st st' /\ pq st' = []
  | OutOfFuel => True
  | OutOfModel => False
  end.
Proof.
  induction fuel as [|fuel IH]; intros st Hinv; [exact I|].
  simpl.
  destruct (searchStep_cases fuel0 st Hinv)
    as [[Hpq H] | [(ci & items & Hpq & Hto & H) | (ci & items & st1 & _ & _ & _ & H & Hinv1)]];
    rewrite H.
  - split; [reflexivity|]. exists st. split; [constructor | exact Hpq].
  - assert (Hcost : is_Some (costSoFar st !! coordKey to)).
    { rewrite <- Hto. apply (inv_queue _ _ _ _ Hinv). rewrite Hpq. left. reflexivity. }
    destruct Hcost as [n Hn].
    destruct (reconstruct_chain st Hinv fuel0 to n [] Hn) as [-> | (p & -> & Hch & _)];
      [exact I|].
    rewrite app_nil_r. exact Hch.
  - specialize (IH st1 Hinv1).
    destruct (searchLoop fuel0 fuel isFreeInGrid to st1); auto.
    destruct IH as [Hm (st' & Hr & Hq)]. split; [exact Hm|].
    exists st'. split; [|exact Hq].
    clear - Hr H. induction Hr.
    + eapply reaches_step; [constructor | exact H].
    + eapply reaches_step; eauto.
Qed.

End Search.

(** * [getPath]: when the loop ends *)

Section Measure.

Implicit Types (c : GridCoord) (l : list GridCoord) (f g : GridCoord -> nat).

Lemma sumOver_ext f g l :
  (forall c, In c l -> f c = g c) -> sumOver f l = sumOver g l.
Proof.
  induction l as [|a l IH]; intros H; simpl; [reflexivity|].
  rewrite (H a) by (left; reflexivity). rewrite IH; [reflexivity|].
  intros c Hc. apply H. right. exact Hc.
Qed.

Lemma sumOver_change f g l x :
  List.NoDup l -> In x l -> (forall c, c <> x -> f c = g c) ->
  (sumOver f l + g x = sumOver g l + f x)%nat.
Proof.
  intros Hnd. induction Hnd as [|a l Hna Hnd IH]; intros Hx Hfg; [destruct Hx|].
  simpl. destruct Hx as [-> | Hx].
  - rewrite (sumOver_ext f g l); [lia|].
    intros c Hc. apply Hfg. intros ->. contradiction.
  - rewrite (Hfg a) by (intros ->; contradiction).
    specialize (IH Hx Hfg). lia.
Qed.

Lemma sortInsert_perm it sorted : Permutation (sortInsert it sorted) (it :: sorted).
Proof.
  induction sorted as [|h t IH]; simpl; [reflexivity|].
  destruct (priority it <=? priority h); [reflexivity|].
  rewrite IH. apply perm_swap.
Qed.

Lemma sortByPriority_perm items : Permutation (sortByPriority items) items.
Proof.
  induction items as [|h t IH]; simpl; [reflexivity|].
  rewrite sortInsert_perm, IH. reflexivity.
Qed.

Lemma pq_push_perm items item : Permutation (pq_push items item) (item :: items).
Proof.
  unfold pq_push. rewrite sortByPriority_perm.
  rewrite Permutation_app_comm. reflexivity.
Qed.

Lemma filter_length_perm {A} (p : A -> bool) (l l' : list A) :
  Permutation l l' -> length (List.filter p l) = length (List.filter p l').
Proof.
  induction 1; simpl; try congruence.
  - destruct (p x); simpl; congruence.
  - destruct (p x), (p y); reflexivity.
Qed.

Lemma pq_push_low low items item :
  length (List.filter low (pq_push items item))
  = ((if low item then 1 else 0) + length (List.filter low items))%nat.
Proof.
  rewrite (filter_length_perm low _ _ (pq_push_perm items item)).
  simpl. destruct (low item); reflexivity.
Qed.

End Measure.

Section Termination.

Variable isFreeInGrid : GridCoord -> bool.
Variables from to : GridCoord.
Variable low : PriorityQueueItem -> bool.
Variable R : list GridCoord.
Variable J : SearchState -> Prop.

Hypothesis R_nodup : List.NoDup R.
Hypothesis R_cover : forall c n,
  isFreeInGrid c = true \/ c = to -> 0 <= n ->
  low (Item c (n + heuristic c to)) = true -> In c R.
Hypothesis J_inv : forall st, J st -> SearchInv isFreeInGrid from to st.
Hypothesis J_step : forall fuel st st',
  J st -> searchStep fuel isFreeInGrid to st = Continue st' -> J st'.
Hypothesis J_low : forall st it items,
  J st -> pq st = it :: items -> low it = true.

Local Abbreviation smaller := (smallerState low R).

Lemma smaller_refl st : smaller st st.
Proof. right. split; reflexivity. Qed.

Lemma smaller_trans st1 st2 st3 : smaller st1 st2 -> smaller st2 st3 -> smaller st1 st3.
Proof. unfold smallerState. intros [H1|[H1 H1']] [H2|[H2 H2']]; [left|left|left|right]; lia. Qed.

Lemma visit_smaller st current dir st' :
  SearchInv isFreeInGrid from to st ->
  visit isFreeInGrid to current st dir = Returned st' ->
  smaller st' st.
Proof.
  intros Hinv. unfold visit.
  set (next := step_of current dir).
  destruct (negb (isFreeInGrid next) && negb (key_eqb next to)) eqn:Hacc.
  { intros [= <-]. apply smaller_refl. }
  assert (Hfree : isFreeInGrid next = true \/ next = to).
  { apply andb_false_iff in Hacc. destruct Hacc as [H | H].
    - left. apply negb_false_iff, H.
    - right. apply key_eqb_true, negb_false_iff, H. }
  destruct (costSoFar st !! coordKey current) as [cc|] eqn:Hcc; [|discriminate].
  pose proof (inv_nonneg _ _ _ _ Hinv _ _ Hcc) as Hcc0.
  set (upd := {| costSoFar := <[coordKey next := cc + 1]> (costSoFar st);
                 pq := pq_push (pq st) (Item next (cc + 1 + heuristic next to));
                 cameFrom := <[coordKey next := Some current]> (cameFrom st) |}).
  assert (Hother : forall c, c <> next ->
            isUndefined st c = isUndefined upd c /\ costOf st c = costOf upd c).
  { intros c Hc. unfold isUndefined, costOf, upd. simpl.
    rewrite lookup_insert_ne by (apply coordKey_ne; congruence). auto. }
  assert (Hupd : forall existing,
     costSoFar st !! coordKey next = existing ->
     (forall e, existing = Some e -> cc + 1 < e) -> smaller upd st).
  { intros existing Hex Hlt.
    destruct (in_dec GenericCoord_eq_dec next R) as [HinR | HninR].
    - pose proof (sumOver_change (isUndefined st) (isUndefined upd) R next R_nodup HinR
                    (fun c Hc => proj1 (Hother c Hc))) as HU.
      pose proof (sumOver_change (costOf st) (costOf upd) R next R_nodup HinR
                    (fun c Hc => proj2 (Hother c Hc))) as HC.
      unfold smallerState, undefinedCells, pendingWork.
      assert (Hu' : isUndefined upd next = O).
      { unfold isUndefined, upd. simpl. rewrite lookup_insert_eq. reflexivity. }
      assert (Hc' : costOf upd next = Z.to_nat (cc + 1)).
      { unfold costOf, upd. simpl. rewrite lookup_insert_eq. reflexivity. }
      rewrite Hu' in HU. rewrite Hc' in HC.
      unfold isUndefined in HU at 3. unfold costOf in HC at 3. rewrite Hex in HU, HC.
      destruct existing as [e|].
      + right. specialize (Hlt e eq_refl). split; [lia|].
        replace (pq upd) with (pq_push (pq st) (Item next (cc + 1 + heuristic next to)))
          by reflexivity.
        rewrite pq_push_low. destruct (low _); lia.
      + left. lia.
    - right. unfold undefinedCells, pendingWork.
      rewrite (sumOver_ext (isUndefined upd) (isUndefined st) R).
      2:{ intros c Hc. symmetry. apply Hother. intros ->. contradiction. }
      rewrite (sumOver_ext (costOf upd) (costOf st) R).
      2:{ intros c Hc. symmetry. apply Hother. intros ->. contradiction. }
      split; [reflexivity|].
      replace (pq upd) with (pq_push (pq st) (Item next (cc + 1 + heuristic next to)))
        by reflexivity.
      rewrite pq_push_low.
      destruct (low (Item next (cc + 1 + heuristic next to))) eqn:Hlow; [|simpl; lia].
      exfalso. apply HninR. apply (R_cover next (cc + 1)); auto. lia. }
  destruct (costSoFar st !! coordKey next) as [existing|] eqn:Hex.
  - destruct (Z.ltb_spec (cc + 1) existing) as [Hlt|Hge].
    + intros [= <-]. apply (Hupd (Some existing) eq_refl). intros e [= <-]. exact Hlt.
    + intros [= <-]. apply smaller_refl.
  - intros [= <-]. apply (Hupd None eq_refl). intros e [=].
Qed.

Lemma forEach_visit_smaller current dirs : forall st st',
  SearchInv isFreeInGrid from to st ->
  current <> to ->
  is_Some (costSoFar st !! coordKey current) ->
  (forall d, In d dirs -> In d directions) ->
  forEach (visit isFreeInGrid to current) dirs st = Returned st' ->
  smaller st' st.
Proof.
  induction dirs as [|d dirs IH]; intros st st' Hinv Hcur Hcost Hsub.
  - intros [= <-]. apply smaller_refl.
  - destruct (visit_inv isFreeInGrid from to st current d Hinv Hcur Hcost)
      as (st1 & Hv & Hinv1 & Hc1 & _).
    { apply Hsub. left. reflexivity. }
    simpl. rewrite Hv. simpl. intros Hf.
    eapply smaller_trans.
    + eapply (IH st1); eauto. intros d' Hd'. apply Hsub. right. exact Hd'.
    + eapply visit_smaller; eauto.
Qed.

Lemma searchStep_decreases fuel st st' :
  J st -> searchStep fuel isFreeInGrid to st = Continue st' ->
  (undefinedCells R st' < undefinedCells R st)%nat
  \/ (undefinedCells R st' = undefinedCells R st
      /\ (pendingWork low R st' < pendingWork low R st)%nat).
Proof.
  intros HJ Hstep. pose proof (J_inv st HJ) as Hinv.
  destruct (searchStep_cases isFreeInGrid from to fuel st Hinv)
    as [[_ H] | [(ci & items & _ & _ & H) | (ci & items & st1 & Hpq & Hne & Hf & H & Hinv1)]];
    rewrite H in Hstep; try discriminate.
  injection Hstep as <-.
  pose proof (popped_inv isFreeInGrid from to st ci items Hinv Hpq) as Hinv'.
  assert (Hsm : smaller st1 {| pq := items; costSoFar := costSoFar st; cameFrom := cameFrom st |}).
  { eapply forEach_visit_smaller; eauto.
    simpl. apply (inv_queue _ _ _ _ Hinv). rewrite Hpq. left. reflexivity. }
  pose proof (J_low st ci items HJ Hpq) as Hlow.
  assert (HU : undefinedCells R {| pq := items; costSoFar := costSoFar st; cameFrom := cameFrom st |}
               = undefinedCells R st) by reflexivity.
  assert (HV : S (pendingWork low R {| pq := items; costSoFar := costSoFar st; cameFrom := cameFrom st |})
               = pendingWork low R st).
  { unfold pendingWork. simpl. rewrite Hpq. simpl. rewrite Hlow. simpl.
    change (sumOver (costOf {| pq := items; costSoFar := costSoFar st; cameFrom := cameFrom st |}) R)
      with (sumOver (costOf st) R). lia. }
  destruct Hsm as [Hsm | [Hsm1 Hsm2]]; [left|right]; lia.
Qed.

Lemma searchStep_continue_fuel fuel0 fuel1 st st1 :
  searchStep fuel0 isFreeInGrid to st = Continue st1 ->
  searchStep fuel1 isFreeInGrid to st = Continue st1.
Proof.
  unfold searchStep.
  destruct (pq st) as [|ci items]; [discriminate|].
  destruct (key_eqb (coord ci) to); [discriminate|]. auto.
Qed.

Lemma searchStep_done_fuel fuel0 fuel1 st r :
  searchStep fuel0 isFreeInGrid to st = Done r ->
  exists r', searchStep fuel1 isFreeInGrid to st = Done r'.
Proof.
  unfold searchStep.
  destruct (pq st) as [|ci items]; [eauto|].
  destruct (key_eqb (coord ci) to); [eauto|].
  destruct (forEach _ _ _); try discriminate; eauto.
Qed.

Lemma searchReaches_step_first fuel0 st st1 st' :
  searchStep fuel0 isFreeInGrid to st = Continue st1 ->
  searchReaches isFreeInGrid to fuel0 st1 st' ->
  searchReaches isFreeInGrid to fuel0 st st'.
Proof.
  intros Hstep Hr. induction Hr.
  - eapply reaches_step; [constructor | exact Hstep].
  - eapply reaches_step; eauto.
Qed.

(** The loop reaches the end of the call after finitely many iterations, in
    a state that does not depend on the fuel. *)
Lemma searchLoop_terminates : forall st, J st ->
  exists fuel st', J st' /\ forall fuel0,
    searchReaches isFreeInGrid to fuel0 st st'
    /\ exists result,
         searchStep fuel0 isFreeInGrid to st' = Done result
         /\ forall fuel', (fuel <= fuel')%nat ->
              searchLoop fuel0 fuel' isFreeInGrid to st = result.
Proof.
  assert (H : forall u v st, J st ->
            undefinedCells R st = u -> pendingWork low R st = v ->
            exists fuel st', J st' /\ forall fuel0,
              searchReaches isFreeInGrid to fuel0 st st'
              /\ exists result,
                   searchStep fuel0 isFreeInGrid to st' = Done result
                   /\ forall fuel', (fuel <= fuel')%nat ->
                        searchLoop fuel0 fuel' isFreeInGrid to st = result).
  { induction u as [u IHu] using lt_wf_ind.
    induction v as [v IHv] using lt_wf_ind.
    intros st HJ Hu Hv.
    destruct (searchStep O isFreeInGrid to st) as [st1|r0] eqn:Hstep0.
    - pose proof (J_step O st st1 HJ Hstep0) as HJ1.
      assert (Hnext : exists fuel st', J st' /\ forall fuel0,
              searchReaches isFreeInGrid to fuel0 st1 st'
              /\ exists result,
                   searchStep fuel0 isFreeInGrid to st' = Done result
                   /\ forall fuel', (fuel <= fuel')%nat ->
                        searchLoop fuel0 fuel' isFreeInGrid to st1 = result).
      { destruct (searchStep_decreases O st st1 HJ Hstep0) as [Hlt | [Heq Hlt]].
        - apply (IHu (undefinedCells R st1) ltac:(lia) _ st1 HJ1 eq_refl eq_refl).
        - apply (IHv (pendingWork low R st1) ltac:(lia) st1 HJ1 ltac:(lia) eq_refl). }
      destruct Hnext as (fuel & st' & HJ' & Hall).
      exists (S fuel), st'. split; [exact HJ'|]. intros fuel0.
      destruct (Hall fuel0) as (Hr & r & Hd & Hl).
      pose proof (searchStep_continue_fuel O fuel0 st st1 Hstep0) as Hstep.
      split; [eapply searchReaches_step_first; eauto|].
      exists r. split; [exact Hd|]. intros fuel' Hle.
      destruct fuel' as [|fuel']; [lia|].
      simpl. rewrite Hstep. apply Hl. lia.
    - exists 1%nat, st. split; [exact HJ|]. intros fuel0.
      split; [constructor|].
      destruct (searchStep_done_fuel O fuel0 st r0 Hstep0) as [r Hd].
      exists r. split; [exact Hd|]. intros fuel' Hle.
      destruct fuel' as [|fuel']; [lia|].
      simpl. rewrite Hd. reflexivity. }
  intros st HJ. eapply H; eauto.
Qed.

End Termination.

(** * [getPath] on a grid without obstacles: the frontier *)

Section Geometry.

Implicit Types (a b c d : GridCoord).

Lemma manhattan_nonneg a b : 0 <= manhattan a b.
Proof. unfold manhattan. lia. Qed.

Lemma manhattan_zero a b : manhattan a b = 0 <-> a = b.
Proof.
  unfold manhattan. destruct a as [xa ya], b as [xb yb]; simpl. split.
  - intros H. f_equal; lia.
  - intros [= -> ->]. lia.
Qed.

Lemma manhattan_triangle a b c : manhattan a c <= manhattan a b + manhattan b c.
Proof. unfold manhattan. lia. Qed.

Lemma manhattan_adjacent a b : adjacent a b -> manhattan a b = 1.
Proof. unfold adjacent, manhattan. lia. Qed.

Lemma heuristic_bounds a b :
  manhattan a b <= heuristic a b <= manhattan a b + 1.
Proof.
  unfold heuristic, manhattan.
  destruct ((Z.abs (X a - X b) =? 0) || (Z.abs (Y a - Y b) =? 0)); lia.
Qed.

Lemma heuristic_goal a : heuristic a a = 0.
Proof.
  unfold heuristic. replace (X a - X a) with 0 by lia.
  replace (Y a - Y a) with 0 by lia. reflexivity.
Qed.

Lemma step_of_ne c d : In d directions -> step_of c d <> c.
Proof.
  unfold directions, step_of. destruct c as [x y]. simpl.
  intros [<- | [<- | [<- | [<- | []]]]]; simpl; intros [=]; lia.
Qed.

Lemma toward_step to c : c <> to ->
  exists d, In d directions /\ step_of c d = toward to c
            /\ manhattan (toward to c) to = manhattan c to - 1.
Proof.
  intros Hne. unfold toward, directions, step_of, manhattan.
  destruct c as [x y], to as [tx ty]; simpl.
  destruct (Z.ltb_spec x tx); [|destruct (Z.ltb_spec tx x); [|destruct (Z.ltb_spec y ty)]].
  - exists (Coord 1 0). simpl. split; [auto|]. split; [f_equal; lia|lia].
  - exists (Coord (-1) 0). simpl. split; [auto|]. split; [f_equal; lia|lia].
  - exists (Coord 0 1). simpl. split; [auto|]. split; [f_equal; lia|lia].
  - exists (Coord 0 (-1)). simpl. split; [auto 6|].
    assert (y <> ty) by (intros ->; apply Hne; f_equal; lia).
    split; [f_equal; lia|lia].
Qed.

(** A connected path takes at least as many steps as the Manhattan distance
    of its ends, and the difference is even. *)
Lemma connected_steps (p : list GridCoord) : forall a b,
  head p = Some a -> last p = Some b -> connected p ->
  exists k, 0 <= k /\ steps p = manhattan a b + 2 * k.
Proof.
  induction p as [|x p IH]; intros a b Hh Hl Hc; [discriminate|].
  simpl in Hh. injection Hh as ->.
  destruct p as [|y p].
  - simpl in Hl. injection Hl as ->. exists 0. unfold steps, manhattan. simpl. lia.
  - destruct Hc as [Hadj Hc].
    destruct (IH y b eq_refl Hl Hc) as (k & Hk & Hs).
    unfold steps in *. simpl length in *.
    unfold adjacent in Hadj. unfold manhattan in *.
    assert (Hcases : Z.abs (X a - X b) + Z.abs (Y a - Y b)
                     = Z.abs (X y - X b) + Z.abs (Y y - Y b) + 1
                  \/ Z.abs (X a - X b) + Z.abs (Y a - Y b)
                     = Z.abs (X y - X b) + Z.abs (Y y - Y b) - 1) by lia.
    destruct Hcases as [E|E].
    + exists k. lia.
    + exists (k + 1). lia.
Qed.

End Geometry.

Section Queue.

Lemma sortInsert_sorted it q : sortedQueue q -> sortedQueue (sortInsert it q).
Proof.
  unfold sortedQueue. induction 1 as [|h t Ht IH Hh]; simpl.
  - apply SSorted_cons; [apply SSorted_nil | apply List.Forall_nil].
  - destruct (Z.leb_spec (priority it) (priority h)) as [Hle|Hgt].
    + apply SSorted_cons; [apply SSorted_cons; assumption|].
      apply List.Forall_cons; [exact Hle|].
      rewrite List.Forall_forall in *. intros x Hx. specialize (Hh x Hx). lia.
    + apply SSorted_cons; [exact IH|].
      rewrite List.Forall_forall in *. intros x Hx.
      apply sortInsert_In in Hx. destruct Hx as [-> | Hx]; [lia | auto].
Qed.

Lemma sortByPriority_sorted items : sortedQueue (sortByPriority items).
Proof.
  induction items as [|h t IH]; simpl.
  - apply SSorted_nil.
  - apply sortInsert_sorted, IH.
Qed.

Lemma pq_push_sorted items item : sortedQueue (pq_push items item).
Proof. apply sortByPriority_sorted. Qed.

Lemma sortedQueue_head it items x :
  sortedQueue (it :: items) -> In x (it :: items) -> priority it <= priority x.
Proof.
  intros Hs [<- | Hx]; [lia|].
  inversion Hs as [|? ? _ Hall]; subst.
  rewrite List.Forall_forall in Hall. auto.
Qed.

Lemma sortedQueue_tail it items : sortedQueue (it :: items) -> sortedQueue items.
Proof. intros Hs. inversion Hs; assumption. Qed.

End Queue.

Section FreeGrid.

Variable isFreeInGrid : GridCoord -> bool.
Variables from to : GridCoord.
Hypothesis grid_free : forall c, isFreeInGrid c = true.

Implicit Types (st : SearchState) (c d : GridCoord) (it : PriorityQueueItem).

Lemma relaxed_mono st st' c n d :
  (forall x m, costSoFar st !! coordKey x = Some m ->
               exists m', costSoFar st' !! coordKey x = Some m' /\ m' <= m) ->
  relaxed st c n d -> relaxed st' c n d.
Proof.
  intros Hmono (n' & Hn' & Hle). destruct (Hmono _ _ Hn') as (m' & Hm' & Hle').
  exists m'. split; [exact Hm' | lia].
Qed.

Lemma pending_mono st st' c n :
  (forall it, In it (pq st) -> In it (pq st')) ->
  pending to st c n -> pending to st' c n.
Proof.
  intros Hsub (it & Hit & Hc & Hp). exists it. auto.
Qed.

Lemma visit_free st current visited dir :
  FreeGridInv isFreeInGrid from to (Some current) visited st ->
  In dir directions ->
  exists st',
    visit isFreeInGrid to current st dir = Returned st'
    /\ FreeGridInv isFreeInGrid from to (Some current) (dir :: visited) st'.
Proof.
  intros Hfg Hdir.
  destruct (fg_current _ _ _ _ _ _ Hfg current eq_refl) as [Hcur [cc Hcc]].
  pose proof (fg_inv _ _ _ _ _ _ Hfg) as Hinv.
  destruct (visit_inv isFreeInGrid from to st current dir Hinv Hcur (ex_intro _ cc Hcc) Hdir)
    as (st1 & Hv1 & Hinv1 & Hc1 & _).
  pose proof (step_of_ne current dir Hdir) as Hnc.
  destruct (visit_cases isFreeInGrid to st current dir cc Hcc)
    as [(Hv & Hnf & _) | [(Hv & e & He & Hle) | (Hv & _ & Hlt)]].
  - rewrite grid_free in Hnf. discriminate.
  - exists st. split; [exact Hv|].
    constructor; try apply Hfg.
    intros c n d [= <-] Hn [<- | Hd].
    + rewrite Hcc in Hn. injection Hn as <-. exists e. auto.
    + eapply (fg_visited _ _ _ _ _ _ Hfg); eauto.
  - set (next := step_of current dir) in *.
    set (upd := {| costSoFar := <[coordKey next := cc + 1]> (costSoFar st);
                   pq := pq_push (pq st) (Item next (cc + 1 + heuristic next to));
                   cameFrom := <[coordKey next := Some current]> (cameFrom st) |}) in *.
    assert (st1 = upd) by congruence. subst st1.
    exists upd. split; [exact Hv|].
    assert (Hmono : forall x m, costSoFar st !! coordKey x = Some m ->
               exists m', costSoFar upd !! coordKey x = Some m' /\ m' <= m).
    { intros x m Hx. unfold upd. simpl. rewrite lookup_insert.
      destruct (decide (coordKey next = coordKey x)) as [E|E].
      - apply coordKey_inj in E. subst x. exists (cc + 1). split; [reflexivity|].
        specialize (Hlt m Hx). lia.
      - exists m. split; [exact Hx | lia]. }
    assert (Hsub : forall it, In it (pq st) -> In it (pq upd)).
    { intros it Hit. unfold upd. simpl. apply pq_push_In. left. exact Hit. }
    assert (Hnew : In (Item next (cc + 1 + heuristic next to)) (pq upd)).
    { unfold upd. simpl. apply pq_push_In. right. reflexivity. }
    assert (Hcn : costSoFar upd !! coordKey next = Some (cc + 1)).
    { unfold upd. simpl. apply lookup_insert_eq. }
    assert (Hother : forall x, x <> next ->
              costSoFar upd !! coordKey x = costSoFar st !! coordKey x).
    { intros x Hx. unfold upd. simpl. apply lookup_insert_ne, coordKey_ne. congruence. }
    constructor.
    + exact Hinv1.
    + intros c n. destruct (decide (c = next)) as [->|Hc].
      * rewrite Hcn. intros [= <-].
        pose proof (fg_lower _ _ _ _ _ _ Hfg current cc Hcc).
        pose proof (manhattan_triangle from current next).
        pose proof (manhattan_adjacent _ _ (directions_adjacent current dir Hdir)).
        fold next in H1. lia.
      * rewrite Hother by exact Hc. apply Hfg.
    + intros it Hit. unfold upd in Hit. simpl in Hit. apply pq_push_In in Hit.
      destruct Hit as [Hit | ->].
      * destruct (fg_items _ _ _ _ _ _ Hfg it Hit) as [-> | (n & Hn & Hp)]; [left; reflexivity|].
        right. destruct (Hmono _ _ Hn) as (m' & Hm' & Hle). exists m'. split; [exact Hm'|lia].
      * right. simpl. exists (cc + 1). split; [exact Hcn | lia].
    + unfold upd. simpl. apply pq_push_sorted.
    + intros c n Hn Hopt Hct Hcc'.
      destruct (decide (c = next)) as [->|Hc].
      * left. rewrite Hcn in Hn. injection Hn as <-.
        exists (Item next (cc + 1 + heuristic next to)). simpl.
        split; [exact Hnew|]. split; [reflexivity | lia].
      * rewrite Hother in Hn by exact Hc.
        destruct (fg_frontier _ _ _ _ _ _ Hfg c n Hn Hopt Hct Hcc') as [Hp | Hr].
        -- left. eapply pending_mono; eauto.
        -- right. intros d Hd. eapply relaxed_mono; eauto.
    + intros c n d [= <-] Hn Hd.
      rewrite Hother in Hn by congruence.
      rewrite Hcc in Hn. injection Hn as <-.
      destruct Hd as [<- | Hd].
      * exists (cc + 1). split; [exact Hcn | lia].
      * eapply relaxed_mono; [exact Hmono|].
        eapply (fg_visited _ _ _ _ _ _ Hfg); eauto.
    + intros c [= <-]. split; [exact Hcur|]. exact Hc1.
    + intros n Hn. destruct (decide (to = next)) as [E|E].
      * rewrite E in Hn. rewrite Hcn in Hn. injection Hn as <-.
        exists (Item next (cc + 1 + heuristic next to)). simpl.
        split; [exact Hnew|]. split; [auto|].
        rewrite <- E. rewrite heuristic_goal. lia.
      * rewrite Hother in Hn by exact E.
        destruct (fg_goal _ _ _ _ _ _ Hfg n Hn) as (it & Hit & Hc & Hp).
        exists it. auto.
Qed.

Lemma forEach_visit_free current dirs : forall st visited,
  FreeGridInv isFreeInGrid from to (Some current) visited st ->
  (forall d, In d dirs -> In d directions) ->
  exists st',
    forEach (visit isFreeInGrid to current) dirs st = Returned st'
    /\ FreeGridInv isFreeInGrid from to (Some current) (rev dirs ++ visited) st'.
Proof.
  induction dirs as [|d dirs IH]; intros st visited Hfg Hsub.
  - exists st. split; [reflexivity | exact Hfg].
  - destruct (visit_free st current visited d Hfg) as (st1 & Hv & Hfg1).
    { apply Hsub. left. reflexivity. }
    destruct (IH st1 (d :: visited) Hfg1) as (st2 & Hf & Hfg2).
    { intros d' Hd'. apply Hsub. right. exact Hd'. }
    exists st2. split; [simpl; rewrite Hv; exact Hf|].
    simpl. rewrite <- app_assoc. exact Hfg2.
Qed.

(** Taking the first item off the queue. *)
Lemma popped_free st currentItem items :
  FreeGridInv isFreeInGrid from to None [] st ->
  pq st = currentItem :: items ->
  coord currentItem <> to ->
  FreeGridInv isFreeInGrid from to (Some (coord currentItem)) []
    {| pq := items; costSoFar := costSoFar st; cameFrom := cameFrom st |}.
Proof.
  intros Hfg Hpq Hne.
  pose proof (fg_inv _ _ _ _ _ _ Hfg) as Hinv.
  constructor; simpl.
  - eapply popped_inv; eauto.
  - apply Hfg.
  - intros it Hit. apply (fg_items _ _ _ _ _ _ Hfg). rewrite Hpq. right. exact Hit.
  - pose proof (fg_sorted _ _ _ _ _ _ Hfg) as Hs. rewrite Hpq in Hs.
    eapply sortedQueue_tail; eauto.
  - intros c n Hn Hopt Hct Hcc.
    destruct (fg_frontier _ _ _ _ _ _ Hfg c n Hn Hopt Hct) as [(it & Hit & Hc & Hp) | Hr];
      [discriminate | |right; exact Hr].
    left. exists it. simpl. split; [|auto].
    rewrite Hpq in Hit. destruct Hit as [<- | Hit]; [|exact Hit].
    exfalso. apply Hcc. congruence.
  - intros c n d _ _ [].
  - intros c [= <-]. split; [exact Hne|].
    apply (inv_queue _ _ _ _ Hinv). rewrite Hpq. left. reflexivity.
  - intros n Hn. destruct (fg_goal _ _ _ _ _ _ Hfg n Hn) as (it & Hit & Hc & Hp).
    exists it. split; [|auto].
    rewrite Hpq in Hit. destruct Hit as [<- | Hit]; [|exact Hit].
    contradiction.
Qed.

(** After the four visits the current cell has passed its cost on. *)
Lemma finished_free st current visited :
  FreeGridInv isFreeInGrid from to (Some current) visited st ->
  (forall d, In d directions -> In d visited) ->
  FreeGridInv isFreeInGrid from to None [] st.
Proof.
  intros Hfg Hall. constructor; try apply Hfg.
  - intros c n Hn Hopt Hct _.
    destruct (decide (current = c)) as [->|Hc].
    + right. intros d Hd. eapply (fg_visited _ _ _ _ _ _ Hfg); eauto.
    + apply (fg_frontier _ _ _ _ _ _ Hfg); auto. congruence.
  - intros c n d [=].
  - intros c [=].
Qed.

Lemma searchStep_free fuel st st' :
  FreeGridInv isFreeInGrid from to None [] st ->
  searchStep fuel isFreeInGrid to st = Continue st' ->
  FreeGridInv isFreeInGrid from to None [] st'.
Proof.
  intros Hfg Hstep.
  pose proof (fg_inv _ _ _ _ _ _ Hfg) as Hinv.
  destruct (searchStep_cases isFreeInGrid from to fuel st Hinv)
    as [[_ H] | [(ci & items & _ & _ & H) | (ci & items & st1 & Hpq & Hne & Hf & H & _)]];
    rewrite H in Hstep; try discriminate.
  injection Hstep as <-.
  pose proof (popped_free st ci items Hfg Hpq Hne) as Hfg'.
  destruct (forEach_visit_free (coord ci) directions _ [] Hfg') as (st2 & Hf2 & Hfg2); [auto|].
  assert (st2 = st1) by congruence. subst st2.
  eapply finished_free; [exact Hfg2|].
  intros d Hd. rewrite app_nil_r. apply in_rev in Hd. exact Hd.
Qed.

Lemma searchInit_free : FreeGridInv isFreeInGrid from to None [] (searchInit from).
Proof.
  constructor.
  - apply searchInit_inv.
  - intros c n. simpl. rewrite lookup_singleton.
    destruct (decide (coordKey from = coordKey c)) as [E|E]; [|discriminate].
    apply coordKey_inj in E. subst c. intros [= <-].
    pose proof (proj2 (manhattan_zero from from) eq_refl). lia.
  - intros it [<- | []]. left. reflexivity.
  - apply pq_push_sorted.
  - intros c n. simpl. rewrite lookup_singleton.
    destruct (decide (coordKey from = coordKey c)) as [E|E]; [|discriminate].
    apply coordKey_inj in E. subst c. intros [= <-] _ _ _.
    left. exists (Item from 0). simpl. split; [left; reflexivity|].
    split; [reflexivity|]. pose proof (heuristic_bounds from to).
    pose proof (manhattan_nonneg from to). lia.
  - intros c n d [=].
  - intros c [=].
  - intros n. simpl. rewrite lookup_singleton.
    destruct (decide (coordKey from = coordKey to)) as [E|E]; [|discriminate].
    apply coordKey_inj in E. intros [= <-].
    exists (Item from 0). simpl. split; [left; reflexivity|]. split; [exact E | lia].
Qed.

(** Some queued item has a priority of at most the distance plus one. *)
Lemma low_item_exists st :
  FreeGridInv isFreeInGrid from to None [] st ->
  exists it, In it (pq st) /\ priority it <= manhattan from to + 1.
Proof.
  intros Hfg.
  assert (H : forall k c n, Z.of_nat k = manhattan c to ->
            costSoFar st !! coordKey c = Some n -> n = manhattan from c ->
            manhattan from c + manhattan c to = manhattan from to ->
            exists it, In it (pq st) /\ priority it <= manhattan from to + 1).
  { induction k as [|k IH]; intros c n Hk Hn Hopt Hsum.
    - assert (c = to) by (apply manhattan_zero; lia). subst c.
      destruct (fg_goal _ _ _ _ _ _ Hfg n Hn) as (it & Hit & _ & Hp).
      exists it. split; [exact Hit|]. lia.
    - assert (Hct : c <> to).
      { intros ->. pose proof (proj2 (manhattan_zero to to) eq_refl). lia. }
      destruct (fg_frontier _ _ _ _ _ _ Hfg c n Hn Hopt Hct) as [(it & Hit & Hc & Hp) | Hr];
        [discriminate | |].
      + exists it. split; [exact Hit|]. pose proof (heuristic_bounds c to). lia.
      + destruct (toward_step to c Hct) as (d & Hd & Hstep & Hdist).
        destruct (Hr d Hd) as (n' & Hn' & Hle). rewrite Hstep in Hn'.
        pose proof (fg_lower _ _ _ _ _ _ Hfg _ _ Hn') as Hlow.
        pose proof (manhattan_triangle from (toward to c) to).
        apply (IH (toward to c) n'); [lia | exact Hn' | lia | lia]. }
  pose proof (manhattan_nonneg from to) as Hnn.
  apply (H (Z.to_nat (manhattan from to)) from 0).
  - lia.
  - apply (inv_from_cost _ _ _ _ (fg_inv _ _ _ _ _ _ Hfg)).
  - symmetry. apply manhattan_zero. reflexivity.
  - pose proof (proj2 (manhattan_zero from from) eq_refl). lia.
Qed.

Lemma head_low st :
  FreeGridInv isFreeInGrid from to None [] st ->
  exists it items, pq st = it :: items /\ priority it <= manhattan from to + 1.
Proof.
  intros Hfg. destruct (low_item_exists st Hfg) as (x & Hx & Hp).
  pose proof (fg_sorted _ _ _ _ _ _ Hfg) as Hs.
  destruct (pq st) as [|it items]; [destruct Hx|].
  exists it, items. split; [reflexivity|].
  pose proof (sortedQueue_head it items x Hs Hx). lia.
Qed.

End FreeGrid.

(** * [getPath] on a grid without obstacles: the result *)

Section Square.

Lemma square_In to r c :
  Z.abs (X c - X to) <= r -> Z.abs (Y c - Y to) <= r -> In c (square to r).
Proof.
  intros Hx Hy. unfold square. apply in_flat_map.
  exists (Z.to_nat (X c - X to + r)). split.
  - apply in_seq. lia.
  - apply in_map_iff. exists (Z.to_nat (Y c - Y to + r)). split.
    + destruct c as [x y]. simpl in *. f_equal; lia.
    + apply in_seq. lia.
Qed.

End Square.

Section FreeGridResult.

Variable isFreeInGrid : GridCoord -> bool.
Variables from to : GridCoord.
Hypothesis grid_free : forall c, isFreeInGrid c = true.

(** What the call returns from a state in which the goal is first in the
    queue. *)
Lemma free_grid_done fuel0 st result :
  FreeGridInv isFreeInGrid from to None [] st ->
  searchStep fuel0 isFreeInGrid to st = Done result ->
  (exists path, result = Returned path
     /\ head path = Some from /\ last path = Some to
     /\ connected path /\ steps path = manhattan from to)
  \/ (result = OutOfFuel /\ Z.of_nat fuel0 <= manhattan from to + 1).
Proof.
  intros Hfg Hstep.
  pose proof (fg_inv _ _ _ _ _ _ Hfg) as Hinv.
  destruct (head_low isFreeInGrid from to st Hfg) as (it & items & Hpq & Hprio).
  destruct (searchStep_cases isFreeInGrid from to fuel0 st Hinv)
    as [[Hq _] | [(ci & items' & Hpq' & Hto & H) | (ci & items' & st1 & _ & _ & _ & H & _)]].
  - rewrite Hq in Hpq. discriminate.
  - rewrite H in Hstep. injection Hstep as <-.
    rewrite Hpq in Hpq'. injection Hpq' as <- <-.
    assert (Hcost : exists n, costSoFar st !! coordKey to = Some n /\ n <= manhattan from to + 1).
    { destruct (fg_items _ _ _ _ _ _ Hfg it) as [-> | (n & Hn & Hp)].
      - rewrite Hpq. left. reflexivity.
      - simpl in Hto. subst to. exists 0. split; [apply Hinv|].
        pose proof (manhattan_nonneg from from). lia.
      - rewrite Hto in Hn, Hp. rewrite heuristic_goal in Hp.
        exists n. split; [exact Hn | lia]. }
    destruct Hcost as (n & Hn & Hle).
    destruct (reconstruct_chain isFreeInGrid from to st Hinv fuel0 to n [] Hn)
      as [Ht | (p & Hr & (Hh & Hl & Hc & _) & Hlen)].
    + right. split; [exact Ht|].
      destruct (Z_lt_le_dec n (Z.of_nat fuel0)) as [Hlt|Hge]; [|lia].
      exfalso. exact (reconstruct_enough isFreeInGrid from to st Hinv fuel0 to n [] Hn Hlt Ht).
    + left. rewrite app_nil_r in Hr. exists p. split; [exact Hr|].
      split; [exact Hh|]. split; [exact Hl|]. split; [exact Hc|].
      destruct (connected_steps p from to Hh Hl Hc) as (k & Hk & Hs).
      unfold steps in *. lia.
  - rewrite H in Hstep. discriminate.
Qed.

Lemma searchLoop_done fuel0 : forall fuel st result,
  searchLoop fuel0 fuel isFreeInGrid to st = result ->
  result <> OutOfFuel ->
  exists st', searchReaches isFreeInGrid to fuel0 st st'
              /\ searchStep fuel0 isFreeInGrid to st' = Done result.
Proof.
  induction fuel as [|fuel IH]; intros st result Hl Hne; simpl in Hl; [congruence|].
  destruct (searchStep fuel0 isFreeInGrid to st) as [st1|r] eqn:Hstep.
  - destruct (IH st1 result Hl Hne) as (st' & Hr & Hd).
    exists st'. split; [|exact Hd].
    clear - Hr Hstep. induction Hr.
    + eapply reaches_step; [constructor | exact Hstep].
    + eapply reaches_step; eauto.
  - subst r. exists st. split; [constructor | exact Hstep].
Qed.

Lemma searchReaches_free fuel0 st st' :
  FreeGridInv isFreeInGrid from to None [] st ->
  searchReaches isFreeInGrid to fuel0 st st' ->
  FreeGridInv isFreeInGrid from to None [] st'.
Proof.
  intros H0 Hr. induction Hr as [st|st st1 st2 Hr IH Hs].
  - exact H0.
  - eapply searchStep_free; [exact grid_free | apply IH; exact H0 | exact Hs].
Qed.

Lemma getPath_free_returns fuel path :
  getPath fuel from to isFreeInGrid = Returned path ->
  head path = Some from /\ last path = Some to
  /\ connected path /\ steps path = manhattan from to.
Proof.
  intros Hg. unfold getPath in Hg.
  destruct (searchLoop_done fuel fuel _ _ Hg ltac:(discriminate)) as (st' & Hr & Hd).
  pose proof (searchReaches_free fuel _ _
                (searchInit_free isFreeInGrid from to) Hr) as Hfg.
  destruct (free_grid_done fuel st' _ Hfg Hd) as [(p & [= <-] & H) | [[=] _]].
  exact H.
Qed.

Lemma getPath_free_terminates :
  exists fuel0, forall fuel, (fuel0 <= fuel)%nat ->
  exists path, getPath fuel from to isFreeInGrid = Returned path.
Proof.
  set (D := manhattan from to).
  set (R := remove_dups (square to (D + 1))).
  destruct (searchLoop_terminates isFreeInGrid from to (lowPriority (D + 1)) R
              (FreeGridInv isFreeInGrid from to None []))
    with (st := searchInit from) as (fuel1 & st' & Hfg & Hall).
  - apply NoDup_ListNoDup, NoDup_remove_dups.
  - intros c n _ Hn Hlow. unfold lowPriority in Hlow. simpl in Hlow.
    apply Z.leb_le in Hlow. pose proof (heuristic_bounds c to) as Hh.
    apply list_elem_of_In, elem_of_remove_dups, list_elem_of_In.
    unfold manhattan in Hh. apply square_In; lia.
  - intros st Hfg. apply Hfg.
  - intros fuel st st' Hfg Hs. eapply searchStep_free; eauto.
  - intros st it items Hfg Hpq.
    destruct (head_low isFreeInGrid from to st Hfg) as (it' & items' & Hpq' & Hp).
    rewrite Hpq in Hpq'. injection Hpq' as <- <-.
    unfold lowPriority. apply Z.leb_le. exact Hp.
  - apply searchInit_free.
  - exists (Nat.max fuel1 (Z.to_nat (D + 2))). intros fuel Hle.
    destruct (Hall fuel) as (Hr & result & Hd & Hl).
    destruct (free_grid_done fuel st' result Hfg Hd) as [(p & -> & _) | [_ Hsmall]].
    + exists p. apply Hl. lia.
    + exfalso. pose proof (manhattan_nonneg from to). subst D. lia.
Qed.

End FreeGridResult.

(** C3. On a grid where every cell is free the search returns, the returned
    path takes as many steps as the Manhattan distance between its two ends,
    and consecutive cells of it are grid-adjacent. *)
Theorem getPath_free_grid (from to : GridCoord)
    (isFreeInGrid : GridCoord -> bool) :
  (forall c, isFreeInGrid c = true) ->
  (exists fuel0, forall fuel, (fuel0 <= fuel)%nat ->
     exists path, getPath fuel from to isFreeInGrid = Returned path)
  /\ forall fuel path,
       getPath fuel from to isFreeInGrid = Returned path ->
       head path = Some from /\ last path = Some to
       /\ connected path
       /\ steps path = manhattan from to.
Proof.
  intros Hfree. split.
  - apply getPath_free_terminates. exact Hfree.
  - intros fuel path. apply getPath_free_returns. exact Hfree.
Qed.

Lemma getPath_free_grid_witness :
  (exists fuel0, forall fuel, (fuel0 <= fuel)%nat ->
     exists path, getPath fuel (Coord 0 0) (Coord 2 1) (fun _ => true) = Returned path)
  /\ forall fuel path,
       getPath fuel (Coord 0 0) (Coord 2 1) (fun _ => true) = Returned path ->
       head path = Some (Coord 0 0) /\ last path = Some (Coord 2 1)
       /\ connected path
       /\ steps path = manhattan (Coord 0 0) (Coord 2 1).
Proof.
  apply (getPath_free_grid (Coord 0 0) (Coord 2 1) (fun _ => true)).
  intros c. reflexivity.
Defined.

(** * [getPath]: the result of a call *)

Section SearchResult.

Variable isFreeInGrid : GridCoord -> bool.
Variables from to : GridCoord.

Lemma chain_interior c p :
  chain isFreeInGrid from to c p ->
  forall i x, nth_error p i = Some x -> (0 < i)%nat -> (S i < length p)%nat ->
  isFreeInGrid x = true.
Proof.
  intros (_ & _ & _ & Htail & Hinit) i x Hi Hpos Hlast.
  rewrite List.Forall_forall in Htail, Hinit.
  assert (Hin1 : In x (tail p)).
  { destruct p as [|a p]; [destruct i; discriminate|].
    destruct i as [|i]; [lia|]. simpl in *. eapply nth_error_In; eauto. }
  assert (Hin2 : In x (removelast p)).
  { rewrite removelast_firstn_len.
    apply (nth_error_In _ i). rewrite nth_error_firstn.
    destruct (Nat.ltb_spec i (Nat.pred (length p))); [exact Hi | lia]. }
  destruct (Htail x Hin1) as [H | ->]; [exact H|].
  exfalso. exact (Hinit to Hin2 eq_refl).
Qed.

Lemma getPath_result fuel :
  match getPath fuel from to isFreeInGrid with
  | Returned path => chain isFreeInGrid from to to path
  | Thrown msg =>
      msg = "No path found"%string
      /\ exists st, searchReaches isFreeInGrid to fuel (searchInit from) st
                    /\ pq st = []
  | OutOfFuel => True
  | OutOfModel => False
  end.
Proof.
  unfold getPath. apply searchLoop_result. apply searchInit_inv.
Qed.

Lemma getPath_bounded_terminates (region : list GridCoord) :
  (forall c, isFreeInGrid c = true -> In c region) ->
  exists fuel0, forall fuel, (fuel0 <= fuel)%nat ->
    getPath fuel from to isFreeInGrid <> OutOfFuel.
Proof.
  intros Hregion.
  destruct (searchLoop_terminates isFreeInGrid from to (fun _ => true)
              (remove_dups (to :: region)) (SearchInv isFreeInGrid from to))
    with (st := searchInit from) as (fuel1 & st' & Hinv & Hall).
  - apply NoDup_ListNoDup, NoDup_remove_dups.
  - intros c n Hacc _ _.
    apply list_elem_of_In, elem_of_remove_dups, list_elem_of_In.
    destruct Hacc as [Hf | ->]; [right; auto | left; reflexivity].
  - auto.
  - intros fuel st st1. apply searchStep_inv.
  - reflexivity.
  - apply searchInit_inv.
  - destruct (searchStep_cases isFreeInGrid from to O st' Hinv)
      as [[Hq _] | [(ci & items & Hpq & Hto & _) | (ci & items & st1 & _ & _ & _ & H & _)]].
    + exists fuel1. intros fuel Hle.
      destruct (Hall fuel) as (_ & r & Hd & Hl).
      unfold getPath. rewrite (Hl fuel Hle).
      unfold searchStep in Hd. rewrite Hq in Hd. injection Hd as <-. discriminate.
    + assert (Hcost : is_Some (costSoFar st' !! coordKey to)).
      { rewrite <- Hto. apply (inv_queue _ _ _ _ Hinv). rewrite Hpq. left. reflexivity. }
      destruct Hcost as [n Hn].
      exists (Nat.max fuel1 (S (Z.to_nat n))). intros fuel Hle.
      destruct (Hall fuel) as (_ & r & Hd & Hl).
      unfold getPath. rewrite (Hl fuel ltac:(lia)).
      unfold searchStep in Hd. rewrite Hpq in Hd.
      replace (key_eqb (coord ci) to) with true in Hd
        by (symmetry; apply key_eqb_true; exact Hto).
      injection Hd as <-. rewrite Hto.
      apply (reconstruct_enough isFreeInGrid from to st' Hinv fuel to n [] Hn).
      pose proof (inv_nonneg _ _ _ _ Hinv _ _ Hn). lia.
    + destruct (Hall O) as (_ & r & Hd & _). rewrite H in Hd. discriminate.
Qed.

End SearchResult.


(** * [getPath]: a call that does not end *)

Section Corridor.

Lemma visit_blocked isFreeInGrid to current st dir :
  isFreeInGrid (step_of current dir) = false ->
  coordKey (step_of current dir) <> coordKey to ->
  visit isFreeInGrid to current st dir = Returned st.
Proof.
  intros Hfree Hto. unfold visit. cbv zeta. rewrite Hfree.
  unfold key_eqb. rewrite bool_decide_eq_false_2 by exact Hto. reflexivity.
Qed.

Lemma visit_known isFreeInGrid to current st dir currentCost existingCost :
  costSoFar st !! coordKey current = Some currentCost ->
  costSoFar st !! coordKey (step_of current dir) = Some existingCost ->
  existingCost <= currentCost + 1 ->
  visit isFreeInGrid to current st dir = Returned st.
Proof.
  intros Hc He Hle. unfold visit. cbv zeta. rewrite Hc, He.
  destruct (_ && _); [reflexivity|].
  destruct (Z.ltb_spec (currentCost + 1) existingCost); [lia|reflexivity].
Qed.

Lemma visit_new isFreeInGrid to current st dir currentCost :
  isFreeInGrid (step_of current dir) = true ->
  costSoFar st !! coordKey current = Some currentCost ->
  costSoFar st !! coordKey (step_of current dir) = None ->
  visit isFreeInGrid to current st dir
  = Returned {| costSoFar := <[coordKey (step_of current dir) := currentCost + 1]>
                               (costSoFar st);
                pq := pq_push (pq st)
                        (Item (step_of current dir)
                           (currentCost + 1 + heuristic (step_of current dir) to));
                cameFrom := <[coordKey (step_of current dir) := Some current]>
                              (cameFrom st) |}.
Proof.
  intros Hfree Hc Hn. unfold visit. cbv zeta. rewrite Hfree, Hc, Hn. reflexivity.
Qed.

Lemma corridor_step fuel b st :
  CorridorInv b st ->
  exists st', searchStep fuel corridor (Coord 0 2) st = Continue st'
              /\ CorridorInv (b + 1) st'.
Proof.
  intros (Hb & [p Hq] & Hin & Hout). unfold searchStep. rewrite Hq.
  cbn [coord]. unfold key_eqb.
  rewrite bool_decide_eq_false_2 by (unfold coordKey; cbn; congruence).
  set (st0 := {| pq := []; costSoFar := costSoFar st; cameFrom := cameFrom st |}).
  set (next := step_of (Coord b 0) (Coord 1 0)).
  set (st1 := {| costSoFar := <[coordKey next := b + 1]> (costSoFar st0);
                 pq := pq_push (pq st0) (Item next (b + 1 + heuristic next (Coord 0 2)));
                 cameFrom := <[coordKey next := Some (Coord b 0)]> (cameFrom st0) |}).
  assert (Hnext : coordKey next = (b + 1, 0)) by reflexivity.
  assert (Hcur : forall x, 0 <= x <= b -> costSoFar st1 !! (x, 0) = Some x).
  { intros x Hx. unfold st1. cbn [costSoFar]. rewrite Hnext.
    rewrite lookup_insert_ne by (intros [= E]; lia). apply Hin, Hx. }
  assert (V1 : visit corridor (Coord 0 2) (Coord b 0) st0 (Coord 1 0) = Returned st1).
  { apply visit_new.
    - unfold corridor. cbn. apply Z.leb_le. lia.
    - apply Hin. lia.
    - change (costSoFar st !! (b + 1, 0 + 0) = None). apply Hout. lia. }
  assert (V2 : visit corridor (Coord 0 2) (Coord b 0) st1 (Coord (-1) 0) = Returned st1).
  { destruct (Z.eq_dec b 0) as [->|Hne].
    - apply visit_blocked; [reflexivity|]. cbn. intros [=].
    - apply (visit_known _ _ _ _ _ b (b - 1)).
      + apply Hcur. lia.
      + change (costSoFar st1 !! (b + -1, 0 + 0) = Some (b - 1)).
        replace (b + -1) with (b - 1) by lia. apply Hcur. lia.
      + lia. }
  assert (V3 : visit corridor (Coord 0 2) (Coord b 0) st1 (Coord 0 1) = Returned st1).
  { apply visit_blocked; [reflexivity|]. cbn. intros [= E1 E2]. }
  assert (V4 : visit corridor (Coord 0 2) (Coord b 0) st1 (Coord 0 (-1)) = Returned st1).
  { apply visit_blocked; [reflexivity|]. cbn. intros [= E1 E2]. }
  unfold directions. cbn [forEach]. rewrite V1. cbn [mbind Outcome_bind].
  rewrite V2. cbn [mbind Outcome_bind]. rewrite V3. cbn [mbind Outcome_bind].
  rewrite V4. cbn [mbind Outcome_bind].
  exists st1. split; [reflexivity|].
  split; [lia|]. split; [eexists; reflexivity|]. split.
  - intros x Hx. destruct (Z.eq_dec x (b + 1)) as [->|Hne].
    + unfold st1. cbn [costSoFar]. rewrite Hnext. apply lookup_insert_eq.
    + apply Hcur. lia.
  - intros x Hx. unfold st1. cbn [costSoFar]. rewrite Hnext.
    rewrite lookup_insert_ne by (intros [= E]; lia). apply Hout. lia.
Qed.

Lemma corridor_loop fuel0 fuel : forall b st,
  CorridorInv b st -> searchLoop fuel0 fuel corridor (Coord 0 2) st = OutOfFuel.
Proof.
  induction fuel as [|fuel IH]; intros b st Hinv; [reflexivity|].
  cbn [searchLoop]. destruct (corridor_step fuel0 b st Hinv) as (st' & -> & Hinv').
  exact (IH _ _ Hinv').
Qed.

Lemma corridor_init : CorridorInv 0 (searchInit (Coord 0 0)).
Proof.
  split; [lia|]. split; [eexists; reflexivity|]. split.
  - intros x Hx. assert (x = 0) as -> by lia. reflexivity.
  - intros x Hx. unfold searchInit. cbn [costSoFar].
    apply lookup_singleton_ne. intros [= E]. lia.
Qed.

End Corridor.


(** * Placement: the blocks of the nodes *)

Section Blocks.

Lemma blockCells_In c k :
  In k (blockCells c) <->
  X c <= fst k <= X c + 2 /\ Y c <= snd k <= Y c + 2.
Proof.
  unfold blockCells. simpl. destruct k as [a b]. simpl. split.
  - intros H. repeat (destruct H as [H|H]; [injection H as <- <-; lia|]). destruct H.
  - intros [Ha Hb].
    assert (Hx : a = X c + 0 \/ a = X c + 1 \/ a = X c + 2) by lia.
    assert (Hy : b = Y c + 0 \/ b = Y c + 1 \/ b = Y c + 2) by lia.
    destruct Hx as [-> | [-> | ->]], Hy as [-> | [-> | ->]]; auto 10.
Qed.

Lemma blockCells_anchor c : In (coordKey c) (blockCells c).
Proof. apply blockCells_In. unfold coordKey. simpl. lia. Qed.

(** Blocks at aligned anchors that share a cell have the same anchor. *)
Lemma aligned_blocks_overlap c c' k :
  aligned c -> aligned c' -> In k (blockCells c) -> In k (blockCells c') -> c = c'.
Proof.
  intros [Hx Hy] [Hx' Hy'] Hk Hk'.
  apply blockCells_In in Hk, Hk'. destruct c as [x y], c' as [x' y']. simpl in *.
  apply Z.mod_divide in Hx, Hy, Hx', Hy'; try lia.
  destruct Hx as [q ->], Hy as [p ->], Hx' as [q' ->], Hy' as [p' ->].
  f_equal; lia.
Qed.

Lemma reserve_lookup_out (cells : list (Z * Z)) (n : nat) : forall (m : gmap (Z * Z) nat) k,
  ~ In k cells -> fold_left (fun m k => <[k := n]> m) cells m !! k = m !! k.
Proof.
  induction cells as [|a cells IH]; intros m k Hnin; simpl; [reflexivity|].
  rewrite IH by (intros H; apply Hnin; right; exact H).
  apply lookup_insert_ne. intros ->. apply Hnin. left. reflexivity.
Qed.

Lemma reserve_lookup_in (cells : list (Z * Z)) (n : nat) : forall (m : gmap (Z * Z) nat) k,
  In k cells -> fold_left (fun m k => <[k := n]> m) cells m !! k = Some n.
Proof.
  induction cells as [|a cells IH]; intros m k Hin; simpl; [destruct Hin|].
  destruct (decide (k ∈ cells)) as [Hin'|Hnin].
  - apply IH, list_elem_of_In, Hin'.
  - rewrite list_elem_of_In in Hnin.
    destruct Hin as [->|Hin]; [|contradiction].
    rewrite reserve_lookup_out by exact Hnin. apply lookup_insert_eq.
Qed.

End Blocks.

Section Placement.

Variable gd : GraphDirection.

Implicit Types (g : Graph.t) (c : GridCoord) (levels : list Z).

Local Abbreviation shifted := (shiftedBy gd).

Lemma shifted_aligned c : aligned c -> aligned (shifted c).
Proof.
  unfold aligned, shiftedBy. intros [Hx Hy].
  destruct gd; simpl; split; auto;
    rewrite <- Z.add_mod_idemp_l by lia; [rewrite Hy | rewrite Hx]; reflexivity.
Qed.

(** What a successful reservation does. *)
Lemma reserveSpotInGrid_probe_spec probes : forall g r c g' c',
  aligned c ->
  reserveSpotInGrid_probe probes gd g r c = Returned (g', c') ->
  aligned c'
  /\ Graph.grid g !! coordKey c' = None
  /\ is_Some (Graph.nodes g !! r)
  /\ g' = updateNode
            (setGrid g (fold_left (fun m k => <[k := r]> m) (blockCells c') (Graph.grid g)))
            r (withGridCoord c').
Proof.
  induction probes as [|probes IH]; intros g r c g' c' Hal; simpl.
  - destruct (Graph.grid g !! coordKey c) eqn:Hk; [discriminate|].
    destruct (Graph.nodes g !! r) eqn:Hr; [|discriminate].
    intros [= <- <-].
    split; [exact Hal|]. split; [exact Hk|]. split; [eauto | reflexivity].
  - destruct (Graph.grid g !! coordKey c) eqn:Hk.
    + intros H. apply (IH g r (shifted c)); [apply shifted_aligned, Hal|].
      exact H.
    + destruct (Graph.nodes g !! r) eqn:Hr; [|discriminate].
      intros [= <- <-].
      split; [exact Hal|]. split; [exact Hk|]. split; [eauto | reflexivity].
Qed.

Lemma alter_lookup_node (ns : list Node.t) (f : Node.t -> Node.t) r r' n :
  alter f r ns !! r' = Some n ->
  exists n0, ns !! r' = Some n0 /\ n = (if decide (r = r') then f n0 else n0).
Proof.
  rewrite list_lookup_alter. destruct (decide (r = r')) as [->|Hne].
  - destruct (ns !! r') as [n0|]; simpl; [|discriminate].
    intros [= <-]. eauto.
  - intros H. eauto.
Qed.

Lemma reserve_inv g levels r c :
  PlaceInv (g, levels) ->
  aligned c -> Graph.grid g !! coordKey c = None ->
  PlaceInv (updateNode
              (setGrid g (fold_left (fun m k => <[k := r]> m) (blockCells c) (Graph.grid g)))
              r (withGridCoord c), levels).
Proof.
  intros [Hnodes Hlev] Hal Hfree. split; [|exact Hlev].
  unfold updateNode, setNodes, setGrid. cbn [fst Graph.nodes Graph.grid] in *.
  intros r' n c' Hn Hc'.
  apply alter_lookup_node in Hn. destruct Hn as (n0 & Hn0 & ->).
  destruct (decide (r = r')) as [->|Hne].
  - simpl in Hc'. injection Hc' as <-. split; [exact Hal|].
    intros k Hk. apply reserve_lookup_in. exact Hk.
  - destruct (Hnodes r' n0 c' Hn0 Hc') as [Hal' Hblock]. split; [exact Hal'|].
    intros k Hk. rewrite reserve_lookup_out; [auto|].
    intros Hin. pose proof (aligned_blocks_overlap c c' k Hal Hal' Hin Hk) as ->.
    rewrite (Hblock _ (blockCells_anchor c')) in Hfree. discriminate.
Qed.

Lemma updateNode_same_inv g levels r c :
  PlaceInv (g, levels) ->
  (exists n, Graph.nodes g !! r = Some n /\ Node.gridCoord n = Some c) ->
  PlaceInv (updateNode g r (withGridCoord c), levels).
Proof.
  intros [Hnodes Hlev] (n & Hn & Hc). split; [|exact Hlev].
  unfold updateNode, setNodes. cbn [fst Graph.nodes Graph.grid] in *.
  intros r' n' c' Hn' Hc'.
  apply alter_lookup_node in Hn'. destruct Hn' as (n0 & Hn0 & ->).
  destruct (decide (r = r')) as [->|Hne].
  - simpl in Hc'. injection Hc' as <-.
    rewrite Hn in Hn0. injection Hn0 as <-. eauto.
  - eauto.
Qed.

Lemma placeNode_inv g levels r c g' :
  PlaceInv (g, levels) -> aligned c ->
  placeNode gd g r c = Returned g' ->
  PlaceInv (g', levels).
Proof.
  intros Hinv Hal. unfold placeNode.
  destruct (Graph.nodes g !! r) as [n|]; [|discriminate].
  destruct (Graph.nodes g !! Node.index n) as [t|]; [|discriminate].
  unfold reserveSpotInGrid.
  destruct (reserveSpotInGrid_probe _ gd g (Node.index n) c) as [[g1 c1]| | |] eqn:Hres;
    try discriminate.
  simpl. intros [= <-].
  destruct (reserveSpotInGrid_probe_spec _ _ _ _ _ _ Hal Hres) as (Hal1 & Hfree & [t' Ht'] & ->).
  apply updateNode_same_inv.
  - apply reserve_inv; auto.
  - unfold updateNode, setNodes, setGrid. cbn [Graph.nodes].
    rewrite list_lookup_alter. destruct (decide _); [|congruence].
    rewrite Ht'. simpl. eauto.
Qed.

Lemma levels_insert_inv g g' levels i v :
  PlaceInv (g, levels) -> PlaceInv (g', levels) -> v mod 4 = 0 ->
  PlaceInv (g', <[i := v]> levels).
Proof.
  intros [_ Hlev] [Hn _] Hv. split; [exact Hn|].
  simpl in *. intros j w Hj.
  destruct (decide (i = j)) as [->|Hne].
  - destruct (decide (j < length levels)%nat).
    + rewrite list_lookup_insert_eq in Hj by assumption. congruence.
    + rewrite list_insert_ge in Hj by lia. eauto.
  - rewrite list_lookup_insert_ne in Hj by exact Hne. eauto.
Qed.

Lemma levelAt_aligned g levels k v :
  PlaceInv (g, levels) -> levelAt levels k = Some v -> v mod 4 = 0.
Proof.
  intros [_ Hlev]. unfold levelAt. destruct (k <? 0); [discriminate|].
  apply Hlev.
Qed.

Lemma add4_mod v : v mod 4 = 0 -> (v + 4) mod 4 = 0.
Proof. intros H. rewrite <- Z.add_mod_idemp_l by lia. rewrite H. reflexivity. Qed.

Lemma placeRoot_inv st r st' :
  PlaceInv st -> placeRoot gd st r = Returned st' -> PlaceInv st'.
Proof.
  destruct st as [g levels]. intros Hinv. unfold placeRoot.
  destruct (levelAt levels 0) as [highest|] eqn:Hl; [|discriminate].
  pose proof (levelAt_aligned g levels 0 highest Hinv Hl) as Hh.
  destruct (placeNode gd g r _) as [g1| | |] eqn:Hp; try discriminate.
  simpl. intros [= <-].
  apply (levels_insert_inv g); [exact Hinv| |apply add4_mod, Hh].
  eapply placeNode_inv; [exact Hinv| |exact Hp].
  unfold aligned. destruct gd; simpl; auto.
Qed.

Lemma placeChild_inv childLevel highestPosition st child st' :
  PlaceInv st -> childLevel mod 4 = 0 ->
  (forall v, highestPosition = Some v -> v mod 4 = 0) ->
  placeChild gd childLevel highestPosition st child = Returned st' ->
  PlaceInv st'.
Proof.
  destruct st as [g levels]. intros Hinv Hcl Hhp. unfold placeChild.
  destruct (Graph.nodes g !! child) as [childNode|]; [|discriminate].
  destruct (Node.gridCoord childNode); [intros [= <-]; exact Hinv|].
  destruct highestPosition as [highest|]; [|discriminate].
  destruct (placeNode gd g child _) as [g1| | |] eqn:Hp; try discriminate.
  simpl. intros [= <-].
  apply (levels_insert_inv g); [exact Hinv| |apply add4_mod, Hhp; reflexivity].
  eapply placeNode_inv; [exact Hinv| |exact Hp].
  unfold aligned. destruct gd; simpl; auto.
Qed.

Lemma forEach_inv {S A : Type} (P : S -> Prop) (body : S -> A -> Outcome S) l :
  (forall s a s', P s -> body s a = Returned s' -> P s') ->
  forall s s', P s -> forEach body l s = Returned s' -> P s'.
Proof.
  intros Hbody. induction l as [|a l IH]; intros s s' Hs; simpl.
  - intros [= <-]. exact Hs.
  - destruct (body s a) as [s1| | |] eqn:Hb; try discriminate.
    simpl. intros Hf. eapply IH; [|exact Hf]. eapply Hbody; eauto.
Qed.

Lemma placeChildren_inv st i st' :
  PlaceInv st -> placeChildren gd st i = Returned st' -> PlaceInv st'.
Proof.
  destruct st as [g levels]. intros Hinv. unfold placeChildren.
  destruct (Graph.nodes g !! i) as [n|] eqn:Hn; [|intros [= <-]; exact Hinv].
  destruct (Node.gridCoord n) as [c|] eqn:Hc; [|intros [= <-]; exact Hinv].
  destruct (proj1 Hinv i n c Hn Hc) as [[Hx Hy] _].
  apply (forEach_inv PlaceInv); [|exact Hinv].
  intros s a s' Hs. apply placeChild_inv; [exact Hs| |].
  - destruct gd; apply add4_mod; assumption.
  - intros v Hv. eapply (levelAt_aligned g levels); [exact Hinv | exact Hv].
Qed.

Lemma placeNodes_inv g g' :
  (forall r n, Graph.nodes g !! r = Some n -> Node.gridCoord n = None) ->
  placeNodes gd g = Returned g' ->
  exists levels, PlaceInv (g', levels).
Proof.
  intros Hfresh. unfold placeNodes.
  destruct (forEach (placeRoot gd) (findRoots g) (g, initialLevels)) as [st1| | |] eqn:H1;
    try discriminate.
  simpl.
  destruct (forEach (placeChildren gd) _ st1) as [st2| | |] eqn:H2; try discriminate.
  simpl. intros [= <-]. exists (snd st2).
  assert (H0 : PlaceInv (g, initialLevels)).
  { split; simpl.
    - intros r n c Hn Hc. rewrite (Hfresh r n Hn) in Hc. discriminate.
    - intros i v Hv. unfold initialLevels in Hv.
      apply list_elem_of_lookup_2, list_elem_of_In, repeat_spec in Hv.
      subst v. reflexivity. }
  pose proof (forEach_inv PlaceInv _ _ placeRoot_inv _ _ H0 H1) as Hinv1.
  pose proof (forEach_inv PlaceInv _ _ placeChildren_inv _ _ Hinv1 H2) as Hinv2.
  destruct st2. exact Hinv2.
Qed.

End Placement.

Section MakeGraph.

Lemma fold_left_inv {S A : Type} (P : S -> Prop) (f : S -> A -> S) l :
  (forall s a, P s -> P (f s a)) -> forall s, P s -> P (fold_left f l s).
Proof.
  intros Hf. induction l as [|a l IH]; intros s Hs; simpl; [exact Hs|].
  apply IH, Hf, Hs.
Qed.

Lemma fresh_append g name index :
  fresh g -> fresh (fst (appendNode g (newNode name index))).
Proof.
  intros (Hn & Hc & Hr & Hw). unfold appendNode, fresh. simpl.
  split; [|auto]. intros r n Hl.
  apply lookup_app_Some in Hl. destruct Hl as [Hl | [_ Hl]]; [eauto|].
  destruct (r - length (Graph.nodes g))%nat; [|discriminate].
  injection Hl as <-. reflexivity.
Qed.

Lemma fresh_setEdges g es : fresh g -> fresh (setEdges g es).
Proof. intros H. exact H. Qed.

Lemma makeGraph_child_fresh parentNode st textEdge :
  fresh (fst st) -> fresh (fst (makeGraph_child parentNode st textEdge)).
Proof.
  destruct st as [g index]. simpl. intros Hf.
  destruct (getNode g (TextEdge.child textEdge)); simpl.
  - apply fresh_setEdges, Hf.
  - apply fresh_setEdges. apply (fresh_append g _ index Hf).
Qed.

Lemma makeGraph_entry_fresh st entry :
  fresh (fst st) -> fresh (fst (makeGraph_entry st entry)).
Proof.
  destruct st as [g index], entry as [nodeName children]. simpl. intros Hf.
  destruct (getNode g nodeName); simpl.
  - apply (fold_left_inv (fun st => fresh (fst st))); [|exact Hf].
    intros s a. apply makeGraph_child_fresh.
  - apply (fold_left_inv (fun st => fresh (fst st))).
    + intros s a. apply makeGraph_child_fresh.
    + apply (fresh_append g _ index Hf).
Qed.

Lemma makeGraph_fresh data : fresh (makeGraph data).
Proof.
  unfold makeGraph.
  apply (fold_left_inv (fun st => fresh (fst st))).
  - intros s a. apply makeGraph_entry_fresh.
  - simpl. unfold fresh. simpl. split; [|auto]. intros r n Hl. destruct r; discriminate.
Qed.

End MakeGraph.

Section Probes.

Variable gd : GraphDirection.

Local Abbreviation crossOf := (crossAxis gd).

(** The recursion of [reserveSpotInGrid] ends: the cells found taken are
    keys of the map, one after another along the cross axis. *)
Lemma reserveSpotInGrid_probe_ends probes : forall g r c (seen : gset (Z * Z)),
  seen ⊆ dom (Graph.grid g) ->
  (forall k, k ∈ seen -> crossOf k < crossOf (coordKey c)) ->
  (size (Graph.grid g) <= size seen + probes)%nat ->
  reserveSpotInGrid_probe probes gd g r c <> OutOfFuel.
Proof.
  induction probes as [|probes IH]; intros g r c seen Hsub Hlt Hsize; simpl.
  - destruct (Graph.grid g !! coordKey c) eqn:Hk.
    + exfalso.
      assert (Hnot : coordKey c ∉ seen).
      { intros Hin. specialize (Hlt _ Hin). lia. }
      assert (Hsub' : {[coordKey c]} ∪ seen ⊆ dom (Graph.grid g)).
      { apply union_subseteq. split; [|exact Hsub].
        apply singleton_subseteq_l, elem_of_dom. eauto. }
      apply subseteq_size in Hsub'.
      rewrite size_union in Hsub' by set_solver.
      rewrite size_singleton, size_dom in Hsub'. lia.
    + destruct (Graph.nodes g !! r); discriminate.
  - destruct (Graph.grid g !! coordKey c) eqn:Hk.
    + assert (Hnot : coordKey c ∉ seen).
      { intros Hin. specialize (Hlt _ Hin). lia. }
      apply (IH g r _ ({[coordKey c]} ∪ seen)).
      * apply union_subseteq. split; [|exact Hsub].
        apply singleton_subseteq_l, elem_of_dom. eauto.
      * intros k Hin. apply elem_of_union in Hin. destruct Hin as [Hin|Hin].
        -- apply elem_of_singleton in Hin. subst k.
           unfold crossAxis, coordKey. destruct gd; simpl; lia.
        -- specialize (Hlt k Hin). revert Hlt.
           unfold crossAxis, coordKey. destruct gd; simpl; lia.
      * rewrite size_union by set_solver. rewrite size_singleton. lia.
    + destruct (Graph.nodes g !! r); discriminate.
Qed.

Lemma reserveSpotInGrid_ends g r c : reserveSpotInGrid gd g r c <> OutOfFuel.
Proof.
  unfold reserveSpotInGrid.
  apply (reserveSpotInGrid_probe_ends _ g r c ∅).
  - set_solver.
  - intros k Hk. set_solver.
  - rewrite size_empty. lia.
Qed.

Lemma placeNode_ends g r c : placeNode gd g r c <> OutOfFuel.
Proof.
  unfold placeNode.
  destruct (Graph.nodes g !! r) as [n|]; [|discriminate].
  destruct (Graph.nodes g !! Node.index n); [|discriminate].
  pose proof (reserveSpotInGrid_ends g (Node.index n) c) as H.
  destruct (reserveSpotInGrid gd g (Node.index n) c) as [[g1 c1]| | |];
    simpl; congruence.
Qed.

Lemma forEach_ends {S A : Type} (body : S -> A -> Outcome S) l :
  (forall s a, body s a <> OutOfFuel) ->
  forall s, forEach body l s <> OutOfFuel.
Proof.
  intros Hbody. induction l as [|a l IH]; intros s; simpl; [discriminate|].
  pose proof (Hbody s a) as Hb.
  destruct (body s a) as [s1| | |]; simpl; [apply IH | discriminate | congruence | discriminate].
Qed.

Lemma placeNodes_ends g : placeNodes gd g <> OutOfFuel.
Proof.
  unfold placeNodes.
  assert (H1 : forall st r, placeRoot gd st r <> OutOfFuel).
  { intros [g0 levels] r. unfold placeRoot.
    destruct (levelAt levels 0); [|discriminate].
    pose proof (placeNode_ends g0 r (match gd with LR => Coord 0 z | TD => Coord z 0 end)) as H.
    destruct (placeNode gd g0 r _); simpl; congruence. }
  assert (H2 : forall st i, placeChildren gd st i <> OutOfFuel).
  { intros [g0 levels] i. unfold placeChildren.
    destruct (Graph.nodes g0 !! i) as [n|]; [|discriminate].
    destruct (Node.gridCoord n) as [c|]; [|discriminate].
    apply forEach_ends. intros [g1 levels1] child. unfold placeChild.
    destruct (Graph.nodes g1 !! child) as [cn|]; [|discriminate].
    destruct (Node.gridCoord cn); [discriminate|].
    destruct (levelAt levels _) as [h|]; [|discriminate].
    match goal with |- context [placeNode gd g1 child ?c] =>
      pose proof (placeNode_ends g1 child c) as H;
      destruct (placeNode gd g1 child c); simpl; congruence end. }
  pose proof (forEach_ends _ (findRoots g) H1 (g, initialLevels)) as Hf1.
  destruct (forEach (placeRoot gd) (findRoots g) (g, initialLevels)) as [st1| | |];
    simpl; try congruence.
  pose proof (forEach_ends _ (seq 0 (length (Graph.nodes g))) H2 st1) as Hf2.
  destruct (forEach (placeChildren gd) _ st1); simpl; congruence.
Qed.

End Probes.



(** * Sizing: the column and row maps *)

Section Sizing.

Implicit Types (g : Graph.t) (n : Node.t) (e : Edge.t).

Lemma grows_snoc g w :
  Forall grows (Graph.sizeWrites g) -> grows w ->
  Forall grows (Graph.sizeWrites g ++ [w]).
Proof. intros H Hw. apply Forall_app. split; [exact H|]. constructor; [exact Hw|constructor]. Qed.

Lemma columnWidth_set_grows g k v :
  Forall grows (Graph.sizeWrites g) ->
  (forall old, Graph.columnWidth g !! k = Some old -> old <= v) ->
  Forall grows (Graph.sizeWrites (columnWidth_set g k v)).
Proof. intros H Hv. apply grows_snoc; [exact H|]. exact Hv. Qed.

Lemma rowHeight_set_grows g k v :
  Forall grows (Graph.sizeWrites g) ->
  (forall old, Graph.rowHeight g !! k = Some old -> old <= v) ->
  Forall grows (Graph.sizeWrites (rowHeight_set g k v)).
Proof. intros H Hv. apply grows_snoc; [exact H|]. exact Hv. Qed.

Lemma max_getOr0 (m : gmap Z Z) k v old :
  m !! k = Some old -> old <= max (getOr0 m k) v.
Proof. intros H. unfold getOr0. rewrite H. simpl. rewrite max_spec. lia. Qed.

Lemma column_max_inv g k v :
  SizeInv g -> k mod 4 <> 3 ->
  SizeInv (columnWidth_set g k (max (getOr0 (Graph.columnWidth g) k) v)).
Proof.
  intros (Hw & Hc & Hr) Hk. split; [|split].
  - apply columnWidth_set_grows; [exact Hw|]. intros old. apply max_getOr0.
  - simpl. intros k' v' Hl Hk'. rewrite lookup_insert_ne in Hl by congruence. eauto.
  - exact Hr.
Qed.

Lemma row_max_inv g k v :
  SizeInv g -> k mod 4 <> 3 ->
  SizeInv (rowHeight_set g k (max (getOr0 (Graph.rowHeight g) k) v)).
Proof.
  intros (Hw & Hc & Hr) Hk. split; [|split].
  - apply rowHeight_set_grows; [exact Hw|]. intros old. apply max_getOr0.
  - exact Hc.
  - simpl. intros k' v' Hl Hk'. rewrite lookup_insert_ne in Hl by congruence. eauto.
Qed.

Lemma column_padding_inv g k :
  SizeInv g -> k mod 4 = 3 -> SizeInv (columnWidth_set g k PADDING_BETWEEN_X).
Proof.
  intros (Hw & Hc & Hr) Hk. split; [|split].
  - apply columnWidth_set_grows; [exact Hw|].
    intros old Hold. rewrite (Hc k old Hold Hk). lia.
  - simpl. intros k' v' Hl Hk'. rewrite lookup_insert in Hl.
    destruct (decide (k = k')); [congruence | eauto].
  - exact Hr.
Qed.

Lemma row_padding_inv g k :
  SizeInv g -> k mod 4 = 3 -> SizeInv (rowHeight_set g k PADDING_BETWEEN_Y).
Proof.
  intros (Hw & Hc & Hr) Hk. split; [|split].
  - apply rowHeight_set_grows; [exact Hw|].
    intros old Hold. rewrite (Hr k old Hold Hk). lia.
  - exact Hc.
  - simpl. intros k' v' Hl Hk'. rewrite lookup_insert in Hl.
    destruct (decide (k = k')); [congruence | eauto].
Qed.

Lemma aligned_offset x i : x mod 4 = 0 -> 0 <= i < 3 -> (x + i) mod 4 <> 3.
Proof.
  intros H Hi. apply Z.mod_divide in H; [|lia]. destruct H as [q ->].
  replace (q * 4 + i) with (i + q * 4) by lia.
  rewrite Z.mod_add by lia. rewrite Z.mod_small by lia. lia.
Qed.

Lemma aligned_before x : x mod 4 = 0 -> (x - 1) mod 4 = 3.
Proof.
  intros H. apply Z.mod_divide in H; [|lia]. destruct H as [q ->].
  replace (q * 4 - 1) with (3 + (q - 1) * 4) by lia.
  rewrite Z.mod_add by lia. reflexivity.
Qed.

Lemma indexed_fst {A : Type} (l : list A) i a :
  In (i, a) (indexed l) -> 0 <= i < Z.of_nat (length l).
Proof.
  unfold indexed. intros Hin. apply in_combine_l in Hin.
  apply in_map_iff in Hin. destruct Hin as (k & <- & Hk).
  apply in_seq in Hk. lia.
Qed.

Lemma fold_columns_inv x (l : list (Z * Z)) : forall g,
  SizeInv g -> (forall ic, In ic l -> (x + fst ic) mod 4 <> 3) ->
  SizeInv (fold_left (fun g ic =>
             let xCoord := x + fst ic in
             let currentWidth := getOr0 (Graph.columnWidth g) xCoord in
             columnWidth_set g xCoord (max currentWidth (snd ic))) l g).
Proof.
  induction l as [|ic l IH]; intros g Hg Hl; simpl; [exact Hg|].
  apply IH.
  - apply column_max_inv; [exact Hg|]. apply Hl. left. reflexivity.
  - intros ic' Hin. apply Hl. right. exact Hin.
Qed.

Lemma fold_rows_inv y (l : list (Z * Z)) : forall g,
  SizeInv g -> (forall ir, In ir l -> (y + fst ir) mod 4 <> 3) ->
  SizeInv (fold_left (fun g ir =>
             let yCoord := y + fst ir in
             let currentHeight := getOr0 (Graph.rowHeight g) yCoord in
             rowHeight_set g yCoord (max currentHeight (snd ir))) l g).
Proof.
  induction l as [|ir l IH]; intros g Hg Hl; simpl; [exact Hg|].
  apply IH.
  - apply row_max_inv; [exact Hg|]. apply Hl. left. reflexivity.
  - intros ir' Hin. apply Hl. right. exact Hin.
Qed.

Lemma setColumnWidth_inv g n :
  SizeInv g ->
  (forall c, Node.gridCoord n = Some c -> aligned c) ->
  SizeInv (setColumnWidth g n).
Proof.
  intros Hinv Hal. unfold setColumnWidth.
  destruct (Node.gridCoord n) as [gc|]; [|exact Hinv].
  destruct (Hal gc eq_refl) as [Hx Hy].
  match goal with |- SizeInv (if _ then rowHeight_set ?g3 _ _ else _) =>
    assert (H3 : SizeInv g3) end.
  { match goal with |- SizeInv (if _ then columnWidth_set ?g2 _ _ else _) =>
      assert (H2 : SizeInv g2) end.
    { apply fold_rows_inv.
      - apply fold_columns_inv; [exact Hinv|].
        intros [i a] Hin. apply indexed_fst in Hin. simpl in *.
        apply aligned_offset; [exact Hx | lia].
      - intros [i a] Hin. apply indexed_fst in Hin. simpl in *.
        apply aligned_offset; [exact Hy | lia]. }
    destruct (X gc >? 0); [|exact H2].
    apply column_padding_inv; [exact H2 | apply aligned_before, Hx]. }
  destruct (Y gc >? 0); [|exact H3].
  apply row_padding_inv; [exact H3 | apply aligned_before, Hy].
Qed.

Lemma increaseGridSizeForPath_grows path : forall g,
  Forall grows (Graph.sizeWrites g) ->
  Forall grows (Graph.sizeWrites (increaseGridSizeForPath g path)).
Proof.
  unfold increaseGridSizeForPath.
  induction path as [|c path IH]; intros g Hg; simpl; [exact Hg|].
  apply IH.
  assert (H1 : Forall grows (Graph.sizeWrites
            (match Graph.columnWidth g !! X c with
             | None => columnWidth_set g (X c) (PADDING_BETWEEN_X / 2)
             | Some _ => g
             end))).
  { destruct (Graph.columnWidth g !! X c) eqn:E; [exact Hg|].
    apply columnWidth_set_grows; [exact Hg|]. intros old Hold. congruence. }
  match goal with |- context [Graph.rowHeight ?g1 !! Y c] =>
    destruct (Graph.rowHeight g1 !! Y c) eqn:E; [exact H1|];
    apply rowHeight_set_grows; [exact H1|]; intros old Hold; congruence end.
Qed.

Lemma determineLabelLine_grows g e g' e' :
  Forall grows (Graph.sizeWrites g) ->
  determineLabelLine g e = Returned (g', e') ->
  Forall grows (Graph.sizeWrites g').
Proof.
  intros Hg. unfold determineLabelLine.
  destruct (Z.of_nat (length (Edge.text e)) =? 0); [intros [= <- <-]; exact Hg|].
  destruct (Edge.path e) as [|p0 [|p1 rest]]; try discriminate.
  intros [= <- <-]. apply columnWidth_set_grows; [exact Hg|].
  intros old. apply max_getOr0.
Qed.

Lemma routeEdge_grows fuel gd g j g' :
  Forall grows (Graph.sizeWrites g) ->
  routeEdge fuel gd g j = Returned g' ->
  Forall grows (Graph.sizeWrites g').
Proof.
  intros Hg. unfold routeEdge.
  destruct (Graph.edges g !! j) as [e|]; [|intros [= <-]; exact Hg].
  destruct (determinePath fuel gd g e) as [e1| | |]; try discriminate. simpl.
  destruct (determineLabelLine _ e1) as [[g2 e2]| | |] eqn:Hl; try discriminate.
  simpl. intros [= <-]. simpl.
  eapply determineLabelLine_grows; [|exact Hl].
  apply increaseGridSizeForPath_grows, Hg.
Qed.

Lemma resolveNode_writes useAscii g i g' :
  resolveNode useAscii g i = Returned g' ->
  Graph.sizeWrites g' = Graph.sizeWrites g.
Proof.
  unfold resolveNode.
  destruct (Graph.nodes g !! i) as [n|]; [|intros [= <-]; reflexivity].
  destruct (Node.gridCoord n) as [gc|]; [|intros [= <-]; reflexivity].
  destruct (Graph.nodes g !! Node.index n) as [t0|]; [|discriminate].
  destruct (Graph.nodes (updateNode _ _ _) !! Node.index n) as [t1|]; [|discriminate].
  destruct (setDrawing useAscii _ t1) as [t2| | |]; try discriminate.
  simpl. intros [= <-]. reflexivity.
Qed.

Lemma reserveSpotInGrid_probe_sizes gd probes : forall g r c g' c',
  reserveSpotInGrid_probe probes gd g r c = Returned (g', c') ->
  sameSizes g (g', @nil Z).
Proof.
  induction probes as [|probes IH]; intros g r c g' c'; simpl.
  - destruct (Graph.grid g !! coordKey c); [discriminate|].
    destruct (Graph.nodes g !! r); [|discriminate].
    intros [= <- <-]. repeat split.
  - destruct (Graph.grid g !! coordKey c); [apply IH|].
    destruct (Graph.nodes g !! r); [|discriminate].
    intros [= <- <-]. repeat split.
Qed.

Lemma placeNode_sizes gd g r c g' :
  placeNode gd g r c = Returned g' -> sameSizes g (g', @nil Z).
Proof.
  unfold placeNode.
  destruct (Graph.nodes g !! r) as [n|]; [|discriminate].
  destruct (Graph.nodes g !! Node.index n); [|discriminate].
  destruct (reserveSpotInGrid gd g (Node.index n) c) as [[g1 c1]| | |] eqn:Hr;
    try discriminate.
  simpl. intros [= <-].
  apply reserveSpotInGrid_probe_sizes in Hr. exact Hr.
Qed.

Lemma placeNodes_sizes gd g g' :
  placeNodes gd g = Returned g' -> sameSizes g (g', @nil Z).
Proof.
  unfold placeNodes.
  destruct (forEach (placeRoot gd) (findRoots g) (g, initialLevels)) as [st1| | |] eqn:H1;
    try discriminate.
  simpl.
  destruct (forEach (placeChildren gd) _ st1) as [st2| | |] eqn:H2; try discriminate.
  simpl. intros [= <-].
  assert (Hroot : forall st r st', sameSizes g st -> placeRoot gd st r = Returned st' ->
                                   sameSizes g st').
  { intros [g0 l0] r st' Hs. unfold placeRoot.
    destruct (levelAt l0 0); [|discriminate].
    destruct (placeNode gd g0 r _) as [g1| | |] eqn:Hp; try discriminate.
    simpl. intros [= <-]. apply placeNode_sizes in Hp.
    unfold sameSizes in *. simpl in *. intuition congruence. }
  assert (Hchild : forall st i st', sameSizes g st -> placeChildren gd st i = Returned st' ->
                                    sameSizes g st').
  { intros [g0 l0] i st' Hs. unfold placeChildren.
    destruct (Graph.nodes g0 !! i) as [n|]; [|intros [= <-]; exact Hs].
    destruct (Node.gridCoord n) as [c|]; [|intros [= <-]; exact Hs].
    apply (forEach_inv (sameSizes g)); [|exact Hs].
    intros [g1 l1] child s' Hs1. unfold placeChild.
    destruct (Graph.nodes g1 !! child) as [cn|]; [|discriminate].
    destruct (Node.gridCoord cn); [intros [= <-]; exact Hs1|].
    destruct (levelAt l0 _); [|discriminate].
    destruct (placeNode gd g1 child _) as [g2| | |] eqn:Hp; try discriminate.
    simpl. intros [= <-]. apply placeNode_sizes in Hp.
    unfold sameSizes in *. simpl in *. intuition congruence. }
  assert (H0 : sameSizes g (g, initialLevels)) by (repeat split).
  pose proof (forEach_inv (sameSizes g) _ _ Hroot _ _ H0 H1) as Hs1.
  pose proof (forEach_inv (sameSizes g) _ _ Hchild _ _ Hs1 H2) as Hs2.
  exact Hs2.
Qed.

Lemma setColumnWidth_all g0 (ns : list Node.t) : forall g,
  SizeInv g ->
  (forall n c, In n ns -> Node.gridCoord n = Some c -> aligned c) ->
  SizeInv (fold_left setColumnWidth ns g).
Proof.
  induction ns as [|n ns IH]; intros g Hg Hal; simpl; [exact Hg|].
  apply IH.
  - apply setColumnWidth_inv; [exact Hg|]. intros c. apply Hal. left. reflexivity.
  - intros n' c Hin. apply Hal. right. exact Hin.
Qed.

End Sizing.



(** * [EdgeImpl.determinePath]: which candidate is kept *)

Section DeterminePath.

Lemma determineStartAndEndDir_returns (gd : GraphDirection)
    (fromCoord toCoord : GridCoord) (isSelfReference : bool) :
  exists dirs, determineStartAndEndDir gd fromCoord toCoord isSelfReference
               = Returned dirs.
Proof.
  unfold determineStartAndEndDir.
  destruct isSelfReference; [eexists; reflexivity|].
  unfold determineDirection.
  destruct (X fromCoord =? X toCoord), (Y fromCoord =? Y toCoord),
    (X fromCoord <? X toCoord), (Y fromCoord <? Y toCoord);
    cbn; destruct gd; eexists; reflexivity.
Qed.

Lemma determinePath_catches (fuel : nat) (gd : GraphDirection) (g : Graph.t)
    (e : Edge.t) (msg : string) :
  determinePath fuel gd g e <> Thrown msg.
Proof.
  unfold determinePath.
  destruct (Graph.nodes g !! Edge.from e) as [fromNode|]; [|discriminate].
  destruct (Graph.nodes g !! Edge.to e) as [toNode|]; [|discriminate].
  destruct (Node.gridCoord fromNode) as [fromCoord|]; [|discriminate].
  destruct (Node.gridCoord toNode) as [toCoord|]; [|discriminate].
  destruct (determineStartAndEndDir_returns gd fromCoord toCoord
              (bool_decide (Edge.from e = Edge.to e))) as [[[[pd pod] ad] aod] ->].
  cbn.
  destruct (getPath fuel (direction fromCoord pd) _ _); try discriminate.
  destruct (getPath fuel (direction fromCoord ad) _ _); try discriminate.
  destruct (_ <=? _)%nat; discriminate.
Qed.

End DeterminePath.




(** * The two rendering modes: canvases *)

Section Loops.

Lemma forEach_rel {S1 S2 A : Type} (R : S1 -> S2 -> Prop)
    (body1 : S1 -> A -> Outcome S1) (body2 : S2 -> A -> Outcome S2) l :
  (forall s1 s2 a s1' s2', R s1 s2 -> body1 s1 a = Returned s1' ->
     body2 s2 a = Returned s2' -> R s1' s2') ->
  forall s1 s2 s1' s2', R s1 s2 -> forEach body1 l s1 = Returned s1' ->
    forEach body2 l s2 = Returned s2' -> R s1' s2'.
Proof.
  intros Hbody. induction l as [|a l IH]; intros s1 s2 s1' s2' Hs; simpl.
  - intros [= <-] [= <-]. exact Hs.
  - destruct (body1 s1 a) as [t1| | |] eqn:H1; try discriminate.
    destruct (body2 s2 a) as [t2| | |] eqn:H2; try discriminate.
    simpl. apply IH. eapply Hbody; eauto.
Qed.

Lemma forEach_app {S A : Type} (body : S -> A -> Outcome S) l1 : forall l2 s,
  forEach body (l1 ++ l2) s = (s' ← forEach body l1 s; forEach body l2 s').
Proof.
  induction l1 as [|a l1 IH]; intros l2 s; simpl; [reflexivity|].
  destruct (body s a); simpl; [apply IH| | |]; reflexivity.
Qed.

End Loops.

Section Shape.

Lemma shape_length c1 c2 : shape c1 = shape c2 -> length c1 = length c2.
Proof.
  unfold shape. intros H. apply (f_equal (@length nat)) in H.
  rewrite !length_map in H. exact H.
Qed.

Lemma shape_size c1 c2 : shape c1 = shape c2 -> getDrawingSize c1 = getDrawingSize c2.
Proof.
  intros H. pose proof (shape_length _ _ H) as Hl.
  destruct c1 as [|a c1], c2 as [|b c2]; try discriminate; [reflexivity|].
  unfold getDrawingSize. rewrite Hl. injection H as Ha _. rewrite Ha. reflexivity.
Qed.

Lemma shape_height0 c1 c2 : shape c1 = shape c2 -> height0 c1 = height0 c2.
Proof.
  intros H. destruct c1 as [|a c1], c2 as [|b c2]; try discriminate; [reflexivity|].
  injection H as Ha _. simpl. rewrite Ha. reflexivity.
Qed.

Lemma shape_insert (c : Canvas) : forall i col col',
  c !! i = Some col -> length col' = length col -> shape (<[i := col']> c) = shape c.
Proof.
  induction c as [|a c IH]; intros [|i] col col' Hc Hl; try discriminate; simpl in *.
  - injection Hc as ->. rewrite Hl. reflexivity.
  - f_equal. apply (IH i col col' Hc Hl).
Qed.

Lemma writeCell_shape c x y g c' :
  writeCell c x y g = Returned c' -> shape c' = shape c.
Proof.
  unfold writeCell. destruct (x <? 0); [discriminate|].
  destruct (c !! Z.to_nat x) as [col|] eqn:Hc; [|discriminate].
  destruct (_ || _); [discriminate|]. intros [= <-].
  apply (shape_insert c _ col); [exact Hc|apply length_insert].
Qed.

Lemma forEach_shape {A : Type} (body : Canvas -> A -> Outcome Canvas) l :
  (forall c a c', body c a = Returned c' -> shape c' = shape c) ->
  forall c c', forEach body l c = Returned c' -> shape c' = shape c.
Proof.
  intros Hbody c c' H.
  refine (forEach_inv (fun d => shape d = shape c) body l _ c c' eq_refl H).
  intros s a s' Hs Hb. rewrite (Hbody _ _ _ Hb). exact Hs.
Qed.

Lemma writeCells_shape c cells g c' :
  writeCells c cells g = Returned c' -> shape c' = shape c.
Proof.
  apply forEach_shape. intros d p d'. apply writeCell_shape.
Qed.

Lemma copyCanvas_shape c1 : forall c2 n1 n2,
  shape c1 = shape c2 -> shape n1 = shape n2 ->
  shape (copyCanvas c1 n1) = shape (copyCanvas c2 n2).
Proof.
  induction c1 as [|a c1 IH]; intros [|b c2] n1 n2 Hc Hn; try discriminate.
  - exact Hn.
  - destruct n1 as [|u n1], n2 as [|v n2]; try discriminate; [reflexivity|].
    injection Hc as Hab Hc. injection Hn as Huv Hn.
    change (length (copyColumn a u) :: shape (copyCanvas c1 n1)
            = length (copyColumn b v) :: shape (copyCanvas c2 n2)).
    rewrite (IH c2 n1 n2 Hc Hn), !copyColumn_length, Hab, Huv. reflexivity.
Qed.

Lemma increaseSize_shape c1 c2 x y :
  shape c1 = shape c2 -> shape (increaseSize c1 x y) = shape (increaseSize c2 x y).
Proof.
  intros H. unfold increaseSize. rewrite (shape_size _ _ H).
  destruct (getDrawingSize c2) as [sx sy].
  apply copyCanvas_shape; [exact H|reflexivity].
Qed.

Lemma sizedLike_shape b1 b2 : shape b1 = shape b2 -> sizedLike b1 = sizedLike b2.
Proof. intros H. unfold sizedLike. rewrite (shape_size _ _ H). reflexivity. Qed.

Lemma drawText_shape c start text c' :
  drawText c start text = Returned c' ->
  shape c' = shape (increaseSize c (X start + Z.of_nat (length text)) (Y start)).
Proof.
  unfold drawText. apply forEach_shape. intros d p d'. apply writeCell_shape.
Qed.

Lemma drawLine_shape useAscii c from to offsetFrom offsetTo c' cells :
  drawLine useAscii c from to offsetFrom offsetTo = Returned (c', cells) ->
  shape c' = shape (increaseSize c (max (X from) (X to)) (max (Y from) (Y to)))
  /\ cells = lineCoords (determineDirection from to) from to offsetFrom offsetTo.
Proof.
  unfold drawLine.
  destruct (if negb useAscii then _ else _) as [c2| | |] eqn:Hd; try discriminate.
  simpl. intros [= <- <-]. split; [|reflexivity].
  destruct useAscii; simpl in Hd; eapply writeCells_shape; exact Hd.
Qed.

End Shape.

Section ShapeOfDrawings.

Lemma drawBox_shape useAscii node columnWidth rowHeight d :
  drawBox useAscii node columnWidth rowHeight = Returned d ->
  shape d = shape (match Node.gridCoord node with
                   | None => makeDrawing 0 0
                   | Some gc =>
                       makeDrawing (max 0 (boxSpan columnWidth (X gc)))
                         (max 0 (boxSpan rowHeight (Y gc)))
                   end).
Proof.
  unfold drawBox. destruct (Node.gridCoord node) as [gc|]; [|intros [= <-]; reflexivity].
  cbv zeta. cbn [X Y].
  set (box := makeDrawing _ _).
  destruct (forEach _ _ box) as [b1| | |] eqn:H1; try discriminate. cbn [mbind Outcome_bind].
  destruct (forEach _ _ b1) as [b2| | |] eqn:H2; try discriminate. cbn [mbind Outcome_bind].
  destruct (forEach _ _ b2) as [b3| | |] eqn:H3; try discriminate. cbn [mbind Outcome_bind].
  destruct (forEach _ _ b3) as [b4| | |] eqn:H4; try discriminate. cbn [mbind Outcome_bind].
  destruct (writeCell b4 _ _ _) as [b5| | |] eqn:H5; try discriminate. cbn [mbind Outcome_bind].
  destruct (writeCell b5 _ _ _) as [b6| | |] eqn:H6; try discriminate. cbn [mbind Outcome_bind].
  destruct (writeCell b6 _ _ _) as [b7| | |] eqn:H7; try discriminate. cbn [mbind Outcome_bind].
  destruct (writeCell b7 _ _ _) as [b8| | |] eqn:H8; try discriminate. cbn [mbind Outcome_bind].
  intros H9.
  apply forEach_shape in H1; [|intros ? ? ?; apply writeCell_shape].
  apply forEach_shape in H2; [|intros ? ? ?; apply writeCell_shape].
  apply forEach_shape in H3; [|intros ? ? ?; apply writeCell_shape].
  apply forEach_shape in H4; [|intros ? ? ?; apply writeCell_shape].
  apply writeCell_shape in H5, H6, H7, H8.
  apply forEach_shape in H9.
  - congruence.
  - intros c xg c'. cbv zeta.
    destruct (_ && _); [|intros [= <-]; reflexivity].
    destruct (height0 c) as [rows| | |]; try discriminate. cbn [mbind Outcome_bind].
    destruct (_ <? rows); [apply writeCell_shape|intros [= <-]; reflexivity].
Qed.

Lemma mergeCell_shape useAscii d mergeCoord merged p merged' :
  mergeCell useAscii d mergeCoord merged p = Returned merged' ->
  shape merged' = shape merged.
Proof.
  unfold mergeCell. destruct (cellAt d (X p) (Y p)) as [c|]; [|discriminate].
  destruct (c =? blank)%N; [intros [= <-]; reflexivity|]. cbv zeta.
  destruct (_ <? Z.of_nat _); [|intros [= <-]; reflexivity].
  destruct (height0 merged) as [rows| | |]; try discriminate. cbn [mbind Outcome_bind].
  destruct (_ <? rows); [|intros [= <-]; reflexivity].
  destruct (_ <? 0); [discriminate|].
  destruct (cellAt merged _ _); [|discriminate].
  destruct (_ && _); apply writeCell_shape.
Qed.

Lemma mergeOne_shape useAscii mergeCoord merged d merged' :
  mergeOne useAscii mergeCoord merged d = Returned merged' ->
  shape merged' = shape merged.
Proof.
  unfold mergeOne. destruct d as [|col0 d]; [intros [= <-]; reflexivity|].
  apply forEach_shape. intros c p c'. apply mergeCell_shape.
Qed.

Lemma copyBaseCell_shape base merged p merged' :
  copyBaseCell base merged p = Returned merged' -> shape merged' = shape merged.
Proof.
  unfold copyBaseCell. destruct (_ <? _); [|intros [= <-]; reflexivity].
  destruct (height0 base) as [rows| | |]; try discriminate. cbn [mbind Outcome_bind].
  destruct (_ <? rows); [|intros [= <-]; reflexivity].
  destruct (cellAt base _ _); [apply writeCell_shape|discriminate].
Qed.

Lemma mergedSize_shape mergeCoord ds1 : forall ds2 b1 b2,
  shape b1 = shape b2 -> Forall2 (fun d1 d2 => shape d1 = shape d2) ds1 ds2 ->
  mergedSize b1 mergeCoord ds1 = mergedSize b2 mergeCoord ds2.
Proof.
  unfold mergedSize. intros ds2 b1 b2 Hb. rewrite (shape_size _ _ Hb).
  generalize (getDrawingSize b2). intros m Hds. revert m.
  induction Hds as [|d1 d2 ds1 ds2 Hd Hds IH]; intros m; [reflexivity|].
  simpl. rewrite (shape_size _ _ Hd). apply IH.
Qed.

Lemma mergeDrawings_shape useAscii base mergeCoord ds merged :
  mergeDrawings useAscii base mergeCoord ds = Returned merged ->
  shape merged = shape (makeDrawing (fst (mergedSize base mergeCoord ds))
                          (snd (mergedSize base mergeCoord ds))).
Proof.
  unfold mergeDrawings. destruct (mergedSize base mergeCoord ds) as [maxX maxY].
  cbn [fst snd].
  destruct (forEach (copyBaseCell base) _ _) as [m1| | |] eqn:H1; try discriminate.
  cbn [mbind Outcome_bind]. intros H2.
  apply forEach_shape in H1; [|intros ? ? ?; apply copyBaseCell_shape].
  apply forEach_shape in H2; [|intros ? ? ?; apply mergeOne_shape].
  congruence.
Qed.

Lemma mergeDrawings_like ua1 ua2 b1 b2 mergeCoord ds1 ds2 m1 m2 :
  shape b1 = shape b2 -> Forall2 (fun d1 d2 => shape d1 = shape d2) ds1 ds2 ->
  mergeDrawings ua1 b1 mergeCoord ds1 = Returned m1 ->
  mergeDrawings ua2 b2 mergeCoord ds2 = Returned m2 ->
  shape m1 = shape m2.
Proof.
  intros Hb Hds H1 H2.
  rewrite (mergeDrawings_shape _ _ _ _ _ H1), (mergeDrawings_shape _ _ _ _ _ H2).
  rewrite (mergedSize_shape mergeCoord ds1 ds2 b1 b2 Hb Hds). reflexivity.
Qed.

End ShapeOfDrawings.

Section ShapeOfFragments.

Variable toDrawing : GridCoord -> DrawingCoord.

Lemma drawPath_step_like ua1 ua2 s1 s2 nextCoord s1' s2' :
  pathLike s1 s2 ->
  drawPath_step ua1 toDrawing s1 nextCoord = Returned s1' ->
  drawPath_step ua2 toDrawing s2 nextCoord = Returned s2' ->
  pathLike s1' s2'.
Proof.
  destruct s1 as [[d1 p1] l1], s2 as [[d2 p2] l2].
  intros (Hd & Hp & Hl). cbn [fst snd] in Hd, Hp, Hl. subst p2 l2.
  unfold drawPath_step.
  destruct (coord_equals _ _); [intros [= <-] [= <-]; repeat split; exact Hd|].
  destruct (drawLine ua1 d1 _ _ _ _) as [[e1 c1]| | |] eqn:H1; try discriminate.
  destruct (drawLine ua2 d2 _ _ _ _) as [[e2 c2]| | |] eqn:H2; try discriminate.
  cbn [mbind Outcome_bind]. intros [= <-] [= <-].
  apply drawLine_shape in H1, H2. destruct H1 as [H1 ->], H2 as [H2 ->].
  repeat split. cbn [fst]. rewrite H1, H2. apply increaseSize_shape, Hd.
Qed.

Lemma drawPath_like ua1 ua2 path b1 b2 d1 l1 d2 l2 :
  shape b1 = shape b2 ->
  drawPath ua1 path toDrawing b1 = Returned (d1, l1) ->
  drawPath ua2 path toDrawing b2 = Returned (d2, l2) ->
  shape d1 = shape d2 /\ l1 = l2.
Proof.
  intros Hb. unfold drawPath. rewrite (sizedLike_shape _ _ Hb).
  destruct path as [|previousCoord rest].
  - intros [= <- <-] [= <- <-]. split; reflexivity.
  - destruct (forEach (drawPath_step ua1 toDrawing) _ _) as [[[e1 p1] k1]| | |] eqn:H1;
      try discriminate.
    destruct (forEach (drawPath_step ua2 toDrawing) _ _) as [[[e2 p2] k2]| | |] eqn:H2;
      try discriminate.
    cbn [mbind Outcome_bind]. intros [= <- <-] [= <- <-].
    assert (H : pathLike (e1, p1, k1) (e2, p2, k2)).
    { refine (forEach_rel pathLike _ _ rest _ _ _ _ _ _ H1 H2).
      - intros s1 s2 a s1' s2'. apply drawPath_step_like.
      - repeat split. }
    destruct H as (H & _ & Hk). split; [exact H|exact Hk].
Qed.

Lemma drawBoxStart_shape useAscii path firstLine base d :
  drawBoxStart useAscii path firstLine base = Returned d ->
  shape d = shape (sizedLike base).
Proof.
  unfold drawBoxStart. cbv zeta.
  destruct firstLine as [[[|from others]]|]; try (intros [= <-]; reflexivity).
  destruct path as [|p0 [|p1 path]]; try (intros [= <-]; reflexivity).
  destruct useAscii; [intros [= <-]; reflexivity|].
  repeat (destruct (coord_equals _ _));
    try (intros [= <-]; reflexivity);
    try (destruct (height0 _) as [rows| | |]; try discriminate; cbn [mbind Outcome_bind]);
    (destruct (_ && _); [apply writeCell_shape|intros [= <-]; reflexivity]).
Qed.

Lemma drawArrowHead_like ua1 ua2 line b1 b2 d1 d2 :
  shape b1 = shape b2 ->
  drawArrowHead ua1 line b1 = Returned d1 ->
  drawArrowHead ua2 line b2 = Returned d2 ->
  shape d1 = shape d2.
Proof.
  intros Hb. unfold drawArrowHead. rewrite (sizedLike_shape _ _ Hb). cbv zeta.
  destruct line as [[[|from others]]|]; try (intros [= <-] [= <-]; reflexivity).
  destruct (match others with [] => _ | _ :: _ => _ end) as [lastPos direction].
  intros H1 H2. apply writeCell_shape in H1, H2. congruence.
Qed.

Lemma drawCorners_loop_like ua1 ua2 path : forall c1 c2 d1 d2,
  shape c1 = shape c2 ->
  drawCorners_loop ua1 toDrawing path c1 = Returned d1 ->
  drawCorners_loop ua2 toDrawing path c2 = Returned d2 ->
  shape d1 = shape d2.
Proof.
  induction path as [|prev rest IH]; intros c1 c2 d1 d2 Hc.
  - intros [= <-] [= <-]. exact Hc.
  - destruct rest as [|coord [|next rest]];
      try (intros [= <-] [= <-]; exact Hc).
    cbn [drawCorners_loop]. cbv zeta.
    destruct (writeCell (increaseSize c1 _ _) _ _ _) as [e1| | |] eqn:H1;
      try discriminate.
    destruct (writeCell (increaseSize c2 _ _) _ _ _) as [e2| | |] eqn:H2;
      try discriminate.
    cbn [mbind Outcome_bind]. apply IH.
    apply writeCell_shape in H1, H2. rewrite H1, H2.
    apply increaseSize_shape, Hc.
Qed.

Lemma drawArrowLabel_base edge b1 b2 :
  shape b1 = shape b2 ->
  drawArrowLabel edge toDrawing b1 = drawArrowLabel edge toDrawing b2.
Proof.
  intros Hb. unfold drawArrowLabel. rewrite (sizedLike_shape _ _ Hb). reflexivity.
Qed.

Lemma drawEdge_like ua1 ua2 edge b1 b2 f1 f2 :
  shape b1 = shape b2 ->
  drawEdge ua1 edge toDrawing b1 = Returned f1 ->
  drawEdge ua2 edge toDrawing b2 = Returned f2 ->
  fragmentsLike f1 f2.
Proof.
  intros Hb. unfold drawEdge.
  destruct (_ =? 0)%nat.
  { intros [= <-] [= <-]. repeat split. }
  rewrite (drawArrowLabel_base edge b1 b2 Hb).
  destruct (drawArrowLabel edge toDrawing b2) as [dLabel| | |]; try discriminate.
  cbn [mbind Outcome_bind].
  destruct (drawPath ua1 _ _ b1) as [[p1 l1]| | |] eqn:Hp1; try discriminate.
  destruct (drawPath ua2 _ _ b2) as [[p2 l2]| | |] eqn:Hp2; try discriminate.
  cbn [mbind Outcome_bind].
  destruct (drawPath_like _ _ _ _ _ _ _ _ _ Hb Hp1 Hp2) as [Hp ->].
  destruct (drawBoxStart ua1 _ _ b1) as [s1| | |] eqn:Hs1; try discriminate.
  destruct (drawBoxStart ua2 _ _ b2) as [s2| | |] eqn:Hs2; try discriminate.
  cbn [mbind Outcome_bind].
  destruct (drawArrowHead ua1 _ b1) as [a1| | |] eqn:Ha1; try discriminate.
  destruct (drawArrowHead ua2 _ b2) as [a2| | |] eqn:Ha2; try discriminate.
  cbn [mbind Outcome_bind].
  destruct (drawCorners ua1 _ _ b1) as [c1| | |] eqn:Hc1; try discriminate.
  destruct (drawCorners ua2 _ _ b2) as [c2| | |] eqn:Hc2; try discriminate.
  cbn [mbind Outcome_bind]. intros [= <-] [= <-].
  split; [exact Hp|]. split.
  { apply drawBoxStart_shape in Hs1, Hs2.
    rewrite Hs1, Hs2, (sizedLike_shape _ _ Hb). reflexivity. }
  split; [exact (drawArrowHead_like _ _ _ _ _ _ _ Hb Ha1 Ha2)|].
  split; [|reflexivity].
  unfold drawCorners in Hc1, Hc2. rewrite (sizedLike_shape _ _ Hb) in Hc1.
  exact (drawCorners_loop_like _ _ _ _ _ _ _ eq_refl Hc1 Hc2).
Qed.

End ShapeOfFragments.

Section Rows.

Lemma row_length (d : Canvas) (y : Z) xs : forall acc line,
  forEach (fun acc x =>
             match cellAt d x y with
             | None => OutOfModel
             | Some c => Returned (acc ++ [c])
             end) xs acc = Returned line ->
  length line = (length acc + length xs)%nat.
Proof.
  induction xs as [|x xs IH]; intros acc line; simpl.
  - intros [= <-]. lia.
  - destruct (cellAt d x y) as [c|]; [|discriminate]. cbn [mbind Outcome_bind].
    intros H. rewrite (IH _ _ H), length_app. simpl. lia.
Qed.

Lemma rows_lengths (d : Canvas) xs ys : forall out rows,
  forEach (fun out y =>
             line ← forEach (fun acc x =>
                               match cellAt d x y with
                               | None => OutOfModel
                               | Some c => Returned (acc ++ [c])
                               end) xs [];
             Returned (out ++ [line])) ys out = Returned rows ->
  map length rows = map length out ++ repeat (length xs) (length ys).
Proof.
  induction ys as [|y ys IH]; intros out rows; simpl.
  - intros [= <-]. rewrite app_nil_r. reflexivity.
  - destruct (forEach _ xs []) as [line| | |] eqn:Hl; try discriminate.
    cbn [mbind Outcome_bind]. intros H. rewrite (IH _ _ H), map_app.
    apply row_length in Hl. simpl in *. rewrite Hl, <- app_assoc. reflexivity.
Qed.

Lemma drawingToRows_like d1 d2 rows1 rows2 :
  shape d1 = shape d2 ->
  drawingToRows d1 = Returned rows1 -> drawingToRows d2 = Returned rows2 ->
  map length rows1 = map length rows2.
Proof.
  intros Hd. unfold drawingToRows. rewrite (shape_height0 _ _ Hd), (shape_length _ _ Hd).
  destruct (height0 d2) as [rows| | |]; try discriminate. cbn [mbind Outcome_bind].
  cbv zeta. intros H1 H2.
  rewrite (rows_lengths _ _ _ _ _ H1), (rows_lengths _ _ _ _ _ H2). reflexivity.
Qed.

End Rows.

(** * The two rendering modes: the same dimensions *)

Section Like.

Lemma nodeLike_refl n : nodeLike n n.
Proof. unfold nodeLike. destruct (Node.drawing n); repeat split. Qed.

Lemma graphLike_refl g : graphLike g g.
Proof.
  unfold graphLike. repeat split.
  induction (Graph.nodes g); constructor; [apply nodeLike_refl|assumption].
Qed.

Lemma nodeLike_drawingCoord dc n1 n2 :
  nodeLike n1 n2 -> nodeLike (withDrawingCoord dc n1) (withDrawingCoord dc n2).
Proof. unfold nodeLike. cbn. intuition congruence. Qed.

Lemma nodeLike_drawn n1 n2 : nodeLike n1 n2 -> nodeLike (withDrawn n1) (withDrawn n2).
Proof. unfold nodeLike. cbn. intuition congruence. Qed.

Lemma nodeLike_drawing d1 d2 n1 n2 :
  nodeLike n1 n2 -> shape d1 = shape d2 ->
  nodeLike (withDrawing d1 n1) (withDrawing d2 n2).
Proof. unfold nodeLike. cbn. intuition congruence. Qed.

Lemma gridToDrawingCoord_like g1 g2 c dir :
  graphLike g1 g2 -> gridToDrawingCoord g1 c dir = gridToDrawingCoord g2 c dir.
Proof.
  intros (_ & _ & _ & Hcw & Hrh). unfold gridToDrawingCoord. rewrite Hcw, Hrh.
  reflexivity.
Qed.

Lemma resolveNode_like ua1 ua2 g1 g2 i g1' g2' :
  graphLike g1 g2 ->
  resolveNode ua1 g1 i = Returned g1' -> resolveNode ua2 g2 i = Returned g2' ->
  graphLike g1' g2'.
Proof.
  intros Hg. pose proof Hg as (Hn & He & Hd & Hcw & Hrh). unfold resolveNode.
  destruct (Graph.nodes g1 !! i) as [n1|] eqn:E1.
  2:{ destruct (Graph.nodes g2 !! i) as [n2|] eqn:E2.
      - destruct (Forall2_lookup_r _ _ _ _ _ Hn E2) as (n1 & E1' & _). congruence.
      - intros [= <-] [= <-]. exact Hg. }
  destruct (Forall2_lookup_l _ _ _ _ _ Hn E1) as (n2 & E2 & Hl). rewrite E2.
  pose proof Hl as (_ & Hidx & Hgc & _). rewrite <- Hgc, <- Hidx.
  destruct (Node.gridCoord n1) as [gc|]; [|intros [= <-] [= <-]; exact Hg].
  rewrite <- (gridToDrawingCoord_like g1 g2 gc None Hg).
  set (dc := gridToDrawingCoord g1 gc None).
  destruct (Graph.nodes g1 !! Node.index n1) as [m1|] eqn:F1; [|discriminate].
  destruct (Graph.nodes g2 !! Node.index n1) as [m2|] eqn:F2; [|discriminate].
  assert (Hn' : Forall2 nodeLike
                  (Graph.nodes (updateNode g1 (Node.index n1) (withDrawingCoord dc)))
                  (Graph.nodes (updateNode g2 (Node.index n1) (withDrawingCoord dc)))).
  { unfold updateNode, setNodes. cbn [Graph.nodes].
    apply Forall2_alter; [exact Hn|]. intros x y _ _. apply nodeLike_drawingCoord. }
  destruct (Graph.nodes (updateNode g1 _ _) !! Node.index n1) as [t1|] eqn:T1;
    [|discriminate].
  destruct (Graph.nodes (updateNode g2 _ _) !! Node.index n1) as [t2|] eqn:T2;
    [|discriminate].
  pose proof (Forall2_lookup_lr _ _ _ _ _ _ Hn' T1 T2) as Ht.
  unfold setDrawing.
  destruct (drawBox ua1 t1 _ _) as [d1| | |] eqn:B1; try discriminate.
  destruct (drawBox ua2 t2 _ _) as [d2| | |] eqn:B2; try discriminate.
  cbn [mbind Outcome_bind]. intros [= <-] [= <-].
  apply drawBox_shape in B1, B2.
  assert (Hs : shape d1 = shape d2).
  { rewrite B1, B2. destruct Ht as (_ & _ & Hgc' & _). rewrite Hgc'.
    unfold updateNode, setNodes. cbn [Graph.columnWidth Graph.rowHeight].
    rewrite Hcw, Hrh. reflexivity. }
  unfold graphLike, setNodes, updateNode. cbn.
  split; [|auto].
  apply Forall2_insert; [exact Hn'|]. apply nodeLike_drawing; assumption.
Qed.

Lemma setDrawingSizeToGridConstraints_like g1 g2 :
  graphLike g1 g2 ->
  graphLike (setDrawingSizeToGridConstraints g1) (setDrawingSizeToGridConstraints g2).
Proof.
  intros (Hn & He & Hd & Hcw & Hrh).
  unfold setDrawingSizeToGridConstraints, graphLike, setDrawing_. cbn.
  rewrite Hcw, Hrh. repeat split; try assumption.
  apply increaseSize_shape, Hd.
Qed.

Lemma createMapping_like fuel gd ua1 ua2 g g1 g2 :
  createMapping fuel gd ua1 g = Returned g1 ->
  createMapping fuel gd ua2 g = Returned g2 ->
  graphLike g1 g2.
Proof.
  unfold createMapping.
  destruct (placeNodes gd g) as [p| | |]; try discriminate. cbn [mbind Outcome_bind].
  cbv zeta.
  destruct (forEach (routeEdge fuel gd) _ _) as [g3| | |]; try discriminate.
  cbn [mbind Outcome_bind].
  destruct (forEach (resolveNode ua1) _ g3) as [a1| | |] eqn:H1; try discriminate.
  destruct (forEach (resolveNode ua2) _ g3) as [a2| | |] eqn:H2; try discriminate.
  cbn [mbind Outcome_bind]. intros [= <-] [= <-].
  apply setDrawingSizeToGridConstraints_like.
  refine (forEach_rel graphLike _ _ _ _ g3 g3 a1 a2 (graphLike_refl g3) H1 H2).
  intros s1 s2 i s1' s2'. apply resolveNode_like.
Qed.

End Like.

Section Draw.

Lemma drawNode_like ua1 ua2 g1 g2 i g1' g2' :
  graphLike g1 g2 ->
  drawNode ua1 g1 i = Returned g1' -> drawNode ua2 g2 i = Returned g2' ->
  graphLike g1' g2'.
Proof.
  intros Hg. pose proof Hg as (Hn & He & Hd & Hcw & Hrh). unfold drawNode.
  destruct (Graph.nodes g1 !! i) as [n1|] eqn:E1.
  2:{ destruct (Graph.nodes g2 !! i) as [n2|] eqn:E2.
      - destruct (Forall2_lookup_r _ _ _ _ _ Hn E2) as (n1 & E1' & _). congruence.
      - intros [= <-] [= <-]. exact Hg. }
  destruct (Forall2_lookup_l _ _ _ _ _ Hn E1) as (n2 & E2 & Hl). rewrite E2.
  destruct Hl as (_ & _ & _ & Hdc & Hdrawn & Hdr). rewrite <- Hdrawn, <- Hdc.
  destruct (Node.drawn n1); [intros [= <-] [= <-]; exact Hg|].
  destruct (Node.drawingCoord n1) as [dc|]; [|intros [= <-] [= <-]; exact Hg].
  destruct (Node.drawing n1) as [d1|], (Node.drawing n2) as [d2|];
    try contradiction; [|intros [= <-] [= <-]; exact Hg].
  destruct (mergeDrawings ua1 _ dc [d1]) as [m1| | |] eqn:M1; try discriminate.
  destruct (mergeDrawings ua2 _ dc [d2]) as [m2| | |] eqn:M2; try discriminate.
  cbn [mbind Outcome_bind]. intros [= <-] [= <-].
  unfold graphLike, updateNode, setNodes, setDrawing_. cbn.
  split; [|split; [exact He|split; [|auto]]].
  - apply Forall2_alter; [exact Hn|]. intros x y _ _. apply nodeLike_drawn.
  - refine (mergeDrawings_like _ _ _ _ _ [d1] [d2] _ _ Hd _ M1 M2).
    constructor; [exact Hdr|constructor].
Qed.

Lemma graphDrawEdge_like ua1 ua2 g1 g2 e f1 f2 :
  graphLike g1 g2 ->
  graphDrawEdge ua1 g1 e = Returned f1 -> graphDrawEdge ua2 g2 e = Returned f2 ->
  fragmentsLike f1 f2.
Proof.
  intros Hg. pose proof Hg as (Hn & He & Hd & Hcw & Hrh). unfold graphDrawEdge.
  assert (Hlook : forall r,
            option_Forall2 nodeLike (Graph.nodes g1 !! r) (Graph.nodes g2 !! r)).
  { intros r. apply Forall2_lookup. exact Hn. }
  assert (Hempty : fragmentsLike emptyFragments emptyFragments) by (repeat split).
  destruct (Edge.startDir e); [|intros [= <-] [= <-]; exact Hempty].
  destruct (Edge.endDir e); [|intros [= <-] [= <-]; exact Hempty].
  destruct (Hlook (Edge.from e)) as [n1 n2 Hfrom|];
    [|intros [= <-] [= <-]; exact Hempty].
  destruct (Hlook (Edge.to e)) as [m1 m2 Hto|];
    [|intros [= <-] [= <-]; exact Hempty].
  destruct Hfrom as (_ & _ & Hgf & _), Hto as (_ & _ & Hgt & _).
  rewrite <- Hgf, <- Hgt.
  destruct (Node.gridCoord n1); [|intros [= <-] [= <-]; exact Hempty].
  destruct (Node.gridCoord m1); [|intros [= <-] [= <-]; exact Hempty].
  unfold gridToDrawingCoord. rewrite Hcw, Hrh.
  apply drawEdge_like. exact Hd.
Qed.

Lemma canvasesLike_snoc ds1 ds2 d1 d2 :
  canvasesLike ds1 ds2 -> shape d1 = shape d2 ->
  canvasesLike (ds1 ++ [d1]) (ds2 ++ [d2]).
Proof.
  intros H Hd. apply Forall2_app; [exact H|]. constructor; [exact Hd|constructor].
Qed.

Lemma collectFragments_like ua1 ua2 g1 g2 s1 s2 e s1' s2' :
  graphLike g1 g2 -> collectedLike s1 s2 ->
  collectFragments ua1 g1 s1 e = Returned s1' ->
  collectFragments ua2 g2 s2 e = Returned s2' ->
  collectedLike s1' s2'.
Proof.
  intros Hg.
  destruct s1 as [[[[l1 c1] a1] b1] t1], s2 as [[[[l2 c2] a2] b2] t2].
  intros (Hl & Hc & Ha & Hb & Ht). unfold collectFragments.
  destruct (graphDrawEdge ua1 g1 e) as [f1| | |] eqn:F1; try discriminate.
  destruct (graphDrawEdge ua2 g2 e) as [f2| | |] eqn:F2; try discriminate.
  pose proof (graphDrawEdge_like _ _ _ _ _ _ _ Hg F1 F2) as Hf.
  destruct f1 as [[[[x1 x2] x3] x4] x5], f2 as [[[[y1 y2] y3] y4] y5].
  destruct Hf as (H1 & H2 & H3 & H4 & H5).
  cbn [mbind Outcome_bind]. intros [= <-] [= <-].
  repeat split; apply canvasesLike_snoc; assumption.
Qed.

Lemma draw_like ua1 ua2 g1 g2 g1' g2' :
  graphLike g1 g2 ->
  draw ua1 g1 = Returned g1' -> draw ua2 g2 = Returned g2' ->
  shape (Graph.drawing g1') = shape (Graph.drawing g2').
Proof.
  intros Hg. unfold draw.
  rewrite <- (Forall2_length _ _ _ (proj1 Hg)).
  destruct (forEach (drawNode ua1) _ g1) as [h1| | |] eqn:N1; try discriminate.
  destruct (forEach (drawNode ua2) _ g2) as [h2| | |] eqn:N2; try discriminate.
  cbn [mbind Outcome_bind].
  assert (Hh : graphLike h1 h2).
  { refine (forEach_rel graphLike _ _ _ _ g1 g2 h1 h2 Hg N1 N2).
    intros s1 s2 i s1' s2'. apply drawNode_like. }
  pose proof Hh as (_ & He & Hd & _). rewrite <- He.
  destruct (forEach (collectFragments ua1 h1) _ _) as [[[[[l1 c1] a1] b1] t1]| | |] eqn:C1;
    try discriminate.
  destruct (forEach (collectFragments ua2 h2) _ _) as [[[[[l2 c2] a2] b2] t2]| | |] eqn:C2;
    try discriminate.
  cbn [mbind Outcome_bind].
  assert (Hc : collectedLike (l1, c1, a1, b1, t1) (l2, c2, a2, b2, t2)).
  { refine (forEach_rel collectedLike _ _ _ _ _ _ _ _ _ C1 C2).
    - intros s1 s2 e s1' s2'. apply collectFragments_like. exact Hh.
    - repeat split; constructor. }
  destruct Hc as (Hl & Hc & Ha & Hb & Ht).
  destruct (mergeDrawings ua1 _ _ l1) as [p1| | |] eqn:P1; try discriminate.
  destruct (mergeDrawings ua2 _ _ l2) as [p2| | |] eqn:P2; try discriminate.
  cbn [mbind Outcome_bind].
  pose proof (mergeDrawings_like _ _ _ _ _ _ _ _ _ Hd Hl P1 P2) as Hp.
  destruct (mergeDrawings ua1 p1 _ c1) as [q1| | |] eqn:Q1; try discriminate.
  destruct (mergeDrawings ua2 p2 _ c2) as [q2| | |] eqn:Q2; try discriminate.
  cbn [mbind Outcome_bind].
  pose proof (mergeDrawings_like _ _ _ _ _ _ _ _ _ Hp Hc Q1 Q2) as Hq.
  destruct (mergeDrawings ua1 q1 _ a1) as [r1| | |] eqn:R1; try discriminate.
  destruct (mergeDrawings ua2 q2 _ a2) as [r2| | |] eqn:R2; try discriminate.
  cbn [mbind Outcome_bind].
  pose proof (mergeDrawings_like _ _ _ _ _ _ _ _ _ Hq Ha R1 R2) as Hr.
  destruct (mergeDrawings ua1 r1 _ b1) as [u1| | |] eqn:U1; try discriminate.
  destruct (mergeDrawings ua2 r2 _ b2) as [u2| | |] eqn:U2; try discriminate.
  cbn [mbind Outcome_bind].
  pose proof (mergeDrawings_like _ _ _ _ _ _ _ _ _ Hr Hb U1 U2) as Hu.
  destruct (mergeDrawings ua1 u1 _ t1) as [v1| | |] eqn:V1; try discriminate.
  destruct (mergeDrawings ua2 u2 _ t2) as [v2| | |] eqn:V2; try discriminate.
  cbn [mbind Outcome_bind]. intros [= <-] [= <-]. cbn.
  exact (mergeDrawings_like _ _ _ _ _ _ _ _ _ Hu Ht V1 V2).
Qed.

Lemma render_like fuel gd data rows1 rows2 :
  render fuel gd true data = Returned rows1 ->
  render fuel gd false data = Returned rows2 ->
  map length rows1 = map length rows2.
Proof.
  unfold render.
  destruct (createMapping fuel gd true _) as [g1| | |] eqn:M1; try discriminate.
  destruct (createMapping fuel gd false _) as [g2| | |] eqn:M2; try discriminate.
  cbn [mbind Outcome_bind].
  destruct (draw true g1) as [h1| | |] eqn:D1; try discriminate.
  destruct (draw false g2) as [h2| | |] eqn:D2; try discriminate.
  cbn [mbind Outcome_bind].
  apply drawingToRows_like.
  exact (draw_like _ _ _ _ _ _ (createMapping_like _ _ _ _ _ _ _ M1 M2) D1 D2).
Qed.

End Draw.

(** * ASCII mode: no junction glyph is drawn *)

Section PlainCanvas.

Lemma forEach_inv_In {S A : Type} (P : S -> Prop) (body : S -> A -> Outcome S) l :
  (forall s a s', In a l -> P s -> body s a = Returned s' -> P s') ->
  forall s s', P s -> forEach body l s = Returned s' -> P s'.
Proof.
  induction l as [|a l IH]; intros Hbody s s' Hs; simpl.
  - intros [= <-]. exact Hs.
  - destruct (body s a) as [s1| | |] eqn:Hb; try discriminate.
    cbn [mbind Outcome_bind]. apply IH.
    + intros t b t' Hin. apply Hbody. right. exact Hin.
    + apply (Hbody s a s1); [left; reflexivity|exact Hs|exact Hb].
Qed.

Lemma cellAt_plain c x y g : plainCanvas c -> cellAt c x y = Some g -> plain g.
Proof.
  intros Hc. unfold cellAt. destruct (_ || _); [discriminate|].
  destruct (nth_error c (Z.to_nat x)) as [col|] eqn:E; [|discriminate].
  intros Hg. apply nth_error_In in E, Hg.
  unfold plainCanvas, plainText in Hc. rewrite List.Forall_forall in Hc.
  specialize (Hc col E). rewrite List.Forall_forall in Hc. exact (Hc g Hg).
Qed.

Lemma writeCell_plain c x y g c' :
  plainCanvas c -> plain g -> writeCell c x y g = Returned c' -> plainCanvas c'.
Proof.
  intros Hc Hg. unfold writeCell. destruct (x <? 0); [discriminate|].
  destruct (c !! Z.to_nat x) as [col|] eqn:E; [|discriminate].
  destruct (_ || _); [discriminate|]. intros [= <-].
  apply Forall_insert; [exact Hc|].
  apply Forall_insert; [|exact Hg].
  exact (Forall_lookup_1 _ _ _ _ Hc E).
Qed.

Lemma writeCells_plain c cells g c' :
  plainCanvas c -> plain g -> writeCells c cells g = Returned c' -> plainCanvas c'.
Proof.
  intros Hc Hg. unfold writeCells. apply forEach_inv; [|exact Hc].
  intros s p s' Hs. apply writeCell_plain; assumption.
Qed.

Lemma repeat_Forall {A : Type} (P : A -> Prop) a n : P a -> Forall P (repeat a n).
Proof. intros Ha. induction n; simpl; constructor; assumption. Qed.

Lemma makeDrawing_plain x y : plainCanvas (makeDrawing x y).
Proof.
  unfold makeDrawing. apply repeat_Forall, repeat_Forall. reflexivity.
Qed.

Lemma copyColumn_plain src : forall dst,
  plainText src -> plainText dst -> plainText (copyColumn src dst).
Proof.
  induction src as [|c src IH]; intros dst Hs Hd; [exact Hd|].
  inversion Hs as [|? ? Hc Hs']; subst.
  destruct dst as [|d dst]; simpl; constructor; try exact Hc; apply IH; try exact Hs'.
  - constructor.
  - inversion Hd; assumption.
Qed.

Lemma copyCanvas_plain c : forall n,
  plainCanvas c -> plainCanvas n -> plainCanvas (copyCanvas c n).
Proof.
  induction c as [|col c IH]; intros n Hc Hn; [exact Hn|].
  inversion Hc as [|? ? Hcol Hc']; subst.
  destruct n as [|ncol n]; simpl; [constructor|].
  inversion Hn as [|? ? Hncol Hn']; subst.
  constructor; [apply copyColumn_plain; assumption|apply IH; assumption].
Qed.

Lemma increaseSize_plain c x y : plainCanvas c -> plainCanvas (increaseSize c x y).
Proof.
  intros Hc. unfold increaseSize. destruct (getDrawingSize c) as [sx sy].
  apply copyCanvas_plain; [exact Hc|apply makeDrawing_plain].
Qed.

Lemma sizedLike_plain base : plainCanvas (sizedLike base).
Proof.
  unfold sizedLike. destruct (getDrawingSize base) as [bx by_].
  apply increaseSize_plain, makeDrawing_plain.
Qed.

Lemma indexed_In {A : Type} (l : list A) i a : In (i, a) (indexed l) -> In a l.
Proof. unfold indexed. apply in_combine_r. Qed.

Lemma drawText_plain c start text c' :
  plainCanvas c -> plainText text -> drawText c start text = Returned c' ->
  plainCanvas c'.
Proof.
  intros Hc Ht. unfold drawText.
  apply forEach_inv_In; [|apply increaseSize_plain, Hc].
  intros s [i g] s' Hin Hs. apply writeCell_plain; [exact Hs|].
  apply indexed_In in Hin. unfold plainText in Ht. rewrite List.Forall_forall in Ht.
  exact (Ht g Hin).
Qed.

Lemma asciiLineGlyph_plain direction : plain (asciiLineGlyph direction).
Proof.
  unfold asciiLineGlyph. repeat (destruct (coord_equals _ _)); reflexivity.
Qed.

Lemma drawLine_plain c from to offsetFrom offsetTo c' cells :
  plainCanvas c ->
  drawLine true c from to offsetFrom offsetTo = Returned (c', cells) ->
  plainCanvas c'.
Proof.
  intros Hc. unfold drawLine. cbn [negb].
  destruct (drawAsciiLine _ _ _ _ _ _) as [c2| | |] eqn:Hd; try discriminate.
  cbn [mbind Outcome_bind]. intros [= <- <-].
  unfold drawAsciiLine in Hd. eapply writeCells_plain; [| |exact Hd].
  - apply increaseSize_plain, Hc.
  - apply asciiLineGlyph_plain.
Qed.

End PlainCanvas.

Section PlainDrawings.

Lemma drawBox_plain node columnWidth rowHeight d :
  plainText (Node.name node) ->
  drawBox true node columnWidth rowHeight = Returned d -> plainCanvas d.
Proof.
  intros Hname. unfold drawBox.
  destruct (Node.gridCoord node) as [gc|]; [|intros [= <-]; apply makeDrawing_plain].
  cbv zeta. cbn [X Y negb].
  set (box := makeDrawing _ _).
  assert (H0 : plainCanvas box) by apply makeDrawing_plain.
  destruct (forEach _ _ box) as [b1| | |] eqn:H1; try discriminate.
  cbn [mbind Outcome_bind].
  destruct (forEach _ _ b1) as [b2| | |] eqn:H2; try discriminate.
  cbn [mbind Outcome_bind].
  destruct (forEach _ _ b2) as [b3| | |] eqn:H3; try discriminate.
  cbn [mbind Outcome_bind].
  destruct (forEach _ _ b3) as [b4| | |] eqn:H4; try discriminate.
  cbn [mbind Outcome_bind].
  destruct (writeCell b4 _ _ _) as [b5| | |] eqn:H5; try discriminate.
  cbn [mbind Outcome_bind].
  destruct (writeCell b5 _ _ _) as [b6| | |] eqn:H6; try discriminate.
  cbn [mbind Outcome_bind].
  destruct (writeCell b6 _ _ _) as [b7| | |] eqn:H7; try discriminate.
  cbn [mbind Outcome_bind].
  destruct (writeCell b7 _ _ _) as [b8| | |] eqn:H8; try discriminate.
  cbn [mbind Outcome_bind].
  intros H9.
  assert (Hw : forall A (f : Canvas -> A -> Z * Z) g l c c',
            plain g -> plainCanvas c ->
            forEach (fun c a => writeCell c (fst (f c a)) (snd (f c a)) g) l c
            = Returned c' -> plainCanvas c').
  { intros A f g l c c' Hg Hc. apply forEach_inv; [|exact Hc].
    intros s a s' Hs. apply writeCell_plain; assumption. }
  apply (Hw Z (fun _ x => (x, 0))) in H1; [|reflexivity|exact H0].
  apply (Hw Z (fun _ x => (x, _))) in H2; [|reflexivity|exact H1].
  apply (Hw Z (fun _ y => (0, y))) in H3; [|reflexivity|exact H2].
  apply (Hw Z (fun _ y => (_, y))) in H4; [|reflexivity|exact H3].
  apply writeCell_plain in H5; [|exact H4|reflexivity].
  apply writeCell_plain in H6; [|exact H5|reflexivity].
  apply writeCell_plain in H7; [|exact H6|reflexivity].
  apply writeCell_plain in H8; [|exact H7|reflexivity].
  revert H9. apply forEach_inv_In; [|exact H8].
  intros c [i g] c' Hin Hc. cbv zeta. cbn [fst snd].
  destruct (_ && _); [|intros [= <-]; exact Hc].
  destruct (height0 c) as [rows| | |]; try discriminate. cbn [mbind Outcome_bind].
  destruct (_ <? rows); [|intros [= <-]; exact Hc].
  apply writeCell_plain; [exact Hc|].
  apply indexed_In in Hin. unfold plainText in Hname.
  rewrite List.Forall_forall in Hname. exact (Hname g Hin).
Qed.

Lemma mergeCell_plain d mergeCoord merged p merged' :
  plainCanvas d -> plainCanvas merged ->
  mergeCell true d mergeCoord merged p = Returned merged' -> plainCanvas merged'.
Proof.
  intros Hd Hm. unfold mergeCell.
  destruct (cellAt d (X p) (Y p)) as [c|] eqn:Hc; [|discriminate].
  destruct (c =? blank)%N; [intros [= <-]; exact Hm|]. cbv zeta.
  destruct (_ <? Z.of_nat _); [|intros [= <-]; exact Hm].
  destruct (height0 merged) as [rows| | |]; try discriminate. cbn [mbind Outcome_bind].
  destruct (_ <? rows); [|intros [= <-]; exact Hm].
  destruct (_ <? 0); [discriminate|].
  destruct (cellAt merged _ _); [|discriminate]. cbn [negb andb].
  apply writeCell_plain; [exact Hm|]. exact (cellAt_plain _ _ _ _ Hd Hc).
Qed.

Lemma mergeOne_plain mergeCoord merged d merged' :
  plainCanvas d -> plainCanvas merged ->
  mergeOne true mergeCoord merged d = Returned merged' -> plainCanvas merged'.
Proof.
  intros Hd Hm. unfold mergeOne. destruct d as [|col0 d']; [intros [= <-]; exact Hm|].
  apply forEach_inv; [|exact Hm]. intros s p s' Hs. apply mergeCell_plain; assumption.
Qed.

Lemma copyBaseCell_plain base merged p merged' :
  plainCanvas base -> plainCanvas merged ->
  copyBaseCell base merged p = Returned merged' -> plainCanvas merged'.
Proof.
  intros Hb Hm. unfold copyBaseCell. destruct (_ <? _); [|intros [= <-]; exact Hm].
  destruct (height0 base) as [rows| | |]; try discriminate. cbn [mbind Outcome_bind].
  destruct (_ <? rows); [|intros [= <-]; exact Hm].
  destruct (cellAt base _ _) as [c|] eqn:Hc; [|discriminate].
  apply writeCell_plain; [exact Hm|]. exact (cellAt_plain _ _ _ _ Hb Hc).
Qed.

Lemma mergeDrawings_plain base mergeCoord ds merged :
  plainCanvas base -> Forall plainCanvas ds ->
  mergeDrawings true base mergeCoord ds = Returned merged -> plainCanvas merged.
Proof.
  intros Hb Hds. unfold mergeDrawings.
  destruct (mergedSize base mergeCoord ds) as [maxX maxY].
  destruct (forEach (copyBaseCell base) _ _) as [m1| | |] eqn:H1; try discriminate.
  cbn [mbind Outcome_bind].
  assert (Hm1 : plainCanvas m1).
  { revert H1. apply forEach_inv; [|apply makeDrawing_plain].
    intros s p s' Hs. apply copyBaseCell_plain; assumption. }
  apply forEach_inv_In; [|exact Hm1].
  intros s d s' Hin Hs. apply mergeOne_plain; [|exact Hs].
  rewrite List.Forall_forall in Hds. exact (Hds d Hin).
Qed.

Lemma drawingToRows_plain d rows :
  plainCanvas d -> drawingToRows d = Returned rows -> Forall plainText rows.
Proof.
  intros Hd. unfold drawingToRows.
  destruct (height0 d) as [h| | |]; try discriminate. cbn [mbind Outcome_bind].
  cbv zeta. apply forEach_inv; [|constructor].
  intros out y out' Hout.
  destruct (forEach _ _ []) as [line| | |] eqn:Hl; try discriminate.
  cbn [mbind Outcome_bind]. intros [= <-].
  apply Forall_app. split; [exact Hout|]. constructor; [|constructor].
  revert Hl. apply forEach_inv; [|constructor].
  intros acc x acc' Hacc. destruct (cellAt d x y) as [c|] eqn:Hc; [|discriminate].
  intros [= <-]. apply Forall_app. split; [exact Hacc|].
  constructor; [|constructor]. exact (cellAt_plain _ _ _ _ Hd Hc).
Qed.

End PlainDrawings.

Section PlainFragments.

Variable toDrawing : GridCoord -> DrawingCoord.

Lemma drawPath_plain path base d lines :
  drawPath true path toDrawing base = Returned (d, lines) -> plainCanvas d.
Proof.
  unfold drawPath. destruct path as [|previousCoord rest].
  - intros [= <- <-]. apply sizedLike_plain.
  - destruct (forEach _ rest _) as [[[e p] k]| | |] eqn:H; try discriminate.
    cbn [mbind Outcome_bind]. intros [= <- <-].
    refine (forEach_inv (fun st => plainCanvas (fst (fst st))) _ rest _ _ _ _ H).
    + intros [[c q] l] nextCoord s' Hc. unfold drawPath_step.
      destruct (coord_equals _ _); [intros [= <-]; exact Hc|].
      destruct (drawLine true c _ _ _ _) as [[c1 cells]| | |] eqn:Hl; try discriminate.
      cbn [mbind Outcome_bind]. intros [= <-].
      exact (drawLine_plain _ _ _ _ _ _ _ Hc Hl).
    + apply sizedLike_plain.
Qed.

Lemma drawBoxStart_plain path firstLine base d :
  drawBoxStart true path firstLine base = Returned d -> plainCanvas d.
Proof.
  unfold drawBoxStart. cbv zeta.
  destruct firstLine as [[[|from others]]|];
    try (intros [= <-]; apply sizedLike_plain).
  destruct path as [|p0 [|p1 path]]; intros [= <-]; apply sizedLike_plain.
Qed.

Lemma arrowHeadGlyph_plain direction : plain (arrowHeadGlyph true direction).
Proof.
  unfold arrowHeadGlyph. cbn [negb].
  repeat (destruct (coord_equals _ _)); reflexivity.
Qed.

Lemma drawArrowHead_plain line base d :
  drawArrowHead true line base = Returned d -> plainCanvas d.
Proof.
  unfold drawArrowHead. cbv zeta.
  destruct line as [[[|from others]]|]; try (intros [= <-]; apply sizedLike_plain).
  destruct (match others with [] => _ | _ :: _ => _ end) as [lastPos direction].
  apply writeCell_plain; [|apply arrowHeadGlyph_plain].
  apply increaseSize_plain, sizedLike_plain.
Qed.

Lemma drawCorners_loop_plain path : forall c d,
  plainCanvas c -> drawCorners_loop true toDrawing path c = Returned d ->
  plainCanvas d.
Proof.
  induction path as [|prev rest IH]; intros c d Hc.
  - intros [= <-]. exact Hc.
  - destruct rest as [|coord [|next rest]]; try (intros [= <-]; exact Hc).
    cbn [drawCorners_loop]. cbv zeta.
    destruct (writeCell (increaseSize c _ _) _ _ _) as [c1| | |] eqn:H1;
      try discriminate.
    cbn [mbind Outcome_bind]. apply IH.
    revert H1. apply writeCell_plain; [apply increaseSize_plain, Hc|reflexivity].
Qed.

Lemma drawArrowLabel_plain edge base d :
  plainText (Edge.text edge) ->
  drawArrowLabel edge toDrawing base = Returned d -> plainCanvas d.
Proof.
  intros Ht. unfold drawArrowLabel. cbv zeta.
  destruct (_ =? 0)%nat; [intros [= <-]; apply sizedLike_plain|].
  destruct (2 <=? _)%nat; [|intros [= <-]; apply sizedLike_plain].
  unfold drawTextOnLine.
  destruct (map toDrawing _) as [|l0 [|l1 line]];
    try (intros [= <-]; apply sizedLike_plain).
  cbv zeta. apply drawText_plain; [apply sizedLike_plain|exact Ht].
Qed.

Lemma drawEdge_plain edge base line boxStart arrowHead corners label :
  plainText (Edge.text edge) ->
  drawEdge true edge toDrawing base
  = Returned (line, boxStart, arrowHead, corners, label) ->
  plainCanvas line /\ plainCanvas boxStart /\ plainCanvas arrowHead
  /\ plainCanvas corners /\ plainCanvas label.
Proof.
  intros Ht. unfold drawEdge.
  destruct (_ =? 0)%nat.
  { intros [= <- <- <- <- <-]. repeat split; apply makeDrawing_plain. }
  destruct (drawArrowLabel edge toDrawing base) as [dLabel| | |] eqn:Hl;
    try discriminate.
  cbn [mbind Outcome_bind].
  destruct (drawPath true _ _ base) as [[dPath lines]| | |] eqn:Hp; try discriminate.
  cbn [mbind Outcome_bind].
  destruct (drawBoxStart true _ _ base) as [dBoxStart| | |] eqn:Hs; try discriminate.
  cbn [mbind Outcome_bind].
  destruct (drawArrowHead true _ base) as [dArrowHead| | |] eqn:Ha; try discriminate.
  cbn [mbind Outcome_bind].
  destruct (drawCorners true _ _ base) as [dCorners| | |] eqn:Hc; try discriminate.
  cbn [mbind Outcome_bind]. intros [= <- <- <- <- <-].
  split; [exact (drawPath_plain _ _ _ _ Hp)|].
  split; [exact (drawBoxStart_plain _ _ _ _ Hs)|].
  split; [exact (drawArrowHead_plain _ _ _ Ha)|].
  split; [|exact (drawArrowLabel_plain _ _ _ Ht Hl)].
  unfold drawCorners in Hc.
  exact (drawCorners_loop_plain _ _ _ (sizedLike_plain base) Hc).
Qed.

End PlainFragments.

Section Content.

Lemma PlainGraph_spec g :
  PlainGraph g <->
  Forall plainText (map Node.name (Graph.nodes g))
  /\ Forall plainDrawing (map Node.drawing (Graph.nodes g))
  /\ Forall plainText (map Edge.text (Graph.edges g))
  /\ plainCanvas (Graph.drawing g).
Proof. reflexivity. Qed.

Lemma PlainGraph_content g g' : content g' = content g -> PlainGraph g -> PlainGraph g'.
Proof. unfold PlainGraph. intros ->. exact (fun H => H). Qed.

Lemma map_insert_same {A B : Type} (f : A -> B) (l : list A) : forall i a a',
  l !! i = Some a -> f a' = f a -> map f (<[i := a']> l) = map f l.
Proof.
  induction l as [|b l IH]; intros [|i] a a' Hl Hf; try discriminate; simpl in *.
  - injection Hl as ->. rewrite Hf. reflexivity.
  - f_equal. exact (IH i a a' Hl Hf).
Qed.

Lemma map_alter_same {A B : Type} (f : A -> B) (h : A -> A) (l : list A) i :
  (forall a, f (h a) = f a) -> map f (alter h i l) = map f l.
Proof.
  intros Hf. revert i. induction l as [|b l IH]; intros [|i]; simpl; try reflexivity.
  - rewrite Hf. reflexivity.
  - f_equal. apply IH.
Qed.

Lemma updateNode_gridCoord_content g r c :
  content (updateNode g r (withGridCoord c)) = content g.
Proof.
  unfold content, updateNode, setNodes. cbn [Graph.nodes Graph.edges Graph.drawing].
  rewrite !map_alter_same; reflexivity.
Qed.

Lemma reserveSpotInGrid_probe_content gd probes : forall g r c g' c',
  reserveSpotInGrid_probe probes gd g r c = Returned (g', c') ->
  content g' = content g.
Proof.
  induction probes as [|probes IH]; intros g r c g' c'; simpl.
  - destruct (Graph.grid g !! coordKey c); [discriminate|].
    destruct (Graph.nodes g !! r); [|discriminate].
    intros [= <- <-]. rewrite updateNode_gridCoord_content. reflexivity.
  - destruct (Graph.grid g !! coordKey c); [apply IH|].
    destruct (Graph.nodes g !! r); [|discriminate].
    intros [= <- <-]. rewrite updateNode_gridCoord_content. reflexivity.
Qed.

Lemma placeNode_content gd g r c g' :
  placeNode gd g r c = Returned g' -> content g' = content g.
Proof.
  unfold placeNode.
  destruct (Graph.nodes g !! r) as [n|]; [|discriminate].
  destruct (Graph.nodes g !! Node.index n); [|discriminate].
  destruct (reserveSpotInGrid gd g (Node.index n) c) as [[g1 c1]| | |] eqn:Hr;
    try discriminate.
  cbn [mbind Outcome_bind]. intros [= <-].
  apply reserveSpotInGrid_probe_content in Hr.
  rewrite updateNode_gridCoord_content. exact Hr.
Qed.

Lemma placeNodes_content gd g g' :
  placeNodes gd g = Returned g' -> content g' = content g.
Proof.
  unfold placeNodes.
  destruct (forEach (placeRoot gd) (findRoots g) (g, initialLevels)) as [st1| | |] eqn:H1;
    try discriminate.
  cbn [mbind Outcome_bind].
  destruct (forEach (placeChildren gd) _ st1) as [st2| | |] eqn:H2; try discriminate.
  cbn [mbind Outcome_bind]. intros [= <-].
  set (same := fun st : Graph.t * list Z => content (fst st) = content g).
  assert (Hroot : forall st r st', same st -> placeRoot gd st r = Returned st' -> same st').
  { intros [g0 l0] r st' Hs. unfold placeRoot.
    destruct (levelAt l0 0); [|discriminate].
    destruct (placeNode gd g0 r _) as [g1| | |] eqn:Hp; try discriminate.
    cbn [mbind Outcome_bind]. intros [= <-]. apply placeNode_content in Hp.
    unfold same in *. cbn [fst] in *. congruence. }
  assert (Hchild : forall st i st', same st -> placeChildren gd st i = Returned st' ->
                                    same st').
  { intros [g0 l0] i st' Hs. unfold placeChildren.
    destruct (Graph.nodes g0 !! i) as [n|]; [|intros [= <-]; exact Hs].
    destruct (Node.gridCoord n) as [c|]; [|intros [= <-]; exact Hs].
    apply (forEach_inv same); [|exact Hs].
    intros [g1 l1] child s' Hs1. unfold placeChild.
    destruct (Graph.nodes g1 !! child) as [cn|]; [|discriminate].
    destruct (Node.gridCoord cn); [intros [= <-]; exact Hs1|].
    destruct (levelAt l0 _); [|discriminate].
    destruct (placeNode gd g1 child _) as [g2| | |] eqn:Hp; try discriminate.
    cbn [mbind Outcome_bind]. intros [= <-]. apply placeNode_content in Hp.
    unfold same in *. cbn [fst] in *. congruence. }
  assert (H0 : same (g, initialLevels)) by reflexivity.
  pose proof (forEach_inv same _ _ Hroot _ _ H0 H1) as Hs1.
  exact (forEach_inv same _ _ Hchild _ _ Hs1 H2).
Qed.

Lemma setColumnWidth_content g n : content (setColumnWidth g n) = content g.
Proof.
  unfold setColumnWidth. destruct (Node.gridCoord n) as [gc|]; [|reflexivity].
  cbv zeta.
  set (P := fun h : Graph.t => content h = content g).
  assert (H1 : P (fold_left (fun g ic =>
                  columnWidth_set g (X gc + fst ic)
                    (max (getOr0 (Graph.columnWidth g) (X gc + fst ic)) (snd ic)))
                (indexed [1; 2 * BOX_BORDER_PADDING + Z.of_nat (length (Node.name n)); 1])
                g)).
  { apply fold_left_inv; [|reflexivity]. intros s a Hs. exact Hs. }
  match goal with
  | |- context [fold_left ?f (indexed [1; 1 + 2 * BOX_BORDER_PADDING; 1]) ?g1] =>
      assert (H2 : P (fold_left f (indexed [1; 1 + 2 * BOX_BORDER_PADDING; 1]) g1))
  end.
  { apply fold_left_inv; [|exact H1]. intros s a Hs. exact Hs. }
  destruct (X gc >? 0), (Y gc >? 0); exact H2.
Qed.

Lemma increaseGridSizeForPath_content path : forall g,
  content (increaseGridSizeForPath g path) = content g.
Proof.
  intros g. unfold increaseGridSizeForPath.
  apply (fold_left_inv (fun h => content h = content g)); [|reflexivity].
  intros s c Hs.
  destruct (Graph.columnWidth s !! X c);
    match goal with |- context [Graph.rowHeight ?h !! Y c] =>
      destruct (Graph.rowHeight h !! Y c) end; exact Hs.
Qed.

End Content.

Section PlainGraphs.

Lemma determinePath_text fuel gd g e e' :
  determinePath fuel gd g e = Returned e' -> Edge.text e' = Edge.text e.
Proof.
  unfold determinePath.
  destruct (Graph.nodes g !! Edge.from e) as [fromNode|]; [|intros [= <-]; reflexivity].
  destruct (Graph.nodes g !! Edge.to e) as [toNode|]; [|intros [= <-]; reflexivity].
  destruct (Node.gridCoord fromNode) as [fromCoord|]; [|intros [= <-]; reflexivity].
  destruct (Node.gridCoord toNode) as [toCoord|]; [|intros [= <-]; reflexivity].
  cbv zeta.
  destruct (determineStartAndEndDir _ _ _ _) as [[[[pd pod] ad] aod]| | |];
    try discriminate.
  cbn [mbind Outcome_bind].
  destruct (getPath fuel (direction fromCoord pd) _ _); try discriminate;
    [|intros [= <-]; reflexivity].
  destruct (getPath fuel (direction fromCoord ad) _ _); try discriminate;
    [|intros [= <-]; reflexivity].
  destruct (_ <=? _)%nat; intros [= <-]; reflexivity.
Qed.

Lemma determineLabelLine_content g e g' e' :
  determineLabelLine g e = Returned (g', e') ->
  content g' = content g /\ Edge.text e' = Edge.text e.
Proof.
  unfold determineLabelLine. cbv zeta.
  destruct (_ =? 0); [intros [= <- <-]; split; reflexivity|].
  destruct (Edge.path e) as [|prevStep [|second rest]]; try discriminate.
  intros [= <- <-]. split; reflexivity.
Qed.

Lemma routeEdge_content fuel gd g j g' :
  routeEdge fuel gd g j = Returned g' -> content g' = content g.
Proof.
  unfold routeEdge.
  destruct (Graph.edges g !! j) as [e|] eqn:He; [|intros [= <-]; reflexivity].
  destruct (determinePath fuel gd g e) as [e1| | |] eqn:Hp; try discriminate.
  cbn [mbind Outcome_bind]. cbv zeta.
  destruct (determineLabelLine _ e1) as [[g2 e2]| | |] eqn:Hl; try discriminate.
  cbn [mbind Outcome_bind]. intros [= <-].
  apply determinePath_text in Hp. apply determineLabelLine_content in Hl.
  destruct Hl as [Hc Ht]. rewrite increaseGridSizeForPath_content in Hc.
  unfold content in *. unfold setEdges. cbn [Graph.nodes Graph.edges Graph.drawing].
  injection Hc as Hn Hd Hedges Hdraw.
  assert (He2 : exists e0, Graph.edges g2 !! j = Some e0 /\ Edge.text e0 = Edge.text e).
  { assert (H : map Edge.text (Graph.edges g2) !! j = Some (Edge.text e)).
    { rewrite Hedges.
      change (map Edge.text (Graph.edges g)) with (Edge.text <$> Graph.edges g).
      rewrite list_lookup_fmap, He. reflexivity. }
    change (map Edge.text (Graph.edges g2)) with (Edge.text <$> Graph.edges g2) in H.
    rewrite list_lookup_fmap in H.
    destruct (Graph.edges g2 !! j) as [e0|]; [|discriminate].
    injection H as H. exists e0. split; [reflexivity|exact H]. }
  destruct He2 as [e0 [He2 Ht0]].
  rewrite (map_insert_same Edge.text _ j e0 e2 He2); [|congruence]. congruence.
Qed.

Lemma plain_append g name index :
  PlainGraph g -> plainText name -> PlainGraph (fst (appendNode g (newNode name index))).
Proof.
  intros (Hn & Hd & He & Hc) Hname. apply PlainGraph_spec.
  unfold appendNode, setNodes. cbn. rewrite !map_app.
  repeat split; try assumption; apply Forall_app; split; try assumption;
    constructor; try constructor; exact Hname.
Qed.

Lemma makeGraph_child_plain parentNode st textEdge :
  PlainGraph (fst st) -> plainText (TextEdge.child textEdge) ->
  plainText (TextEdge.label textEdge) ->
  PlainGraph (fst (makeGraph_child parentNode st textEdge)).
Proof.
  destruct st as [g index]. intros Hg Hchild Hlabel. unfold makeGraph_child.
  assert (H : forall g1 r, PlainGraph g1 ->
            PlainGraph (setEdges g1 (Graph.edges g1
                          ++ [newEdge parentNode r (TextEdge.label textEdge)]))).
  { intros g1 r (Hn & Hd & He & Hc).
    apply PlainGraph_spec. unfold setEdges. cbn. rewrite map_app.
    repeat split; try assumption. apply Forall_app. split; [exact He|].
    constructor; [exact Hlabel|constructor]. }
  destruct (getNode g (TextEdge.child textEdge)) as [r|].
  - cbn [fst]. apply (H g r Hg).
  - pose proof (plain_append g _ index Hg Hchild) as Ha.
    destruct (appendNode g _) as [g' r]. cbn [fst] in *. apply (H g' r Ha).
Qed.

Lemma makeGraph_plain data : plainData data -> PlainGraph (makeGraph data).
Proof.
  intros Hdata. unfold makeGraph.
  assert (H0 : PlainGraph (fst (newGraph, O))).
  { apply PlainGraph_spec. split; [constructor|]. split; [constructor|].
    split; [constructor|]. apply makeDrawing_plain. }
  revert H0. generalize (newGraph, O).
  induction Hdata as [|entry data [Hname Hchildren] _ IH]; intros st Hst; [exact Hst|].
  cbn [fold_left]. apply IH.
  destruct st as [g index], entry as [nodeName children]. cbn [fst snd] in *.
  unfold makeGraph_entry.
  assert (H1 : forall st1, PlainGraph (fst st1) ->
            forall parentNode,
              PlainGraph (fst (fold_left (makeGraph_child parentNode) children st1))).
  { intros st1 H1 parentNode. revert st1 H1.
    induction Hchildren as [|te children [Hc Hl] _ IHc]; intros st1 H1; [exact H1|].
    cbn [fold_left]. apply IHc. apply makeGraph_child_plain; assumption. }
  destruct (getNode g nodeName) as [r|].
  - apply (H1 (g, index) Hst).
  - pose proof (plain_append g nodeName index Hst Hname) as Ha.
    destruct (appendNode g _) as [g' r]. apply (H1 (g', S index) Ha).
Qed.

End PlainGraphs.

Section PlainRender.

Lemma PlainGraph_nodes g :
  PlainGraph g <->
  Forall (fun n => plainText (Node.name n) /\ plainDrawing (Node.drawing n))
    (Graph.nodes g)
  /\ Forall plainText (map Edge.text (Graph.edges g))
  /\ plainCanvas (Graph.drawing g).
Proof.
  rewrite PlainGraph_spec, !List.Forall_map, !List.Forall_forall.
  split.
  - intros (Hn & Hd & He & Hc). repeat split; auto.
  - intros (Hn & He & Hc). repeat split; auto; intros n Hin; apply (Hn n Hin).
Qed.

Lemma resolveNode_plain g i g' :
  PlainGraph g -> resolveNode true g i = Returned g' -> PlainGraph g'.
Proof.
  intros Hg. unfold resolveNode.
  destruct (Graph.nodes g !! i) as [n|]; [|intros [= <-]; exact Hg].
  destruct (Node.gridCoord n) as [gc|]; [|intros [= <-]; exact Hg].
  cbv zeta. set (dc := gridToDrawingCoord g gc None).
  destruct (Graph.nodes g !! Node.index n) as [m|]; [|discriminate].
  assert (Hg1 : PlainGraph (updateNode g (Node.index n) (withDrawingCoord dc))).
  { revert Hg. apply PlainGraph_content. unfold content, updateNode, setNodes.
    cbn [Graph.nodes Graph.edges Graph.drawing].
    rewrite !map_alter_same; reflexivity. }
  set (g1 := updateNode g (Node.index n) (withDrawingCoord dc)) in *.
  destruct (Graph.nodes g1 !! Node.index n) as [target|] eqn:Ht; [|discriminate].
  unfold setDrawing.
  destruct (drawBox true target _ _) as [d| | |] eqn:Hd; try discriminate.
  cbn [mbind Outcome_bind]. intros [= <-].
  apply PlainGraph_nodes in Hg1. destruct Hg1 as (Hn & He & Hc).
  apply PlainGraph_nodes. unfold setNodes. cbn [Graph.nodes Graph.edges Graph.drawing].
  split; [|split; assumption].
  apply Forall_insert; [exact Hn|].
  pose proof (Forall_lookup_1 _ _ _ _ Hn Ht) as [Hname _].
  split; [exact Hname|]. exact (drawBox_plain _ _ _ _ Hname Hd).
Qed.

Lemma createMapping_plain fuel gd g g' :
  PlainGraph g -> createMapping fuel gd true g = Returned g' -> PlainGraph g'.
Proof.
  intros Hg. unfold createMapping.
  destruct (placeNodes gd g) as [g1| | |] eqn:H1; try discriminate.
  cbn [mbind Outcome_bind]. cbv zeta.
  destruct (forEach (routeEdge fuel gd) _ _) as [g3| | |] eqn:H3; try discriminate.
  cbn [mbind Outcome_bind].
  destruct (forEach (resolveNode true) _ g3) as [g4| | |] eqn:H4; try discriminate.
  cbn [mbind Outcome_bind]. intros [= <-].
  assert (P1 : PlainGraph g1).
  { exact (PlainGraph_content _ _ (placeNodes_content _ _ _ H1) Hg). }
  assert (P2 : PlainGraph (fold_left setColumnWidth (Graph.nodes g1) g1)).
  { apply fold_left_inv; [|exact P1].
    intros s n. apply PlainGraph_content, setColumnWidth_content. }
  assert (P3 : PlainGraph g3).
  { refine (forEach_inv PlainGraph _ _ _ _ _ P2 H3).
    intros s j s' Hs Hr. exact (PlainGraph_content _ _ (routeEdge_content _ _ _ _ _ Hr) Hs). }
  assert (P4 : PlainGraph g4).
  { refine (forEach_inv PlainGraph _ _ _ _ _ P3 H4).
    intros s j s' Hs. apply resolveNode_plain, Hs. }
  apply PlainGraph_spec in P4. destruct P4 as (Hn & Hd & He & Hc).
  apply PlainGraph_spec. unfold setDrawingSizeToGridConstraints, setDrawing_.
  cbn [Graph.nodes Graph.edges Graph.drawing].
  repeat split; try assumption. apply increaseSize_plain, Hc.
Qed.

Lemma drawNode_plain g i g' :
  PlainGraph g -> drawNode true g i = Returned g' -> PlainGraph g'.
Proof.
  intros Hg. unfold drawNode.
  destruct (Graph.nodes g !! i) as [node|] eqn:Hi; [|intros [= <-]; exact Hg].
  destruct (Node.drawn node); [intros [= <-]; exact Hg|].
  destruct (Node.drawingCoord node) as [dc|]; [|intros [= <-]; exact Hg].
  destruct (Node.drawing node) as [d|] eqn:Hdr; [|intros [= <-]; exact Hg].
  destruct (mergeDrawings true _ dc [d]) as [merged| | |] eqn:Hm; try discriminate.
  cbn [mbind Outcome_bind]. intros [= <-].
  pose proof Hg as Hg'. apply PlainGraph_nodes in Hg'. destruct Hg' as (Hn & _ & Hc).
  pose proof (Forall_lookup_1 _ _ _ _ Hn Hi) as [_ Hd]. rewrite Hdr in Hd.
  apply PlainGraph_spec in Hg. destruct Hg as (Hnames & Hds & He & _).
  apply PlainGraph_spec. unfold updateNode, setNodes, setDrawing_.
  cbn [Graph.nodes Graph.edges Graph.drawing].
  rewrite !map_alter_same by reflexivity.
  repeat split; try assumption.
  apply (mergeDrawings_plain _ _ _ _ Hc) in Hm; [exact Hm|].
  constructor; [exact Hd|constructor].
Qed.

Lemma graphDrawEdge_plain g e line boxStart arrowHead corners label :
  plainText (Edge.text e) ->
  graphDrawEdge true g e = Returned (line, boxStart, arrowHead, corners, label) ->
  plainCanvas line /\ plainCanvas boxStart /\ plainCanvas arrowHead
  /\ plainCanvas corners /\ plainCanvas label.
Proof.
  intros Ht. unfold graphDrawEdge.
  assert (Hempty : Returned emptyFragments
                   = Returned (line, boxStart, arrowHead, corners, label) ->
                   plainCanvas line /\ plainCanvas boxStart /\ plainCanvas arrowHead
                   /\ plainCanvas corners /\ plainCanvas label).
  { intros [= <- <- <- <- <-]. repeat split; apply makeDrawing_plain. }
  destruct (Edge.startDir e); [|exact Hempty].
  destruct (Edge.endDir e); [|exact Hempty].
  destruct (Graph.nodes g !! Edge.from e) as [fromNode|]; [|exact Hempty].
  destruct (Graph.nodes g !! Edge.to e) as [toNode|]; [|exact Hempty].
  destruct (Node.gridCoord fromNode); [|exact Hempty].
  destruct (Node.gridCoord toNode); [|exact Hempty].
  apply drawEdge_plain, Ht.
Qed.

Lemma draw_plain g g' :
  PlainGraph g -> draw true g = Returned g' -> plainCanvas (Graph.drawing g').
Proof.
  intros Hg. unfold draw.
  destruct (forEach (drawNode true) _ g) as [g1| | |] eqn:H1; try discriminate.
  cbn [mbind Outcome_bind].
  assert (P1 : PlainGraph g1).
  { refine (forEach_inv PlainGraph _ _ _ _ _ Hg H1).
    intros s i s' Hs. apply drawNode_plain, Hs. }
  apply PlainGraph_spec in P1. destruct P1 as (_ & _ & He & Hc).
  destruct (forEach (collectFragments true g1) _ _) as [[[[[l c] a] b] t]| | |] eqn:H2;
    try discriminate.
  cbn [mbind Outcome_bind].
  assert (P2 : collectedPlain (l, c, a, b, t)).
  { refine (forEach_inv_In collectedPlain _ _ _ _ _ _ H2).
    - intros [[[[l0 c0] a0] b0] t0] e s' Hin (Hl0 & Hc0 & Ha0 & Hb0 & Ht0).
      unfold collectFragments.
      destruct (graphDrawEdge true g1 e) as [[[[[x1 x2] x3] x4] x5]| | |] eqn:Hf;
        try discriminate.
      cbn [mbind Outcome_bind]. intros [= <-].
      rewrite List.Forall_map, List.Forall_forall in He.
      destruct (graphDrawEdge_plain _ _ _ _ _ _ _ (He e Hin) Hf)
        as (Q1 & Q2 & Q3 & Q4 & Q5).
      repeat split; apply Forall_app; split; try assumption;
        (constructor; [assumption|constructor]).
    - repeat split; constructor. }
  destruct P2 as (Pl & Pc & Pa & Pb & Pt).
  destruct (mergeDrawings true _ _ l) as [d1| | |] eqn:M1; try discriminate.
  cbn [mbind Outcome_bind].
  destruct (mergeDrawings true d1 _ c) as [d2| | |] eqn:M2; try discriminate.
  cbn [mbind Outcome_bind].
  destruct (mergeDrawings true d2 _ a) as [d3| | |] eqn:M3; try discriminate.
  cbn [mbind Outcome_bind].
  destruct (mergeDrawings true d3 _ b) as [d4| | |] eqn:M4; try discriminate.
  cbn [mbind Outcome_bind].
  destruct (mergeDrawings true d4 _ t) as [d5| | |] eqn:M5; try discriminate.
  cbn [mbind Outcome_bind]. intros [= <-]. cbn [setDrawing_ Graph.drawing].
  apply (mergeDrawings_plain _ _ _ _ Hc Pl) in M1.
  apply (mergeDrawings_plain _ _ _ _ M1 Pc) in M2.
  apply (mergeDrawings_plain _ _ _ _ M2 Pa) in M3.
  apply (mergeDrawings_plain _ _ _ _ M3 Pb) in M4.
  exact (mergeDrawings_plain _ _ _ _ M4 Pt M5).
Qed.

Lemma render_plain fuel gd data rows :
  plainData data -> render fuel gd true data = Returned rows ->
  Forall plainText rows.
Proof.
  intros Hdata. unfold render.
  destruct (createMapping fuel gd true _) as [g1| | |] eqn:M; try discriminate.
  cbn [mbind Outcome_bind].
  destruct (draw true g1) as [g2| | |] eqn:D; try discriminate.
  cbn [mbind Outcome_bind].
  apply drawingToRows_plain.
  exact (draw_plain _ _ (createMapping_plain _ _ _ _ (makeGraph_plain _ Hdata) M) D).
Qed.

End PlainRender.

(** * The two rendering modes: the outputs *)

Section Modes.

Lemma plain_not_junction g : plain g -> ~ In g junctionChars.
Proof.
  unfold plain, isJunctionChar. intros H Hin.
  assert (Ht : existsb (N.eqb g) junctionChars = true).
  { apply existsb_exists. exists g. split; [exact Hin|apply N.eqb_refl]. }
  congruence.
Qed.

Lemma map_length_rows (rows1 rows2 : list (list glyph)) :
  map length rows1 = map length rows2 ->
  length rows1 = length rows2
  /\ forall y row1 row2, rows1 !! y = Some row1 -> rows2 !! y = Some row2 ->
       length row1 = length row2.
Proof.
  intros H. split.
  - apply (f_equal (@length nat)) in H. rewrite !length_map in H. exact H.
  - intros y row1 row2 H1 H2.
    assert (E : map length rows1 !! y = map length rows2 !! y) by (rewrite H; reflexivity).
    change (map length rows1) with (length <$> rows1) in E.
    change (map length rows2) with (length <$> rows2) in E.
    rewrite !list_lookup_fmap, H1, H2 in E. injection E as E. exact E.
Qed.

End Modes.




(** * Directions, the priority queue and small helpers *)

Section Directions.

Lemma coord_equals_eq (a b : GenericCoord) : coord_equals a b = true -> a = b.
Proof.
  destruct a as [ax ay], b as [bx by_]. unfold coord_equals. cbn.
  intros H. apply andb_true_iff in H. destruct H as [Hx Hy].
  apply Z.eqb_eq in Hx, Hy. congruence.
Qed.

Lemma coord_equals_ne (a b : GenericCoord) : coord_equals a b = false -> a <> b.
Proof.
  intros H ->. unfold coord_equals in H. rewrite !Z.eqb_refl in H. discriminate.
Qed.

End Directions.

(** X1. [getOpposite] is an involution on the nine named directions,
    [Middle] being the only one that is its own opposite; on any other
    direction it throws. *)
Theorem getOpposite_involution (d : Direction) :
  match getOpposite d with
  | Some o =>
      In d namedDirections /\ getOpposite o = Some d /\ (o = d <-> d = Middle)
  | None => ~ In d namedDirections
  end.
Proof.
  unfold getOpposite.
  repeat match goal with
  | |- context [coord_equals d ?c] =>
      let E := fresh "E" in
      destruct (coord_equals d c) eqn:E;
      [apply coord_equals_eq in E; subst d;
       split; [unfold namedDirections; simpl; tauto|];
       split; [reflexivity|]; split; [intros [=]|intros [=]]; reflexivity|
       apply coord_equals_ne in E]
  end.
  unfold namedDirections. simpl. intuition congruence.
Qed.

(** X2. Seen from the other end the direction is the opposite one: for two
    coordinates that differ, [determineDirection to from] is the opposite of
    [determineDirection from to]. For equal coordinates the answer is [Up]
    both ways, and [Middle] is never the answer. *)
Theorem determineDirection_reverse (from to : GenericCoord) :
  from <> to ->
  getOpposite (determineDirection from to) = Some (determineDirection to from)
  /\ determineDirection from from = Up
  /\ determineDirection from to <> Middle.
Proof.
  destruct from as [fx fy], to as [tx ty]. intros Hne.
  unfold determineDirection. cbn [X Y].
  rewrite Z.eqb_refl, Z.ltb_irrefl.
  split; [|split; [reflexivity|]].
  - destruct (Z.eqb_spec fx tx), (Z.eqb_spec tx fx), (Z.eqb_spec fy ty),
      (Z.eqb_spec ty fy), (Z.ltb_spec fx tx), (Z.ltb_spec tx fx),
      (Z.ltb_spec fy ty), (Z.ltb_spec ty fy);
      try reflexivity; try lia; exfalso; apply Hne; f_equal; lia.
  - destruct (fx =? tx), (fy =? ty), (fx <? tx), (fy <? ty); discriminate.
Qed.

Lemma determineDirection_reverse_witness :
  Coord 0 0 <> Coord 4 4
  /\ getOpposite (determineDirection (Coord 0 0) (Coord 4 4))
     = Some (determineDirection (Coord 4 4) (Coord 0 0))
  /\ determineDirection (Coord 0 0) (Coord 4 4) = LowerRight.
Proof.
  assert (H : Coord 0 0 <> Coord 4 4) by discriminate.
  split; [exact H|].
  split; [exact (proj1 (determineDirection_reverse _ _ H))|reflexivity].
Defined.

(** X3. For an edge between two nodes at different grid coordinates,
    [determineStartAndEndDir] never throws and always answers with sides:
    the preferred and the alternative start side of the source box look
    towards the target, and both end sides of the target box look towards
    the source. *)
Theorem determineStartAndEndDir_faces (gd : GraphDirection)
    (fromCoord toCoord : GridCoord) :
  fromCoord <> toCoord ->
  exists preferredDir preferredOppositeDir alternativeDir alternativeOppositeDir,
    determineStartAndEndDir gd fromCoord toCoord false
    = Returned (preferredDir, preferredOppositeDir, alternativeDir,
                alternativeOppositeDir)
    /\ faces preferredDir fromCoord toCoord
    /\ faces alternativeDir fromCoord toCoord
    /\ faces preferredOppositeDir toCoord fromCoord
    /\ faces alternativeOppositeDir toCoord fromCoord.
Proof.
  destruct fromCoord as [fx fy], toCoord as [tx ty]. intros Hne.
  unfold determineStartAndEndDir, determineDirection, faces. cbn [X Y].
  destruct (Z.eqb_spec fx tx), (Z.eqb_spec fy ty), (Z.ltb_spec fx tx),
    (Z.ltb_spec fy ty); try lia;
    try (exfalso; apply Hne; f_equal; lia);
    cbn; destruct gd; do 4 eexists; (split; [reflexivity|]);
    cbn [X Y]; repeat split; auto 10 with zarith.
Qed.

Lemma determineStartAndEndDir_faces_witness :
  Coord 0 0 <> Coord 4 4
  /\ determineStartAndEndDir LR (Coord 0 0) (Coord 4 4) false
     = Returned (Down, Left, Right, Up)
  /\ exists p po a ao,
       determineStartAndEndDir TD (Coord 4 4) (Coord 0 8) false
       = Returned (p, po, a, ao)
       /\ faces p (Coord 4 4) (Coord 0 8).
Proof.
  assert (H : Coord 4 4 <> Coord 0 8) by discriminate.
  split; [discriminate|]. split; [reflexivity|].
  destruct (determineStartAndEndDir_faces TD _ _ H) as (p & po & a & ao & E & F & _).
  exists p, po, a, ao. split; assumption.
Defined.

Section QueueOrder.

Lemma sortInsert_least it q :
  sortedQueue q -> Forall (fun x => priority it <= priority x) q ->
  sortInsert it q = it :: q.
Proof.
  intros _ Hall. destruct q as [|h t]; [reflexivity|]. simpl.
  inversion Hall as [|? ? Hh _]; subst.
  destruct (Z.leb_spec (priority it) (priority h)); [reflexivity|lia].
Qed.

Lemma fold_sortInsert_snoc items item :
  sortByPriority (items ++ [item]) = fold_right sortInsert [item] items.
Proof. unfold sortByPriority. rewrite fold_right_app. reflexivity. Qed.

End QueueOrder.

(** X4. [PriorityQueue]: after a push the items are in order of priority
    and are the items held before together with the new one, none lost and
    none twice; so the pop that follows hands out an item of least priority
    and leaves the others. *)
Theorem pq_push_then_pop (items : list PriorityQueueItem) (item : PriorityQueueItem) :
  sortedQueue (pq_push items item)
  /\ Permutation (pq_push items item) (item :: items)
  /\ exists least rest,
       pq_pop (pq_push items item) = (Some least, rest)
       /\ Permutation (least :: rest) (item :: items)
       /\ forall it, In it (item :: items) -> priority least <= priority it.
Proof.
  pose proof (pq_push_sorted items item) as Hs.
  pose proof (pq_push_perm items item) as Hp.
  split; [exact Hs|]. split; [exact Hp|].
  destruct (pq_push items item) as [|least rest] eqn:E.
  - apply Permutation_nil in Hp. discriminate.
  - exists least, rest. split; [reflexivity|]. split; [exact Hp|].
    intros it Hin. apply (sortedQueue_head least rest it Hs).
    eapply Permutation_in; [symmetry; exact Hp|exact Hin].
Qed.

(** X5. [PriorityQueue.push] on a queue that is in order: the new item goes
    behind every item whose priority is not larger (so items of equal
    priority leave in the order they came) and before every item of larger
    priority; the items already there keep their order. *)
Theorem pq_push_stable (items : list PriorityQueueItem) (item : PriorityQueueItem) :
  sortedQueue items ->
  exists before after,
    items = before ++ after
    /\ pq_push items item = before ++ item :: after
    /\ Forall (fun x => priority x <= priority item) before
    /\ Forall (fun x => priority item < priority x) after.
Proof.
  unfold pq_push. rewrite fold_sortInsert_snoc.
  induction 1 as [|h t Ht IH Hh].
  - exists [], []. repeat split; constructor.
  - destruct IH as (before & after & -> & E & Hb & Ha). cbn [fold_right].
    rewrite E. destruct before as [|b bs].
    + cbn [app] in *. cbn [sortInsert].
      destruct (Z.leb_spec (priority h) (priority item)) as [Hle|Hgt].
      * exists [h], after. repeat split; [constructor; [exact Hle|constructor]|exact Ha].
      * rewrite (sortInsert_least h after Ht Hh).
        exists [], (h :: after). repeat split; constructor; [exact Hgt|exact Ha].
    + cbn [app sortInsert] in *.
      inversion Hh as [|? ? Hhb _]; subst.
      destruct (Z.leb_spec (priority h) (priority b)); [|lia].
      exists (h :: b :: bs), after. repeat split; [|exact Ha].
      constructor; [|exact Hb].
      inversion Hb; subst. lia.
Qed.

Lemma pq_push_stable_witness :
  pq_push [Item (Coord 0 0) 1; Item (Coord 1 0) 3; Item (Coord 2 0) 3;
           Item (Coord 3 0) 5] (Item (Coord 9 9) 3)
  = [Item (Coord 0 0) 1; Item (Coord 1 0) 3; Item (Coord 2 0) 3;
     Item (Coord 9 9) 3; Item (Coord 3 0) 5]
  /\ exists before after,
       pq_push [Item (Coord 0 0) 1; Item (Coord 1 0) 3] (Item (Coord 9 9) 3)
       = before ++ Item (Coord 9 9) 3 :: after.
Proof.
  split; [reflexivity|].
  destruct (pq_push_stable [Item (Coord 0 0) 1; Item (Coord 1 0) 3]
              (Item (Coord 9 9) 3)) as (before & after & _ & E & _).
  - repeat constructor; cbn; lia.
  - exists before, after. exact E.
Defined.

(** X6. [ceilDiv] rounds the quotient up, whatever the signs: for a divisor
    other than 0 the result is the least integer that is not below the
    exact quotient. *)
Theorem ceilDiv_rounds_up (x y : Z) :
  (0 < y -> y * (ceilDiv x y - 1) < x <= y * ceilDiv x y)
  /\ (y < 0 -> y * ceilDiv x y <= x < y * (ceilDiv x y - 1)).
Proof.
  unfold ceilDiv. split; intros Hy.
  - destruct (Z.eqb_spec (Z.rem x y) 0) as [Hr|Hr].
    + pose proof (Z.quot_rem' x y). nia.
    + pose proof (Z.div_mod x y ltac:(lia)) as Hd.
      pose proof (Z.mod_pos_bound x y Hy) as Hm.
      assert (x mod y <> 0).
      { intros H0. apply Hr. apply Z.rem_divide; [lia|].
        apply Z.mod_divide; [lia|exact H0]. }
      nia.
  - destruct (Z.eqb_spec (Z.rem x y) 0) as [Hr|Hr].
    + pose proof (Z.quot_rem' x y). nia.
    + pose proof (Z.div_mod x y ltac:(lia)) as Hd.
      pose proof (Z.mod_neg_bound x y Hy) as Hm.
      assert (x mod y <> 0).
      { intros H0. apply Hr. apply Z.rem_divide; [lia|].
        apply Z.mod_divide; [lia|exact H0]. }
      nia.
Qed.

(** X7. Fusing two junction glyphs never leaves the junction set: whatever
    [mergeJunctions] answers for two of the fifteen glyphs is one of the
    fifteen. *)
Theorem mergeJunctions_closed (c1 c2 : glyph) :
  isJunctionChar c1 = true -> isJunctionChar c2 = true ->
  isJunctionChar (mergeJunctions c1 c2) = true.
Proof.
  assert (H : forallb (fun a => forallb (fun b => isJunctionChar (mergeJunctions a b))
                                  junctionChars) junctionChars = true)
    by (vm_compute; reflexivity).
  rewrite forallb_forall in H.
  unfold isJunctionChar at 1 2. intros H1 H2.
  apply existsb_exists in H1, H2.
  destruct H1 as (a & Ha & E1), H2 as (b & Hb & E2).
  apply N.eqb_eq in E1, E2. subst a b.
  specialize (H c1 Ha). rewrite forallb_forall in H. exact (H c2 Hb).
Qed.

Lemma mergeJunctions_closed_witness :
  isJunctionChar (mergeJunctions (ch "├") (ch "┤")) = true
  /\ mergeJunctions (ch "├") (ch "┤") = ch "┼".
Proof.
  split; [apply mergeJunctions_closed; reflexivity|vm_compute; reflexivity].
Defined.

(** * [getPath]: the edges of the search *)

Section SearchEdges.

Variable isFreeInGrid : GridCoord -> bool.
Variables from to : GridCoord.

Lemma forEach_visit_blocked current (dirs : list GridCoord) st :
  Forall (fun dir => isFreeInGrid (step_of current dir) = false
                     /\ step_of current dir <> to) dirs ->
  forEach (visit isFreeInGrid to current) dirs st = Returned st.
Proof.
  induction 1 as [|dir dirs [Hfree Hto] _ IH]; [reflexivity|].
  cbn [forEach]. rewrite visit_blocked; [exact IH|exact Hfree|].
  intros E. apply Hto. destruct (step_of current dir), to. unfold coordKey in E.
  cbn in E. congruence.
Qed.

(** Costs grow strictly along the links followed back from a cell, so the
    cells collected are pairwise different. *)
Lemma reconstruct_distinct st : SearchInv isFreeInGrid from to st ->
  forall fuel c n acc r,
  costSoFar st !! coordKey c = Some n ->
  reconstruct fuel (cameFrom st) (Some c) acc = Returned r ->
  exists p, r = p ++ acc
            /\ (forall x, In x p -> exists m, costSoFar st !! coordKey x = Some m /\ m <= n)
            /\ List.NoDup p.
Proof.
  intros Hinv. induction fuel as [|fuel IH]; intros c n acc r Hc; [discriminate|].
  simpl. destruct (decide (c = from)) as [->|Hcf].
  - rewrite (inv_from_came _ _ _ _ Hinv). simpl. rewrite reconstruct_null.
    intros [= <-]. exists [from]. split; [reflexivity|]. split.
    + intros x [<-|[]]. exists n. split; [exact Hc|lia].
    + constructor; [intros []|constructor].
  - destruct (inv_parent _ _ _ _ Hinv c n Hc Hcf)
      as (parent & m & Hp & Hm & Hle & _).
    rewrite Hp. simpl. intros Hr.
    destruct (IH parent m (c :: acc) r Hm Hr) as (p & -> & Hcost & Hnd).
    exists (p ++ [c]). rewrite <- app_assoc. split; [reflexivity|]. split.
    + intros x Hx. apply in_app_or in Hx. destruct Hx as [Hx|[<-|[]]].
      * destruct (Hcost x Hx) as (k & Hk & Hkm). exists k. split; [exact Hk|lia].
      * exists n. split; [exact Hc|lia].
    + apply NoDup_ListNoDup. apply NoDup_app. split; [apply NoDup_ListNoDup, Hnd|].
      split; [|apply NoDup_singleton].
      intros x Hx Hxc. apply list_elem_of_In in Hx. apply list_elem_of_singleton in Hxc.
      subst x. destruct (Hcost c Hx) as (k & Hk & Hkm). rewrite Hc in Hk.
      injection Hk as <-. lia.
Qed.

Lemma searchLoop_distinct fuel0 : forall fuel st p,
  SearchInv isFreeInGrid from to st ->
  searchLoop fuel0 fuel isFreeInGrid to st = Returned p -> List.NoDup p.
Proof.
  induction fuel as [|fuel IH]; intros st p Hinv; [discriminate|].
  simpl.
  destruct (searchStep_cases isFreeInGrid from to fuel0 st Hinv)
    as [[Hpq H] | [(ci & items & Hpq & Hto & H) | (ci & items & st1 & _ & _ & _ & H & Hinv1)]];
    rewrite H.
  - discriminate.
  - assert (Hcost : is_Some (costSoFar st !! coordKey to)).
    { rewrite <- Hto. apply (inv_queue _ _ _ _ Hinv). rewrite Hpq. left. reflexivity. }
    destruct Hcost as [n Hn]. intros Hr.
    destruct (reconstruct_distinct st Hinv fuel0 to n [] p Hn Hr) as (q & -> & _ & Hnd).
    rewrite app_nil_r. exact Hnd.
  - apply IH. exact Hinv1.
Qed.

End SearchEdges.

(** X8. A search whose goal is its start returns the path of that one cell,
    whatever the freeness predicate says, the start included. *)
Theorem getPath_same_cell (fuel : nat) (c : GridCoord)
    (isFreeInGrid : GridCoord -> bool) :
  getPath (S fuel) c c isFreeInGrid = Returned [c].
Proof.
  unfold getPath. cbn [searchLoop]. unfold searchStep, searchInit.
  cbn [pq pq_push app sortByPriority fold_right sortInsert coord cameFrom].
  unfold key_eqb. rewrite bool_decide_eq_true_2 by reflexivity.
  cbn [reconstruct]. rewrite lookup_singleton_eq. cbn.
  apply reconstruct_null.
Qed.

(** X9. A start that is walled in: when none of the four neighbours of the
    start is free and none is the goal, and the start is not the goal,
    [getPath] throws "No path found" in the second round of its loop. *)
Theorem getPath_walled_in (fuel : nat) (from to : GridCoord)
    (isFreeInGrid : GridCoord -> bool) :
  from <> to ->
  Forall (fun dir => isFreeInGrid (step_of from dir) = false
                     /\ step_of from dir <> to) directions ->
  (2 <= fuel)%nat ->
  getPath fuel from to isFreeInGrid = Thrown "No path found".
Proof.
  intros Hne Hwall Hfuel.
  destruct fuel as [|[|fuel]]; [lia|lia|].
  unfold getPath. cbn [searchLoop]. unfold searchStep at 1. unfold searchInit.
  cbn [pq pq_push app sortByPriority fold_right sortInsert coord cameFrom costSoFar].
  unfold key_eqb. rewrite bool_decide_eq_false_2.
  2:{ intros E. apply Hne. destruct from, to. unfold coordKey in E. cbn in E. congruence. }
  rewrite (forEach_visit_blocked isFreeInGrid to from directions _ Hwall).
  reflexivity.
Qed.

Lemma getPath_walled_in_witness :
  getPath 2 (Coord 5 6) (Coord 2 9) (isFreeInGrid walledBelow)
  = Thrown "No path found".
Proof.
  apply getPath_walled_in; [discriminate| |lia].
  repeat constructor; discriminate.
Defined.

(** X10. No cell occurs twice in a path that [getPath] returns. *)
Theorem getPath_no_cell_twice (fuel : nat) (from to : GridCoord)
    (isFreeInGrid : GridCoord -> bool) (path : list GridCoord) :
  getPath fuel from to isFreeInGrid = Returned path -> List.NoDup path.
Proof.
  unfold getPath. apply (searchLoop_distinct isFreeInGrid from to).
  apply searchInit_inv.
Qed.

Lemma getPath_no_cell_twice_witness :
  exists path,
    getPath 100 (Coord 4 5) (Coord 1 8) (isFreeInGrid walledBelow) = Returned path
    /\ length path = 7%nat /\ List.NoDup path.
Proof.
  eexists. split; [vm_compute; reflexivity|]. split; [reflexivity|].
  apply (getPath_no_cell_twice 100 (Coord 4 5) (Coord 1 8) (isFreeInGrid walledBelow)).
  vm_compute. reflexivity.
Defined.

(** * [mergePath]: the shape of the result *)

Section MergePathShape.

Lemma mergePath_rec_sublist rest : forall a b,
  sublist (mergePath_rec a b rest) (b :: rest).
Proof.
  induction rest as [|c rest IH]; intros a b.
  - reflexivity.
  - cbn [mergePath_rec]. destruct (coord_equals _ _).
    + apply sublist_cons, IH.
    + apply sublist_skip, IH.
Qed.

Lemma adjacent_direction a b :
  adjacent a b -> forall c, determineDirection a c = determineDirection a b ->
  axisAligned a c.
Proof.
  destruct a as [xa ya], b as [xb yb]. intros Hadj [xc yc].
  unfold adjacent, determineDirection, axisAligned in *. cbn [X Y] in *.
  destruct (Z.eqb_spec xa xc); [auto|].
  destruct (Z.eqb_spec ya yc); [auto|].
  destruct (Z.eqb_spec xa xb), (Z.eqb_spec ya yb), (xa <? xc), (ya <? yc),
    (xa <? xb), (ya <? yb); try discriminate; lia.
Qed.

Lemma mergePath_rec_rectilinear rest : forall a b,
  connected (a :: b :: rest) -> rectilinear (a :: mergePath_rec a b rest).
Proof.
  induction rest as [|c rest IH]; intros a b Hc.
  - destruct Hc as [Hab _]. split; [|exact I].
    apply (adjacent_direction a b Hab). reflexivity.
  - destruct Hc as [Hab Hc]. specialize (IH b c Hc).
    destruct (mergePath_rec_reduced rest b c) as (r0 & r & Hr & Hd & _).
    cbn [mergePath_rec].
    destruct (coord_equals (determineDirection a b) (determineDirection b c)) eqn:E.
    + rewrite Hr in *. destruct IH as [_ IH]. split; [|exact IH].
      apply coord_equals_true in E.
      apply (adjacent_direction a b Hab).
      assert (Hbr : determineDirection b r0 = determineDirection a b) by congruence.
      assert (Habr : determineDirection a b = determineDirection b r0) by congruence.
      exact (determineDirection_trans a b r0 Habr).
    + split; [|exact IH]. apply (adjacent_direction a b Hab). reflexivity.
Qed.

End MergePathShape.

(** X11. [mergePath] only drops points: what it returns is the path with
    some points left out, in the same order, and where three or more points
    are left none of the points in between is passed straight through (the
    direction into it differs from the direction out of it). *)
Theorem mergePath_keeps_turns (path : list GridCoord) :
  sublist (mergePath path) path
  /\ match mergePath path with
     | a :: b :: rest => reduced a b rest
     | _ => True
     end.
Proof.
  destruct path as [|a [|b rest]]; try (split; [reflexivity|exact I]).
  rewrite mergePath_unfold. split.
  - apply sublist_skip, mergePath_rec_sublist.
  - destruct (mergePath_rec_reduced rest a b) as (r0 & r & -> & _ & Hred).
    exact Hred.
Qed.

(** X12. On a path whose consecutive cells are grid-adjacent, as [getPath]
    returns them, every segment of the simplified path is horizontal or
    vertical: simplification never produces a diagonal. *)
Theorem mergePath_rectilinear (path : list GridCoord) :
  connected path -> rectilinear (mergePath path).
Proof.
  destruct path as [|a [|b rest]]; try (intros _; exact I).
  intros Hc. rewrite mergePath_unfold. apply mergePath_rec_rectilinear, Hc.
Qed.

Lemma mergePath_rectilinear_witness :
  mergePath [Coord 4 5; Coord 3 5; Coord 2 5; Coord 1 5; Coord 1 6; Coord 1 7;
             Coord 1 8]
  = [Coord 4 5; Coord 1 5; Coord 1 8]
  /\ rectilinear (mergePath [Coord 4 5; Coord 3 5; Coord 2 5; Coord 1 5;
                             Coord 1 6; Coord 1 7; Coord 1 8]).
Proof.
  split; [reflexivity|].
  apply mergePath_rectilinear. unfold connected, adjacent. cbn. intuition lia.
Defined.

(** * The canvas: what a cell holds after drawing *)

Section Cells.

Implicit Types (c : Canvas) (g : glyph).

Lemma nth_error_lookup {A : Type} (l : list A) i : nth_error l i = l !! i.
Proof. revert i. induction l as [|a l IH]; intros [|i]; simpl; auto. Qed.

Lemma cellAt_Some c x y g :
  cellAt c x y = Some g <->
  0 <= x /\ 0 <= y
  /\ exists col, c !! Z.to_nat x = Some col /\ col !! Z.to_nat y = Some g.
Proof.
  unfold cellAt. rewrite nth_error_lookup.
  destruct (Z.ltb_spec x 0), (Z.ltb_spec y 0); cbn [orb];
    try (split; [discriminate|intros (? & ? & ?); lia]).
  unfold Canvas in *.
  destruct (c !! Z.to_nat x) as [col|].
  - rewrite nth_error_lookup. split.
    + intros Hg. repeat split; try lia. exists col. auto.
    + intros (_ & _ & col' & [= <-] & Hg). exact Hg.
  - split; [discriminate|]. intros (_ & _ & col' & [=] & _).
Qed.

Lemma writeCell_returns c x y g :
  is_Some (cellAt c x y) -> exists c', writeCell c x y g = Returned c'.
Proof.
  intros [g0 H]. apply cellAt_Some in H. destruct H as (Hx & Hy & col & Hc & Hg).
  unfold writeCell. destruct (Z.ltb_spec x 0); [lia|]. rewrite Hc.
  apply lookup_lt_Some in Hg.
  destruct (Z.ltb_spec y 0); [lia|].
  destruct (Z.leb_spec (Z.of_nat (length col)) y); [lia|].
  eexists. reflexivity.
Qed.

Lemma writeCell_inside c x y g c' :
  writeCell c x y g = Returned c' -> is_Some (cellAt c x y).
Proof.
  unfold writeCell. destruct (Z.ltb_spec x 0); [discriminate|].
  destruct (c !! Z.to_nat x) as [col|] eqn:Hc; [|discriminate].
  destruct (Z.ltb_spec y 0); [discriminate|].
  destruct (Z.leb_spec (Z.of_nat (length col)) y); [discriminate|]. intros _.
  destruct (lookup_lt_is_Some_2 col (Z.to_nat y) ltac:(lia)) as [g0 Hg].
  exists g0. apply cellAt_Some. repeat split; try lia. exists col. auto.
Qed.

Lemma writeCell_same c x y g c' :
  writeCell c x y g = Returned c' -> cellAt c' x y = Some g.
Proof.
  unfold writeCell. destruct (Z.ltb_spec x 0); [discriminate|].
  destruct (c !! Z.to_nat x) as [col|] eqn:Hc; [|discriminate].
  destruct (Z.ltb_spec y 0); [discriminate|].
  destruct (Z.leb_spec (Z.of_nat (length col)) y); [discriminate|].
  intros [= <-]. apply cellAt_Some. repeat split; try lia.
  exists (<[Z.to_nat y := g]> col). split.
  - apply list_lookup_insert_eq. apply lookup_lt_Some in Hc. exact Hc.
  - apply list_lookup_insert_eq. lia.
Qed.

Lemma writeCell_other c x y g c' x' y' :
  writeCell c x y g = Returned c' -> (x', y') <> (x, y) ->
  cellAt c' x' y' = cellAt c x' y'.
Proof.
  unfold writeCell. destruct (Z.ltb_spec x 0); [discriminate|].
  destruct (c !! Z.to_nat x) as [col|] eqn:Hc; [|discriminate].
  destruct (Z.ltb_spec y 0); [discriminate|].
  destruct (Z.leb_spec (Z.of_nat (length col)) y); [discriminate|].
  intros [= <-] Hne. unfold cellAt. rewrite !nth_error_lookup. unfold Canvas in *.
  destruct (Z.ltb_spec x' 0), (Z.ltb_spec y' 0); cbn [orb]; try reflexivity.
  destruct (decide (Z.to_nat x' = Z.to_nat x)) as [Ex|Ex].
  - rewrite Ex, list_lookup_insert_eq by (apply lookup_lt_Some in Hc; exact Hc).
    rewrite Hc, !nth_error_lookup.
    apply list_lookup_insert_ne. intros Ey. apply Hne. f_equal; lia.
  - rewrite list_lookup_insert_ne by auto. reflexivity.
Qed.

Lemma cellAt_shape c1 c2 x y :
  shape c1 = shape c2 -> is_Some (cellAt c1 x y) -> is_Some (cellAt c2 x y).
Proof.
  intros Hs [g H]. apply cellAt_Some in H. destruct H as (Hx & Hy & col & Hc & Hg).
  unfold Canvas in *.
  assert (E : shape c2 !! Z.to_nat x = Some (length col)).
  { rewrite <- Hs. unfold shape. change (map length c1) with (length <$> c1).
    rewrite list_lookup_fmap, Hc. reflexivity. }
  unfold shape in E. change (map length c2) with (length <$> c2) in E.
  rewrite list_lookup_fmap in E.
  destruct (c2 !! Z.to_nat x) as [col2|] eqn:Hc2; [|discriminate].
  injection E as E. apply lookup_lt_Some in Hg.
  destruct (lookup_lt_is_Some_2 col2 (Z.to_nat y) ltac:(lia)) as [g2 Hg2].
  exists g2. apply cellAt_Some. repeat split; try lia. exists col2. auto.
Qed.

Lemma written_or_not {W : Type} (cellOf : W -> Z * Z) (ws : list W) (k : Z * Z) :
  (exists w, In w ws /\ cellOf w = k) \/ (forall w, In w ws -> cellOf w <> k).
Proof.
  induction ws as [|w0 ws IH]; [right; intros w []|].
  destruct (decide (cellOf w0 = k)) as [E|E].
  - left. exists w0. split; [left; reflexivity|exact E].
  - destruct IH as [(w & Hw & Ew)|Hnone].
    + left. exists w. split; [right; exact Hw|exact Ew].
    + right. intros w [<-|Hw]; [exact E|exact (Hnone w Hw)].
Qed.

(** A loop that writes [glyphOf w] at [cellOf w] for every [w] of a list. *)
Lemma writes_return {W : Type} (cellOf : W -> Z * Z) (glyphOf : W -> glyph)
    (ws : list W) : forall c,
  (forall w, In w ws -> is_Some (cellAt c (fst (cellOf w)) (snd (cellOf w)))) ->
  exists c', forEach (fun c w => writeCell c (fst (cellOf w)) (snd (cellOf w))
                                   (glyphOf w)) ws c = Returned c'.
Proof.
  induction ws as [|w ws IH]; intros c Hin; [eexists; reflexivity|].
  cbn [forEach].
  destruct (writeCell_returns c _ _ (glyphOf w) (Hin w (or_introl eq_refl)))
    as [c1 H1].
  rewrite H1. cbn [mbind Outcome_bind]. apply IH.
  intros w' Hw'. apply (cellAt_shape c); [symmetry; eapply writeCell_shape; eauto|].
  apply Hin. right. exact Hw'.
Qed.

Lemma writes_elsewhere {W : Type} (cellOf : W -> Z * Z) (glyphOf : W -> glyph)
    (ws : list W) : forall c c' x y,
  forEach (fun c w => writeCell c (fst (cellOf w)) (snd (cellOf w)) (glyphOf w))
    ws c = Returned c' ->
  (forall w, In w ws -> cellOf w <> (x, y)) ->
  cellAt c' x y = cellAt c x y.
Proof.
  induction ws as [|w ws IH]; intros c c' x y; cbn [forEach].
  - intros [= <-] _. reflexivity.
  - destruct (writeCell c _ _ _) as [c1| | |] eqn:H1; try discriminate.
    cbn [mbind Outcome_bind]. intros H Hne.
    rewrite (IH c1 c' x y H) by (intros w' Hw'; apply Hne; right; exact Hw').
    apply (writeCell_other _ _ _ _ _ _ _ H1).
    intros E. apply (Hne w (or_introl eq_refl)).
    destruct (cellOf w) as [a b]. cbn [fst snd] in E. congruence.
Qed.

Lemma writes_there {W : Type} (cellOf : W -> Z * Z) (glyphOf : W -> glyph)
    (ws : list W) : forall c c' w,
  forEach (fun c w => writeCell c (fst (cellOf w)) (snd (cellOf w)) (glyphOf w))
    ws c = Returned c' ->
  In w ws ->
  (forall w', In w' ws -> cellOf w' = cellOf w -> glyphOf w' = glyphOf w) ->
  cellAt c' (fst (cellOf w)) (snd (cellOf w)) = Some (glyphOf w).
Proof.
  induction ws as [|w0 ws IH]; intros c c' w; cbn [forEach]; [intros _ []|].
  destruct (writeCell c _ _ _) as [c1| | |] eqn:H1; try discriminate.
  cbn [mbind Outcome_bind]. intros H Hin Hsame.
  destruct (written_or_not cellOf ws (cellOf w)) as [(w' & Hw' & E)|Hnone].
  - rewrite <- E.
    rewrite (IH c1 c' w' H Hw').
    + f_equal. apply Hsame; [right; exact Hw'|exact E].
    + intros w'' Hw'' E'. rewrite (Hsame w'' (or_intror Hw'')) by congruence.
      symmetry. apply Hsame; [right; exact Hw'|exact E].
  - destruct Hin as [->|Hin]; [|exfalso; exact (Hnone w Hin eq_refl)].
    rewrite (writes_elsewhere cellOf glyphOf ws c1 c' _ _ H).
    + exact (writeCell_same _ _ _ _ _ H1).
    + intros w' Hw'. rewrite <- surjective_pairing. exact (Hnone w' Hw').
Qed.

End Cells.

Section Resized.

Lemma copyCanvas_column (canvas : Canvas) : forall (newDrawing : Canvas) i ncol,
  newDrawing !! i = Some ncol ->
  exists col, copyCanvas canvas newDrawing !! i = Some col
              /\ (length ncol <= length col)%nat.
Proof.
  induction canvas as [|col0 canvas IH]; intros newDrawing i ncol Hi.
  - exists ncol. split; [exact Hi|lia].
  - destruct newDrawing as [|ncol0 newDrawing]; [discriminate|].
    destruct i as [|i]; cbn in *.
    + injection Hi as ->. eexists. split; [reflexivity|].
      rewrite copyColumn_length. lia.
    + apply IH. exact Hi.
Qed.

Lemma repeat_lookup {A : Type} (a : A) n i :
  (i < n)%nat -> repeat a n !! i = Some a.
Proof.
  revert i. induction n as [|n IH]; intros i Hi; [lia|].
  destruct i as [|i]; [reflexivity|]. cbn. apply IH. lia.
Qed.

Lemma increaseSize_covers (canvas : Canvas) x y i j :
  0 <= i <= Z.max x (fst (getDrawingSize canvas)) ->
  0 <= j <= Z.max y (snd (getDrawingSize canvas)) ->
  is_Some (cellAt (increaseSize canvas x y) i j).
Proof.
  intros Hi Hj. unfold increaseSize.
  destruct (getDrawingSize canvas) as [cx cy]. cbn [fst snd] in *.
  rewrite !max_spec.
  assert (Hn : makeDrawing (Z.max x cx) (Z.max y cy) !! Z.to_nat i
               = Some (repeat blank (Z.to_nat (Z.max y cy + 1)))).
  { unfold makeDrawing. apply repeat_lookup. lia. }
  destruct (copyCanvas_column canvas _ _ _ Hn) as (col & Hcol & Hlen).
  rewrite repeat_length in Hlen.
  destruct (lookup_lt_is_Some_2 col (Z.to_nat j) ltac:(lia)) as [g Hg].
  exists g. apply cellAt_Some. repeat split; try lia. exists col. auto.
Qed.

Lemma indexed_In_iff {A : Type} (l : list A) i a :
  In (i, a) (indexed l) <-> 0 <= i /\ l !! Z.to_nat i = Some a.
Proof.
  unfold indexed.
  assert (H : forall s, In (i, a) (combine (map Z.of_nat (seq s (length l))) l) <->
                        Z.of_nat s <= i /\ l !! (Z.to_nat i - s)%nat = Some a).
  { induction l as [|b l IH]; intros s; cbn [length seq map combine].
    - split; [intros []|intros [_ H]; discriminate].
    - cbn [In]. rewrite IH. split.
      + intros [[= <- <-]|[Hs Hl]].
        * split; [lia|]. replace (Z.to_nat (Z.of_nat s) - s)%nat with O by lia.
          reflexivity.
        * split; [lia|].
          replace (Z.to_nat i - s)%nat with (S (Z.to_nat i - S s)) by lia.
          exact Hl.
      + intros [Hs Hl]. destruct (Z.to_nat i - s)%nat as [|k] eqn:E.
        * left. injection Hl as <-. f_equal. lia.
        * right. split; [lia|].
          replace (Z.to_nat i - S s)%nat with k by lia. exact Hl. }
  rewrite (H O). rewrite Nat.sub_0_r. reflexivity.
Qed.

End Resized.

(** X13. Text drawn on a canvas can be read back: from a start cell with
    non-negative coordinates [drawText] never throws, afterwards the cells
    from the start cell rightwards hold the characters of the text in
    order, and every other cell that was there before holds what it
    held. *)
Theorem drawText_read_back (canvas : Canvas) (start : DrawingCoord)
    (text : list glyph) :
  0 <= X start -> 0 <= Y start ->
  exists canvas',
    drawText canvas start text = Returned canvas'
    /\ (forall i g, text !! i = Some g ->
          cellAt canvas' (X start + Z.of_nat i) (Y start) = Some g)
    /\ (forall x y g,
          ~ (y = Y start /\ X start <= x < X start + Z.of_nat (length text)) ->
          cellAt canvas x y = Some g -> cellAt canvas' x y = Some g).
Proof.
  intros Hx Hy. unfold drawText.
  set (resized := increaseSize canvas (X start + Z.of_nat (length text)) (Y start)).
  set (cellOf := fun xg : Z * glyph => (fst xg + X start, Y start)).
  change (fun c xg => writeCell c (fst xg + X start) (Y start) (snd xg))
    with (fun c xg => writeCell c (fst (cellOf xg)) (snd (cellOf xg)) (snd xg)).
  destruct (writes_return cellOf snd (indexed text) resized) as [canvas' H].
  { intros [i g] Hin. apply indexed_fst in Hin. cbn [cellOf fst snd].
    apply increaseSize_covers; lia. }
  exists canvas'. split; [exact H|]. split.
  - intros i g Hi.
    assert (Hin : In (Z.of_nat i, g) (indexed text)).
    { apply indexed_In_iff. rewrite Nat2Z.id. split; [lia|exact Hi]. }
    pose proof (writes_there cellOf snd (indexed text) resized canvas'
                  (Z.of_nat i, g) H Hin) as Hw.
    cbn [cellOf fst snd] in Hw. rewrite Z.add_comm. apply Hw.
    intros [i' g'] Hin' E. cbn [cellOf fst snd] in E.
    assert (i' = Z.of_nat i) as -> by (injection E; lia).
    apply indexed_In_iff in Hin', Hin. destruct Hin' as [_ H1], Hin as [_ H2].
    cbn [snd]. congruence.
  - intros x y g Hout Hg.
    rewrite (writes_elsewhere cellOf snd (indexed text) resized canvas' x y H).
    + apply increaseSize_cell. exact Hg.
    + intros [i g'] Hin E. apply indexed_fst in Hin. cbn [cellOf fst snd] in E.
      apply Hout. injection E as E1 E2. lia.
Qed.

Lemma drawText_read_back_witness :
  exists canvas',
    drawText (makeDrawing 2 1) (Coord 1 3) (utf16 "Hello") = Returned canvas'
    /\ getDrawingSize canvas' = (6, 3)
    /\ cellAt canvas' 1 3 = Some (ch "H") /\ cellAt canvas' 5 3 = Some (ch "o")
    /\ cellAt canvas' 0 0 = Some blank.
Proof.
  destruct (drawText_read_back (makeDrawing 2 1) (Coord 1 3) (utf16 "Hello"))
    as (canvas' & H & Hread & Hkeep); [cbn; lia|cbn; lia|].
  exists canvas'. split; [exact H|].
  split; [vm_compute in H; injection H as <-; reflexivity|].
  split; [exact (Hread 0%nat _ eq_refl)|].
  split; [exact (Hread 4%nat _ eq_refl)|].
  apply Hkeep; [cbn; lia|reflexivity].
Defined.

(** X14. [drawText] with a negative start column throws as soon as there is
    a character to write: the first write goes to a column that does not
    exist. *)
Theorem drawText_negative_column (canvas : Canvas) (start : DrawingCoord)
    (text : list glyph) :
  X start < 0 -> text <> [] ->
  drawText canvas start text = Thrown "TypeError".
Proof.
  intros Hx Hne. destruct text as [|g text]; [contradiction|].
  unfold drawText, indexed. cbn [length seq map combine forEach fst snd].
  unfold writeCell. destruct (Z.ltb_spec (Z.of_nat 0 + X start) 0); [reflexivity|lia].
Qed.

Lemma drawText_negative_column_witness :
  drawText (makeDrawing 4 4) (Coord (-1) 2) (utf16 "x") = Thrown "TypeError".
Proof. apply drawText_negative_column; [cbn; lia|discriminate]. Defined.

Section Lines.

Lemma countUp_In a b y : In y (countUp a b) <-> a <= y <= b.
Proof.
  unfold countUp. rewrite in_map_iff. split.
  - intros (i & <- & Hi). apply in_seq in Hi. lia.
  - intros Hy. exists (Z.to_nat (y - a)). split; [lia|]. apply in_seq. lia.
Qed.

Lemma countDown_In a b y : In y (countDown a b) <-> b <= y <= a.
Proof.
  unfold countDown. rewrite in_map_iff. split.
  - intros (i & <- & Hi). apply in_seq in Hi. lia.
  - intros Hy. exists (Z.to_nat (a - y)). split; [lia|]. apply in_seq. lia.
Qed.

Lemma diagonal_In n inside dx dy : forall x y p,
  In p (diagonal n inside dx dy x y) ->
  inside (X p) (Y p) = true
  /\ exists k, 0 <= k /\ X p = x + k * dx /\ Y p = y + k * dy.
Proof.
  induction n as [|n IH]; intros x y p; cbn [diagonal]; [intros []|].
  destruct (inside x y) eqn:E; [|intros []].
  intros [<-|Hin].
  - split; [exact E|]. exists 0. cbn. lia.
  - destruct (IH _ _ _ Hin) as (Hi & k & Hk & Hx & Hy). split; [exact Hi|].
    exists (k + 1). lia.
Qed.

Lemma lineCoords_between from to offsetFrom offsetTo p :
  0 <= offsetFrom -> offsetTo <= 0 ->
  In p (lineCoords (determineDirection from to) from to offsetFrom offsetTo) ->
  between from to p.
Proof.
  intros HoF HoT. unfold lineCoords, determineDirection, between.
  destruct (Z.eqb_spec (X from) (X to)), (Z.eqb_spec (Y from) (Y to)),
    (Z.ltb_spec (X from) (X to)), (Z.ltb_spec (Y from) (Y to));
    cbn -[Z.min Z.max countUp countDown diagonal Z.abs Z.to_nat];
    try lia;
    try (rewrite in_map_iff; intros (v & <- & Hv); cbn [X Y];
         first [apply countUp_In in Hv | apply countDown_In in Hv]; lia);
    try (intros Hin; apply diagonal_In in Hin;
         destruct Hin as (Hi & k & Hk & Hx & Hy);
         apply andb_true_iff in Hi; destruct Hi as [H1 H2];
         apply Z.leb_le in H1, H2; lia).
Qed.

End Lines.

(** X15. [drawLine] between two points with non-negative coordinates, with
    offsets that shorten the line ([0 <= offsetFrom], [offsetTo <= 0]),
    never throws. The cells it reports lie in the rectangle spanned by the
    two points, each of them holds the line glyph of the direction
    afterwards, and every other cell that was there before holds what it
    held. *)
Theorem drawLine_draws (useAscii : bool) (canvas : Canvas)
    (from to : DrawingCoord) (offsetFrom offsetTo : Z) :
  0 <= X from -> 0 <= Y from -> 0 <= X to -> 0 <= Y to ->
  0 <= offsetFrom -> offsetTo <= 0 ->
  exists canvas' cells,
    drawLine useAscii canvas from to offsetFrom offsetTo = Returned (canvas', cells)
    /\ (forall p, In p cells ->
          between from to p
          /\ cellAt canvas' (X p) (Y p)
             = Some (lineGlyph useAscii (determineDirection from to)))
    /\ (forall x y g, ~ In (Coord x y) cells ->
          cellAt canvas x y = Some g -> cellAt canvas' x y = Some g).
Proof.
  intros Hfx Hfy Htx Hty HoF HoT.
  set (direction := determineDirection from to).
  set (cells := lineCoords direction from to offsetFrom offsetTo).
  set (resized := increaseSize canvas (max (X from) (X to)) (max (Y from) (Y to))).
  set (g := lineGlyph useAscii direction).
  set (cellOf := fun p : DrawingCoord => (X p, Y p)).
  assert (Hbetween : forall p, In p cells -> between from to p).
  { intros p. apply lineCoords_between; assumption. }
  destruct (writes_return cellOf (fun _ => g) cells resized) as [canvas' H].
  { intros p Hp. destruct (Hbetween p Hp) as [Hx Hy]. cbn [cellOf fst snd].
    apply increaseSize_covers; rewrite max_spec; lia. }
  assert (Hline : writeCells resized cells g = Returned canvas') by exact H.
  exists canvas', cells. split.
  - unfold drawLine. fold direction. fold resized. fold cells.
    unfold drawUnicodeLine, drawAsciiLine. fold cells.
    replace (if negb useAscii
             then writeCells resized cells (unicodeLineGlyph direction)
             else writeCells resized cells (asciiLineGlyph direction))
      with (writeCells resized cells g)
      by (unfold g, lineGlyph; destruct useAscii; reflexivity).
    rewrite Hline. reflexivity.
  - split.
    + intros p Hp. split; [exact (Hbetween p Hp)|].
      exact (writes_there cellOf (fun _ => g) cells resized canvas' p H Hp
               (fun _ _ _ => eq_refl)).
    + intros x y g0 Hout Hg.
      rewrite (writes_elsewhere cellOf (fun _ => g) cells resized canvas' x y H).
      * apply increaseSize_cell. exact Hg.
      * intros p Hp E. apply Hout. destruct p as [px py]. cbn [cellOf X Y] in E.
        injection E as -> ->. exact Hp.
Qed.

Lemma drawLine_draws_witness :
  exists canvas' cells,
    drawLine true (makeDrawing 0 0) (Coord 2 1) (Coord 6 1) 1 (-1)
    = Returned (canvas', cells)
    /\ cells = [Coord 3 1; Coord 4 1; Coord 5 1]
    /\ cellAt canvas' 4 1 = Some (ch "-")
    /\ cellAt canvas' 2 1 = Some blank.
Proof.
  destruct (drawLine_draws true (makeDrawing 0 0) (Coord 2 1) (Coord 6 1) 1 (-1))
    as (canvas' & cells & H & Hcells & _); try (cbn; lia).
  exists canvas', cells. split; [exact H|].
  assert (E : cells = [Coord 3 1; Coord 4 1; Coord 5 1]).
  { vm_compute in H. injection H as _ <-. reflexivity. }
  split; [exact E|]. split.
  - apply (Hcells (Coord 4 1)). rewrite E. cbn. auto.
  - vm_compute in H. injection H as <- _. reflexivity.
Defined.

Section RowsOfCanvas.

Lemma row_cells (d : Canvas) (y : Z) (xs : list Z) : forall acc,
  (forall x, In x xs -> is_Some (cellAt d x y)) ->
  exists cs,
    forEach (fun acc x =>
               match cellAt d x y with
               | None => OutOfModel
               | Some c => Returned (acc ++ [c])
               end) xs acc = Returned (acc ++ cs)
    /\ Forall2 (fun x c => cellAt d x y = Some c) xs cs.
Proof.
  induction xs as [|x xs IH]; intros acc Hin.
  - exists []. rewrite app_nil_r. split; [reflexivity|constructor].
  - destruct (Hin x (or_introl eq_refl)) as [c Hc].
    destruct (IH (acc ++ [c])) as (cs & H & Hall).
    { intros x' Hx'. apply Hin. right. exact Hx'. }
    exists (c :: cs). cbn [forEach]. rewrite Hc. cbn [mbind Outcome_bind].
    rewrite H, <- app_assoc. split; [reflexivity|]. constructor; assumption.
Qed.

Lemma rows_cells (d : Canvas) (xs ys : list Z) : forall out,
  (forall x y, In x xs -> In y ys -> is_Some (cellAt d x y)) ->
  exists lines,
    forEach (fun out y =>
               line ← forEach (fun acc x =>
                                 match cellAt d x y with
                                 | None => OutOfModel
                                 | Some c => Returned (acc ++ [c])
                                 end) xs [];
               Returned (out ++ [line])) ys out = Returned (out ++ lines)
    /\ Forall2 (fun y line => Forall2 (fun x c => cellAt d x y = Some c) xs line)
         ys lines.
Proof.
  induction ys as [|y ys IH]; intros out Hin.
  - exists []. rewrite app_nil_r. split; [reflexivity|constructor].
  - destruct (row_cells d y xs []) as (line & Hline & Hall).
    { intros x Hx. apply Hin; [exact Hx|left; reflexivity]. }
    destruct (IH (out ++ [line])) as (lines & H & Halls).
    { intros x y' Hx Hy'. apply Hin; [exact Hx|right; exact Hy']. }
    exists (line :: lines). cbn [forEach]. rewrite Hline. cbn [mbind Outcome_bind app].
    rewrite H, <- app_assoc. split; [reflexivity|]. constructor; assumption.
Qed.

Lemma countUp_lookup (n : nat) (i : nat) :
  (i < n)%nat -> countUp 0 (Z.of_nat n - 1) !! i = Some (Z.of_nat i).
Proof.
  intros Hi. unfold countUp.
  change (map ?f ?l) with (f <$> l).
  rewrite list_lookup_fmap.
  replace (Z.to_nat (Z.of_nat n - 1 - 0 + 1)) with n by lia.
  rewrite lookup_seq_lt by exact Hi. reflexivity.
Qed.

Lemma countUp_length (n : nat) : length (countUp 0 (Z.of_nat n - 1)) = n.
Proof. unfold countUp. rewrite length_map, length_seq. lia. Qed.

End RowsOfCanvas.

(** X16. The rows of the output are the canvas read line by line: for a
    canvas with at least one column, none of them shorter than the first,
    [drawingToString] does not throw, yields as many rows as the first
    column has cells, each as long as the canvas has columns, and character
    [x] of row [y] is the cell [(x, y)] of the canvas. *)
Theorem drawingToRows_transposes (col0 : list glyph) (others : list (list glyph)) :
  Forall (fun col => (length col0 <= length col)%nat) others ->
  exists rows,
    drawingToRows (col0 :: others) = Returned rows
    /\ length rows = length col0
    /\ forall (y : nat) row, rows !! y = Some row ->
         length row = S (length others)
         /\ forall (x : nat) g,
              row !! x = Some g <->
              cellAt (col0 :: others) (Z.of_nat x) (Z.of_nat y) = Some g.
Proof.
  intros Hlong. set (d := col0 :: others).
  unfold drawingToRows. cbn [height0 d mbind Outcome_bind]. cbv zeta.
  fold d.
  set (xs := countUp 0 (Z.of_nat (length d) - 1)).
  set (ys := countUp 0 (Z.of_nat (length col0) - 1)).
  destruct (rows_cells d xs ys []) as (rows & H & Hall).
  { intros x y Hx Hy. apply countUp_In in Hx, Hy.
    assert (Hd : (Z.to_nat x < length d)%nat) by lia.
    destruct (lookup_lt_is_Some_2 d _ Hd) as [col Hcol].
    assert (Hl : (length col0 <= length col)%nat).
    { destruct (Z.to_nat x) as [|k] eqn:E; cbn in Hcol.
      - injection Hcol as <-. lia.
      - rewrite List.Forall_forall in Hlong. apply Hlong.
        apply list_elem_of_In. eapply list_elem_of_lookup_2. exact Hcol. }
    destruct (lookup_lt_is_Some_2 col (Z.to_nat y) ltac:(lia)) as [g Hg].
    exists g. apply cellAt_Some. repeat split; try lia. exists col. auto. }
  exists rows. split; [exact H|].
  pose proof (Forall2_length _ _ _ Hall) as Hlen.
  unfold ys in Hlen. rewrite countUp_length in Hlen.
  split; [lia|].
  intros y row Hrow.
  assert (Hy : (y < length col0)%nat) by (apply lookup_lt_Some in Hrow; lia).
  pose proof (Forall2_lookup_lr _ _ _ _ _ _ Hall (countUp_lookup _ _ Hy) Hrow) as Hr.
  pose proof (Forall2_length _ _ _ Hr) as Hrl.
  unfold xs in Hrl. rewrite countUp_length in Hrl. split; [cbn in Hrl; lia|].
  intros x g. split.
  - intros Hg.
    assert (Hx : (x < length d)%nat) by (apply lookup_lt_Some in Hg; lia).
    pose proof (Forall2_lookup_lr _ _ _ _ _ _ Hr (countUp_lookup _ _ Hx) Hg) as Hc.
    exact Hc.
  - intros Hc.
    assert (Hx : (x < length d)%nat).
    { apply cellAt_Some in Hc. destruct Hc as (_ & _ & col & Hcol & _).
      apply lookup_lt_Some in Hcol. lia. }
    destruct (lookup_lt_is_Some_2 row x ltac:(lia)) as [g' Hg'].
    pose proof (Forall2_lookup_lr _ _ _ _ _ _ Hr (countUp_lookup _ _ Hx) Hg') as Hc'.
    congruence.
Qed.

Lemma drawingToRows_transposes_witness :
  exists rows,
    drawingToRows [[ch "a"; ch "b"]; [ch "c"; ch "d"]; [ch "e"; ch "f"]]
    = Returned rows
    /\ rows = [[ch "a"; ch "c"; ch "e"]; [ch "b"; ch "d"; ch "f"]].
Proof.
  destruct (drawingToRows_transposes [ch "a"; ch "b"]
              [[ch "c"; ch "d"]; [ch "e"; ch "f"]]) as (rows & H & _).
  - repeat constructor.
  - exists rows. split; [exact H|].
    vm_compute in H. injection H as <-. reflexivity.
Defined.

(** * [makeGraph]: the graph built from the parsed chart *)

Section MakeGraphInv.

Implicit Types (g : Graph.t) (n : Node.t) (name : list glyph).

Lemma getNode_from_Some ns : forall r0 name r,
  getNode_from r0 ns name = Some r ->
  exists k n, r = (r0 + k)%nat /\ ns !! k = Some n /\ Node.name n = name.
Proof.
  induction ns as [|n ns IH]; intros r0 name r; cbn [getNode_from]; [discriminate|].
  destruct (bool_decide_reflect (Node.name n = name)) as [E|E].
  - intros [= <-]. exists O, n. split; [lia|]. split; [reflexivity|exact E].
  - intros H. destruct (IH _ _ _ H) as (k & m & -> & Hk & Hm).
    exists (S k), m. split; [lia|]. split; [exact Hk|exact Hm].
Qed.

Lemma getNode_from_None ns : forall r0 name,
  getNode_from r0 ns name = None -> ~ In name (map Node.name ns).
Proof.
  induction ns as [|n ns IH]; intros r0 name; cbn [getNode_from]; [intros _ []|].
  destruct (bool_decide_reflect (Node.name n = name)) as [E|E]; [discriminate|].
  intros H [E'|Hin]; [contradiction|]. exact (IH _ _ H Hin).
Qed.

Lemma getNode_Some g name r :
  getNode g name = Some r -> nameOf g r = Some name.
Proof.
  unfold getNode, nameOf. intros H.
  destruct (getNode_from_Some _ _ _ _ H) as (k & n & -> & Hk & Hn).
  cbn. rewrite Hk. cbn. congruence.
Qed.

Lemma getNode_None g name :
  getNode g name = None -> ~ In name (map Node.name (Graph.nodes g)).
Proof. apply getNode_from_None. Qed.

Lemma nameOf_In g r name :
  nameOf g r = Some name -> In name (map Node.name (Graph.nodes g)).
Proof.
  unfold nameOf. destruct (Graph.nodes g !! r) as [n|] eqn:E; [|discriminate].
  intros [= <-]. apply in_map. apply list_elem_of_In.
  eapply list_elem_of_lookup_2. exact E.
Qed.

Lemma nameOf_lt g r name : nameOf g r = Some name -> (r < length (Graph.nodes g))%nat.
Proof.
  unfold nameOf. destruct (Graph.nodes g !! r) as [n|] eqn:E; [|discriminate].
  intros _. apply lookup_lt_Some in E. exact E.
Qed.

Lemma edgesRead_append g n :
  WellFormed g ->
  edgesRead (fst (appendNode g n)) = edgesRead g.
Proof.
  intros (_ & _ & He). unfold edgesRead, appendNode, setNodes, nameOf.
  cbn [fst Graph.nodes Graph.edges].
  apply map_ext_in. intros e Hin.
  rewrite List.Forall_forall in He. destruct (He e Hin) as [Hf Ht].
  rewrite !lookup_app_l by assumption. reflexivity.
Qed.

Lemma built_append done names g name :
  built done names (g, length (Graph.nodes g)) ->
  ~ In name (map Node.name (Graph.nodes g)) ->
  built done (names ++ [name])
    (fst (appendNode g (newNode name (length (Graph.nodes g)))),
     S (length (Graph.nodes g)))
  /\ nameOf (fst (appendNode g (newNode name (length (Graph.nodes g)))))
       (length (Graph.nodes g)) = Some name.
Proof.
  intros (_ & Hwf & Hedges & Hnames & Hfresh & Hgrid) Hnew.
  pose proof Hwf as (Hidx & Hnd & He).
  split.
  - unfold built. cbn [fst snd]. split.
    { unfold appendNode, setNodes. cbn. rewrite length_app. cbn. lia. }
    split.
    { unfold WellFormed, appendNode, setNodes. cbn [fst Graph.nodes Graph.edges].
      split; [|split].
      - intros r n Hr. apply lookup_app_Some in Hr.
        destruct Hr as [Hr|[Hlen Hr]]; [exact (Hidx r n Hr)|].
        destruct (r - length (Graph.nodes g))%nat as [|k] eqn:E; [|discriminate].
        injection Hr as <-. cbn. lia.
      - rewrite map_app. cbn. apply NoDup_ListNoDup. apply NoDup_app.
        split; [apply NoDup_ListNoDup; exact Hnd|]. split; [|apply NoDup_singleton].
        intros x Hx Hx'. apply list_elem_of_singleton in Hx'. subst x.
        apply Hnew. apply list_elem_of_In. exact Hx.
      - rewrite length_app. eapply Forall_impl; [exact He|].
        intros e [H1 H2]. cbn in *. lia. }
    split; [rewrite (edgesRead_append g _ Hwf); exact Hedges|].
    split.
    { intros x. unfold appendNode, setNodes. cbn [fst Graph.nodes].
      rewrite map_app, !in_app_iff, Hnames. cbn. tauto. }
    split.
    { destruct Hfresh as (Hf & Hcw & Hrh & Hsw).
      unfold fresh, appendNode, setNodes. cbn. repeat split; try assumption.
      intros r n Hr. apply lookup_app_Some in Hr.
      destruct Hr as [Hr|[_ Hr]]; [exact (Hf r n Hr)|].
      destruct (r - length (Graph.nodes g))%nat; [|discriminate].
      injection Hr as <-. reflexivity. }
    exact Hgrid.
  - unfold nameOf, appendNode, setNodes. cbn [fst Graph.nodes].
    rewrite lookup_app_r by lia. rewrite Nat.sub_diag. reflexivity.
Qed.

End MakeGraphInv.

Section MakeGraphSteps.

Implicit Types (g : Graph.t) (n : Node.t) (name : list glyph).

Lemma built_index done names g index :
  built done names (g, index) -> index = length (Graph.nodes g).
Proof. intros (H & _). exact H. Qed.

Lemma built_names done names names' st :
  (forall name, In name names <-> In name names') ->
  built done names st -> built done names' st.
Proof.
  intros Hn (H1 & H2 & H3 & H4 & H5). repeat split; try assumption;
    try (apply H2); try (apply H5).
  - intros H. apply Hn, H4, H.
  - intros H. apply H4, Hn, H.
Qed.

Lemma built_edge done names g index parentNode childNode key child label :
  built done names (g, index) ->
  nameOf g parentNode = Some key -> nameOf g childNode = Some child ->
  built (done ++ [(key, child, label)]) names
    (setEdges g (Graph.edges g ++ [newEdge parentNode childNode label]), index).
Proof.
  intros (Hi & (Hidx & Hnd & He) & Hedges & Hnames & Hfresh & Hgrid) Hp Hc.
  cbn [fst snd] in *. unfold built. cbn [fst snd].
  split; [exact Hi|]. split.
  { unfold WellFormed, setEdges. cbn [Graph.nodes Graph.edges].
    split; [exact Hidx|]. split; [exact Hnd|].
    apply Forall_app. split; [exact He|]. constructor; [|constructor].
    cbn. split; eapply nameOf_lt; eassumption. }
  split.
  { unfold edgesRead, setEdges, nameOf in *. cbn [Graph.nodes Graph.edges] in *.
    rewrite !map_app, Hedges. cbn. rewrite Hp, Hc. reflexivity. }
  split; [exact Hnames|]. split; [|exact Hgrid].
  destruct Hfresh as (Hf & Hcw & Hrh & Hsw). repeat split; assumption.
Qed.

Lemma nameOf_append g n r name :
  nameOf g r = Some name -> nameOf (fst (appendNode g n)) r = Some name.
Proof.
  intros H. pose proof (nameOf_lt _ _ _ H) as Hlt.
  unfold nameOf, appendNode, setNodes in *. cbn [fst Graph.nodes].
  rewrite lookup_app_l by exact Hlt. exact H.
Qed.

Lemma makeGraph_child_built done names st parentNode key textEdge :
  built done names st ->
  nameOf (fst st) parentNode = Some key ->
  built (done ++ [(key, TextEdge.child textEdge, TextEdge.label textEdge)])
    (names ++ [TextEdge.child textEdge])
    (makeGraph_child parentNode st textEdge)
  /\ nameOf (fst (makeGraph_child parentNode st textEdge)) parentNode = Some key.
Proof.
  destruct st as [g index]. intros Hb Hp. cbn [fst] in Hp.
  pose proof (built_index _ _ _ _ Hb) as ->.
  unfold makeGraph_child.
  destruct (getNode g (TextEdge.child textEdge)) as [r|] eqn:Hget.
  - pose proof (getNode_Some _ _ _ Hget) as Hc. split; [|exact Hp].
    apply (built_edge done _ g _ parentNode r key _ _); [|exact Hp|exact Hc].
    pose proof Hb as (_ & _ & _ & Hn & _). cbn [fst] in Hn.
    revert Hb. apply built_names. intros x. rewrite in_app_iff. cbn.
    split; [tauto|]. intros [H|[<-|[]]]; [exact H|].
    apply Hn. exact (nameOf_In _ _ _ Hc).
  - pose proof (getNode_None _ _ Hget) as Hnew.
    destruct (built_append done names g _ Hb Hnew) as [Hb' Hc].
    destruct (appendNode g _) as [g' r] eqn:Ea.
    assert (Er : r = length (Graph.nodes g)) by (injection Ea as _ <-; reflexivity).
    subst r. cbn [fst] in *.
    assert (Hp' : nameOf g' parentNode = Some key).
    { replace g' with (fst (appendNode g (newNode (TextEdge.child textEdge)
                                            (length (Graph.nodes g)))))
        by (rewrite Ea; reflexivity).
      apply nameOf_append, Hp. }
    split; [|exact Hp'].
    exact (built_edge done _ g' _ parentNode _ key _ _ Hb' Hp' Hc).
Qed.

Lemma makeGraph_children_built key parentNode (children : list TextEdge.t) :
  forall done names st,
  built done names st ->
  nameOf (fst st) parentNode = Some key ->
  built (done ++ map (fun textEdge =>
                        (key, TextEdge.child textEdge, TextEdge.label textEdge))
                   children)
    (names ++ map TextEdge.child children)
    (fold_left (makeGraph_child parentNode) children st).
Proof.
  induction children as [|te children IH]; intros done names st Hb Hp.
  - cbn. rewrite !app_nil_r. exact Hb.
  - cbn [fold_left map].
    destruct (makeGraph_child_built done names st parentNode key te Hb Hp) as [Hb' Hp'].
    specialize (IH _ _ _ Hb' Hp'). rewrite <- !app_assoc in IH. exact IH.
Qed.

Lemma makeGraph_entry_built done names st entry :
  built done names st ->
  built (done ++ edgesOf [entry]) (names ++ namesOf [entry])
    (makeGraph_entry st entry).
Proof.
  destruct st as [g index], entry as [nodeName children]. intros Hb.
  pose proof (built_index _ _ _ _ Hb) as ->.
  unfold makeGraph_entry, edgesOf, namesOf. cbn [flat_map fst snd].
  rewrite !app_nil_r.
  destruct (getNode g nodeName) as [r|] eqn:Hget.
  - pose proof (getNode_Some _ _ _ Hget) as Hp.
    assert (Hb' : built done (names ++ [nodeName]) (g, length (Graph.nodes g))).
    { pose proof Hb as (_ & _ & _ & Hn & _). cbn [fst] in Hn.
      revert Hb. apply built_names. intros x. rewrite in_app_iff. cbn.
      split; [tauto|]. intros [H|[<-|[]]]; [exact H|].
      apply Hn. exact (nameOf_In _ _ _ Hp). }
    pose proof (makeGraph_children_built nodeName r children _ _ _ Hb' Hp) as H.
    rewrite <- app_assoc in H. exact H.
  - pose proof (getNode_None _ _ Hget) as Hnew.
    destruct (built_append done names g _ Hb Hnew) as [Hb' Hp].
    destruct (appendNode g _) as [g' r] eqn:Ea.
    assert (Er : r = length (Graph.nodes g)) by (injection Ea as _ <-; reflexivity).
    subst r. cbn [fst] in *.
    pose proof (makeGraph_children_built nodeName _ children _ _ _ Hb' Hp) as H.
    rewrite <- app_assoc in H. exact H.
Qed.

Lemma makeGraph_built data :
  built (edgesOf data) (namesOf data) (fold_left makeGraph_entry data (newGraph, O)).
Proof.
  assert (H0 : built [] [] (newGraph, O)).
  { unfold built, WellFormed, fresh. cbn. repeat split; try constructor;
      try discriminate; try contradiction. }
  assert (H : forall done names st, built done names st ->
            built (done ++ edgesOf data) (names ++ namesOf data)
              (fold_left makeGraph_entry data st)).
  { induction data as [|entry data IH]; intros done names st Hb.
    - cbn. rewrite !app_nil_r. exact Hb.
    - cbn [fold_left].
      pose proof (makeGraph_entry_built done names st entry Hb) as Hb'.
      specialize (IH _ _ _ Hb').
      unfold edgesOf, namesOf in *. cbn [flat_map] in *.
      rewrite !app_nil_r, <- !app_assoc in IH. exact IH. }
  exact (H [] [] _ H0).
Qed.

Lemma makeGraph_wellFormed data : WellFormed (makeGraph data).
Proof. destruct (makeGraph_built data) as (_ & Hwf & _). exact Hwf. Qed.

End MakeGraphSteps.

(** X17. The graph [makeGraph] builds from the parsed chart: every node
    holds its position in the node list as its index, no two nodes share a
    name, the names of the nodes are the names the chart mentions (the keys
    of its entries and the children of their edges), and the edges, read
    through their ends, are the edges of the chart in order: from the node
    named by the key of the entry to the node named by the child, with the
    label. *)
Theorem makeGraph_reads_back (data : list (list glyph * list TextEdge.t)) :
  WellFormed (makeGraph data)
  /\ (forall name, In name (map Node.name (Graph.nodes (makeGraph data)))
                   <-> In name (namesOf data))
  /\ edgesRead (makeGraph data)
     = map (fun e => (Some (fst (fst e)), Some (snd (fst e)), snd e)) (edgesOf data).
Proof.
  destruct (makeGraph_built data) as (_ & Hwf & Hedges & Hnames & _).
  unfold makeGraph. auto.
Qed.

(** X18. [getNode] finds a node by its name: on the graph [makeGraph]
    builds, it answers with a node exactly for the names the chart mentions,
    and the node it answers with has that name and is the only one that
    has. *)
Theorem getNode_finds (data : list (list glyph * list TextEdge.t))
    (name : list glyph) :
  match getNode (makeGraph data) name with
  | Some r =>
      In name (namesOf data)
      /\ nameOf (makeGraph data) r = Some name
      /\ forall r', nameOf (makeGraph data) r' = Some name -> r' = r
  | None => ~ In name (namesOf data)
  end.
Proof.
  destruct (makeGraph_built data) as (_ & (_ & Hnd & _) & _ & Hnames & _).
  fold (makeGraph data) in *.
  destruct (getNode (makeGraph data) name) as [r|] eqn:Hget.
  - pose proof (getNode_Some _ _ _ Hget) as Hr.
    split; [apply Hnames; exact (nameOf_In _ _ _ Hr)|]. split; [exact Hr|].
    intros r' Hr'. unfold nameOf in *.
    set (ns := Graph.nodes (makeGraph data)) in *.
    apply NoDup_ListNoDup in Hnd.
    change (map Node.name ns) with (Node.name <$> ns) in Hnd.
    apply (NoDup_lookup _ r' r name Hnd); rewrite list_lookup_fmap; assumption.
  - intros Hin. apply Hnames in Hin. exact (getNode_None _ _ Hget Hin).
Qed.

(** * Placement: every node is placed *)

Section PlacedMore.

Implicit Types (g : Graph.t) (n : Node.t).

Lemma placedMore_refl g : placedMore g g.
Proof. repeat split; auto. Qed.

Lemma placedMore_trans g1 g2 g3 :
  placedMore g1 g2 -> placedMore g2 g3 -> placedMore g1 g3.
Proof.
  intros (A1 & B1 & C1 & D1) (A2 & B2 & C2 & D2).
  repeat split; try congruence. auto.
Qed.

Lemma alter_map_same {A B : Type} (f : A -> B) (h : A -> A) (l : list A) i :
  (forall a, f (h a) = f a) -> map f (alter h i l) = map f l.
Proof.
  intros Hf. revert i. induction l as [|b l IH]; intros [|i]; cbn; try reflexivity.
  - rewrite Hf. reflexivity.
  - f_equal. apply IH.
Qed.

Lemma placedMore_update g r c :
  placedMore g (updateNode g r (withGridCoord c))
  /\ (forall n, Graph.nodes g !! r = Some n ->
                placed (updateNode g r (withGridCoord c)) r).
Proof.
  unfold placedMore, updateNode, setNodes, placed. cbn [Graph.nodes Graph.edges].
  split; [split; [|split; [|split]]|].
  - apply alter_map_same. reflexivity.
  - apply alter_map_same. reflexivity.
  - reflexivity.
  - intros r' (n & Hn & Hc). destruct (decide (r' = r)) as [->|Hne].
    + exists (withGridCoord c n). rewrite list_lookup_alter_eq, Hn. split; [reflexivity|].
      cbn. eauto.
    + exists n. rewrite list_lookup_alter_ne by auto. auto.
  - intros n Hn. exists (withGridCoord c n).
    rewrite list_lookup_alter_eq, Hn. split; [reflexivity|]. cbn. eauto.
Qed.

Lemma placedMore_setGrid g m : placedMore g (setGrid g m).
Proof. repeat split; auto. Qed.

Lemma reserveSpotInGrid_probe_placed gd probes : forall g r c g' c',
  reserveSpotInGrid_probe probes gd g r c = Returned (g', c') ->
  placedMore g g' /\ placed g' r.
Proof.
  assert (Hdone : forall g r c g' c',
            match Graph.nodes g !! r with
            | None => Thrown "TypeError"
            | Some _ =>
                Returned (updateNode
                            (setGrid g (fold_left (fun m k => <[k := r]> m)
                                          (blockCells c) (Graph.grid g)))
                            r (withGridCoord c), c)
            end = Returned (g', c') ->
            placedMore g g' /\ placed g' r).
  { intros g r c g' c'. destruct (Graph.nodes g !! r) as [n|] eqn:Hn; [|discriminate].
    intros [= <- <-].
    set (g1 := setGrid g _).
    destruct (placedMore_update g1 r c) as [Hm Hp].
    split; [exact (placedMore_trans _ _ _ (placedMore_setGrid g _) Hm)|].
    apply (Hp n). exact Hn. }
  induction probes as [|probes IH]; intros g r c g' c'; cbn [reserveSpotInGrid_probe].
  - destruct (Graph.grid g !! coordKey c); [discriminate|]. apply Hdone.
  - destruct (Graph.grid g !! coordKey c); [apply IH|apply Hdone].
Qed.

Lemma placeNode_placed gd g r c g' n :
  Graph.nodes g !! r = Some n ->
  placeNode gd g r c = Returned g' ->
  placedMore g g' /\ placed g' (Node.index n).
Proof.
  intros Hn. unfold placeNode. rewrite Hn.
  destruct (Graph.nodes g !! Node.index n) as [m|] eqn:Hm; [|discriminate].
  destruct (reserveSpotInGrid gd g (Node.index n) c) as [[g1 c1]| | |] eqn:Hr;
    try discriminate.
  cbn [mbind Outcome_bind]. intros [= <-].
  apply reserveSpotInGrid_probe_placed in Hr. destruct Hr as [Hm1 Hp1].
  destruct (placedMore_update g1 (Node.index n) c1) as [Hm2 Hp2].
  split; [exact (placedMore_trans _ _ _ Hm1 Hm2)|].
  destruct Hp1 as (n1 & Hn1 & _). exact (Hp2 n1 Hn1).
Qed.

Lemma placedMore_lookup g g' r n' :
  placedMore g g' -> Graph.nodes g' !! r = Some n' ->
  exists n, Graph.nodes g !! r = Some n /\ Node.name n = Node.name n'
            /\ Node.index n = Node.index n'.
Proof.
  intros (Hnames & Hidx & _) Hr.
  assert (H1 : map Node.name (Graph.nodes g) !! r = Some (Node.name n')).
  { rewrite <- Hnames. change (map ?f ?l) with (f <$> l).
    rewrite list_lookup_fmap, Hr. reflexivity. }
  assert (H2 : map Node.index (Graph.nodes g) !! r = Some (Node.index n')).
  { rewrite <- Hidx. change (map ?f ?l) with (f <$> l).
    rewrite list_lookup_fmap, Hr. reflexivity. }
  change (map ?f ?l) with (f <$> l) in H1. change (map ?f ?l) with (f <$> l) in H2.
  rewrite list_lookup_fmap in H1. rewrite list_lookup_fmap in H2.
  destruct (Graph.nodes g !! r) as [n|]; [|discriminate].
  exists n. cbn in H1, H2. split; [reflexivity|]. split; congruence.
Qed.

Lemma placedMore_startsAt g g' n n' e :
  placedMore g g' -> Node.name n = Node.name n' ->
  startsAt g' n' e = startsAt g n e.
Proof.
  intros Hm Hn. unfold startsAt. rewrite <- Hn.
  destruct Hm as (Hnames & _).
  assert (H : Node.name <$> Graph.nodes g' !! Edge.from e
              = Node.name <$> Graph.nodes g !! Edge.from e).
  { rewrite <- !list_lookup_fmap.
    change (Node.name <$> Graph.nodes g') with (map Node.name (Graph.nodes g')).
    rewrite Hnames. reflexivity. }
  destruct (Graph.nodes g' !! Edge.from e), (Graph.nodes g !! Edge.from e);
    cbn in H; try discriminate; [|reflexivity].
  injection H as ->. reflexivity.
Qed.

Lemma placedMore_getChildren g g' n n' :
  placedMore g g' -> Node.name n = Node.name n' ->
  getChildren g' n' = getChildren g n.
Proof.
  intros Hm Hn. unfold getChildren, getEdgesFromNode.
  destruct Hm as (Hnames & Hi & He & Hp). rewrite He.
  assert (Hs : forall e, startsAt g' n' e = startsAt g n e).
  { intros e. apply placedMore_startsAt; [repeat split; assumption|exact Hn]. }
  f_equal. rewrite !(List.filter_ext _ _ Hs). reflexivity.
Qed.

End PlacedMore.

Section Roots.

Variable g : Graph.t.
Hypothesis names_distinct : List.NoDup (map Node.name (Graph.nodes g)).

Lemma same_name_same_node a b na nb :
  Graph.nodes g !! a = Some na -> Graph.nodes g !! b = Some nb ->
  Node.name na = Node.name nb -> a = b.
Proof.
  intros Ha Hb E. apply NoDup_ListNoDup in names_distinct.
  change (map Node.name (Graph.nodes g)) with (Node.name <$> Graph.nodes g)
    in names_distinct.
  apply (NoDup_lookup _ a b (Node.name na) names_distinct);
    rewrite list_lookup_fmap; [rewrite Ha|rewrite Hb, E]; reflexivity.
Qed.

Lemma findRoots_fold (rest : list Node.t) : forall (pre : list Node.t) found roots,
  Graph.nodes g = pre ++ rest ->
  (forall x, In x found ->
     exists j nj, (j < length pre)%nat /\ Graph.nodes g !! j = Some nj
       /\ (x = Node.name nj
           \/ exists c m, In c (getChildren g nj) /\ Graph.nodes g !! c = Some m
                          /\ Node.name m = x)) ->
  (forall i, (i < length pre)%nat -> In i roots \/ childOfEarlier g i) ->
  forall i, (i < length (Graph.nodes g))%nat ->
    In i (snd (fold_left (findRoots_step g)
                 (combine (seq (length pre) (length rest)) rest) (found, roots)))
    \/ childOfEarlier g i.
Proof.
  induction rest as [|n rest IH]; intros pre found roots Hnodes Hfound Hroots i Hi.
  - cbn. apply Hroots. rewrite Hnodes, app_nil_r in Hi. exact Hi.
  - cbn [length seq combine fold_left findRoots_step].
    assert (Hk : Graph.nodes g !! length pre = Some n).
    { rewrite Hnodes. rewrite lookup_app_r by lia. rewrite Nat.sub_diag. reflexivity. }
    replace (S (length pre)) with (length (pre ++ [n])) by (rewrite length_app; cbn; lia).
    apply IH.
    + rewrite Hnodes, <- app_assoc. reflexivity.
    + intros x Hx. rewrite length_app. cbn [length].
      apply in_app_or in Hx. destruct Hx as [Hx|Hx].
      * destruct (Hfound x Hx) as (j & nj & Hj & Hnj & H). exists j, nj.
        split; [lia|]. auto.
      * exists (length pre), n. split; [lia|]. split; [exact Hk|].
        destruct Hx as [<-|Hx]; [left; reflexivity|right].
        apply list_elem_of_In, list_elem_of_omap in Hx.
        destruct Hx as (c & Hc & Hname).
        destruct (Graph.nodes g !! c) as [m|] eqn:Hm; [|discriminate].
        exists c, m. split; [apply list_elem_of_In; exact Hc|].
        split; [exact Hm|]. cbn in Hname. congruence.
    + intros k Hlt. rewrite length_app in Hlt. cbn [length] in Hlt.
      destruct (decide (k = length pre)) as [->|Hne].
      * destruct (bool_decide_reflect (Node.name n ∈ found)) as [Hin|Hout].
        -- right. apply list_elem_of_In in Hin.
           destruct (Hfound _ Hin) as (j & nj & Hj & Hnj & [E|(c & m & Hc & Hm & E)]).
           ++ pose proof (same_name_same_node _ _ _ _ Hk Hnj E). lia.
           ++ assert (c = length pre) as ->
                by (apply (same_name_same_node _ _ _ _ Hm Hk E)).
              exists j, nj. auto.
        -- left. apply in_or_app. right. left. reflexivity.
      * destruct (Hroots k ltac:(lia)) as [Hr|Hc]; [|right; exact Hc].
        left. destruct (bool_decide _); [exact Hr|]. apply in_or_app. left. exact Hr.
    + exact Hi.
Qed.

Lemma findRoots_cover i :
  (i < length (Graph.nodes g))%nat -> In i (findRoots g) \/ childOfEarlier g i.
Proof.
  intros Hi. unfold findRoots.
  apply (findRoots_fold (Graph.nodes g) [] [] []); try reflexivity; try exact Hi.
  - intros x [].
  - intros k Hk. cbn in Hk. lia.
Qed.

Lemma findRoots_lt r : In r (findRoots g) -> (r < length (Graph.nodes g))%nat.
Proof.
  unfold findRoots.
  assert (H : forall (l : list (nat * Node.t)) found roots,
            (forall rn, In rn l -> (fst rn < length (Graph.nodes g))%nat) ->
            (forall x, In x roots -> (x < length (Graph.nodes g))%nat) ->
            forall x, In x (snd (fold_left (findRoots_step g) l (found, roots))) ->
                      (x < length (Graph.nodes g))%nat).
  { induction l as [|[k n] l IH]; intros found roots Hl Hr x; [exact (Hr x)|].
    cbn [fold_left findRoots_step]. apply IH.
    - intros rn Hrn. apply Hl. right. exact Hrn.
    - intros y Hy. destruct (bool_decide _); [exact (Hr y Hy)|].
      apply in_app_or in Hy. destruct Hy as [Hy|[<-|[]]]; [exact (Hr y Hy)|].
      apply (Hl (k, n)). left. reflexivity. }
  apply H; [|intros x []].
  intros [k n] Hin. apply in_combine_l in Hin. apply in_seq in Hin. cbn. lia.
Qed.

End Roots.

Section PlacementLoops.

Variable gd : GraphDirection.

Implicit Types (g : Graph.t) (n : Node.t) (st : Graph.t * list Z).

Lemma placedMore_indexed g g' : selfIndexed g -> placedMore g g' -> selfIndexed g'.
Proof.
  intros Hi Hm r n' Hr.
  destruct (placedMore_lookup g g' r n' Hm Hr) as (n & Hn & _ & E).
  rewrite <- E. exact (Hi r n Hn).
Qed.

Lemma placeNode_at g r c g' :
  selfIndexed g -> placeNode gd g r c = Returned g' ->
  placedMore g g' /\ placed g' r.
Proof.
  intros Hi H.
  destruct (Graph.nodes g !! r) as [n|] eqn:Hn.
  - destruct (placeNode_placed gd g r c g' n Hn H) as [Hm Hp].
    rewrite (Hi r n Hn) in Hp. auto.
  - unfold placeNode in H. rewrite Hn in H. discriminate.
Qed.

Lemma placeRoots_placed (roots : list nat) : forall st st',
  selfIndexed (fst st) ->
  forEach (placeRoot gd) roots st = Returned st' ->
  placedMore (fst st) (fst st') /\ forall r, In r roots -> placed (fst st') r.
Proof.
  induction roots as [|r roots IH]; intros st st' Hi; cbn [forEach].
  - intros [= <-]. split; [apply placedMore_refl|intros r []].
  - destruct (placeRoot gd st r) as [st1| | |] eqn:H1; try discriminate.
    cbn [mbind Outcome_bind]. intros H.
    assert (H1' : placedMore (fst st) (fst st1) /\ placed (fst st1) r).
    { destruct st as [g levels]. unfold placeRoot in H1.
      destruct (levelAt levels 0); [|discriminate].
      destruct (placeNode gd g r _) as [g1| | |] eqn:Hp; try discriminate.
      cbn [mbind Outcome_bind] in H1. injection H1 as <-.
      exact (placeNode_at _ _ _ _ Hi Hp). }
    destruct H1' as [Hm1 Hp1].
    destruct (IH st1 st' (placedMore_indexed _ _ Hi Hm1) H) as [Hm Hp].
    split; [exact (placedMore_trans _ _ _ Hm1 Hm)|].
    intros x [<-|Hx]; [|exact (Hp x Hx)].
    destruct Hm as (_ & _ & _ & Hmono). exact (Hmono _ Hp1).
Qed.

Lemma placeChildren_loop childLevel highestPosition (children : list nat) :
  forall st st',
  selfIndexed (fst st) ->
  forEach (placeChild gd childLevel highestPosition) children st = Returned st' ->
  placedMore (fst st) (fst st') /\ forall c, In c children -> placed (fst st') c.
Proof.
  induction children as [|c children IH]; intros st st' Hi; cbn [forEach].
  - intros [= <-]. split; [apply placedMore_refl|intros c []].
  - destruct (placeChild gd childLevel highestPosition st c) as [st1| | |] eqn:H1;
      try discriminate.
    cbn [mbind Outcome_bind]. intros H.
    assert (H1' : placedMore (fst st) (fst st1) /\ placed (fst st1) c).
    { destruct st as [g levels]. unfold placeChild in H1.
      destruct (Graph.nodes g !! c) as [childNode|] eqn:Hc; [|discriminate].
      destruct (Node.gridCoord childNode) as [gc|] eqn:Hgc.
      - injection H1 as <-. split; [apply placedMore_refl|].
        exists childNode. split; [exact Hc|]. rewrite Hgc. eauto.
      - destruct highestPosition as [highest|]; [|discriminate].
        destruct (placeNode gd g c _) as [g1| | |] eqn:Hp; try discriminate.
        cbn [mbind Outcome_bind] in H1. injection H1 as <-.
        exact (placeNode_at _ _ _ _ Hi Hp). }
    destruct H1' as [Hm1 Hp1].
    destruct (IH st1 st' (placedMore_indexed _ _ Hi Hm1) H) as [Hm Hp].
    split; [exact (placedMore_trans _ _ _ Hm1 Hm)|].
    intros x [<-|Hx]; [|exact (Hp x Hx)].
    destruct Hm as (_ & _ & _ & Hmono). exact (Hmono _ Hp1).
Qed.

Lemma forEach_seq {S : Type} (P : nat -> S -> Prop) (body : S -> nat -> Outcome S)
    (n : nat) : forall start s s',
  (forall i s s1, P i s -> body s i = Returned s1 -> P (Datatypes.S i) s1) ->
  P start s -> forEach body (seq start n) s = Returned s' -> P (start + n)%nat s'.
Proof.
  induction n as [|n IH]; intros start s s' Hbody Hs; cbn [seq forEach].
  - intros [= <-]. rewrite Nat.add_0_r. exact Hs.
  - destruct (body s start) as [s1| | |] eqn:H1; try discriminate.
    cbn [mbind Outcome_bind]. intros H.
    replace (start + Datatypes.S n)%nat with (Datatypes.S start + n)%nat by lia.
    apply (IH _ s1 s' Hbody); [|exact H]. exact (Hbody _ _ _ Hs H1).
Qed.

Variable g0 : Graph.t.
Hypothesis g0_wellFormed : WellFormed g0.

Lemma placeChildren_step i st st' :
  childrenPlaced g0 i st -> placeChildren gd st i = Returned st' ->
  childrenPlaced g0 (S i) st'.
Proof.
  destruct g0_wellFormed as (Hidx & Hnd & _).
  intros (Hm & Hroots & Hbefore) H. destruct st as [g levels]. cbn [fst] in *.
  assert (Hi : selfIndexed g) by exact (placedMore_indexed _ _ Hidx Hm).
  assert (Hkeep : forall g1, placedMore g g1 ->
            forall j nj, (j < i)%nat -> Graph.nodes g0 !! j = Some nj ->
              placed g1 j /\ forall c, In c (getChildren g0 nj) -> placed g1 c).
  { intros g1 (_ & _ & _ & Hmono) j nj Hj Hnj.
    destruct (Hbefore j nj Hj Hnj) as [Hp Hc]. split; [auto|].
    intros c Hin. auto. }
  unfold placeChildren in H.
  destruct (Graph.nodes g !! i) as [n|] eqn:Hn.
  2:{ injection H as <-. split; [exact Hm|]. split; [exact Hroots|].
      intros j nj Hj Hnj. destruct (decide (j = i)) as [->|Hne].
      - exfalso. destruct Hm as (Hnames & _).
        apply lookup_lt_Some in Hnj. apply lookup_ge_None in Hn.
        apply (f_equal (@length _)) in Hnames. rewrite !length_map in Hnames. lia.
      - apply Hbefore; [lia|exact Hnj]. }
  destruct (placedMore_lookup g0 g i n Hm Hn) as (n0 & Hn0 & Hname & _).
  assert (Hplaced : placed g i).
  { destruct (findRoots_cover g0 Hnd i) as [Hr|(j & nj & Hj & Hnj & Hc)].
    - apply lookup_lt_Some in Hn0. exact Hn0.
    - exact (Hroots i Hr).
    - exact (proj2 (Hbefore j nj Hj Hnj) i Hc). }
  destruct (Node.gridCoord n) as [c|] eqn:Hgc.
  2:{ exfalso. destruct Hplaced as (n' & Hn' & Hs). rewrite Hn in Hn'.
      injection Hn' as <-. rewrite Hgc in Hs. destruct Hs; discriminate. }
  apply placeChildren_loop in H; [|exact Hi]. cbn [fst] in H.
  destruct H as [Hm' Hchildren].
  rewrite (placedMore_getChildren g0 g n0 n Hm Hname) in Hchildren.
  split; [exact (placedMore_trans _ _ _ Hm Hm')|].
  split; [intros r Hr; destruct Hm' as (_ & _ & _ & Hmono); auto|].
  intros j nj Hj Hnj. destruct (decide (j = i)) as [->|Hne].
  - rewrite Hn0 in Hnj. injection Hnj as <-.
    split; [destruct Hm' as (_ & _ & _ & Hmono); auto|exact Hchildren].
  - apply (Hkeep _ Hm'); [lia|exact Hnj].
Qed.

Lemma placeNodes_all g' :
  placeNodes gd g0 = Returned g' ->
  placedMore g0 g' /\ forall r, (r < length (Graph.nodes g0))%nat -> placed g' r.
Proof.
  destruct g0_wellFormed as (Hidx & Hnd & _).
  unfold placeNodes.
  destruct (forEach (placeRoot gd) _ _) as [st1| | |] eqn:H1; try discriminate.
  cbn [mbind Outcome_bind].
  destruct (forEach (placeChildren gd) _ st1) as [st2| | |] eqn:H2; try discriminate.
  cbn [mbind Outcome_bind]. intros [= <-].
  apply placeRoots_placed in H1; [|exact Hidx]. cbn [fst] in H1.
  destruct H1 as [Hm1 Hr1].
  assert (H0 : childrenPlaced g0 0 st1).
  { split; [exact Hm1|]. split; [exact Hr1|]. intros j nj Hj. lia. }
  pose proof (forEach_seq (childrenPlaced g0) (placeChildren gd) _ 0 st1 st2
                placeChildren_step H0 H2) as (Hm & _ & Hall).
  split; [exact Hm|]. intros r Hr.
  destruct (lookup_lt_is_Some_2 (Graph.nodes g0) r Hr) as [n Hn].
  exact (proj1 (Hall r n ltac:(cbn; lia) Hn)).
Qed.

End PlacementLoops.



(** * Sizes and drawing coordinates *)

Section DrawingCoordinates.

Variable m : gmap Z Z.
Hypothesis sizes_nonneg : forall k v, m !! k = Some v -> 0 <= v.

Lemma getOr0_nonneg k : 0 <= getOr0 m k.
Proof.
  unfold getOr0. destruct (m !! k) as [v|] eqn:E; cbn; [eauto|lia].
Qed.

Lemma fold_add_shift (f : Z -> Z) (l : list Z) : forall a,
  fold_left (fun s i => s + f i) l a = a + fold_left (fun s i => s + f i) l 0.
Proof.
  induction l as [|x l IH]; intros a; cbn; [lia|].
  rewrite (IH (a + f x)), (IH (0 + f x)). lia.
Qed.

Lemma sumBefore_next k : 0 <= k -> sumBefore m (k + 1) = sumBefore m k + getOr0 m k.
Proof.
  intros Hk. unfold sumBefore, countUp.
  replace (Z.to_nat (k + 1 - 1 - 0 + 1)) with (S (Z.to_nat (k - 1 - 0 + 1))) by lia.
  rewrite seq_S, map_app, fold_left_app. cbn [map fold_left]. f_equal.
  f_equal. lia.
Qed.

Lemma sumBefore_start k : k <= 0 -> sumBefore m k = 0.
Proof.
  intros Hk. unfold sumBefore, countUp.
  replace (Z.to_nat (k - 1 - 0 + 1)) with O by lia. reflexivity.
Qed.

Lemma sumBefore_nonneg k : 0 <= sumBefore m k.
Proof.
  destruct (Z.le_gt_cases k 0) as [Hk|Hk]; [rewrite sumBefore_start; lia|].
  assert (H : forall n : nat, 0 <= sumBefore m (Z.of_nat n)).
  { induction n as [|n IH]; [rewrite sumBefore_start; lia|].
    rewrite Nat2Z.inj_succ, <- Z.add_1_r, sumBefore_next by lia.
    pose proof (getOr0_nonneg (Z.of_nat n)). lia. }
  specialize (H (Z.to_nat k)). rewrite Z2Nat.id in H by lia. exact H.
Qed.

Lemma centre_monotone k k' :
  0 <= k <= k' ->
  sumBefore m k + getOr0 m k / 2 <= sumBefore m k' + getOr0 m k' / 2.
Proof.
  intros [Hk Hkk].
  assert (H : forall n : nat,
            sumBefore m k + getOr0 m k / 2
            <= sumBefore m (k + Z.of_nat n) + getOr0 m (k + Z.of_nat n) / 2).
  { induction n as [|n IH]; [rewrite Z.add_0_r; lia|].
    rewrite Nat2Z.inj_succ, <- Z.add_1_r, Z.add_assoc, sumBefore_next by lia.
    pose proof (getOr0_nonneg (k + Z.of_nat n)) as H1.
    pose proof (getOr0_nonneg (k + Z.of_nat n + 1)) as H2.
    assert (getOr0 m (k + Z.of_nat n) / 2 <= getOr0 m (k + Z.of_nat n))
      by (apply Z.div_le_upper_bound; lia).
    assert (0 <= getOr0 m (k + Z.of_nat n + 1) / 2) by (apply Z.div_pos; lia).
    lia. }
  specialize (H (Z.to_nat (k' - k))).
  replace (k + Z.of_nat (Z.to_nat (k' - k))) with k' in H by lia. exact H.
Qed.

End DrawingCoordinates.

(** X20. Drawing coordinates follow grid coordinates: when no recorded
    column width and no recorded row height is negative, a grid cell with
    non-negative coordinates that lies further right (further down) than
    another is mapped by [gridToDrawingCoord] to a drawing cell that is not
    further left (not further up), and no drawing coordinate is negative. *)
Theorem gridToDrawingCoord_monotone (g : Graph.t) (c c' : GridCoord) :
  (forall k v, Graph.columnWidth g !! k = Some v -> 0 <= v) ->
  (forall k v, Graph.rowHeight g !! k = Some v -> 0 <= v) ->
  0 <= X c <= X c' -> 0 <= Y c <= Y c' ->
  0 <= X (gridToDrawingCoord g c None) <= X (gridToDrawingCoord g c' None)
  /\ 0 <= Y (gridToDrawingCoord g c None) <= Y (gridToDrawingCoord g c' None).
Proof.
  intros Hcw Hrh Hx Hy. unfold gridToDrawingCoord. cbn [X Y].
  pose proof (sumBefore_nonneg _ Hcw (X c)).
  pose proof (sumBefore_nonneg _ Hrh (Y c)).
  pose proof (getOr0_nonneg _ Hcw (X c)).
  pose proof (getOr0_nonneg _ Hrh (Y c)).
  pose proof (centre_monotone _ Hcw (X c) (X c') Hx).
  pose proof (centre_monotone _ Hrh (Y c) (Y c') Hy).
  assert (0 <= getOr0 (Graph.columnWidth g) (X c) / 2) by (apply Z.div_pos; lia).
  assert (0 <= getOr0 (Graph.rowHeight g) (Y c) / 2) by (apply Z.div_pos; lia).
  lia.
Qed.

Lemma gridToDrawingCoord_monotone_witness :
  let g := rowHeight_set
             (columnWidth_set (columnWidth_set (columnWidth_set newGraph 0 1) 1 3) 2 1)
             0 1 in
  gridToDrawingCoord g (Coord 1 0) None = Coord 2 0
  /\ gridToDrawingCoord g (Coord 2 0) None = Coord 4 0
  /\ X (gridToDrawingCoord g (Coord 1 0) None)
     <= X (gridToDrawingCoord g (Coord 2 0) None).
Proof.
  cbv zeta. split; [vm_compute; reflexivity|]. split; [vm_compute; reflexivity|].
  apply gridToDrawingCoord_monotone; cbn [X Y]; try lia;
    unfold rowHeight_set, columnWidth_set, newGraph;
    cbn [Graph.columnWidth Graph.rowHeight]; intros k v Hk;
    repeat (apply lookup_insert_Some in Hk; destruct Hk as [[_ <-]|[_ Hk]]; [lia|]);
    rewrite lookup_empty in Hk; discriminate.
Defined.

Section LabelLine.

Lemma labelLine_scan_consecutive g lenLabel (steps : list GridCoord) :
  forall (pre : list GridCoord) prevStep largestLineSize largestLine path,
  path = pre ++ prevStep :: steps ->
  (exists i, path !! i = Some (fst largestLine) /\ path !! S i = Some (snd largestLine)) ->
  exists i,
    path !! i = Some (fst (labelLine_scan g lenLabel steps prevStep largestLineSize
                             largestLine))
    /\ path !! S i = Some (snd (labelLine_scan g lenLabel steps prevStep
                                  largestLineSize largestLine)).
Proof.
  induction steps as [|step steps IH];
    intros pre prevStep largestLineSize largestLine path Hpath Hline;
    cbn [labelLine_scan]; [exact Hline|].
  cbv zeta.
  assert (Hhere : exists i, path !! i = Some prevStep /\ path !! S i = Some step).
  { exists (length pre). rewrite Hpath. split.
    - rewrite lookup_app_r by lia. rewrite Nat.sub_diag. reflexivity.
    - rewrite lookup_app_r by lia.
      replace (S (length pre) - length pre)%nat with 1%nat by lia. reflexivity. }
  assert (Hnext : path = (pre ++ [prevStep]) ++ step :: steps)
    by (rewrite Hpath, <- app_assoc; reflexivity).
  destruct (_ >=? lenLabel); [exact Hhere|].
  destruct (_ >? largestLineSize).
  - apply (IH (pre ++ [prevStep])); [exact Hnext|exact Hhere].
  - apply (IH (pre ++ [prevStep])); [exact Hnext|exact Hline].
Qed.

End LabelLine.

(** X21. [determineLabelLine]: an edge without label is left alone; for an
    edge with a label whose path has fewer than two points it throws; in any
    other case it returns, the label line is made of two consecutive points
    of the path, the column in the middle of that line is at least two
    wider than the label, and no other column width, no row height and
    nothing else of the edge has changed. *)
Theorem determineLabelLine_cases (g : Graph.t) (e : Edge.t) :
  match determineLabelLine g e with
  | Returned (g', e') =>
      (Edge.text e = [] /\ g' = g /\ e' = e)
      \/ (Edge.text e <> []
          /\ e' = withLabelLine e (Edge.labelLine e')
          /\ Graph.rowHeight g' = Graph.rowHeight g
          /\ exists i p q,
               Edge.path e !! i = Some p /\ Edge.path e !! S i = Some q
               /\ Edge.labelLine e' = [p; q]
               /\ let middleX := Z.min (X p) (X q)
                                 + (Z.max (X p) (X q) - Z.min (X p) (X q)) / 2 in
                  Z.of_nat (length (Edge.text e)) + 2
                  <= getOr0 (Graph.columnWidth g') middleX
                  /\ forall k, k <> middleX ->
                       Graph.columnWidth g' !! k = Graph.columnWidth g !! k)
  | Thrown msg =>
      msg = "TypeError"%string /\ Edge.text e <> []
      /\ (length (Edge.path e) < 2)%nat
  | OutOfFuel | OutOfModel => False
  end.
Proof.
  unfold determineLabelLine. cbv zeta.
  destruct (Z.eqb_spec (Z.of_nat (length (Edge.text e))) 0) as [H0|H0].
  { left. split; [|split; reflexivity].
    destruct (Edge.text e); [reflexivity|cbn in H0; lia]. }
  assert (Hne : Edge.text e <> []) by (intros E; rewrite E in H0; cbn in H0; lia).
  destruct (Edge.path e) as [|prevStep [|second rest]] eqn:Hpath.
  - split; [reflexivity|]. split; [exact Hne|]. cbn. lia.
  - split; [reflexivity|]. split; [exact Hne|]. cbn. lia.
  - right. split; [exact Hne|].
    set (line := labelLine_scan g _ (second :: rest) prevStep 0 (prevStep, second)).
    split; [reflexivity|]. split; [reflexivity|].
    destruct (labelLine_scan_consecutive g (Z.of_nat (length (Edge.text e)))
                (second :: rest) [] prevStep 0 (prevStep, second)
                (prevStep :: second :: rest) eq_refl) as (i & Hp & Hq).
    { exists O. split; reflexivity. }
    fold line in Hp, Hq.
    exists i, (fst line), (snd line). split; [exact Hp|]. split; [exact Hq|].
    split; [reflexivity|]. cbv zeta.
    unfold columnWidth_set. cbn [Graph.columnWidth]. split.
    + unfold getOr0 at 1. rewrite lookup_insert_eq. cbn. rewrite max_spec. lia.
    + intros k Hk. apply lookup_insert_ne. congruence.
Qed.

Lemma determineLabelLine_cases_witness :
  determineLabelLine newGraph (withRoute (newEdge 0 1 (utf16 "hello")) Left Up [])
  = Thrown "TypeError"
  /\ (exists g' e',
        determineLabelLine newGraph
          (withRoute (newEdge 0 1 (utf16 "hello")) Down Left
             [Coord 1 2; Coord 1 5; Coord 4 5])
        = Returned (g', e')
        /\ Edge.labelLine e' = [Coord 1 2; Coord 1 5]
        /\ getOr0 (Graph.columnWidth g') 1 = 7)
  /\ match determineLabelLine newGraph
             (withRoute (newEdge 0 1 (utf16 "hello")) Left Up []) with
     | Thrown msg => msg = "TypeError"%string
     | _ => False
     end.
Proof.
  split; [reflexivity|]. split.
  - eexists. eexists. split; [vm_compute; reflexivity|]. split; reflexivity.
  - pose proof (determineLabelLine_cases newGraph
                  (withRoute (newEdge 0 1 (utf16 "hello")) Left Up [])) as H.
    assert (E : determineLabelLine newGraph
                  (withRoute (newEdge 0 1 (utf16 "hello")) Left Up [])
                = Thrown "TypeError") by reflexivity.
    rewrite E in H |- *. exact (proj1 H).
Defined.

(** * [mergeDrawings]: the merged canvas, cell by cell *)

Section CellLoops.

Context {W : Type}.

Lemma loop_cells (body : Canvas -> W -> Outcome Canvas)
    (upd : W -> Z -> Z -> glyph -> glyph) (I : Canvas -> Prop) ws :
  (forall c w c', I c -> body c w = Returned c' ->
     I c' /\ forall x y, cellAt c' x y = upd w x y <$> cellAt c x y) ->
  forall c c', I c -> forEach body ws c = Returned c' ->
    I c' /\ forall x y,
      cellAt c' x y
      = (fun cur => fold_left (fun cur w => upd w x y cur) ws cur) <$> cellAt c x y.
Proof.
  intros Hbody. induction ws as [|w ws IH]; intros c c' Hc; simpl.
  - intros [= <-]. split; [exact Hc|]. intros x y.
    destruct (cellAt c x y); reflexivity.
  - destruct (body c w) as [c1| | |] eqn:Hb; try discriminate. simpl. intros Hf.
    destruct (Hbody _ _ _ Hc Hb) as [Hc1 H1].
    destruct (IH _ _ Hc1 Hf) as [Hc' H']. split; [exact Hc'|].
    intros x y. rewrite H', H1. destruct (cellAt c x y); reflexivity.
Qed.

Lemma loop_returns (body : Canvas -> W -> Outcome Canvas) (I : Canvas -> Prop) ws :
  (forall c w, I c -> In w ws -> exists c', body c w = Returned c' /\ I c') ->
  forall c, I c -> exists c', forEach body ws c = Returned c' /\ I c'.
Proof.
  induction ws as [|w ws IH]; intros Hbody c Hc; simpl.
  - exists c. auto.
  - destruct (Hbody c w Hc (or_introl eq_refl)) as (c1 & -> & Hc1). simpl.
    apply IH; [|exact Hc1]. intros c2 w2 H2 Hin. apply Hbody; [exact H2|].
    right. exact Hin.
Qed.

Lemma fold_skip (f : W -> glyph -> glyph) ws :
  (forall w, In w ws -> forall cur, f w cur = cur) ->
  forall cur, fold_left (fun cur w => f w cur) ws cur = cur.
Proof.
  induction ws as [|w ws IH]; intros Hid cur; simpl; [reflexivity|].
  rewrite (Hid w (or_introl eq_refl)). apply IH.
  intros w' Hw'. apply Hid. right. exact Hw'.
Qed.

Lemma fold_single (f : W -> glyph -> glyph) p0 ws :
  List.NoDup ws -> In p0 ws ->
  (forall w, w <> p0 -> forall cur, f w cur = cur) ->
  forall cur, fold_left (fun cur w => f w cur) ws cur = f p0 cur.
Proof.
  intros Hnd. induction Hnd as [|w ws Hw Hnd IH]; intros Hin Hid cur.
  - destruct Hin.
  - simpl. destruct Hin as [->|Hin].
    + apply fold_skip. intros w' Hw' cur'. apply Hid.
      intros ->. apply Hw. exact Hw'.
    + rewrite Hid.
      * apply IH; assumption.
      * intros ->. apply Hw. exact Hin.
Qed.

End CellLoops.

Section CellLists.

Lemma map_injective_NoDup {A B : Type} (f : A -> B) l :
  (forall a1 a2, f a1 = f a2 -> a1 = a2) -> List.NoDup l -> List.NoDup (map f l).
Proof.
  intros Hf Hl. induction Hl as [|a l Ha Hl IH]; simpl; constructor.
  - intros Hin. apply in_map_iff in Hin.
    destruct Hin as (a' & E & Ha'). apply Hf in E. subst a'.
    apply Ha, Ha'.
  - exact IH.
Qed.

Lemma countUp_NoDup a b : List.NoDup (countUp a b).
Proof.
  unfold countUp. apply map_injective_NoDup.
  - intros i j H. lia.
  - apply List.seq_NoDup.
Qed.

Lemma cellsOf_In xs ys x y :
  In (Coord x y) (cellsOf xs ys) <-> In x xs /\ In y ys.
Proof.
  unfold cellsOf. rewrite in_flat_map. split.
  - intros (x' & Hx & H). apply in_map_iff in H. destruct H as (y' & E & Hy).
    injection E as -> ->. auto.
  - intros [Hx Hy]. exists x. split; [exact Hx|].
    apply in_map_iff. exists y. auto.
Qed.

Lemma cellsOf_NoDup xs ys :
  List.NoDup xs -> List.NoDup ys -> List.NoDup (cellsOf xs ys).
Proof.
  intros Hxs Hys. induction Hxs as [|x xs Hx Hxs IH]; simpl.
  - constructor.
  - apply NoDup_ListNoDup, NoDup_app. split; [|split].
    + apply NoDup_ListNoDup, map_injective_NoDup; [|exact Hys].
      intros y1 y2 [= ->]. reflexivity.
    + intros p Hp Hp'. apply list_elem_of_In in Hp. apply list_elem_of_In in Hp'.
      apply in_map_iff in Hp. destruct Hp as (y & <- & Hy).
      apply (cellsOf_In xs ys) in Hp'. apply Hx. tauto.
    + apply NoDup_ListNoDup. exact IH.
Qed.

End CellLists.

Section Merged.

Variables (maxX maxY : Z).
Hypothesis HmaxX : 0 <= maxX.
Hypothesis HmaxY : -1 <= maxY.

Lemma makeDrawing_cell x y :
  0 <= x <= maxX -> 0 <= y <= maxY -> cellAt (makeDrawing maxX maxY) x y = Some blank.
Proof.
  intros Hx Hy. apply cellAt_Some. repeat split; try lia.
  exists (repeat blank (Z.to_nat (maxY + 1))). unfold makeDrawing.
  split; apply repeat_lookup; lia.
Qed.

Lemma makeDrawing_inside x y :
  is_Some (cellAt (makeDrawing maxX maxY) x y) -> 0 <= x <= maxX /\ 0 <= y <= maxY.
Proof.
  intros [g H]. apply cellAt_Some in H. destruct H as (Hx & Hy & col & Hc & Hg).
  unfold makeDrawing in Hc.
  pose proof (lookup_lt_Some _ _ _ Hc) as Hlx. rewrite repeat_length in Hlx.
  assert (E : Some col = Some (repeat blank (Z.to_nat (maxY + 1)))).
  { etransitivity; [symmetry; exact Hc|apply repeat_lookup, Hlx]. }
  injection E as ->.
  apply lookup_lt_Some in Hg. rewrite repeat_length in Hg. lia.
Qed.

Lemma sized_cell c x y :
  sized maxX maxY c -> (is_Some (cellAt c x y) <-> 0 <= x <= maxX /\ 0 <= y <= maxY).
Proof.
  intros Hs. split.
  - intros H. apply makeDrawing_inside. apply (cellAt_shape c); assumption.
  - intros [Hx Hy]. apply (cellAt_shape (makeDrawing maxX maxY)); [symmetry; exact Hs|].
    rewrite makeDrawing_cell by assumption. eauto.
Qed.

Lemma sized_length c : sized maxX maxY c -> Z.of_nat (length c) = maxX + 1.
Proof.
  intros Hs. apply (f_equal (@length nat)) in Hs. unfold shape in Hs.
  rewrite !length_map, makeDrawing_length in Hs. lia.
Qed.

Lemma sized_height c : sized maxX maxY c -> height0 c = Returned (maxY + 1).
Proof.
  unfold sized, shape, makeDrawing. intros Hs.
  destruct (Z.to_nat (maxX + 1)) as [|n] eqn:En; [lia|].
  destruct c as [|col0 c]; [discriminate|]. simpl in Hs. injection Hs as Hl _.
  rewrite repeat_length in Hl. simpl. rewrite Hl. f_equal. lia.
Qed.

Lemma sized_size c : sized maxX maxY c -> getDrawingSize c = (maxX, maxY).
Proof.
  intros Hs. pose proof (sized_length c Hs) as Hl.
  pose proof (sized_height c Hs) as Hh.
  destruct c as [|col0 c]; [discriminate|]. simpl in Hh. injection Hh as Hh.
  unfold getDrawingSize. f_equal; lia.
Qed.

(** *** The copy of the base drawing *)

Lemma copyBaseCell_step baseCanvas c p c' :
  sized maxX maxY c -> copyBaseCell baseCanvas c p = Returned c' ->
  sized maxX maxY c' /\ forall x y, cellAt c' x y = copied baseCanvas p x y <$> cellAt c x y.
Proof.
  intros Hs. unfold copyBaseCell, copied.
  assert (Hsame : sized maxX maxY c /\ forall x y, cellAt c x y = id <$> cellAt c x y).
  { split; [exact Hs|]. intros x y. destruct (cellAt c x y); reflexivity. }
  destruct baseCanvas as [|col0 rest].
  - destruct (X p <? _); [discriminate|]. intros [= <-].
    split; [exact Hs|]. intros x y. destruct (cellAt c x y); reflexivity.
  - cbn [height0 mbind Outcome_bind]. set (base := col0 :: rest).
    destruct (Z.ltb_spec (X p) (Z.of_nat (length base))) as [Hx|Hx].
    2:{ intros [= <-]. split; [exact Hs|]. intros x y.
        destruct (cellAt c x y); [|reflexivity].
        cbn [fmap option_fmap option_map]. f_equal.
        destruct (Z.eqb_spec (X p) x); destruct (Z.eqb_spec (Y p) y);
          destruct (Z.ltb_spec x (Z.of_nat (length base)));
          destruct (Z.ltb_spec y (Z.of_nat (length col0)));
          cbn [andb]; try reflexivity; lia. }
    destruct (Z.ltb_spec (Y p) (Z.of_nat (length col0))) as [Hy|Hy].
    2:{ intros [= <-]. split; [exact Hs|]. intros x y.
        destruct (cellAt c x y); [|reflexivity].
        cbn [fmap option_fmap option_map]. f_equal.
        destruct (Z.eqb_spec (X p) x); destruct (Z.eqb_spec (Y p) y);
          destruct (Z.ltb_spec x (Z.of_nat (length base)));
          destruct (Z.ltb_spec y (Z.of_nat (length col0)));
          cbn [andb]; try reflexivity; lia. }
    destruct (cellAt base (X p) (Y p)) as [g|] eqn:Hg; [|discriminate].
    intros Hw. split.
    { unfold sized. rewrite (writeCell_shape _ _ _ _ _ Hw). exact Hs. }
    intros x y.
    destruct (Z.eqb_spec (X p) x) as [Ex|Ex].
    + destruct (Z.eqb_spec (Y p) y) as [Ey|Ey].
      * subst x y. rewrite (writeCell_same _ _ _ _ _ Hw).
        destruct (writeCell_inside _ _ _ _ _ Hw) as [g0 ->]. cbn [fmap option_fmap option_map andb].
        destruct (Z.ltb_spec (X p) (Z.of_nat (length base))); [|lia].
        destruct (Z.ltb_spec (Y p) (Z.of_nat (length col0))); [|lia].
        cbn [andb]. rewrite Hg. reflexivity.
      * rewrite (writeCell_other _ _ _ _ _ x y Hw) by congruence.
        cbn [fmap option_fmap option_map andb]. destruct (cellAt c x y); reflexivity.
    + rewrite (writeCell_other _ _ _ _ _ x y Hw) by congruence.
      cbn [fmap option_fmap option_map andb]. destruct (cellAt c x y); reflexivity.
Qed.

Lemma copy_loop baseCanvas c' :
  forEach (copyBaseCell baseCanvas) (cellsOf (countUp 0 maxX) (countUp 0 maxY))
    (makeDrawing maxX maxY) = Returned c' ->
  sized maxX maxY c' /\ forall x y, 0 <= x <= maxX -> 0 <= y <= maxY ->
                cellAt c' x y = Some (baseCell baseCanvas x y).
Proof.
  intros H.
  destruct (loop_cells (copyBaseCell baseCanvas) (copied baseCanvas) (sized maxX maxY) _
              (copyBaseCell_step baseCanvas) _ _ eq_refl H) as [Hs Hc].
  split; [exact Hs|]. intros x y Hx Hy.
  rewrite Hc, makeDrawing_cell by assumption. cbn [fmap option_fmap option_map andb]. f_equal.
  rewrite (fold_single (fun p cur => copied baseCanvas p x y cur) (Coord x y)).
  - unfold copied, baseCell. destruct baseCanvas as [|col0 rest]; [reflexivity|].
    cbn [X Y]. rewrite !Z.eqb_refl. reflexivity.
  - apply cellsOf_NoDup; apply countUp_NoDup.
  - apply cellsOf_In. rewrite !countUp_In. lia.
  - intros [px py] Hne cur. unfold copied.
    destruct baseCanvas as [|col0 rest]; [reflexivity|]. cbn [X Y].
    destruct (Z.eqb_spec px x) as [->|]; [|reflexivity].
    destruct (Z.eqb_spec py y) as [->|]; [congruence|reflexivity].
Qed.

(** *** One drawing laid over the canvas *)

Variables (useAscii : bool) (mergeCoord : DrawingCoord).

Lemma mergeCell_step d c p c' :
  sized maxX maxY c -> mergeCell useAscii d mergeCoord c p = Returned c' ->
  sized maxX maxY c' /\ forall x y, cellAt c' x y = landed useAscii mergeCoord d p x y <$> cellAt c x y.
Proof.
  intros Hs. unfold mergeCell, landed.
  destruct (cellAt d (X p) (Y p)) as [c0|]; [|discriminate].
  destruct (c0 =? blank)%N.
  { intros [= <-]. split; [exact Hs|]. intros x y.
    destruct (cellAt c x y); reflexivity. }
  rewrite (sized_length c Hs), (sized_height c Hs). cbn [mbind Outcome_bind].
  assert (Hout : ~ (0 <= X p + X mergeCoord <= maxX /\ 0 <= Y p + Y mergeCoord <= maxY) ->
            forall x y, cellAt c x y
              = (fun cur => if (X p + X mergeCoord =? x) && (Y p + Y mergeCoord =? y)
                            then fuse useAscii cur c0 else cur) <$> cellAt c x y).
  { intros Hno x y. destruct (cellAt c x y) as [cur|] eqn:Hcur; [|reflexivity].
    cbn [fmap option_fmap option_map andb]. f_equal.
    destruct (Z.eqb_spec (X p + X mergeCoord) x) as [Ex|]; [|reflexivity].
    destruct (Z.eqb_spec (Y p + Y mergeCoord) y) as [Ey|]; [|reflexivity].
    exfalso. apply Hno. rewrite Ex, Ey. apply (sized_cell c); [exact Hs|].
    rewrite Hcur. eauto. }
  destruct (Z.ltb_spec (X p + X mergeCoord) (maxX + 1)) as [Hx|Hx].
  2:{ intros [= <-]. split; [exact Hs|]. apply Hout. lia. }
  destruct (Z.ltb_spec (Y p + Y mergeCoord) (maxY + 1)) as [Hy|Hy].
  2:{ intros [= <-]. split; [exact Hs|]. apply Hout. lia. }
  destruct (Z.ltb_spec (X p + X mergeCoord) 0) as [Hx0|Hx0]; [discriminate|].
  destruct (cellAt c (X p + X mergeCoord) (Y p + Y mergeCoord)) as [currentChar|]
    eqn:Hcur; [|discriminate].
  intros Hw.
  assert (Hw' : writeCell c (X p + X mergeCoord) (Y p + Y mergeCoord)
                  (fuse useAscii currentChar c0) = Returned c').
  { unfold fuse. destruct (negb useAscii && isJunctionChar c0 && isJunctionChar currentChar);
      exact Hw. }
  clear Hw. split.
  { unfold sized. rewrite (writeCell_shape _ _ _ _ _ Hw'). exact Hs. }
  intros x y.
  destruct (Z.eqb_spec (X p + X mergeCoord) x) as [Ex|Ex].
  - destruct (Z.eqb_spec (Y p + Y mergeCoord) y) as [Ey|Ey].
    + subst x y. rewrite (writeCell_same _ _ _ _ _ Hw'), Hcur. reflexivity.
    + rewrite (writeCell_other _ _ _ _ _ x y Hw') by congruence.
      cbn [fmap option_fmap option_map andb]. destruct (cellAt c x y); reflexivity.
  - rewrite (writeCell_other _ _ _ _ _ x y Hw') by congruence.
    cbn [fmap option_fmap option_map andb]. destruct (cellAt c x y); reflexivity.
Qed.

Lemma landed_fold d col0 rest x y cur :
  d = col0 :: rest ->
  fold_left (fun cur p => landed useAscii mergeCoord d p x y cur)
    (cellsOf (countUp 0 (Z.of_nat (length d) - 1))
             (countUp 0 (Z.of_nat (length col0) - 1))) cur
  = overlay useAscii mergeCoord x y cur d.
Proof.
  intros Hd. unfold overlay.
  set (px := x - X mergeCoord). set (py := y - Y mergeCoord).
  assert (E : sourceCell d mergeCoord x y
              = if (0 <=? px) && (px <? Z.of_nat (length d))
                   && (0 <=? py) && (py <? Z.of_nat (length col0))
                then cellAt d px py else None) by (rewrite Hd; reflexivity).
  rewrite E. clear E.
  destruct ((0 <=? px) && (px <? Z.of_nat (length d))
            && (0 <=? py) && (py <? Z.of_nat (length col0))) eqn:Hin.
  - rewrite (fold_single (fun p cur => landed useAscii mergeCoord d p x y cur) (Coord px py)).
    + unfold landed. cbn [X Y]. destruct (cellAt d px py) as [c0|]; [|reflexivity].
      destruct (c0 =? blank)%N; [reflexivity|].
      destruct (Z.eqb_spec (px + X mergeCoord) x); [|lia].
      destruct (Z.eqb_spec (py + Y mergeCoord) y); [|lia]. reflexivity.
    + apply cellsOf_NoDup; apply countUp_NoDup.
    + apply cellsOf_In. rewrite !countUp_In.
      rewrite !andb_true_iff in Hin. lia.
    + intros [qx qy] Hne cur'. unfold landed. cbn [X Y].
      destruct (cellAt d qx qy) as [c0|]; [|reflexivity].
      destruct (c0 =? blank)%N; [reflexivity|].
      destruct (Z.eqb_spec (qx + X mergeCoord) x); [|reflexivity].
      destruct (Z.eqb_spec (qy + Y mergeCoord) y); [|reflexivity].
      exfalso. apply Hne. f_equal; lia.
  - apply fold_skip. intros [qx qy] Hq cur'.
    apply cellsOf_In in Hq. rewrite !countUp_In in Hq.
    unfold landed. cbn [X Y].
    destruct (cellAt d qx qy) as [c0|]; [|reflexivity].
    destruct (c0 =? blank)%N; [reflexivity|].
    destruct (Z.eqb_spec (qx + X mergeCoord) x); [|reflexivity].
    destruct (Z.eqb_spec (qy + Y mergeCoord) y); [|reflexivity].
    exfalso. assert (E : (0 <=? px) && (px <? Z.of_nat (length d))
                          && (0 <=? py) && (py <? Z.of_nat (length col0)) = true).
    { rewrite !andb_true_iff. lia. }
    congruence.
Qed.

Lemma mergeOne_step c d c' :
  sized maxX maxY c -> mergeOne useAscii mergeCoord c d = Returned c' ->
  sized maxX maxY c' /\ forall x y,
    cellAt c' x y = (fun d x y cur => overlay useAscii mergeCoord x y cur d) d x y
                    <$> cellAt c x y.
Proof.
  intros Hs. unfold mergeOne. destruct d as [|col0 rest] eqn:Hd.
  - intros [= <-]. split; [exact Hs|]. intros x y.
    destruct (cellAt c x y); reflexivity.
  - rewrite <- Hd. intros H.
    destruct (loop_cells (mergeCell useAscii d mergeCoord) (landed useAscii mergeCoord d) (sized maxX maxY) _
                (mergeCell_step d) _ _ Hs H) as [Hs' Hc].
    split; [exact Hs'|]. intros x y. rewrite Hc.
    destruct (cellAt c x y) as [cur|]; [|reflexivity]. cbn [fmap option_fmap option_map andb]. f_equal.
    apply (landed_fold d col0 rest). exact Hd.
Qed.

Lemma merge_loop drawings c c' :
  sized maxX maxY c -> forEach (mergeOne useAscii mergeCoord) drawings c = Returned c' ->
  sized maxX maxY c' /\ forall x y,
    cellAt c' x y = (fun cur => fold_left (overlay useAscii mergeCoord x y) drawings cur)
                    <$> cellAt c x y.
Proof.
  intros Hs H.
  exact (loop_cells (mergeOne useAscii mergeCoord)
           (fun d x y cur => overlay useAscii mergeCoord x y cur d) (sized maxX maxY) drawings
           mergeOne_step c c' Hs H).
Qed.

End Merged.

Lemma mergedSize_bounds baseDrawing mergeCoord drawings :
  0 <= fst (mergedSize baseDrawing mergeCoord drawings)
  /\ -1 <= snd (mergedSize baseDrawing mergeCoord drawings).
Proof.
  unfold mergedSize.
  assert (H0 : 0 <= fst (getDrawingSize baseDrawing)
               /\ -1 <= snd (getDrawingSize baseDrawing)).
  { destruct baseDrawing as [|col0 rest]; simpl; lia. }
  revert H0. generalize (getDrawingSize baseDrawing).
  induction drawings as [|d ds IH]; intros m Hm; simpl; [exact Hm|].
  apply IH. destruct (getDrawingSize d) as [dX dY]. cbn [fst snd].
  rewrite !max_spec. lia.
Qed.

(** X22. The canvas that [mergeDrawings] returns has the size computed from
    the base drawing and the shifted drawings, and each of its cells holds
    the base character (or a blank where the base drawing has none) with the
    drawings laid over it in their order: a blank of a drawing leaves the
    cell as it is, any other character replaces it, and in Unicode mode two
    junction characters are fused with [mergeJunctions]. *)
Theorem mergeDrawings_cell_by_cell (useAscii : bool) (baseDrawing : Canvas)
    (mergeCoord : DrawingCoord) (drawings : list Canvas) (merged : Canvas) :
  mergeDrawings useAscii baseDrawing mergeCoord drawings = Returned merged ->
  getDrawingSize merged = mergedSize baseDrawing mergeCoord drawings
  /\ forall x y,
       0 <= x <= fst (mergedSize baseDrawing mergeCoord drawings) ->
       0 <= y <= snd (mergedSize baseDrawing mergeCoord drawings) ->
       cellAt merged x y
       = Some (mergedCell useAscii baseDrawing mergeCoord drawings x y).
Proof.
  unfold mergeDrawings.
  destruct (mergedSize_bounds baseDrawing mergeCoord drawings) as [HX HY].
  destruct (mergedSize baseDrawing mergeCoord drawings) as [maxX maxY].
  cbn [fst snd] in *.
  destruct (forEach (copyBaseCell baseDrawing) _ _) as [merged1| | |] eqn:Hcopy;
    try discriminate.
  cbn [mbind Outcome_bind]. intros Hmerge.
  destruct (copy_loop maxX maxY HX baseDrawing merged1 Hcopy) as [Hs1 Hc1].
  destruct (merge_loop maxX maxY HX HY useAscii mergeCoord drawings merged1 merged
              Hs1 Hmerge) as [Hs Hc].
  split; [apply sized_size; assumption|].
  intros x y Hx Hy. rewrite Hc, Hc1 by assumption. reflexivity.
Qed.

Lemma mergeDrawings_cell_by_cell_witness :
  let baseDrawing := [[ch "a"]; [ch "b"]] in
  let drawings := [[[blank; ch "|"]; [ch "c"; blank]]; [[blank; blank]]] in
  let merged := [[ch "a"; blank]; [ch "b"; ch "|"]; [ch "c"; blank]] in
  mergeDrawings true baseDrawing (Coord 1 0) drawings = Returned merged
  /\ getDrawingSize merged = mergedSize baseDrawing (Coord 1 0) drawings
  /\ forall x y,
       0 <= x <= fst (mergedSize baseDrawing (Coord 1 0) drawings) ->
       0 <= y <= snd (mergedSize baseDrawing (Coord 1 0) drawings) ->
       cellAt merged x y = Some (mergedCell true baseDrawing (Coord 1 0) drawings x y).
Proof.
  intros baseDrawing drawings merged.
  assert (E : mergeDrawings true baseDrawing (Coord 1 0) drawings = Returned merged)
    by (vm_compute; reflexivity).
  split; [exact E|].
  exact (mergeDrawings_cell_by_cell true baseDrawing (Coord 1 0) drawings merged E).
Defined.

Section Returns.

Lemma fullColumns_cell (d : Canvas) col0 rest x y :
  d = col0 :: rest -> fullColumns d ->
  0 <= x < Z.of_nat (length d) -> 0 <= y < Z.of_nat (length col0) ->
  is_Some (cellAt d x y).
Proof.
  intros Hd Hfull Hx Hy.
  assert (Hfull' : Forall (fun col => (length col0 <= length col)%nat) d)
    by (rewrite Hd in Hfull |- *; exact Hfull).
  clear Hfull. rename Hfull' into Hfull.
  destruct (lookup_lt_is_Some_2 d (Z.to_nat x) ltac:(lia)) as [col Hcol].
  rewrite List.Forall_forall in Hfull.
  assert (Hlen : (length col0 <= length col)%nat).
  { apply Hfull. apply list_elem_of_In. eapply list_elem_of_lookup_2. exact Hcol. }
  destruct (lookup_lt_is_Some_2 col (Z.to_nat y) ltac:(lia)) as [g Hg].
  exists g. apply cellAt_Some. repeat split; try lia. exists col. auto.
Qed.

Variables (maxX maxY : Z).
Hypothesis HmaxX : 0 <= maxX.
Hypothesis HmaxY : -1 <= maxY.

Lemma copyBaseCell_returns baseCanvas c p :
  fullColumns baseCanvas -> sized maxX maxY c ->
  In p (cellsOf (countUp 0 maxX) (countUp 0 maxY)) ->
  exists c', copyBaseCell baseCanvas c p = Returned c' /\ sized maxX maxY c'.
Proof.
  intros Hfull Hs Hp. destruct p as [px py].
  apply cellsOf_In in Hp. rewrite !countUp_In in Hp.
  unfold copyBaseCell. cbn [X Y].
  destruct baseCanvas as [|col0 rest] eqn:Hb.
  - cbn [length]. destruct (Z.ltb_spec px (Z.of_nat 0)); [lia|]. eauto.
  - rewrite <- Hb in *. cbn [height0 mbind Outcome_bind].
    assert (Hh : height0 baseCanvas = Returned (Z.of_nat (length col0)))
      by (rewrite Hb; reflexivity).
    rewrite Hh. cbn [mbind Outcome_bind].
    destruct (Z.ltb_spec px (Z.of_nat (length baseCanvas))); [|eauto].
    destruct (Z.ltb_spec py (Z.of_nat (length col0))); [|eauto].
    destruct (fullColumns_cell baseCanvas col0 rest px py Hb Hfull) as [g ->]; try lia.
    destruct (writeCell_returns c px py g) as [c' Hw].
    { apply (sized_cell maxX maxY); [assumption..|]. lia. }
    exists c'. split; [exact Hw|].
    unfold sized. rewrite (writeCell_shape _ _ _ _ _ Hw). exact Hs.
Qed.

Variables (useAscii : bool) (mergeCoord : DrawingCoord).
Hypothesis HmergeX : 0 <= X mergeCoord.
Hypothesis HmergeY : 0 <= Y mergeCoord.

Lemma mergeCell_returns d col0 rest c p :
  d = col0 :: rest -> fullColumns d -> sized maxX maxY c ->
  In p (cellsOf (countUp 0 (Z.of_nat (length d) - 1))
                (countUp 0 (Z.of_nat (length col0) - 1))) ->
  exists c', mergeCell useAscii d mergeCoord c p = Returned c' /\ sized maxX maxY c'.
Proof.
  intros Hd Hfull Hs Hp. destruct p as [px py].
  apply cellsOf_In in Hp. rewrite !countUp_In in Hp.
  unfold mergeCell. cbn [X Y].
  destruct (fullColumns_cell d col0 rest px py Hd Hfull) as [c0 ->]; try lia.
  destruct (c0 =? blank)%N; [eauto|].
  rewrite (sized_length maxX maxY HmaxX c Hs),
    (sized_height maxX maxY HmaxX HmaxY c Hs).
  cbn [mbind Outcome_bind].
  destruct (Z.ltb_spec (px + X mergeCoord) (maxX + 1)); [|eauto].
  destruct (Z.ltb_spec (py + Y mergeCoord) (maxY + 1)); [|eauto].
  destruct (Z.ltb_spec (px + X mergeCoord) 0); [lia|].
  assert (Hin : is_Some (cellAt c (px + X mergeCoord) (py + Y mergeCoord))).
  { apply (sized_cell maxX maxY); [assumption..|]. lia. }
  destruct Hin as [currentChar Hcur]. rewrite Hcur.
  destruct (writeCell_returns c (px + X mergeCoord) (py + Y mergeCoord)
              (fuse useAscii currentChar c0)) as [c' Hw]; [rewrite Hcur; eauto|].
  exists c'. split.
  - unfold fuse in Hw.
    destruct (negb useAscii && isJunctionChar c0 && isJunctionChar currentChar);
      exact Hw.
  - unfold sized. rewrite (writeCell_shape _ _ _ _ _ Hw). exact Hs.
Qed.

Lemma mergeOne_returns d c :
  fullColumns d -> sized maxX maxY c ->
  exists c', mergeOne useAscii mergeCoord c d = Returned c' /\ sized maxX maxY c'.
Proof.
  intros Hfull Hs. unfold mergeOne. destruct d as [|col0 rest] eqn:Hd; [eauto|].
  rewrite <- Hd in *.
  apply (loop_returns (mergeCell useAscii d mergeCoord) (sized maxX maxY));
    [|exact Hs].
  intros c1 p Hs1 Hp. apply (mergeCell_returns d col0 rest); assumption.
Qed.

End Returns.

(** X23. With a merge coordinate that is not negative, and drawings none of
    whose columns is shorter than their first one, [mergeDrawings] returns a
    canvas: no access falls outside the base drawing, the drawings or the
    new canvas. *)
Theorem mergeDrawings_returns (useAscii : bool) (baseDrawing : Canvas)
    (mergeCoord : DrawingCoord) (drawings : list Canvas) :
  0 <= X mergeCoord -> 0 <= Y mergeCoord ->
  fullColumns baseDrawing -> Forall fullColumns drawings ->
  exists merged, mergeDrawings useAscii baseDrawing mergeCoord drawings = Returned merged.
Proof.
  intros HX0 HY0 Hbase Hds. unfold mergeDrawings.
  destruct (mergedSize_bounds baseDrawing mergeCoord drawings) as [HX HY].
  destruct (mergedSize baseDrawing mergeCoord drawings) as [maxX maxY].
  cbn [fst snd] in *.
  destruct (loop_returns (copyBaseCell baseDrawing) (sized maxX maxY)
              (cellsOf (countUp 0 maxX) (countUp 0 maxY))) with (c := makeDrawing maxX maxY)
    as (merged1 & -> & Hs1).
  { intros c p Hs Hp. apply copyBaseCell_returns; assumption. }
  { reflexivity. }
  cbn [mbind Outcome_bind].
  destruct (loop_returns (mergeOne useAscii mergeCoord) (sized maxX maxY) drawings)
    with (c := merged1) as (merged & -> & _).
  { intros c d Hs Hd. apply mergeOne_returns; try assumption.
    rewrite List.Forall_forall in Hds. apply Hds. exact Hd. }
  { exact Hs1. }
  eauto.
Qed.

Lemma mergeDrawings_returns_witness :
  exists merged,
    mergeDrawings false [[ch "a"]; [ch "b"]] (Coord 1 0)
      [[[blank; ch "|"]; [ch "c"; blank]]; [[blank; blank]]] = Returned merged.
Proof.
  apply mergeDrawings_returns; [cbn; lia|cbn; lia| |].
  - repeat constructor.
  - repeat constructor.
Defined.

(** * [drawBox]: the box of a node, cell by cell *)

Section WriteSteps.

Lemma writeCell_step c a b g c' :
  writeCell c a b g = Returned c' ->
  forall x y, cellAt c' x y
              = (fun cur => if (a =? x) && (b =? y) then g else cur) <$> cellAt c x y.
Proof.
  intros Hw x y.
  destruct (Z.eqb_spec a x) as [Ex|Ex]; [destruct (Z.eqb_spec b y) as [Ey|Ey]|];
    cbn [andb].
  - subst x y. rewrite (writeCell_same _ _ _ _ _ Hw).
    destruct (writeCell_inside _ _ _ _ _ Hw) as [g0 ->]. reflexivity.
  - rewrite (writeCell_other _ _ _ _ _ x y Hw) by congruence.
    destruct (cellAt c x y); reflexivity.
  - rewrite (writeCell_other _ _ _ _ _ x y Hw) by congruence.
    destruct (cellAt c x y); reflexivity.
Qed.

Lemma existsb_row lo hi b x y :
  existsb (fun v => (v =? x) && (b =? y)) (countUp lo hi)
  = (y =? b) && ((lo <=? x) && (x <=? hi)).
Proof.
  apply eq_true_iff_eq. rewrite existsb_exists, !andb_true_iff.
  rewrite Z.eqb_eq, !Z.leb_le. split.
  - intros (v & Hv & H). apply countUp_In in Hv.
    rewrite andb_true_iff, !Z.eqb_eq in H. lia.
  - intros (-> & H). exists x. rewrite countUp_In, !Z.eqb_refl. auto.
Qed.

Lemma existsb_col lo hi a x y :
  existsb (fun v => (a =? x) && (v =? y)) (countUp lo hi)
  = (x =? a) && ((lo <=? y) && (y <=? hi)).
Proof.
  apply eq_true_iff_eq. rewrite existsb_exists, !andb_true_iff.
  rewrite Z.eqb_eq, !Z.leb_le. split.
  - intros (v & Hv & H). apply countUp_In in Hv.
    rewrite andb_true_iff, !Z.eqb_eq in H. lia.
  - intros (-> & H). exists y. rewrite countUp_In, !Z.eqb_refl. auto.
Qed.

Lemma strictly_between v hi : (0 + 1 <=? v) && (v <=? hi - 1) = (0 <? v) && (v <? hi).
Proof.
  destruct (Z.leb_spec (0 + 1) v), (Z.leb_spec v (hi - 1)),
    (Z.ltb_spec 0 v), (Z.ltb_spec v hi); try reflexivity; lia.
Qed.

End WriteSteps.

Section Box.

Variables (w h : Z).
Hypothesis Hw : 0 <= w.
Hypothesis Hh : 0 <= h.

Lemma write_once c a b g :
  sized w h c -> 0 <= a <= w -> 0 <= b <= h ->
  exists c', writeCell c a b g = Returned c' /\ sized w h c'
    /\ forall x y, cellAt c' x y
         = (fun cur => if (a =? x) && (b =? y) then g else cur) <$> cellAt c x y.
Proof.
  intros Hs Ha Hb.
  destruct (writeCell_returns c a b g) as [c' Hc'].
  { apply (sized_cell w h); try assumption; lia. }
  exists c'. split; [exact Hc'|]. split.
  - unfold sized. rewrite (writeCell_shape _ _ _ _ _ Hc'). exact Hs.
  - apply writeCell_step. exact Hc'.
Qed.

Lemma write_loop {V : Type} (cellOf : V -> Z * Z) (g : glyph) (vs : list V) :
  forall c, sized w h c ->
  (forall v, In v vs -> 0 <= fst (cellOf v) <= w /\ 0 <= snd (cellOf v) <= h) ->
  exists c',
    forEach (fun c v => writeCell c (fst (cellOf v)) (snd (cellOf v)) g) vs c
    = Returned c'
    /\ sized w h c'
    /\ forall x y, cellAt c' x y
         = (fun cur => if existsb (fun v => (fst (cellOf v) =? x) && (snd (cellOf v) =? y)) vs
                       then g else cur) <$> cellAt c x y.
Proof.
  induction vs as [|v vs IH]; intros c Hs Hin.
  - exists c. split; [reflexivity|]. split; [exact Hs|]. intros x y.
    destruct (cellAt c x y); reflexivity.
  - destruct (Hin v (or_introl eq_refl)) as [Ha Hb].
    destruct (write_once c _ _ g Hs Ha Hb) as (c1 & E1 & Hs1 & H1).
    destruct (IH c1 Hs1 (fun v' Hv' => Hin v' (or_intror Hv'))) as (c' & E & Hs' & H').
    exists c'. cbn [forEach]. rewrite E1. cbn [mbind Outcome_bind].
    split; [exact E|]. split; [exact Hs'|]. intros x y. rewrite H', H1.
    destruct (cellAt c x y); [|reflexivity].
    cbn [fmap option_fmap option_map existsb]. f_equal.
    destruct ((fst (cellOf v) =? x) && (snd (cellOf v) =? y));
      destruct (existsb _ vs); reflexivity.
Qed.

(** *** The name *)

Variables (textX textY : Z).

Lemma writeNameChar_step c i g :
  sized w h c ->
  exists c', writeNameChar textX textY c (i, g) = Returned c' /\ sized w h c'
    /\ forall x y, 0 <= x <= w -> 0 <= y <= h ->
         cellAt c' x y
         = (fun cur => if (textX + i =? x) && (textY =? y) then g else cur)
           <$> cellAt c x y.
Proof.
  intros Hs. unfold writeNameChar. cbn [fst snd].
  rewrite (sized_length w h Hw c Hs), (sized_height w h Hw ltac:(lia) c Hs).
  cbn [mbind Outcome_bind].
  assert (Hmiss : ~ (0 <= textX + i <= w /\ 0 <= textY <= h) ->
            forall x y, 0 <= x <= w -> 0 <= y <= h ->
              cellAt c x y
              = (fun cur => if (textX + i =? x) && (textY =? y) then g else cur)
                <$> cellAt c x y).
  { intros Hno x y Hx Hy. destruct (cellAt c x y); [|reflexivity].
    cbn [fmap option_fmap option_map]. f_equal.
    destruct (Z.eqb_spec (textX + i) x); [|reflexivity].
    destruct (Z.eqb_spec textY y); [|reflexivity]. lia. }
  destruct (Z.leb_spec 0 (textX + i)); cbn [andb];
    [|exists c; split; [reflexivity|]; split; [exact Hs|]; apply Hmiss; lia].
  destruct (Z.ltb_spec (textX + i) (w + 1)); cbn [andb];
    [|exists c; split; [reflexivity|]; split; [exact Hs|]; apply Hmiss; lia].
  destruct (Z.leb_spec 0 textY); cbn [andb];
    [|exists c; split; [reflexivity|]; split; [exact Hs|]; apply Hmiss; lia].
  destruct (Z.ltb_spec textY (h + 1));
    [|exists c; split; [reflexivity|]; split; [exact Hs|]; apply Hmiss; lia].
  destruct (write_once c (textX + i) textY g Hs) as (c' & E & Hs' & H'); try lia.
  exists c'. split; [exact E|]. split; [exact Hs'|]. intros x y _ _. apply H'.
Qed.

Lemma writeName_from (text : list glyph) : forall (k : nat) c,
  sized w h c ->
  exists c',
    forEach (writeNameChar textX textY) (combine (map Z.of_nat (seq k (length text))) text) c
    = Returned c'
    /\ sized w h c'
    /\ forall x y, 0 <= x <= w -> 0 <= y <= h ->
         cellAt c' x y
         = (fun cur =>
              match (if y =? textY
                     then if x - textX <? Z.of_nat k then None
                          else text !! (Z.to_nat (x - textX) - k)%nat
                     else None) with
              | Some g => g
              | None => cur
              end) <$> cellAt c x y.
Proof.
  induction text as [|g text IH]; intros k c Hs.
  - exists c. split; [reflexivity|]. split; [exact Hs|]. intros x y _ _.
    destruct (cellAt c x y); [|reflexivity].
    cbn [fmap option_fmap option_map]. f_equal.
    destruct (y =? textY); [|reflexivity].
    destruct (x - textX <? Z.of_nat k); reflexivity.
  - cbn [length seq map combine forEach].
    destruct (writeNameChar_step c (Z.of_nat k) g Hs) as (c1 & E1 & Hs1 & H1).
    rewrite E1. cbn [mbind Outcome_bind].
    destruct (IH (S k) c1 Hs1) as (c' & E & Hs' & H').
    exists c'. split; [exact E|]. split; [exact Hs'|]. intros x y Hx Hy.
    rewrite (H' x y Hx Hy), (H1 x y Hx Hy).
    destruct (cellAt c x y) as [cur|]; [|reflexivity].
    cbn [fmap option_fmap option_map]. f_equal.
    destruct (Z.eqb_spec y textY) as [->|Hne].
    + rewrite Z.eqb_refl, andb_true_r.
      destruct (Z.ltb_spec (x - textX) (Z.of_nat (S k))) as [Hlt|Hge].
      * destruct (Z.ltb_spec (x - textX) (Z.of_nat k)) as [Hlt'|Hge'].
        -- destruct (Z.eqb_spec (textX + Z.of_nat k) x); [lia|reflexivity].
        -- destruct (Z.eqb_spec (textX + Z.of_nat k) x); [|lia].
           replace (Z.to_nat (x - textX) - k)%nat with 0%nat by lia. reflexivity.
      * destruct (Z.ltb_spec (x - textX) (Z.of_nat k)); [lia|].
        replace (Z.to_nat (x - textX) - k)%nat
          with (S (Z.to_nat (x - textX) - S k))%nat by lia.
        cbn [lookup list_lookup].
        destruct (text !! (Z.to_nat (x - textX) - S k)%nat); [reflexivity|].
        destruct (Z.eqb_spec (textX + Z.of_nat k) x); [lia|reflexivity].
    + destruct (Z.eqb_spec textY y); [congruence|].
      rewrite andb_false_r. reflexivity.
Qed.

Lemma writeName (text : list glyph) c :
  sized w h c ->
  exists c',
    forEach (writeNameChar textX textY) (indexed text) c = Returned c'
    /\ sized w h c'
    /\ forall x y, 0 <= x <= w -> 0 <= y <= h ->
         cellAt c' x y
         = (fun cur => match (if y =? textY then charAt text (x - textX) else None) with
                       | Some g => g
                       | None => cur
                       end) <$> cellAt c x y.
Proof.
  intros Hs. destruct (writeName_from text 0 c Hs) as (c' & E & Hs' & H').
  exists c'. split; [exact E|]. split; [exact Hs'|]. intros x y Hx Hy.
  rewrite (H' x y Hx Hy). unfold charAt. rewrite Nat.sub_0_r. reflexivity.
Qed.

End Box.

(** X24. For a placed node whose box has a width [w] and a height [h] that
    are not negative, [drawBox] returns a canvas of the size [(w, h)], and
    each of its cells holds the character of the name that falls on it,
    on the middle row, and the border otherwise: the characters of the
    name that fall outside the canvas are dropped, and those that fall on
    the border replace it. *)
Theorem drawBox_cell_by_cell (useAscii : bool) (node : Node.t)
    (columnWidth rowHeight : gmap Z Z) (gc : GridCoord) :
  Node.gridCoord node = Some gc ->
  0 <= boxSpan columnWidth (X gc) ->
  0 <= boxSpan rowHeight (Y gc) ->
  exists box,
    drawBox useAscii node columnWidth rowHeight = Returned box
    /\ getDrawingSize box = (boxSpan columnWidth (X gc), boxSpan rowHeight (Y gc))
    /\ forall x y,
         0 <= x <= boxSpan columnWidth (X gc) ->
         0 <= y <= boxSpan rowHeight (Y gc) ->
         cellAt box x y
         = Some (boxCell useAscii (Node.name node)
                   (boxSpan columnWidth (X gc)) (boxSpan rowHeight (Y gc)) x y).
Proof.
  intros Hgc. unfold drawBox. rewrite Hgc.
  generalize (boxSpan columnWidth (X gc)) (boxSpan rowHeight (Y gc)).
  intros w h Hw Hh. cbn [X Y].
  replace (max 0 w) with w by (rewrite max_spec; lia).
  replace (max 0 h) with h by (rewrite max_spec; lia).
  set (horizontal := if negb useAscii then ch "─" else ch "-").
  set (vertical := if negb useAscii then ch "│" else ch "|").
  assert (Hs0 : sized w h (makeDrawing w h)) by reflexivity.
  destruct (write_loop w h Hw (fun x => (x, 0)) horizontal
              (countUp (0 + 1) (w - 1)) _ Hs0) as (b1 & E1 & Hs1 & H1).
  { intros v Hv. apply countUp_In in Hv. cbn [fst snd]. lia. }
  cbn [fst snd] in E1, H1. rewrite E1. cbn [mbind Outcome_bind].
  destruct (write_loop w h Hw (fun x => (x, h)) horizontal
              (countUp (0 + 1) (w - 1)) _ Hs1) as (b2 & E2 & Hs2 & H2).
  { intros v Hv. apply countUp_In in Hv. cbn [fst snd]. lia. }
  cbn [fst snd] in E2, H2. rewrite E2. cbn [mbind Outcome_bind].
  destruct (write_loop w h Hw (fun y => (0, y)) vertical
              (countUp (0 + 1) (h - 1)) _ Hs2) as (b3 & E3 & Hs3 & H3).
  { intros v Hv. apply countUp_In in Hv. cbn [fst snd]. lia. }
  cbn [fst snd] in E3, H3. rewrite E3. cbn [mbind Outcome_bind].
  destruct (write_loop w h Hw (fun y => (w, y)) vertical
              (countUp (0 + 1) (h - 1)) _ Hs3) as (b4 & E4 & Hs4 & H4).
  { intros v Hv. apply countUp_In in Hv. cbn [fst snd]. lia. }
  cbn [fst snd] in E4, H4. rewrite E4. cbn [mbind Outcome_bind].
  destruct (write_once w h Hw b4 0 0 (if negb useAscii then ch "┌" else ch "+") Hs4)
    as (b5 & E5 & Hs5 & H5); try lia.
  rewrite E5. cbn [mbind Outcome_bind].
  destruct (write_once w h Hw b5 w 0 (if negb useAscii then ch "┐" else ch "+") Hs5)
    as (b6 & E6 & Hs6 & H6); try lia.
  rewrite E6. cbn [mbind Outcome_bind].
  destruct (write_once w h Hw b6 0 h (if negb useAscii then ch "└" else ch "+") Hs6)
    as (b7 & E7 & Hs7 & H7); try lia.
  rewrite E7. cbn [mbind Outcome_bind].
  destruct (write_once w h Hw b7 w h (if negb useAscii then ch "┘" else ch "+") Hs7)
    as (b8 & E8 & Hs8 & H8); try lia.
  rewrite E8. cbn [mbind Outcome_bind].
  destruct (writeName w h Hw Hh
              (0 + w / 2 - ceilDiv (Z.of_nat (length (Node.name node))) 2 + 1)
              (0 + h / 2) (Node.name node) b8 Hs8) as (box & E & Hs & H).
  exists box. split; [exact E|]. split; [apply sized_size; [exact Hw|lia|exact Hs]|].
  intros x y Hx Hy.
  rewrite (H x y Hx Hy), H8, H7, H6, H5, H4, H3, H2, H1.
  rewrite (makeDrawing_cell w h Hw x y Hx Hy).
  cbn [fmap option_fmap option_map]. f_equal.
  unfold boxCell. rewrite !Z.add_0_l.
  destruct (if y =? h / 2
            then charAt (Node.name node)
                   (x - (w / 2 - ceilDiv (Z.of_nat (length (Node.name node))) 2 + 1))
            else None); [reflexivity|].
  unfold borderGlyph.
  rewrite !existsb_row, !existsb_col, !strictly_between.
  rewrite (Z.eqb_sym w x), (Z.eqb_sym h y), (Z.eqb_sym 0 x), (Z.eqb_sym 0 y).
  reflexivity.
Qed.

Lemma drawBox_cell_by_cell_witness :
  let node := withGridCoord (Coord 0 0) (newNode (utf16 "ab") 0) in
  let columnWidth := <[0 := 1]> (<[1 := 5]> (∅ : gmap Z Z)) in
  let rowHeight := <[0 := 1]> (<[1 := 1]> (∅ : gmap Z Z)) in
  exists box,
    drawBox false node columnWidth rowHeight = Returned box
    /\ getDrawingSize box = (6, 2)
    /\ cellAt box 0 0 = Some (ch "┌")
    /\ cellAt box 3 1 = Some (ch "a")
    /\ cellAt box 6 1 = Some (ch "│").
Proof.
  intros node columnWidth rowHeight.
  destruct (drawBox_cell_by_cell false node columnWidth rowHeight (Coord 0 0) eq_refl)
    as (box & E & Hsize & Hcell).
  - vm_compute. discriminate.
  - vm_compute. discriminate.
  - exists box. split; [exact E|]. split; [exact Hsize|].
    split; [|split].
    + rewrite (Hcell 0 0) by (vm_compute; split; discriminate). reflexivity.
    + rewrite (Hcell 3 1) by (vm_compute; split; discriminate). reflexivity.
    + rewrite (Hcell 6 1) by (vm_compute; split; discriminate). reflexivity.
Defined.
